From Stdlib Require Import ZArith List Bool Lia Permutation Sorted String.
From stdpp Require Import base list sorting.

(** * External merge sort: run-storage file, loser tree, run generator, merger

    Shallow embedding of the C++ sources [RunFile.h], [InputBuffer.h],
    [OutputBuffer.h], [LoserTree.h], [RunGenerator.h] (replacement selection)
    and [Merger.h] (optimal merge tree), followed by the properties proved
    about them.

    Conventions.
    - The element type is the reference configuration [typedef int T];
      elements, offsets and counts are integers of [Z].  No arithmetic of the
      sources is close to the range of its C++ type for files that fit on a
      disk, so wrap-around is not written out; the one place where a bound
      matters (run ids against the sentinel id [INT_MAX]) is stated as a
      hypothesis where it is used.
    - Member functions are state transformers that return the outcome (a
      value or a thrown exception) together with the object they leave
      behind. *)

Open Scope Z_scope.

(** ** Outcomes: values and C++ exceptions *)

Inductive exn : Type :=
| out_of_range      (* std::out_of_range *)
| runtime_error     (* std::runtime_error *)
| length_error      (* std::length_error, vector::assign / resize of a negative count *)
| undefined_top     (* top() of an empty std::priority_queue: undefined behaviour *)
| stream_fault      (* the fstream is used in a way that puts it in its fail
                       state, or that reads or writes bytes which are not
                       whole elements of the data region; the structured file
                       image below does not follow such runs *)
| fuel_exhausted.   (* a loop of the model ran out of its iteration bound *)

Inductive result (A : Type) : Type :=
| Ok (a : A)
| Throw (e : exn).
Arguments Ok {A} a.
Arguments Throw {A} e.

(** State-and-exception monad: the object is always handed back, also when
    the call throws. *)
Definition M (S A : Type) : Type := S -> result A * S.

Definition ret {S A} (a : A) : M S A := fun s => (Ok a, s).
Definition throw {S A} (e : exn) : M S A := fun s => (Throw e, s).
Definition bind {S A B} (m : M S A) (k : A -> M S B) : M S B :=
  fun s => match m s with
           | (Ok a, s') => k a s'
           | (Throw e, s') => (Throw e, s')
           end.
Definition get {S} : M S S := fun s => (Ok s, s).
Definition put {S} (s : S) : M S unit := fun _ => (Ok tt, s).
Definition modify {S} (f : S -> S) : M S unit := fun s => (Ok tt, f s).
Definition gets {S A} (f : S -> A) : M S A := fun s => (Ok (f s), s).

Notation "x <~ m ; k" := (bind m (fun x => k))
  (at level 20, m at level 100, k at level 200, only parsing).

(** ** RunFile.h *)

Definition T : Type := Z.                    (* typedef int T *)
Definition INT_MAX : Z := 2147483647.        (* std::numeric_limits<int>::max() *)
Definition T_MAX : T := 2147483647.          (* std::numeric_limits<T>::max() *)

(** Sizes of the reference ABI (LP64, 8-byte alignment of long long). *)
Definition sizeof_T : Z := 4.
Definition sizeof_RunFileHeader : Z := 12.
Definition sizeof_RunMetadata : Z := 24.

Record RunMetadata : Type := mkRunMetadata {
  startOffset : Z;     (* byte offset of the run in the file *)
  elementCount : Z;    (* number of elements of the run *)
  isUsed : bool
}.

(** RunMetadata() *)
Definition RunMetadata_default : RunMetadata := mkRunMetadata 0 0 false.

#[global] Instance RunMetadata_inhabited : Inhabited RunMetadata :=
  populate RunMetadata_default.

Record RunFileHeader : Type := mkRunFileHeader {
  magic : string;
  maxRuns : Z;
  currentRunCount : Z
}.

(** RunFileHeader(int max_runs = 0) *)
Definition RunFileHeader_new (max_runs : Z) : RunFileHeader :=
  mkRunFileHeader "RUNS" max_runs 0.

(** The file on disk, [ header | directory | element data ].  The directory
    region is kept as the list of its slots and the data region as the list
    of its packed elements. *)
Record FileImage : Type := mkFileImage {
  f_header : RunFileHeader;
  f_directory : list RunMetadata;
  f_data : list T
}.

(** The RunFile object: the fstream (open or not, and the file it is bound
    to, [None] while the file does not exist), the header and the in-memory
    copy of the directory. *)
Record RunFile : Type := mkRunFile {
  file_is_open : bool;
  image : option FileImage;
  header : RunFileHeader;
  directory : list RunMetadata
}.

Module RunFile.

(** RunFile(fname): nothing created yet. *)
Definition new : RunFile := mkRunFile false None (RunFileHeader_new 0) [].

Definition set_directory (d : list RunMetadata) (rf : RunFile) : RunFile :=
  mkRunFile (file_is_open rf) (image rf) (header rf) d.

Definition set_image (im : option FileImage) (rf : RunFile) : RunFile :=
  mkRunFile (file_is_open rf) im (header rf) (directory rf).

(** Byte offset at which the data region starts. *)
Definition data_start (h : RunFileHeader) : Z :=
  sizeof_RunFileHeader + maxRuns h * sizeof_RunMetadata.

(** Length of the file in bytes. *)
Definition file_length (im : FileImage) : Z :=
  data_start (f_header im) + sizeof_T * Z.of_nat (length (f_data im)).

(** writeMetadataToDisk(runId): guarded by is_open and the range check;
    rewrites the one directory slot at
    sizeof(RunFileHeader) + runId * sizeof(RunMetadata). *)
Definition writeMetadataToDisk (runId : Z) (rf : RunFile) : RunFile :=
  if negb (file_is_open rf) || (runId <? 0) || (maxRuns (header rf) <=? runId)
  then rf
  else match image rf with
       | None => rf
       | Some im =>
           set_image
             (Some (mkFileImage (f_header im)
                      (<[Z.to_nat runId := directory rf !!! Z.to_nat runId]>
                         (f_directory im))
                      (f_data im))) rf
       end.

(** create(maxRuns): sets the header, truncates the file, writes the header
    and [maxRuns] empty directory entries, closes the file.
    - A negative [maxRuns] makes [directory.assign] throw after the header
      was written.
    - When the stream is already open, [file.open] fails and sets the
      failbit, [is_open()] still holds, every write is dropped, and
      [file.close()] closes the stream: memory is reset, the disk is not.
    - A path that cannot be opened for writing (the [return false]) is a
      failure of the environment and is not modelled. *)
Definition create (max_runs : Z) : M RunFile bool := fun rf =>
  let h := RunFileHeader_new max_runs in
  if max_runs <? 0 then
    (Throw length_error,
     mkRunFile true
       (if file_is_open rf then image rf else Some (mkFileImage h [] []))
       h (directory rf))
  else
    let d := replicate (Z.to_nat max_runs) RunMetadata_default in
    if file_is_open rf
    then (Ok true, mkRunFile false (image rf) h d)
    else (Ok true, mkRunFile false (Some (mkFileImage h d [])) h d).

(** The directory entries read by the loop of open(): slot [i] of the file
    when it is there; a slot past the end of the file keeps what
    [directory.resize] left in memory. *)
Definition read_directory (n : nat) (on_disk in_memory : list RunMetadata)
  : list RunMetadata :=
  map (fun i => match on_disk !! i with
                | Some m => m
                | None => match in_memory !! i with
                          | Some m => m
                          | None => RunMetadata_default
                          end
                end) (seq 0 n).

(** open(): opens the existing file, reads the header, checks the magic,
    reads the whole directory.  On a stream that is already open,
    [file.open] sets the failbit and leaves the stream open and unusable;
    that run is not followed. *)
Definition open : M RunFile bool := fun rf =>
  if file_is_open rf then (Throw stream_fault, rf)
  else match image rf with
       | None => (Ok false, rf)                    (* file.open failed *)
       | Some im =>
           let h := f_header im in
           if negb (String.eqb (magic h) "RUNS") then
             (Ok false, mkRunFile false (image rf) h (directory rf))
           else if maxRuns h <? 0 then
             (Throw length_error, mkRunFile true (image rf) h (directory rf))
           else
             (Ok true,
              mkRunFile true (image rf) h
                (read_directory (Z.to_nat (maxRuns h)) (f_directory im) (directory rf)))
       end.

(** close() *)
Definition close (rf : RunFile) : RunFile :=
  if file_is_open rf
  then mkRunFile false (image rf) (header rf) (directory rf)
  else rf.

(** The linear scan of allocateNewRun: first index in [i, i + length d)
    whose slot is free. *)
Fixpoint first_free (d : list RunMetadata) (i : nat) : option nat :=
  match d with
  | [] => None
  | m :: d' => if isUsed m then first_free d' (S i) else Some i
  end.

(** allocateNewRun(): returns the run id, or -1 when the directory is full. *)
Definition allocateNewRun : M RunFile Z := fun rf =>
  match first_free (take (Z.to_nat (maxRuns (header rf))) (directory rf)) 0 with
  | Some i =>
      let rf1 := set_directory (<[i := mkRunMetadata 0 0 true]> (directory rf)) rf in
      let rf2 := writeMetadataToDisk (Z.of_nat i) rf1 in
      (Ok (Z.of_nat i),
       mkRunFile (file_is_open rf2) (image rf2)
         (mkRunFileHeader (magic (header rf2)) (maxRuns (header rf2))
            (currentRunCount (header rf2) + 1))
         (directory rf2))
  | None => (Ok (-1), rf)
  end.

(** updateRunMetadata(runId, startOffset, elementCount).  The range check
    is against header.maxRuns; on a file that create() made and open()
    loaded the directory has that many entries.  When the directory is
    shorter (the state a failed open() leaves), directory[runId] is out
    of bounds in the source and its behaviour is undefined: the insert
    below then leaves the list as it is, and nothing is proved about
    that state. *)
Definition updateRunMetadata (runId start count : Z) : M RunFile unit := fun rf =>
  if (runId <? 0) || (maxRuns (header rf) <=? runId) then (Throw out_of_range, rf)
  else
    let old := directory rf !!! Z.to_nat runId in
    let rf1 := set_directory
                 (<[Z.to_nat runId := mkRunMetadata start count (isUsed old)]>
                    (directory rf)) rf in
    (Ok tt, writeMetadataToDisk runId rf1).

(** getRunMetadata(runId) *)
Definition getRunMetadata (runId : Z) : M RunFile RunMetadata := fun rf =>
  if (runId <? 0) || (maxRuns (header rf) <=? runId) then (Throw out_of_range, rf)
  else (Ok (directory rf !!! Z.to_nat runId), rf).

(** getAppendOffset(): seekp(0, end); tellp().  tellp() is -1 on a stream
    that is not open. *)
Definition getAppendOffset : M RunFile Z := fun rf =>
  match file_is_open rf, image rf with
  | true, Some im => (Ok (file_length im), rf)
  | _, _ => (Ok (-1), rf)
  end.

(** getStream(): the buffers seek and then read or write whole elements.
    [elem_index h off] is the index in the data region of the element that
    starts at byte offset [off]. *)
Definition elem_index (h : RunFileHeader) (off : Z) : option nat :=
  if (data_start h <=? off) && ((off - data_start h) mod sizeof_T =? 0)
  then Some (Z.to_nat ((off - data_start h) / sizeof_T))
  else None.

(** seekg(off); read(n * sizeof(T)) *)
Definition stream_read (off : Z) (n : nat) : M RunFile (list T) := fun rf =>
  match file_is_open rf, image rf with
  | true, Some im =>
      match elem_index (f_header im) off with
      | Some i =>
          if (i + n <=? length (f_data im))%nat
          then (Ok (take n (drop i (f_data im))), rf)
          else (Throw stream_fault, rf)
      | None => (Throw stream_fault, rf)
      end
  | _, _ => (Throw stream_fault, rf)
  end.

(** seekp(off); write(block): overwrites in place and extends the file at
    its end; a seek past the end leaves a hole of zero bytes. *)
Definition stream_write (off : Z) (block : list T) : M RunFile unit := fun rf =>
  match file_is_open rf, image rf with
  | true, Some im =>
      match elem_index (f_header im) off with
      | Some i =>
          let d := f_data im in
          let d' := take i d ++ replicate (i - length d)%nat 0
                      ++ block ++ drop (i + length block)%nat d in
          (Ok tt, set_image (Some (mkFileImage (f_header im) (f_directory im) d')) rf)
      | None => (Throw stream_fault, rf)
      end
  | _, _ => (Throw stream_fault, rf)
  end.

End RunFile.

(** ** Vocabulary for the properties of the run file *)

(** Number of directory slots with isUsed = true. *)
Definition used_count (d : list RunMetadata) : Z :=
  Z.of_nat (length (filter (fun m => isUsed m = true) d)).

(** Number of directory slots with isUsed = false. *)
Definition free_count (d : list RunMetadata) : nat :=
  length (filter (fun b : bool => b = false) (map isUsed d)).

(** The state in which the sort runs: the stream is open on a file created by
    [create], and the directory on disk mirrors the one in memory. *)
Record wf_open (rf : RunFile) (im : FileImage) : Prop := mk_wf_open {
  wf_is_open : file_is_open rf = true;
  wf_image : image rf = Some im;
  wf_mirror : f_directory im = directory rf;
  wf_magic : magic (f_header im) = "RUNS"%string;
  wf_maxRuns : maxRuns (f_header im) = maxRuns (header rf);
  wf_maxRuns_nonneg : 0 <= maxRuns (header rf);
  wf_length : length (directory rf) = Z.to_nat (maxRuns (header rf))
}.

(** The calls a client makes on a RunFile; an exception thrown by a call is
    caught by the client, the object stays as the call left it. *)
Inductive RunFileCall : Type :=
| CallCreate (max_runs : Z)
| CallOpen
| CallClose
| CallAllocateNewRun
| CallUpdateRunMetadata (runId start count : Z)
| CallWrite (off : Z) (block : list T).     (* a block written through getStream() *)

(** A block written through getStream() at an offset outside the data
    region, or off the element boundaries, overwrites bytes of the header or
    of the directory slots on disk; the structured image does not follow
    that: [stream_write] answers stream_fault and the object is left as it
    was.  [is_session_call] below singles out the calls that the image
    follows. *)
Definition do_call (c : RunFileCall) (rf : RunFile) : RunFile :=
  match c with
  | CallCreate n => snd (RunFile.create n rf)
  | CallOpen => snd (RunFile.open rf)
  | CallClose => RunFile.close rf
  | CallAllocateNewRun => snd (RunFile.allocateNewRun rf)
  | CallUpdateRunMetadata i s c => snd (RunFile.updateRunMetadata i s c rf)
  | CallWrite off b => snd (RunFile.stream_write off b rf)
  end.

Definition do_calls (cs : list RunFileCall) (rf : RunFile) : RunFile :=
  fold_left (fun rf c => do_call c rf) cs rf.

(** Calls that mutate an open run file without closing or recreating it. *)
Definition is_mutation (c : RunFileCall) : bool :=
  match c with
  | CallAllocateNewRun | CallUpdateRunMetadata _ _ _ | CallWrite _ _ => true
  | _ => false
  end.

(** The calls of a session on a run file of [n] directory slots that stay
    inside what the file image follows: allocations, metadata updates, and
    blocks of whole elements written into the data region (at or after
    sizeof(RunFileHeader) + n * sizeof(RunMetadata), on an element
    boundary). *)
Definition is_session_call (n : Z) (c : RunFileCall) : bool :=
  match c with
  | CallAllocateNewRun | CallUpdateRunMetadata _ _ _ => true
  | CallWrite off _ =>
      match RunFile.elem_index (RunFileHeader_new n) off with
      | Some _ => true
      | None => false
      end
  | _ => false
  end.

(** RunFile(fname) constructed anew on the file that [rf] is bound to: the
    object starts with its own default header and an empty directory, and
    shares nothing with [rf] but the file on disk. *)
Definition second_object (rf : RunFile) : RunFile :=
  RunFile.set_image (image rf) RunFile.new.

(** ** LoserTree.h *)

Record RunNode : Type := mkRunNode {
  value : T;
  runID : Z
}.

(** RunNode(): the sentinel. *)
Definition SENTINEL : RunNode := mkRunNode T_MAX INT_MAX.

#[global] Instance RunNode_inhabited : Inhabited RunNode := populate SENTINEL.

(** [tree] has [k] entries (indices into [leaves]), [leaves] has [k + 1]
    entries, the last one holding the sentinel. *)
Record LoserTree : Type := mkLoserTree {
  tree : list nat;
  leaves : list RunNode;
  k : nat
}.

Module LoserTree.

(** isLoser(playerA, playerB) *)
Definition isLoser (playerA playerB : RunNode) : bool :=
  if negb (runID playerA =? runID playerB)
  then runID playerA >? runID playerB
  else value playerA >? value playerB.

(** The while loop of replay: [parent] is halved at every turn, so [parent]
    turns are enough. *)
Fixpoint replay_loop (fuel : nat) (lv : list RunNode) (tr : list nat)
    (parent currentWinner : nat) : list nat * nat :=
  match fuel with
  | O => (tr, currentWinner)
  | S fuel' =>
      if (0 <? parent)%nat then
        if isLoser (lv !!! currentWinner) (lv !!! (tr !!! parent))
        then replay_loop fuel' lv (<[parent := currentWinner]> tr)
               (parent / 2)%nat (tr !!! parent)
        else replay_loop fuel' lv tr (parent / 2)%nat currentWinner
      else (tr, currentWinner)
  end.

(** replay(playerIndex) *)
Definition replay (playerIndex : nat) (lt : LoserTree) : LoserTree :=
  let parent := ((playerIndex + k lt) / 2)%nat in
  let '(tr, currentWinner) :=
    replay_loop parent (leaves lt) (tree lt) parent playerIndex in
  mkLoserTree (<[0%nat := currentWinner]> tr) (leaves lt) (k lt).

(** LoserTree(int k); k <= 0 throws std::invalid_argument, which the type
    of [k] together with the test below excludes. *)
Definition new (k : nat) : option LoserTree :=
  if (k =? 0)%nat then None
  else Some (mkLoserTree (replicate k 0%nat) (replicate (k + 1) SENTINEL) k).

(** The walk to the root of one leaf in initialize: the inner while loop and
    the test [parent == 0] after it. *)
Fixpoint build_walk (fuel : nat) (kk : nat) (lv : list RunNode) (tr : list nat)
    (parent current : nat) : list nat :=
  if (parent =? 0)%nat then <[0%nat := current]> tr
  else
    match fuel with
    | O => tr
    | S fuel' =>
        if (tr !!! parent =? kk)%nat then <[parent := current]> tr
        else
          let other := tr !!! parent in
          if isLoser (lv !!! current) (lv !!! other)
          then build_walk fuel' kk lv (<[parent := current]> tr) (parent / 2)%nat other
          else build_walk fuel' kk lv tr (parent / 2)%nat current
    end.

(** Step 1 of initialize: data with run id 1, then sentinels; leaves[k] is
    the sentinel. *)
Definition initial_leaves (kk : nat) (initialData : list T) : list RunNode :=
  map (fun i => match initialData !! i with
                | Some v => mkRunNode v 1
                | None => SENTINEL
                end) (seq 0 kk) ++ [SENTINEL].

(** initialize(initialData) *)
Definition initialize (initialData : list T) (lt : LoserTree) : LoserTree :=
  let kk := k lt in
  let lv := initial_leaves kk initialData in
  let tr0 := replicate kk kk in
  let tr := fold_left
              (fun tr i => build_walk ((i + kk) / 2)%nat kk lv tr ((i + kk) / 2)%nat i)
              (rev (seq 0 kk)) tr0 in
  mkLoserTree tr lv kk.

(** getWinner() *)
Definition getWinner (lt : LoserTree) : RunNode :=
  leaves lt !!! (tree lt !!! 0%nat).

(** replaceWinner(newValue, newRunID) *)
Definition replaceWinner (newValue : T) (newRunID : Z) (lt : LoserTree) : LoserTree :=
  let idx := tree lt !!! 0%nat in
  replay idx (mkLoserTree (tree lt) (<[idx := mkRunNode newValue newRunID]> (leaves lt)) (k lt)).

(** setWinnerToSentinel() *)
Definition setWinnerToSentinel (lt : LoserTree) : LoserTree :=
  let idx := tree lt !!! 0%nat in
  replay idx (mkLoserTree (tree lt) (<[idx := SENTINEL]> (leaves lt)) (k lt)).

End LoserTree.

(** ** Vocabulary for the loser tree *)

(** The operations a client applies after initialize. *)
Inductive TreeOp : Type :=
| OpReplace (newValue : T) (newRunID : Z)
| OpSentinel.

Definition apply_op (op : TreeOp) (lt : LoserTree) : LoserTree :=
  match op with
  | OpReplace v r => LoserTree.replaceWinner v r lt
  | OpSentinel => LoserTree.setWinnerToSentinel lt
  end.

(** getWinner after initialize and after every operation of the stream. *)
Fixpoint winners (ops : list TreeOp) (lt : LoserTree) : list RunNode :=
  LoserTree.getWinner lt ::
  match ops with
  | [] => []
  | op :: ops' => winners ops' (apply_op op lt)
  end.

(** Modelled from the spec: the naive reference of the loser-tree equivalence
    property, which is no code of the repository.  It keeps the k slots in a
    list and selects the minimum key under the lexicographic (runID, value)
    order by one left-to-right scan. *)
Module Naive.

(** (runID, value) of [a] strictly below that of [b]. *)
Definition key_lt (a b : RunNode) : bool :=
  (runID a <? runID b) || ((runID a =? runID b) && (value a <? value b)).

(** Scan of slots [i, i + length rest): [best] is the index of the smallest
    key seen so far and [bestKey] that key. *)
Fixpoint scan (rest : list RunNode) (i best : nat) (bestKey : RunNode) : nat :=
  match rest with
  | [] => best
  | x :: rest' =>
      if key_lt x bestKey then scan rest' (S i) i x
      else scan rest' (S i) best bestKey
  end.

Definition min_index (slots : list RunNode) : nat :=
  match slots with
  | [] => 0%nat
  | x :: rest => scan rest 1 0 x
  end.

Definition initialize (kk : nat) (initialData : list T) : list RunNode :=
  map (fun i => match initialData !! i with
                | Some v => mkRunNode v 1
                | None => SENTINEL
                end) (seq 0 kk).

Definition getWinner (slots : list RunNode) : RunNode :=
  slots !!! min_index slots.

Definition apply_op (op : TreeOp) (slots : list RunNode) : list RunNode :=
  match op with
  | OpReplace v r => <[min_index slots := mkRunNode v r]> slots
  | OpSentinel => <[min_index slots := SENTINEL]> slots
  end.

Fixpoint winners (ops : list TreeOp) (slots : list RunNode) : list RunNode :=
  getWinner slots ::
  match ops with
  | [] => []
  | op :: ops' => winners ops' (apply_op op slots)
  end.

End Naive.

(** *** The tournament invariant *)

(** Nodes are numbered as in a binary heap: the root is 1, the children of
    [j] are [2 j] and [2 j + 1], leaf [i] is node [k + i].  [desc j n]: node
    [n] lies in the subtree of node [j]. *)
Inductive desc (j : nat) : nat -> Prop :=
| desc_self : desc j j
| desc_child n : desc j (n / 2)%nat -> desc j n.

(** [a] does not lose against [b]. *)
Definition beats (a b : RunNode) : Prop := LoserTree.isLoser a b = false.

(** The match at internal node [j] has been played: of the winners [W] of the
    two children, one is the winner of [j] and the other is parked in
    [tr[j]], and the parked one does not beat the winner. *)
Definition played (W : nat -> nat) (tr : list nat) (lv : list RunNode) (j : nat) : Prop :=
  ((W j = W (2 * j)%nat /\ tr !!! j = W (2 * j + 1)%nat) \/
   (W j = W (2 * j + 1)%nat /\ tr !!! j = W (2 * j)%nat)) /\
  beats (lv !!! W j) (lv !!! (tr !!! j)).

(** The loser-tree invariant: some assignment [W] of a winner to every node
    explains the array [tr]. *)
Definition tournament (kk : nat) (lv : list RunNode) (tr : list nat) : Prop :=
  (1 <= kk)%nat /\ length tr = kk /\ length lv = S kk /\
  exists W : nat -> nat,
    (forall i, (i < kk)%nat -> W (kk + i)%nat = i) /\
    (forall j, (1 <= j < kk)%nat -> played W tr lv j) /\
    tr !!! 0%nat = W 1%nat.

Definition tournament_tree (lt : LoserTree) : Prop :=
  tournament (k lt) (leaves lt) (tree lt).

(** State of internal node [j] while initialize builds the tree; [st c] tells
    whether every leaf below node [c] has been entered. *)
Definition node_ok (kk : nat) (st : nat -> bool) (W : nat -> nat)
    (tr : list nat) (lv : list RunNode) (j : nat) : Prop :=
  st j = st (2 * j)%nat && st (2 * j + 1)%nat /\
  match st (2 * j)%nat, st (2 * j + 1)%nat with
  | false, false => tr !!! j = kk
  | true, false => tr !!! j = W (2 * j)%nat
  | false, true => tr !!! j = W (2 * j + 1)%nat
  | true, true => played W tr lv j
  end.

(** What node [p] holds while only the winner of its child [s] may have
    arrived. *)
Definition waiting (kk : nat) (st : nat -> bool) (W : nat -> nat)
    (tr : list nat) (p s : nat) : Prop :=
  if st s then tr !!! p = W s else tr !!! p = kk.

(** The tree after initialize has entered the leaves [i .. k-1]. *)
Definition building (kk : nat) (lv : list RunNode) (i : nat) (tr : list nat) : Prop :=
  length tr = kk /\
  exists (st : nat -> bool) (W : nat -> nat),
    (forall l, (l < kk)%nat -> W (kk + l)%nat = l) /\
    (forall l, (l < kk)%nat -> st (kk + l)%nat = (i <=? l)%nat) /\
    (forall n, (1 <= n < 2 * kk)%nat -> st n = true -> (W n < kk)%nat) /\
    (forall j, (1 <= j < kk)%nat -> node_ok kk st W tr lv j) /\
    (st 1%nat = true -> tr !!! 0%nat = W 1%nat).

(** Update of a function at one point. *)
Definition upd {A} (f : nat -> A) (n : nat) (a : A) : nat -> A :=
  fun m => if (m =? n)%nat then a else f m.

(** The loser tree and the naive reference hold the same keys in their k
    slots, possibly in different slots. *)
Definition same_slots (lt : LoserTree) (slots : list RunNode) : Prop :=
  tournament_tree lt /\ take (k lt) (leaves lt) ≡ₚ slots.

(** ** InputBuffer.h *)

(** The buffers keep a reference to the fstream of the RunFile; their member
    functions therefore run in the monad of the RunFile and hand back the
    buffer object. *)
Record InputBuffer : Type := mkInputBuffer {
  ib_runMeta : RunMetadata;
  ib_bufferSizeInElements : nat;
  ib_buffer : list T;
  ib_currentIndexInBuffer : nat;
  ib_elementsInBuffer : nat;
  ib_totalElementsRead : Z
}.

Module InputBuffer.

(** InputBuffer(fs, meta, bufferSizeInElements) *)
Definition new (meta : RunMetadata) (bufferSizeInElements : nat) : InputBuffer :=
  mkInputBuffer meta bufferSizeInElements (replicate bufferSizeInElements 0) 0 0 0.

(** readBlock() *)
Definition readBlock (ib : InputBuffer) : M RunFile (bool * InputBuffer) :=
  if elementCount (ib_runMeta ib) <=? ib_totalElementsRead ib then ret (false, ib)
  else
    let elementsRemainingInRun := elementCount (ib_runMeta ib) - ib_totalElementsRead ib in
    let elementsToRead :=
      Z.min (Z.of_nat (ib_bufferSizeInElements ib)) elementsRemainingInRun in
    if elementsToRead <=? 0 then ret (false, ib)
    else
      let readOffset :=
        startOffset (ib_runMeta ib) + ib_totalElementsRead ib * sizeof_T in
      block <~ RunFile.stream_read readOffset (Z.to_nat elementsToRead) ;
      ret (true,
           mkInputBuffer (ib_runMeta ib) (ib_bufferSizeInElements ib) block
             0 (Z.to_nat elementsToRead) (ib_totalElementsRead ib + elementsToRead)).

(** getNextItem(item): [Some item] for true, [None] for false. *)
Definition getNextItem (ib : InputBuffer) : M RunFile (option T * InputBuffer) :=
  if (ib_elementsInBuffer ib <=? ib_currentIndexInBuffer ib)%nat then
    r <~ readBlock ib ;
    let '(ok, ib') := r in
    if negb ok then ret (None, ib')
    else
      ret (Some (ib_buffer ib' !!! ib_currentIndexInBuffer ib'),
           mkInputBuffer (ib_runMeta ib') (ib_bufferSizeInElements ib') (ib_buffer ib')
             (S (ib_currentIndexInBuffer ib')) (ib_elementsInBuffer ib')
             (ib_totalElementsRead ib'))
  else
    ret (Some (ib_buffer ib !!! ib_currentIndexInBuffer ib),
         mkInputBuffer (ib_runMeta ib) (ib_bufferSizeInElements ib) (ib_buffer ib)
           (S (ib_currentIndexInBuffer ib)) (ib_elementsInBuffer ib)
           (ib_totalElementsRead ib)).

(** The client loop [while (buf.getNextItem(x)) ...] that reads a run to
    its end, as verifySortedRun does; a run of n elements needs n + 1
    calls. *)
Fixpoint read_loop (fuel : nat) (ib : InputBuffer) (acc : list T) : M RunFile (list T) :=
  match fuel with
  | O => throw fuel_exhausted
  | S fuel' =>
      r <~ getNextItem ib ;
      match r with
      | (None, _) => ret acc
      | (Some x, ib') => read_loop fuel' ib' (acc ++ [x])
      end
  end.

Definition read_run (meta : RunMetadata) (bufferSizeInElements : nat)
  : M RunFile (list T) :=
  read_loop (S (Z.to_nat (elementCount meta))) (new meta bufferSizeInElements) [].

End InputBuffer.

(** ** OutputBuffer.h *)

Record OutputBuffer : Type := mkOutputBuffer {
  ob_runStartOffset : Z;
  ob_bufferSizeInElements : nat;
  ob_buffer : list T;
  ob_currentBufferIndex : nat;
  ob_totalElementsWritten : Z
}.

Module OutputBuffer.

(** OutputBuffer(fs, startOffset, bufferSizeInElements) *)
Definition new (startOffset : Z) (bufferSizeInElements : nat) : OutputBuffer :=
  mkOutputBuffer startOffset bufferSizeInElements
    (replicate bufferSizeInElements 0) 0 0.

(** writeBlock() *)
Definition writeBlock (ob : OutputBuffer) : M RunFile OutputBuffer :=
  is_open <~ gets file_is_open ;
  if negb is_open || (ob_currentBufferIndex ob =? 0)%nat then ret ob
  else
    let writeOffset := ob_runStartOffset ob + ob_totalElementsWritten ob * sizeof_T in
    _ <~ RunFile.stream_write writeOffset (take (ob_currentBufferIndex ob) (ob_buffer ob)) ;
    ret (mkOutputBuffer (ob_runStartOffset ob) (ob_bufferSizeInElements ob) (ob_buffer ob)
           0 (ob_totalElementsWritten ob + Z.of_nat (ob_currentBufferIndex ob))).

(** setNextItem(item) *)
Definition setNextItem (item : T) (ob : OutputBuffer) : M RunFile OutputBuffer :=
  let ob1 := mkOutputBuffer (ob_runStartOffset ob) (ob_bufferSizeInElements ob)
               (<[ob_currentBufferIndex ob := item]> (ob_buffer ob))
               (S (ob_currentBufferIndex ob)) (ob_totalElementsWritten ob) in
  if (ob_currentBufferIndex ob1 =? ob_bufferSizeInElements ob1)%nat
  then writeBlock ob1
  else ret ob1.

(** flush(); the final fileStream.flush() has no effect on the image. *)
Definition flush (ob : OutputBuffer) : M RunFile OutputBuffer :=
  if (0 <? ob_currentBufferIndex ob)%nat then writeBlock ob else ret ob.

(** getElementCount() *)
Definition getElementCount (ob : OutputBuffer) : Z :=
  ob_totalElementsWritten ob + Z.of_nat (ob_currentBufferIndex ob).

End OutputBuffer.

(** ** Merger.h (project2: optimal merge tree) *)

Definition MERGE_INPUT_BUFFER_ELEMENTS : nat := 1024.
Definition MERGE_OUTPUT_BUFFER_ELEMENTS : nat := 1024.

Module Merger.

(** The loop [while (hasA && hasB)]; [Some item] stands for has = true.
    Every turn consumes one element, [fuel] bounds the number of turns. *)
Fixpoint merge_loop (fuel : nat) (itemA itemB : option T)
    (inBufA inBufB : InputBuffer) (outBuf : OutputBuffer)
  : M RunFile (option T * option T * InputBuffer * InputBuffer * OutputBuffer) :=
  match itemA, itemB with
  | Some a, Some b =>
      match fuel with
      | O => throw fuel_exhausted
      | S fuel' =>
          if a <? b then
            outBuf' <~ OutputBuffer.setNextItem a outBuf ;
            r <~ InputBuffer.getNextItem inBufA ;
            merge_loop fuel' (fst r) itemB (snd r) inBufB outBuf'
          else
            outBuf' <~ OutputBuffer.setNextItem b outBuf ;
            r <~ InputBuffer.getNextItem inBufB ;
            merge_loop fuel' itemA (fst r) inBufA (snd r) outBuf'
      end
  | _, _ => ret (itemA, itemB, inBufA, inBufB, outBuf)
  end.

(** The loops [while (hasA)] and [while (hasB)]. *)
Fixpoint drain_loop (fuel : nat) (item : option T)
    (inBuf : InputBuffer) (outBuf : OutputBuffer)
  : M RunFile (InputBuffer * OutputBuffer) :=
  match item with
  | Some a =>
      match fuel with
      | O => throw fuel_exhausted
      | S fuel' =>
          outBuf' <~ OutputBuffer.setNextItem a outBuf ;
          r <~ InputBuffer.getNextItem inBuf ;
          drain_loop fuel' (fst r) (snd r) outBuf'
      end
  | None => ret (inBuf, outBuf)
  end.

(** MergeInMem(runFile, runA, runB) *)
Definition MergeInMem (runA runB : RunMetadata) : M RunFile RunMetadata :=
  newRunId <~ RunFile.allocateNewRun ;
  if newRunId =? -1 then throw runtime_error
  else
    startOffset <~ RunFile.getAppendOffset ;
    let inBufA := InputBuffer.new runA MERGE_INPUT_BUFFER_ELEMENTS in
    let inBufB := InputBuffer.new runB MERGE_INPUT_BUFFER_ELEMENTS in
    let outBuf := OutputBuffer.new startOffset MERGE_OUTPUT_BUFFER_ELEMENTS in
    ra <~ InputBuffer.getNextItem inBufA ;
    rb <~ InputBuffer.getNextItem inBufB ;
    let fuel := (Z.to_nat (elementCount runA) + Z.to_nat (elementCount runB))%nat in
    s <~ merge_loop fuel (fst ra) (fst rb) (snd ra) (snd rb) outBuf ;
    let '(itemA, itemB, inBufA, inBufB, outBuf) := s in
    sa <~ drain_loop fuel itemA inBufA outBuf ;
    sb <~ drain_loop fuel itemB inBufB (snd sa) ;
    outBuf <~ OutputBuffer.flush (snd sb) ;
    let totalElements := OutputBuffer.getElementCount outBuf in
    _ <~ RunFile.updateRunMetadata newRunId startOffset totalElements ;
    RunFile.getRunMetadata newRunId.

(** std::priority_queue<RunMetadata, vector, CompareRunMetadata>: a
    min-heap on elementCount.  The heap is kept as the list of its
    elements; [top] is the element at index [pick heap], where [pick]
    stands for the way the library orders the heap and is only known to
    select an element of least elementCount (see [picks_top]). *)
Section Heap.

Variable pick : list RunMetadata -> nat.

Definition push (x : RunMetadata) (heap : list RunMetadata) : list RunMetadata :=
  heap ++ [x].

Definition top (heap : list RunMetadata) : option RunMetadata :=
  heap !! pick heap.

Definition pop (heap : list RunMetadata) : list RunMetadata :=
  delete (pick heap) heap.

(** The loop [while (mergeHeap.size() > 1)]; every turn shortens the heap
    by one. *)
Fixpoint merge_all (fuel : nat) (heap : list RunMetadata)
  : M RunFile (list RunMetadata) :=
  if (1 <? length heap)%nat then
    match fuel with
    | O => throw fuel_exhausted
    | S fuel' =>
        match top heap with
        | None => throw undefined_top
        | Some runA =>
            let heap1 := pop heap in
            match top heap1 with
            | None => throw undefined_top
            | Some runB =>
                let heap2 := pop heap1 in
                mergedRun <~ MergeInMem runA runB ;
                merge_all fuel' (push mergedRun heap2)
            end
        end
    end
  else ret heap.

(** externalMergeSort(initialRuns, runFile) *)
Definition externalMergeSort (initialRuns : list RunMetadata) : M RunFile RunMetadata :=
  let mergeHeap := fold_left (fun h run => push run h) initialRuns [] in
  heap <~ merge_all (length initialRuns) mergeHeap ;
  match top heap with
  | Some run => ret run
  | None => throw undefined_top
  end.

End Heap.

(** What is known of [top]: it is an element of the heap, of least
    elementCount. *)
Definition picks_top (pick : list RunMetadata -> nat) : Prop :=
  forall heap, heap <> [] ->
    (pick heap < length heap)%nat /\
    forall x, x ∈ heap -> elementCount (heap !!! pick heap) <= elementCount x.

(** One such choice: the first element of least elementCount. *)
Fixpoint first_min_from (rest : list RunMetadata) (i best : nat) (bestCount : Z) : nat :=
  match rest with
  | [] => best
  | x :: rest' =>
      if elementCount x <? bestCount
      then first_min_from rest' (S i) i (elementCount x)
      else first_min_from rest' (S i) best bestCount
  end.

Definition first_min (heap : list RunMetadata) : nat :=
  match heap with
  | [] => 0%nat
  | x :: rest => first_min_from rest 1 0 (elementCount x)
  end.

End Merger.

(** ** Vocabulary for runs on disk *)

(** Modelled from the spec: the two-way merge of section 4.6, "strictly
    itemA < itemB => emit A, ties emit B, then drain the tail of whichever
    input remains", as a function on the two element sequences. *)
Fixpoint merge2 (xs : list T) : list T -> list T :=
  fix inner (ys : list T) : list T :=
    match xs, ys with
    | x :: xs', y :: ys' =>
        if x <? y then x :: merge2 xs' ys else y :: inner ys'
    | [], _ => ys
    | _, [] => xs
    end.

(** The elements of a run as they lie in the data region of the image:
    [Some xs] when the run is a range of whole elements inside the file. *)
Definition run_content (im : FileImage) (meta : RunMetadata) : option (list T) :=
  match RunFile.elem_index (f_header im) (startOffset meta) with
  | Some i =>
      if (0 <=? elementCount meta) &&
         (i + Z.to_nat (elementCount meta) <=? length (f_data im))%nat
      then Some (take (Z.to_nat (elementCount meta)) (drop i (f_data im)))
      else None
  | None => None
  end.

(** Non-decreasing sequence of elements. *)
Definition nondecreasing (xs : list T) : Prop := Sorted Z.le xs.

(** [ib] still has to deliver [rest]: what is left of its block, then the
    part of the run [xs] not yet read from disk. *)
Definition ib_reads (xs : list T) (ib : InputBuffer) (rest : list T) : Prop :=
  (1 <= ib_bufferSizeInElements ib)%nat /\
  (ib_elementsInBuffer ib <= length (ib_buffer ib))%nat /\
  exists t : nat,
    ib_totalElementsRead ib = Z.of_nat t /\ (t <= length xs)%nat /\
    rest = drop (ib_currentIndexInBuffer ib)
             (take (ib_elementsInBuffer ib) (ib_buffer ib)) ++ drop t xs.

(** The pair (has, item) of the merge loops together with its buffer delivers
    the sequence [s]. *)
Definition feeds (xs : list T) (item : option T) (ib : InputBuffer) (s : list T) : Prop :=
  exists rest, ib_reads xs ib rest /\
    match item with
    | Some x => s = x :: rest
    | None => s = [] /\ rest = []
    end.

(** [ob] has received [out]: the part already written lies in the file from
    element [base] to the end, the rest is in the block. *)
Definition ob_holds (im : FileImage) (base : nat) (ob : OutputBuffer) (out : list T) : Prop :=
  RunFile.elem_index (f_header im) (ob_runStartOffset ob) = Some base /\
  (base <= length (f_data im))%nat /\
  ob_totalElementsWritten ob = Z.of_nat (length (f_data im) - base) /\
  (ob_currentBufferIndex ob < ob_bufferSizeInElements ob)%nat /\
  length (ob_buffer ob) = ob_bufferSizeInElements ob /\
  out = drop base (f_data im) ++ take (ob_currentBufferIndex ob) (ob_buffer ob).

(** The file has only grown at its end; header and directory are as before. *)
Definition grows (rf : RunFile) (im : FileImage) (rf' : RunFile) (im' : FileImage) : Prop :=
  wf_open rf' im' /\ header rf' = header rf /\ directory rf' = directory rf /\
  f_header im' = f_header im /\
  exists extra, f_data im' = f_data im ++ extra.

(** Every run of [heap] lies on disk, with the elements listed in [css]. *)
Definition runs_on_disk (im : FileImage) (heap : list RunMetadata)
    (css : list (list T)) : Prop :=
  Forall2 (fun m xs => run_content im m = Some xs) heap css.

(** A run file of four slots holding the runs [1; 3; 5; 7] and [2; 3; 8]. *)
Definition two_runs_file : RunFile :=
  do_calls
    [CallCreate 4; CallOpen;
     CallAllocateNewRun; CallWrite 108 [1; 3; 5; 7]; CallUpdateRunMetadata 0 108 4;
     CallAllocateNewRun; CallWrite 124 [2; 3; 8]; CallUpdateRunMetadata 1 124 3]
    RunFile.new.

Definition two_runs_image : FileImage :=
  mkFileImage (RunFileHeader_new 4)
    [mkRunMetadata 108 4 true; mkRunMetadata 124 3 true;
     RunMetadata_default; RunMetadata_default]
    [1; 3; 5; 7; 2; 3; 8].

(** ** RunGenerator.h (project2: replacement selection)

    The generator runs three threads under one mutex.  The model follows the
    compute thread and runs one iteration of a worker at the point where the
    compute thread waits for it on [cv_compute]: between a hand-over and that
    wait the compute thread touches none of the data the worker uses, so any
    schedule leaves the same file.  [stop_threads] is set only by the last
    statements of computeWorker and by the destructor; every test of it
    during a run is false and is not written in the model.

    The members of the class are grouped by the thread they are shared with:
    [InputSide] (compute and input worker), [OutputSide] (compute and output
    worker), and the rest, kept in [World] together with the RunFile that
    generateRuns receives by reference. *)

Record InputSide : Type := mkInputSide {
  inputFile : list T;            (* what the ifstream has not delivered yet *)
  activeIn : list T;
  standbyIn : list T;
  activeInIdx : nat;
  standby_input_ready : bool;
  input_eof : bool
}.

Record OutputSide : Type := mkOutputSide {
  activeOut : list T;
  standbyOut : list T;
  standby_output_busy : bool;
  currentRunStartOffset : Z;
  totalElementsInRun : Z
}.

Record World : Type := mkWorld {
  inp : InputSide;
  outp : OutputSide;
  loserTree : LoserTree;
  currentRunId : Z;
  generatedRuns : list RunMetadata;
  runFile : RunFile
}.

Module RunGenerator.

(** Running a computation on one part of the object. *)
Definition onInput {A} (m : M InputSide A) : M World A := fun w =>
  let '(r, i) := m (inp w) in
  (r, mkWorld i (outp w) (loserTree w) (currentRunId w) (generatedRuns w) (runFile w)).

Definition onRunFile {A} (m : M RunFile A) : M World A := fun w =>
  let '(r, rf) := m (runFile w) in
  (r, mkWorld (inp w) (outp w) (loserTree w) (currentRunId w) (generatedRuns w) rf).

Definition setOutput (o : OutputSide) : M World unit := fun w =>
  (Ok tt, mkWorld (inp w) o (loserTree w) (currentRunId w) (generatedRuns w) (runFile w)).

Definition setTree (lt : LoserTree) : M World unit := fun w =>
  (Ok tt, mkWorld (inp w) (outp w) lt (currentRunId w) (generatedRuns w) (runFile w)).

Definition setCurrentRunId (r : Z) : M World unit := fun w =>
  (Ok tt, mkWorld (inp w) (outp w) (loserTree w) r (generatedRuns w) (runFile w)).

Definition setGeneratedRuns (g : list RunMetadata) : M World unit := fun w =>
  (Ok tt, mkWorld (inp w) (outp w) (loserTree w) (currentRunId w) g (runFile w)).

Section Generator.

Variable K : nat.          (* const int K *)
Variable bufSize : nat.    (* const int bufSize *)

(** One iteration of inputWorker: read up to bufSize elements into the
    standby buffer.  [inputFile.eof()] holds when the read hit the end of
    the file, that is when fewer elements were left than asked for. *)
Definition inputWorker_step (i : InputSide) : InputSide :=
  let block := take bufSize (inputFile i) in
  let count := length block in
  mkInputSide (drop bufSize (inputFile i)) (activeIn i) block (activeInIdx i) true
    (input_eof i || (length (inputFile i) <? bufSize)%nat || (count =? 0)%nat).

(** pullNextInput(val, lock): [Some val] for true.  The loop turns at most
    three times: wait for the input worker, swap, serve. *)
Fixpoint pullNextInput_loop (fuel : nat) : M InputSide (option T) := fun i =>
  if (activeInIdx i <? length (activeIn i))%nat then
    (Ok (Some (activeIn i !!! activeInIdx i)),
     mkInputSide (inputFile i) (activeIn i) (standbyIn i) (S (activeInIdx i))
       (standby_input_ready i) (input_eof i))
  else
    match fuel with
    | O => (Throw fuel_exhausted, i)
    | S fuel' =>
        if standby_input_ready i then
          pullNextInput_loop fuel'
            (mkInputSide (inputFile i) (standbyIn i) (activeIn i) 0 false (input_eof i))
        else if input_eof i then (Ok None, i)
        else pullNextInput_loop fuel' (inputWorker_step i)
    end.

Definition pullNextInput : M InputSide (option T) := pullNextInput_loop 3.

(** One iteration of outputWorker: write the standby block behind what
    the current run already has on disk. *)
Definition outputWorker_step : M World unit :=
  w <~ get ;
  let o := outp w in
  let count := length (standbyOut o) in
  _ <~ (if (0 <? count)%nat
        then onRunFile (RunFile.stream_write
                          (currentRunStartOffset o + totalElementsInRun o * sizeof_T)
                          (standbyOut o))
        else ret tt) ;
  setOutput (mkOutputSide (activeOut o) (standbyOut o) false
               (currentRunStartOffset o)
               (if (0 <? count)%nat then totalElementsInRun o + Z.of_nat count
                else totalElementsInRun o)).

(** if (standby_output_busy) cv_compute.wait(lock, ...) *)
Definition await_output : M World unit :=
  w <~ get ;
  if standby_output_busy (outp w) then outputWorker_step else ret tt.

(** std::swap(activeOut, standbyOut); standby_output_busy = true;
    cv_output.notify_one(); *)
Definition hand_over (o : OutputSide) : OutputSide :=
  mkOutputSide (standbyOut o) (activeOut o) true
    (currentRunStartOffset o) (totalElementsInRun o).

(** activeOut->clear() *)
Definition clear_active (o : OutputSide) : OutputSide :=
  mkOutputSide [] (standbyOut o) (standby_output_busy o)
    (currentRunStartOffset o) (totalElementsInRun o).

(** The block [wait; swap; busy = true; notify; activeOut->clear()] of
    the run boundary and of a full output buffer. *)
Definition submit_active : M World unit :=
  _ <~ await_output ;
  w <~ get ;
  setOutput (clear_active (hand_over (outp w))).

(** if (totalElementsInRun > 0) { updateRunMetadata(...);
    generatedRuns.push_back(getRunMetadata(currentRunId)); } *)
Definition record_run : M World unit :=
  w <~ get ;
  if 0 <? totalElementsInRun (outp w) then
    _ <~ onRunFile (RunFile.updateRunMetadata (currentRunId w)
                      (currentRunStartOffset (outp w)) (totalElementsInRun (outp w))) ;
    m <~ onRunFile (RunFile.getRunMetadata (currentRunId w)) ;
    setGeneratedRuns (generatedRuns w ++ [m])
  else ret tt.

(** currentRunId = allocateNewRun(); currentRunStartOffset =
    getAppendOffset(); totalElementsInRun = 0; *)
Definition open_run : M World unit :=
  r <~ onRunFile RunFile.allocateNewRun ;
  _ <~ setCurrentRunId r ;
  off <~ onRunFile RunFile.getAppendOffset ;
  w <~ get ;
  setOutput (mkOutputSide (activeOut (outp w)) (standbyOut (outp w))
               (standby_output_busy (outp w)) off 0).

(** Step C of the main loop, taken when the winner belongs to a later
    run. *)
Definition run_boundary : M World unit :=
  w <~ get ;
  _ <~ (if negb (bool_decide (activeOut (outp w) = []))
        then submit_active else ret tt) ;
  _ <~ await_output ;
  _ <~ record_run ;
  open_run.

(** Step D: emit the winner. *)
Definition emit (v : T) : M World unit :=
  w <~ get ;
  let o := outp w in
  _ <~ setOutput (mkOutputSide (activeOut o ++ [v]) (standbyOut o)
                    (standby_output_busy o) (currentRunStartOffset o)
                    (totalElementsInRun o)) ;
  if (bufSize <=? length (activeOut o ++ [v]))%nat then submit_active else ret tt.

(** Step E: read the next value and replace the winner, or retire the
    winner's leaf. *)
Definition replace_winner (winnerNode : RunNode) (currentTreeRunID : Z) : M World unit :=
  r <~ onInput pullNextInput ;
  w <~ get ;
  match r with
  | None => setTree (LoserTree.setWinnerToSentinel (loserTree w))
  | Some val =>
      let newRunID :=
        if val <? value winnerNode then currentTreeRunID + 1 else currentTreeRunID in
      setTree (LoserTree.replaceWinner val newRunID (loserTree w))
  end.

(** The main loop of computeWorker; every turn emits one element. *)
Fixpoint main_loop (fuel : nat) (currentTreeRunID : Z) : M World unit :=
  w <~ get ;
  let winnerNode := LoserTree.getWinner (loserTree w) in
  if runID winnerNode =? INT_MAX then ret tt
  else
    match fuel with
    | O => throw fuel_exhausted
    | S fuel' =>
        _ <~ (if currentTreeRunID <? runID winnerNode then run_boundary else ret tt) ;
        let currentTreeRunID :=
          if currentTreeRunID <? runID winnerNode then runID winnerNode
          else currentTreeRunID in
        _ <~ emit (value winnerNode) ;
        _ <~ replace_winner winnerNode currentTreeRunID ;
        main_loop fuel' currentTreeRunID
    end.

(** The initial filling of computeWorker:
    while (initialData.size() < K && pullNextInput(val, lock)) *)
Fixpoint initial_fill (fuel : nat) (initialData : list T) : M World (list T) :=
  if (length initialData <? K)%nat then
    match fuel with
    | O => throw fuel_exhausted
    | S fuel' =>
        r <~ onInput pullNextInput ;
        match r with
        | None => ret initialData
        | Some val => initial_fill fuel' (initialData ++ [val])
        end
    end
  else ret initialData.

(** The end of computeWorker: drain the output, record the last run. *)
Definition finish : M World unit :=
  _ <~ await_output ;
  w <~ get ;
  _ <~ (if negb (bool_decide (activeOut (outp w) = []))
        then (_ <~ setOutput (hand_over (outp w)) ; await_output)
        else ret tt) ;
  record_run.

(** computeWorker() *)
Definition computeWorker (fuel : nat) : M World unit :=
  initialData <~ initial_fill K [] ;
  w <~ get ;
  _ <~ setTree (LoserTree.initialize initialData (loserTree w)) ;
  _ <~ main_loop fuel 1 ;
  finish.

(** The object after RunGenerator(K, bufSize) and the statements of
    generateRuns that precede the threads; the LoserTree constructor
    throws for K <= 0. *)
Definition start (input : list T) (rf : RunFile) : option World :=
  match LoserTree.new K with
  | None => None
  | Some lt =>
      Some (mkWorld
              (mkInputSide input [] (replicate bufSize 0) 0 false false)
              (mkOutputSide [] (replicate bufSize 0) false 0 0)
              lt 0 [] rf)
  end.

(** generateRuns(inputFilename, runFile), for an input file that holds
    the elements [input].  The iteration bound of the main loop is taken
    from the length of the input: every turn emits one element. *)
Definition generateRuns_body (input : list T) : M World (list RunMetadata) :=
  _ <~ open_run ;
  _ <~ setGeneratedRuns [] ;
  _ <~ computeWorker (length input) ;
  w <~ get ;
  ret (generatedRuns w).

Definition generateRuns (input : list T) (rf : RunFile)
  : option (result (list RunMetadata) * RunFile) :=
  match start input rf with
  | None => None
  | Some w => let '(r, w') := generateRuns_body input w in Some (r, runFile w')
  end.

End Generator.

End RunGenerator.

(** ** Vocabulary for the run generator *)

(** The input still to be delivered to the compute thread. *)
Definition pending (i : InputSide) : list T :=
  drop (activeInIdx i) (activeIn i) ++ inputFile i.

(** Between two calls of pullNextInput (with the input worker run on demand)
    no block is waiting, and end-of-file was seen only with the file read to
    its end. *)
Definition input_ok (i : InputSide) : Prop :=
  standby_input_ready i = false /\ (input_eof i = true -> inputFile i = []).

(** The elements emitted into the current run: those on disk from the start
    of the run, the block in flight, the block being filled. *)
Definition output_holds (w : World) (im : FileImage) (cur : list T) : Prop :=
  wf_open (runFile w) im /\
  exists base : nat,
    RunFile.elem_index (f_header im) (currentRunStartOffset (outp w)) = Some base /\
    (base <= length (f_data im))%nat /\
    totalElementsInRun (outp w) = Z.of_nat (length (f_data im) - base) /\
    cur = drop base (f_data im)
          ++ (if standby_output_busy (outp w) then standbyOut (outp w) else [])
          ++ activeOut (outp w).

(** A leaf that is not a sentinel. *)
Definition is_real (n : RunNode) : Prop := runID n <> INT_MAX.

#[global] Instance is_real_dec n : Decision (is_real n).
Proof. unfold is_real. apply _. Defined.

(** The elements held in the workspace of the loser tree. *)
Definition workspace (lt : LoserTree) : list T :=
  map value (filter is_real (take (k lt) (leaves lt))).

(** The tags of the leaves while run [c] is being written and [cur] has been
    emitted into it: a leaf is a sentinel, or belongs to run [c] and is not
    below anything emitted, or is frozen for run [c + 1]. *)
Definition tags_ok (lt : LoserTree) (c : Z) (cur : list T) : Prop :=
  forall i, (i < k lt)%nat ->
    let n := leaves lt !!! i in
    n = SENTINEL \/
    (runID n = c /\ Forall (fun x => x <= value n) cur) \/
    (runID n = c + 1 /\ cur <> []).

(** The invariant of the main loop of computeWorker for the input [all]. *)
Record generating (K : nat) (all : list T) (c : Z) (w : World) (im : FileImage)
    (css : list (list T)) (cur : list T) : Prop := mk_generating {
  gen_input : input_ok (inp w);
  gen_output : output_holds w im cur;
  gen_tree : tournament_tree (loserTree w);
  gen_K : k (loserTree w) = K;
  gen_tags : tags_ok (loserTree w) c cur;
  gen_cur_sorted : nondecreasing cur;
  gen_sealed : runs_on_disk im (generatedRuns w) css;
  gen_sealed_sorted : Forall nondecreasing css;
  gen_sealed_nonempty : Forall (fun xs => xs <> []) css;
  gen_run_id : c = 1 + Z.of_nat (length css);
  gen_exhausted : pending (inp w) = [] \/
                  Forall is_real (take (k (loserTree w)) (leaves (loserTree w)));
  gen_all : all ≡ₚ concat css ++ cur ++ workspace (loserTree w) ++ pending (inp w)
}.

(** The image has only grown at the end of its data region. *)
Definition extends (im im' : FileImage) : Prop :=
  f_header im' = f_header im /\ exists extra, f_data im' = f_data im ++ extra.

(** The compute thread's own members are untouched. *)
Definition same_compute (w w' : World) : Prop :=
  inp w' = inp w /\ loserTree w' = loserTree w /\
  generatedRuns w' = generatedRuns w /\ currentRunId w' = currentRunId w.

(** The current run has the elements [cur] on disk and nothing in flight; the
    block that [activeOut] points to is not looked at. *)
Definition written_holds (w : World) (im : FileImage) (cur : list T) : Prop :=
  wf_open (runFile w) im /\
  exists base : nat,
    RunFile.elem_index (f_header im) (currentRunStartOffset (outp w)) = Some base /\
    (base <= length (f_data im))%nat /\
    totalElementsInRun (outp w) = Z.of_nat (length (f_data im) - base) /\
    cur = drop base (f_data im).

(** *** Directory slots

    What the allocation of directory slots depends on: which slots are in
    use, how many slots the header announces, and the slot of the run being
    written. *)
Record SlotsView : Type := mkSlotsView {
  sv_used : list bool;
  sv_maxRuns : Z;
  sv_current : Z
}.

Definition rf_view (rf : RunFile) (current : Z) : SlotsView :=
  mkSlotsView (map isUsed (directory rf)) (maxRuns (header rf)) current.

Definition slots_view (w : World) : SlotsView :=
  rf_view (runFile w) (currentRunId w).

(** The run being written has a directory slot of its own. *)
Definition slot_ok (v : SlotsView) : Prop :=
  0 <= sv_current v < sv_maxRuns v /\
  length (sv_used v) = Z.to_nat (sv_maxRuns v).

Definition free_slots (v : SlotsView) : nat :=
  length (filter (fun b : bool => b = false) (sv_used v)).

(** A call on the run file that takes no slot and does not fail on a run
    id. *)
Definition rf_quiet {A} (m : M RunFile A) : Prop :=
  forall rf r rf', m rf = (r, rf') ->
    (forall c, rf_view rf' c = rf_view rf c) /\ r <> Throw out_of_range.

(** A step of the generator that takes no slot, and that does not fail on
    the run id when the current run has its slot. *)
Definition quiet {A} (m : M World A) : Prop :=
  forall w r w', m w = (r, w') ->
    slots_view w' = slots_view w /\
    (slot_ok (slots_view w) -> r <> Throw out_of_range).

(** A step of the generator that seals the current run and takes one slot
    for the next. *)
Definition allocating {A} (m : M World A) : Prop :=
  forall w r w', m w = (r, w') ->
    slot_ok (slots_view w) -> (1 <= free_slots (slots_view w))%nat ->
    r <> Throw out_of_range /\
    (forall a, r = Ok a ->
       slot_ok (slots_view w') /\
       (free_slots (slots_view w') + 1 = free_slots (slots_view w))%nat).

(** What a successful generateRuns leaves: every returned run lies on disk,
    is non-decreasing and not empty, and together the runs hold the input. *)
Definition runs_of (input : list T) (rf' : RunFile) (runs : list RunMetadata)
    (im' : FileImage) (css : list (list T)) : Prop :=
  wf_open rf' im' /\ runs_on_disk im' runs css /\
  Forall nondecreasing css /\ Forall (fun xs => xs <> []) css /\
  input ≡ₚ concat css.

(** ** main.cpp (project2) *)

(** The check of main.cpp after phase 1:
    for (const auto& run : initialRuns) totalElementsGenerated += run.elementCount; *)
Definition totalElementsGenerated (initialRuns : list RunMetadata) : Z :=
  fold_left (fun total run => total + elementCount run) initialRuns 0.

(** ** A small sort

    A run file of sixteen slots as main.cpp prepares it (create, then open),
    and an input of eight elements sorted with a loser tree of two leaves
    and buffers of three elements. *)
Definition sample_file : RunFile :=
  do_calls [CallCreate 16; CallOpen] RunFile.new.

Definition sample_image : FileImage :=
  mkFileImage (RunFileHeader_new 16) (replicate 16 RunMetadata_default) [].

Definition eight_elements : list T := [3; 1; 4; 1; 5; 9; 2; 6].

(** The generator in the middle of a run: the tree holds 5 and 8 for run 1,
    the input still has 7 and 2. *)
Definition mid_run_world : World :=
  mkWorld (mkInputSide [7; 2] [] [0; 0; 0] 0 false false)
    (mkOutputSide [] [0; 0; 0] false 396 0)
    (LoserTree.initialize [5; 8]
       (mkLoserTree (replicate 2 0%nat) (replicate 3 SENTINEL) 2))
    0 [] sample_file.

(** ** main.cpp: verifySortedRun *)

Definition IO_BUFFER_SIZE_ELEMENTS : nat := 1024.

(** The loop [while (inBuf.getNextItem(currentItem))] of verifySortedRun: it
    stops with false at the first element below its predecessor.  A run of n
    elements needs n calls after the first one. *)
Fixpoint verify_loop (fuel : nat) (lastItem : T) (inBuf : InputBuffer) : M RunFile bool :=
  match fuel with
  | O => throw fuel_exhausted
  | S fuel' =>
      r <~ InputBuffer.getNextItem inBuf ;
      match fst r with
      | None => ret true
      | Some currentItem =>
          if currentItem <? lastItem then ret false
          else verify_loop fuel' currentItem (snd r)
      end
  end.

(** verifySortedRun(runFile, finalRun) *)
Definition verifySortedRun (finalRun : RunMetadata) : M RunFile bool :=
  let inBuf := InputBuffer.new finalRun IO_BUFFER_SIZE_ELEMENTS in
  r <~ InputBuffer.getNextItem inBuf ;
  match fst r with
  | None => ret true                          (* the run is empty *)
  | Some lastItem =>
      verify_loop (Z.to_nat (elementCount finalRun)) lastItem (snd r)
  end.

(** ** RunGenerator.h (project1: sort one memory load at a time) *)

(** std::sort(tempBuffer.begin(), tempBuffer.end()) on elements of type int:
    the result is the non-decreasing arrangement of the elements, which is
    unique; it is computed here by a merge sort. *)
Definition std_sort (tempBuffer : list T) : list T := merge_sort Z.le tempBuffer.

Module RunGenerator1.

Section Generator.

Variable elementsPerRun : nat.     (* int elementsPerRun *)

(** for (int i = 0; i < elementsRead; ++i) outBuf.setNextItem(tempBuffer[i]); *)
Fixpoint write_items (items : list T) (outBuf : OutputBuffer) : M RunFile OutputBuffer :=
match items with
| [] => ret outBuf
| x :: items' =>
  outBuf' <~ OutputBuffer.setNextItem x outBuf ;
  write_items items' outBuf'
end.

(** The loop [while (moreData)] of generateRuns; [inputFile] is what the
ifstream has not delivered yet.  Every turn but the last consumes
elementsPerRun elements. *)
Fixpoint generate_loop (fuel : nat) (inputFile : list T)
(generatedRuns : list RunMetadata) : M RunFile (list RunMetadata) :=
match fuel with
| O => throw fuel_exhausted
| S fuel' =>
  let block := take elementsPerRun inputFile in
  let elementsRead := length block in
  if (elementsRead =? 0)%nat then ret generatedRuns
  else
    let moreData := negb (elementsRead <? elementsPerRun)%nat in
    let tempBuffer := std_sort block in
    runId <~ RunFile.allocateNewRun ;
    if runId =? -1 then throw runtime_error
    else
      startOffset <~ RunFile.getAppendOffset ;
      let outBuf := OutputBuffer.new startOffset 1024 in
      outBuf <~ write_items (take elementsRead tempBuffer) outBuf ;
      _ <~ OutputBuffer.flush outBuf ;
      _ <~ RunFile.updateRunMetadata runId startOffset (Z.of_nat elementsRead) ;
      m <~ RunFile.getRunMetadata runId ;
      if moreData
      then generate_loop fuel' (drop elementsPerRun inputFile) (generatedRuns ++ [m])
      else ret (generatedRuns ++ [m])
end.

(** generateRuns(originalFileName, runFile), for an original file that holds
the elements [input]. *)
Definition generateRuns (input : list T) : M RunFile (list RunMetadata) :=
generate_loop (S (length input)) input [].

End Generator.

End RunGenerator1.

(** ** Merger.h (project1: merge passes over a queue)

    MergeInMem is the same function, statement by statement, as the one of
    project2; [Merger.MergeInMem] stands for both. *)
Module Merger1.

(** The inner loop [while (currentPassQueue.size() >= 2)] and the statement
  after it that passes an odd run on unmerged; the result is
  nextPassQueue. *)
Fixpoint merge_pass (currentPassQueue nextPassQueue : list RunMetadata)
: M RunFile (list RunMetadata) :=
match currentPassQueue with
| runA :: runB :: rest =>
    mergedRun <~ Merger.MergeInMem runA runB ;
    merge_pass rest (nextPassQueue ++ [mergedRun])
| [last] => ret (nextPassQueue ++ [last])
| [] => ret nextPassQueue
end.

(** The outer loop [while (currentPassQueue.size() > 1)]; every pass
  shortens the queue. *)
Fixpoint merge_passes (fuel : nat) (currentPassQueue : list RunMetadata)
: M RunFile (list RunMetadata) :=
if (1 <? length currentPassQueue)%nat then
  match fuel with
  | O => throw fuel_exhausted
  | S fuel' =>
      nextPassQueue <~ merge_pass currentPassQueue [] ;
      merge_passes fuel' nextPassQueue
  end
else ret currentPassQueue.

(** externalMergeSort(initialRuns, runFile); front() of an empty queue is
  undefined, as top() of an empty priority queue is. *)
Definition externalMergeSort (initialRuns : list RunMetadata) : M RunFile RunMetadata :=
queue <~ merge_passes (length initialRuns) initialRuns ;
match queue with
| run :: _ => ret run
| [] => throw undefined_top
end.

End Merger1.

(** ** Vocabulary for the added properties *)

(** The consecutive blocks of [n] elements of a list, the last one possibly
    shorter. *)
Fixpoint chunks_upto (fuel n : nat) (l : list T) : list (list T) :=
  match fuel with
  | O => []
  | S fuel' =>
      match l with
      | [] => []
      | _ => take n l :: chunks_upto fuel' n (drop n l)
      end
  end.

Definition chunks (n : nat) (l : list T) : list (list T) := chunks_upto (length l) n l.

(** [k] below [key] in the order of the matches: by run id, then by value. *)
Definition key_le (a b : RunNode) : Prop :=
  runID a < runID b \/ (runID a = runID b /\ value a <= value b).

(** ** Small run files for the examples *)

(** A run file with a single directory slot, created and opened. *)
Definition one_slot_file : RunFile :=
  do_calls [CallCreate 1; CallOpen] RunFile.new.

Definition one_slot_image : FileImage :=
  mkFileImage (RunFileHeader_new 1) (replicate 1 RunMetadata_default) [].

(** A run file of two slots, both taken, holding the runs [1; 3] and [2]. *)
Definition full_file : RunFile :=
  do_calls
    [CallCreate 2; CallOpen;
     CallAllocateNewRun; CallWrite 60 [1; 3]; CallUpdateRunMetadata 0 60 2;
     CallAllocateNewRun; CallWrite 68 [2]; CallUpdateRunMetadata 1 68 1]
    RunFile.new.

Definition full_image : FileImage :=
  mkFileImage (RunFileHeader_new 2)
    [mkRunMetadata 60 2 true; mkRunMetadata 68 1 true]
    [1; 3; 2].

(** Every leaf of the k slots is a sentinel or belongs to run 1, as after
    initialize. *)
Definition first_run (lt : LoserTree) : Prop :=
  forall i, (i < k lt)%nat ->
    leaves lt !!! i = SENTINEL \/ runID (leaves lt !!! i) = 1.

(** The tree after a sequence of operations. *)
Definition apply_ops (ops : list TreeOp) (lt : LoserTree) : LoserTree :=
  fold_left (fun lt op => apply_op op lt) ops lt.

(** The leaves of the workspace that carry the tag of run [c]. *)
Definition tagged (c : Z) (lt : LoserTree) : list RunNode :=
  filter (fun n => runID n = c) (take (k lt) (leaves lt)).

(** The runs that the end of computeWorker adds to the sealed ones: the
    current run when something was emitted into it. *)
Definition last_run (cur : list T) : list (list T) :=
  match cur with
  | [] => []
  | _ :: _ => [cur]
  end.

(** Every sealed run has at least K elements, and so will the current one:
    its elements and the leaves still tagged for it are K or more, unless
    the input is exhausted and no leaf waits for a later run, in which case
    the current run is the last. *)
Definition full_runs (K : nat) (c : Z) (w : World) (css : list (list T))
    (cur : list T) : Prop :=
  Forall (fun xs : list T => (K <= length xs)%nat) css /\
  ((K <= length cur + length (tagged c (loserTree w)))%nat \/
   (pending (inp w) = [] /\ tagged (c + 1) (loserTree w) = [])).

(** Of [F] directory slots that were free, one is held by the current run
    and one by every sealed run. *)
Definition slots_left (F : nat) (w : World) (css : list (list T)) : Prop :=
  slot_ok (slots_view w) /\
  (free_slots (slots_view w) + 1 + length css = F)%nat.

(** No leaf waits for the next run, and what is still to be read comes in
    non-decreasing order and is not below anything in the workspace. *)
Definition ascending (c : Z) (w : World) : Prop :=
  tagged (c + 1) (loserTree w) = [] /\
  nondecreasing (pending (inp w)) /\
  Forall (fun v => Forall (fun p => v <= p) (pending (inp w)))
    (workspace (loserTree w)).

(** * Properties of the run file *)

Section RunFileFacts.

Lemma first_free_spec d i j :
  RunFile.first_free d i = Some j ->
  (i <= j)%nat /\ (j - i < length d)%nat /\
  (exists m, d !! (j - i)%nat = Some m /\ isUsed m = false) /\
  (forall n m, (n < j - i)%nat -> d !! n = Some m -> isUsed m = true).
Proof.
  revert i j. induction d as [|m d IH]; intros i j H; simpl in H; [discriminate|].
  destruct (isUsed m) eqn:Hm.
  - apply IH in H as (Hle & Hlt & (m' & Hm' & Hu) & Hall).
    replace (j - i)%nat with (S (j - S i)) by lia.
    split; [lia|]. split; [simpl; lia|]. split.
    + exists m'. auto.
    + intros [|n] m0 Hn Hl; simpl in Hl.
      * congruence.
      * apply (Hall n); [lia | done].
  - inversion H; subst j. replace (i - i)%nat with 0%nat by lia.
    split; [lia|]. split; [simpl; lia|]. split.
    + exists m. auto.
    + intros n m0 Hn. lia.
Qed.

Lemma first_free_none d i :
  RunFile.first_free d i = None -> Forall (fun m => isUsed m = true) d.
Proof.
  revert i. induction d as [|m d IH]; intros i H; simpl in H; [constructor|].
  destruct (isUsed m) eqn:Hm; [|discriminate].
  constructor; eauto.
Qed.

Lemma read_directory_mirror n d mem :
  length d = n -> RunFile.read_directory n d mem = d.
Proof.
  intros Hn. unfold RunFile.read_directory.
  apply list_eq. intros i. rewrite list_lookup_fmap.
  destruct (decide (i < n)%nat) as [Hi|Hi].
  - rewrite lookup_seq_lt by done. simpl.
    destruct (lookup_lt_is_Some_2 d i) as [m Hm]; [lia|]. by rewrite Hm.
  - rewrite lookup_seq_ge by lia. simpl. symmetry. apply lookup_ge_None. lia.
Qed.

Lemma create_ok n :
  0 <= n ->
  RunFile.create n RunFile.new =
    (Ok true,
     let d := replicate (Z.to_nat n) RunMetadata_default in
     mkRunFile false (Some (mkFileImage (RunFileHeader_new n) d [])) (RunFileHeader_new n) d).
Proof.
  intros Hn. unfold RunFile.create. simpl.
  destruct (n <? 0) eqn:E; [apply Z.ltb_lt in E; lia|]. reflexivity.
Qed.

Lemma create_open_wf n :
  0 <= n ->
  exists rf im,
    RunFile.open (snd (RunFile.create n RunFile.new)) = (Ok true, rf) /\
    wf_open rf im /\ f_data im = [] /\
    directory rf = replicate (Z.to_nat n) RunMetadata_default /\
    header rf = RunFileHeader_new n.
Proof.
  intros Hn. rewrite create_ok by done. simpl.
  unfold RunFile.open. simpl.
  destruct (n <? 0) eqn:E; [apply Z.ltb_lt in E; lia|].
  rewrite read_directory_mirror by apply length_replicate.
  eexists _, _. split; [reflexivity|].
  split; [constructor; simpl; auto; apply length_replicate|].
  simpl. auto.
Qed.

Lemma writeMetadataToDisk_memory i rf :
  header (RunFile.writeMetadataToDisk i rf) = header rf /\
  directory (RunFile.writeMetadataToDisk i rf) = directory rf /\
  file_is_open (RunFile.writeMetadataToDisk i rf) = file_is_open rf.
Proof.
  unfold RunFile.writeMetadataToDisk.
  destruct (negb (file_is_open rf) || (i <? 0) || (maxRuns (header rf) <=? i)); [done|].
  destruct (image rf); done.
Qed.

Lemma writeMetadataToDisk_wf rf im i m :
  wf_open rf im -> 0 <= i < maxRuns (header rf) ->
  wf_open
    (RunFile.writeMetadataToDisk i
       (RunFile.set_directory (<[Z.to_nat i := m]> (directory rf)) rf))
    (mkFileImage (f_header im) (<[Z.to_nat i := m]> (f_directory im)) (f_data im)).
Proof.
  intros [Ho Hi Hm Hg Hx Hn Hl] Hr.
  unfold RunFile.writeMetadataToDisk. simpl. rewrite Ho, Hi. simpl.
  destruct (i <? 0) eqn:E1; [apply Z.ltb_lt in E1; lia|].
  destruct (maxRuns (header rf) <=? i) eqn:E2; [apply Z.leb_le in E2; lia|].
  simpl. rewrite list_lookup_total_insert_eq by lia.
  constructor; simpl; auto.
  - by rewrite Hm.
  - by rewrite length_insert.
Qed.

Lemma allocateNewRun_wf rf im :
  wf_open rf im ->
  exists r rf' im',
    RunFile.allocateNewRun rf = (Ok r, rf') /\ wf_open rf' im' /\
    f_data im' = f_data im /\ f_header im' = f_header im /\
    maxRuns (header rf') = maxRuns (header rf).
Proof.
  intros Hwf. unfold RunFile.allocateNewRun.
  destruct (RunFile.first_free _ 0) as [i|] eqn:Hff.
  - apply first_free_spec in Hff as (_ & Hlt & _).
    rewrite length_take in Hlt.
    pose proof (writeMetadataToDisk_wf rf im (Z.of_nat i)
                  (mkRunMetadata 0 0 true) Hwf) as H.
    rewrite Nat2Z.id in H.
    assert (Hr : 0 <= Z.of_nat i < maxRuns (header rf)) by lia.
    specialize (H Hr). destruct H as [Ho Hi Hm Hg Hx Hn Hl].
    eexists _, _, _. split; [reflexivity|].
    split; [constructor; simpl; eauto|].
    simpl. split; [done|]. split; [done|].
    by destruct (writeMetadataToDisk_memory (Z.of_nat i)
         (RunFile.set_directory (<[i:=mkRunMetadata 0 0 true]> (directory rf)) rf))
      as (-> & _).
  - eexists _, rf, im. split; [reflexivity|]. auto.
Qed.

Lemma updateRunMetadata_wf rf im i s c :
  wf_open rf im ->
  exists rf' im',
    snd (RunFile.updateRunMetadata i s c rf) = rf' /\ wf_open rf' im' /\
    f_data im' = f_data im /\ f_header im' = f_header im /\
    maxRuns (header rf') = maxRuns (header rf).
Proof.
  intros Hwf. unfold RunFile.updateRunMetadata.
  destruct ((i <? 0) || (maxRuns (header rf) <=? i)) eqn:E.
  - exists rf, im. auto.
  - apply orb_false_iff in E as [E1 E2].
    apply Z.ltb_ge in E1. apply Z.leb_gt in E2.
    eexists _, _. split; [reflexivity|]. simpl.
    split; [apply writeMetadataToDisk_wf; [done | lia]|].
    split; [done|]. split; [done|].
    by destruct (writeMetadataToDisk_memory i
         (RunFile.set_directory
            (<[Z.to_nat i:=mkRunMetadata s c (isUsed (directory rf !!! Z.to_nat i))]>
               (directory rf)) rf))
      as (-> & _).
Qed.

Lemma updateRunMetadata_outside rf i s c :
  i < 0 \/ maxRuns (header rf) <= i ->
  RunFile.updateRunMetadata i s c rf = (Throw out_of_range, rf).
Proof.
  intros H. unfold RunFile.updateRunMetadata.
  destruct ((i <? 0) || (maxRuns (header rf) <=? i)) eqn:E; [done|].
  apply orb_false_iff in E as [E1 E2].
  apply Z.ltb_ge in E1. apply Z.leb_gt in E2. lia.
Qed.

Lemma stream_write_wf rf im off b :
  wf_open rf im ->
  exists rf' im',
    snd (RunFile.stream_write off b rf) = rf' /\ wf_open rf' im' /\
    f_header im' = f_header im /\ header rf' = header rf /\
    directory rf' = directory rf.
Proof.
  intros Hwf. pose proof Hwf as [Ho Hi Hm Hg Hx Hn Hl].
  unfold RunFile.stream_write. rewrite Ho, Hi.
  destruct (RunFile.elem_index (f_header im) off) as [i|]; simpl.
  - eexists _, _. split; [reflexivity|].
    split; [constructor; simpl; auto|]. auto.
  - exists rf, im. auto.
Qed.

Lemma mutation_wf c rf im :
  is_mutation c = true -> wf_open rf im ->
  exists im', wf_open (do_call c rf) im'.
Proof.
  intros Hc Hwf. destruct c; try discriminate; simpl.
  - destruct (allocateNewRun_wf rf im Hwf) as (r & rf' & im' & -> & H & _). eauto.
  - destruct (updateRunMetadata_wf rf im runId start count Hwf) as (rf' & im' & <- & H & _).
    eauto.
  - destruct (stream_write_wf rf im off block Hwf) as (rf' & im' & <- & H & _). eauto.
Qed.

Lemma mutations_wf cs rf im :
  forallb is_mutation cs = true -> wf_open rf im ->
  exists im', wf_open (do_calls cs rf) im'.
Proof.
  revert rf im. induction cs as [|c cs IH]; intros rf im Hcs Hwf; simpl in *.
  - eauto.
  - apply andb_true_iff in Hcs as [Hc Hcs].
    destruct (mutation_wf c rf im Hc Hwf) as [im' Hwf'].
    apply (IH _ im' Hcs Hwf').
Qed.

Lemma close_open_wf rf im :
  wf_open rf im ->
  RunFile.open (RunFile.close rf) =
    (Ok true, mkRunFile true (Some im) (f_header im) (directory rf)).
Proof.
  intros [Ho Hi Hm Hg Hx Hn Hl]. unfold RunFile.close, RunFile.open.
  rewrite Ho. simpl. rewrite Hi, Hg. simpl.
  destruct (maxRuns (f_header im) <? 0) eqn:E; [apply Z.ltb_lt in E; lia|].
  rewrite read_directory_mirror by (rewrite Hm, Hl; congruence).
  by rewrite Hm.
Qed.

End RunFileFacts.

(** * Properties of the loser tree *)

(** ** The order of the matches *)

Section MatchOrder.

Lemma isLoser_spec a b :
  LoserTree.isLoser a b = true <->
  runID b < runID a \/ (runID a = runID b /\ value b < value a).
Proof.
  unfold LoserTree.isLoser.
  destruct (runID a =? runID b) eqn:E; simpl.
  - apply Z.eqb_eq in E. rewrite Z.gtb_ltb, Z.ltb_lt. lia.
  - apply Z.eqb_neq in E. rewrite Z.gtb_ltb, Z.ltb_lt. lia.
Qed.

Lemma beats_spec a b :
  beats a b <->
  runID a < runID b \/ (runID a = runID b /\ value a <= value b).
Proof.
  unfold beats. destruct (LoserTree.isLoser a b) eqn:E.
  - apply isLoser_spec in E. split; [discriminate | lia].
  - split; [intros _ | done].
    destruct (decide (runID a < runID b \/ runID a = runID b /\ value a <= value b))
      as [H|H]; [done|].
    assert (LoserTree.isLoser a b = true) by (apply isLoser_spec; lia).
    congruence.
Qed.

Lemma beats_refl a : beats a a.
Proof. apply beats_spec. lia. Qed.

Lemma beats_trans a b c : beats a b -> beats b c -> beats a c.
Proof. rewrite !beats_spec. lia. Qed.

Lemma beats_antisym a b : beats a b -> beats b a -> a = b.
Proof.
  rewrite !beats_spec. intros H1 H2. destruct a, b; simpl in *.
  f_equal; lia.
Qed.

Lemma isLoser_beats a b : LoserTree.isLoser a b = true -> beats b a.
Proof. rewrite isLoser_spec, beats_spec. lia. Qed.

Lemma key_lt_isLoser a b : Naive.key_lt a b = LoserTree.isLoser b a.
Proof.
  destruct (LoserTree.isLoser b a) eqn:E.
  - apply isLoser_spec in E. unfold Naive.key_lt.
    apply orb_true_iff. rewrite andb_true_iff, !Z.ltb_lt, Z.eqb_eq. lia.
  - apply beats_spec in E. unfold Naive.key_lt.
    apply orb_false_iff. rewrite andb_false_iff, !Z.ltb_ge, Z.eqb_neq. lia.
Qed.

End MatchOrder.

(** ** The shape of the tree *)

Section Shape.

Lemma half_cases n : (n = 2 * (n / 2) \/ n = 2 * (n / 2) + 1)%nat.
Proof. pose proof (Nat.div_mod_eq n 2). pose proof (Nat.mod_upper_bound n 2). lia. Qed.

Lemma desc_inv j n : desc j n -> j = n \/ desc j (n / 2)%nat.
Proof. intros H. inversion H; subst; auto. Qed.

Lemma desc_le j n : desc j n -> (j <= n)%nat.
Proof.
  induction 1 as [|n _ IH]; [lia|].
  destruct (half_cases n); lia.
Qed.

Lemma half_double j : ((2 * j) / 2 = j)%nat.
Proof. rewrite Nat.mul_comm. apply Nat.div_mul. lia. Qed.

Lemma half_double1 j : ((2 * j + 1) / 2 = j)%nat.
Proof.
  rewrite Nat.mul_comm, Nat.div_add_l by lia. simpl. lia.
Qed.

Lemma desc_parent c n : desc c n -> desc (c / 2)%nat n.
Proof.
  induction 1 as [|n _ IH].
  - apply desc_child, desc_self.
  - by apply desc_child.
Qed.

Lemma desc_of_child j n :
  desc (2 * j)%nat n \/ desc (2 * j + 1)%nat n -> desc j n.
Proof.
  intros [H|H]; apply desc_parent in H.
  - by rewrite half_double in H.
  - by rewrite half_double1 in H.
Qed.

Lemma desc_to_child j n :
  desc j n -> j <> n -> desc (2 * j)%nat n \/ desc (2 * j + 1)%nat n.
Proof.
  induction 1 as [|n H IH]; [done|]. intros Hne.
  destruct (decide (j = n / 2)%nat) as [->|Hd].
  - destruct (half_cases n) as [E|E]; [left | right]; rewrite <- E; constructor.
  - destruct (IH Hd); [left | right]; by constructor.
Qed.

Lemma desc_trans a b n : desc a b -> desc b n -> desc a n.
Proof.
  intros Hab. induction 1 as [|n _ IH]; [done|]. by constructor.
Qed.

Lemma desc_siblings j n :
  (1 <= j)%nat -> desc (2 * j)%nat n -> desc (2 * j + 1)%nat n -> False.
Proof.
  intros Hj. induction n as [n IH] using lt_wf_ind. intros H0 H1.
  apply desc_inv in H0 as [H0|H0]; apply desc_inv in H1 as [H1|H1].
  - lia.
  - apply desc_le in H1. subst n. rewrite half_double in H1. lia.
  - apply desc_le in H0. subst n. rewrite half_double1 in H0. lia.
  - pose proof (desc_le _ _ H0).
    apply (IH (n / 2)%nat); [|done|done].
    destruct (half_cases n); lia.
Qed.

Lemma desc_root n : (1 <= n)%nat -> desc 1%nat n.
Proof.
  induction n as [n IH] using lt_wf_ind. intros Hn.
  destruct (decide (n = 1)%nat) as [->|Hne]; [constructor|].
  apply desc_child, IH; destruct (half_cases n); lia.
Qed.

Lemma desc_dec j n : desc j n \/ ~ desc j n.
Proof.
  induction n as [n IH] using lt_wf_ind.
  destruct (decide (j = n)) as [->|Hne]; [left; constructor|].
  destruct (decide (n = 0)%nat) as [->|Hn].
  - right. intros H. apply desc_le in H. lia.
  - destruct (IH (n / 2)%nat) as [H|H].
    + destruct (half_cases n); lia.
    + left. by constructor.
    + right. intros H'. apply desc_inv in H' as [H'|H']; done.
Qed.

End Shape.

(** ** What the invariant gives *)

Section Tournament.

Variable kk : nat.
Variable lv : list RunNode.
Variable tr : list nat.
Variable W : nat -> nat.
Hypothesis Hk : (1 <= kk)%nat.
Hypothesis Hleaf : forall i, (i < kk)%nat -> W (kk + i)%nat = i.
Hypothesis Hplayed : forall j, (1 <= j < kk)%nat -> played W tr lv j.

(** The winner of a node is a leaf of its subtree. *)
Lemma winner_in_subtree j :
  (1 <= j < 2 * kk)%nat -> (W j < kk)%nat /\ desc j (kk + W j)%nat.
Proof.
  remember (2 * kk - j)%nat as m eqn:Hm. revert j Hm.
  induction m as [m IH] using lt_wf_ind. intros j Hm Hj.
  destruct (decide (kk <= j)%nat) as [Hl|Hi].
  - assert (E : j = (kk + (j - kk))%nat) by lia.
    rewrite E at 1 3. rewrite Hleaf by lia. split; [lia|].
    rewrite <- E. constructor.
  - destruct (Hplayed j ltac:(lia)) as [[[Hw _]|[Hw _]] _]; rewrite Hw.
    + destruct (IH (2 * kk - 2 * j)%nat ltac:(lia) (2 * j)%nat eq_refl ltac:(lia))
        as [H1 H2].
      split; [done|]. apply desc_of_child. by left.
    + destruct (IH (2 * kk - (2 * j + 1))%nat ltac:(lia) (2 * j + 1)%nat eq_refl ltac:(lia))
        as [H1 H2].
      split; [done|]. apply desc_of_child. by right.
Qed.

(** The loser parked at an internal node is a leaf of its subtree. *)
Lemma loser_in_subtree j :
  (1 <= j < kk)%nat -> (tr !!! j < kk)%nat /\ desc j (kk + tr !!! j)%nat.
Proof.
  intros Hj. destruct (Hplayed j Hj) as [[[_ Hw]|[_ Hw]] _]; rewrite Hw.
  - destruct (winner_in_subtree (2 * j + 1)%nat ltac:(lia)) as [H1 H2].
    split; [done|]. apply desc_of_child. by right.
  - destruct (winner_in_subtree (2 * j)%nat ltac:(lia)) as [H1 H2].
    split; [done|]. apply desc_of_child. by left.
Qed.

(** The winner of a node beats every leaf of its subtree. *)
Lemma winner_beats_subtree j i :
  (1 <= j < 2 * kk)%nat -> (i < kk)%nat -> desc j (kk + i)%nat ->
  beats (lv !!! W j) (lv !!! i).
Proof.
  remember (2 * kk - j)%nat as m eqn:Hm. revert j Hm.
  induction m as [m IH] using lt_wf_ind. intros j Hm Hj Hi Hd.
  destruct (decide (j = kk + i)%nat) as [->|Hne].
  - rewrite Hleaf by done. apply beats_refl.
  - assert (j < kk)%nat as Hint.
    { destruct (decide (j < kk)%nat); [done|].
      apply desc_to_child in Hd as [Hd|Hd]; [| |done]; apply desc_le in Hd; lia. }
    destruct (Hplayed j ltac:(lia)) as [Hw Hb].
    assert (beats (lv !!! W j) (lv !!! W (2 * j)%nat) /\
            beats (lv !!! W j) (lv !!! W (2 * j + 1)%nat)) as [B0 B1].
    { destruct Hw as [[Hw Ht]|[Hw Ht]]; rewrite Ht in Hb; rewrite <- Hw;
        split; solve [done | apply beats_refl]. }
    apply desc_to_child in Hd as [Hd|Hd]; [| |done].
    + eapply beats_trans; [exact B0|].
      apply (IH (2 * kk - 2 * j)%nat); [lia | done | | done | done].
      apply desc_le in Hd. lia.
    + eapply beats_trans; [exact B1|].
      apply (IH (2 * kk - (2 * j + 1))%nat); [lia | done | | done | done].
      apply desc_le in Hd. lia.
Qed.

(** Above a leaf that won the whole tournament, every node has that leaf
    as winner and holds the winner of the sibling subtree. *)
Lemma winner_path idx c :
  W 1%nat = idx -> (idx < kk)%nat ->
  (1 <= c)%nat -> desc c (kk + idx)%nat -> W c = idx.
Proof.
  intros Hroot Hidx. induction c as [c IH] using lt_wf_ind. intros Hc Hd.
  destruct (decide (c = 1)%nat) as [->|Hne]; [done|].
  assert (Hp : W (c / 2)%nat = idx).
  { apply IH; [destruct (half_cases c); lia | destruct (half_cases c); lia
               | by apply desc_parent]. }
  assert (Hc2 : (c < 2 * kk)%nat) by (apply desc_le in Hd; lia).
  assert (Hpr : (1 <= c / 2 < kk)%nat) by (destruct (half_cases c); lia).
  destruct (Hplayed _ Hpr) as [[[Hw _]|[Hw _]] _].
  - destruct (half_cases c) as [E|E]; [congruence|].
    exfalso. apply (desc_siblings (c / 2)%nat (kk + idx)%nat); [lia | | by rewrite <- E].
    rewrite <- Hp, Hw. apply winner_in_subtree. lia.
  - destruct (half_cases c) as [E|E]; [|congruence].
    exfalso. apply (desc_siblings (c / 2)%nat (kk + idx)%nat); [lia | by rewrite <- E |].
    rewrite <- Hp, Hw. apply winner_in_subtree. lia.
Qed.

End Tournament.

(** In a tournament, tree[0] is a leaf index and its key beats every leaf. *)
Lemma tournament_winner kk lv tr :
  tournament kk lv tr ->
  (tr !!! 0%nat < kk)%nat /\
  forall i, (i < kk)%nat -> beats (lv !!! (tr !!! 0%nat)) (lv !!! i).
Proof.
  intros (Hk & Hlt & Hll & W & Hleaf & Hplayed & Hroot). rewrite Hroot.
  split.
  - eapply winner_in_subtree; eauto. lia.
  - intros i Hi.
    eapply winner_beats_subtree; eauto; [lia|].
    apply desc_root. lia.
Qed.

(** ** replay keeps the invariant *)

Lemma replay_loop_S f lv tr parent cw :
  LoserTree.replay_loop (S f) lv tr parent cw =
    if (0 <? parent)%nat then
      if LoserTree.isLoser (lv !!! cw) (lv !!! (tr !!! parent))
      then LoserTree.replay_loop f lv (<[parent := cw]> tr) (parent / 2)%nat (tr !!! parent)
      else LoserTree.replay_loop f lv tr (parent / 2)%nat cw
    else (tr, cw).
Proof. reflexivity. Qed.

Section Replay.

Variable kk : nat.
Variable lv : list RunNode.
Variable tr : list nat.
Variable W : nat -> nat.
Variable idx : nat.
Variable x : RunNode.
Hypothesis Hk : (1 <= kk)%nat.
Hypothesis Hlen : length tr = kk.
Hypothesis Hlv : length lv = S kk.
Hypothesis Hleaf : forall i, (i < kk)%nat -> W (kk + i)%nat = i.
Hypothesis Hplayed : forall j, (1 <= j < kk)%nat -> played W tr lv j.
Hypothesis Hroot : W 1%nat = idx.
Hypothesis Hidx : (idx < kk)%nat.

Let lv' := <[idx := x]> lv.
Let n0 := (kk + idx)%nat.

(** Nodes between [c] and the replayed leaf. *)
Let onpath (c j : nat) : Prop := desc c j /\ desc j n0.

Lemma off_path_leaf j i :
  (1 <= j < 2 * kk)%nat -> ~ desc j n0 -> desc j (kk + i)%nat -> i <> idx.
Proof. intros Hj Hn Hd ->. by apply Hn. Qed.

Lemma off_path_played (W' : nat -> nat) (trc : list nat) j :
  (1 <= j < kk)%nat -> ~ desc j n0 ->
  W' j = W j -> W' (2 * j)%nat = W (2 * j)%nat ->
  W' (2 * j + 1)%nat = W (2 * j + 1)%nat ->
  trc !!! j = tr !!! j ->
  played W' trc lv' j.
Proof.
  intros Hj Hn E E0 E1 Et. unfold played. rewrite E, E0, E1, Et.
  destruct (Hplayed j Hj) as [Hw Hb]. split; [done|].
  destruct (winner_in_subtree kk lv tr W Hk Hleaf Hplayed j ltac:(lia)) as [H1 H2].
  destruct (loser_in_subtree kk lv tr W Hk Hleaf Hplayed j Hj) as [H3 H4].
  unfold lv'. rewrite !list_lookup_total_insert_ne; [done | |].
  - intros ->. by apply Hn.
  - intros E'. rewrite <- E' in *. by apply Hn.
Qed.

(** At the root the walk is over. *)
Lemma replay_done (cw : nat) (trc : list nat) (W' : nat -> nat) :
  length trc = kk ->
  W' 1%nat = cw ->
  (forall i, (i < kk)%nat -> W' (kk + i)%nat = i) ->
  (forall j, ~ onpath 1%nat j -> W' j = W j) ->
  (forall j, ~ onpath 1%nat j -> trc !!! j = tr !!! j) ->
  (forall j, (1 <= j < kk)%nat -> onpath 1%nat j -> played W' trc lv' j) ->
  forall j, (1 <= j < kk)%nat -> played W' trc lv' j.
Proof.
  intros Hl Hw HleafW HWoff Htoff Hon j Hj.
  destruct (desc_dec j n0) as [Hdj|Hdj].
  - apply Hon; [done|]. split; [apply desc_root; lia | done].
  - assert (forall m, desc j m -> ~ onpath 1%nat m) as Hoff.
    { intros m Hm [_ Hm']. apply Hdj. eapply desc_trans; eauto. }
    apply off_path_played; try done.
    + apply HWoff, Hoff. constructor.
    + apply HWoff, Hoff. apply desc_child. rewrite half_double. constructor.
    + apply HWoff, Hoff. apply desc_child. rewrite half_double1. constructor.
    + apply Htoff, Hoff. constructor.
Qed.

Lemma replay_loop_tournament fuel :
  forall (c cw : nat) (trc : list nat) (W' : nat -> nat),
    (1 <= c)%nat -> desc c n0 -> (c / 2 <= fuel)%nat ->
    length trc = kk ->
    W' c = cw -> (cw < kk)%nat ->
    (forall i, (i < kk)%nat -> W' (kk + i)%nat = i) ->
    (forall j, ~ onpath c j -> W' j = W j) ->
    (forall j, ~ onpath c j -> trc !!! j = tr !!! j) ->
    (forall j, (1 <= j < kk)%nat -> onpath c j -> played W' trc lv' j) ->
    exists W'',
      let '(t, w) := LoserTree.replay_loop fuel lv' trc (c / 2)%nat cw in
      length t = kk /\
      (forall i, (i < kk)%nat -> W'' (kk + i)%nat = i) /\
      (forall j, (1 <= j < kk)%nat -> played W'' t lv' j) /\
      W'' 1%nat = w.
Proof.
  induction fuel as [|f IH]; intros c cw trc W' Hc Hd Hf Hl Hw Hcw HleafW HWoff Htoff Hon.
  - (* the loop is over: c is the root *)
    assert (c = 1%nat) as -> by (destruct (half_cases c); lia).
    exists W'. simpl. split; [done|]. split; [done|]. split; [|done].
    by apply (replay_done cw).
  - rewrite replay_loop_S. destruct (0 <? c / 2)%nat eqn:Hp.
    2:{ (* parent = 0 *)
      apply Nat.ltb_ge in Hp.
      assert (c = 1%nat) as -> by (destruct (half_cases c); lia).
      exists W'. split; [done|]. split; [done|]. split; [|done].
      by apply (replay_done cw). }
    apply Nat.ltb_lt in Hp.
    set (p := (c / 2)%nat) in *.
    assert (Hc2 : (c < 2 * kk)%nat) by (apply desc_le in Hd; unfold n0 in Hd; lia).
    assert (Hpk : (1 <= p < kk)%nat) by (unfold p; destruct (half_cases c); lia).
    assert (Hpc : (p < c)%nat) by (unfold p; destruct (half_cases c); lia).
    assert (Hdp : desc p n0) by (by apply desc_parent).
    assert (Hnp : ~ onpath c p).
    { intros [H _]. apply desc_le in H. lia. }
    assert (Hhalf : (c = 2 * p \/ c = 2 * p + 1)%nat) by apply half_cases.
    assert (Hdpc : desc p c) by (apply desc_child; constructor).
    clearbody p.
    (* the old state of node p *)
    assert (HWp : W p = idx)
      by (apply (winner_path kk lv tr W Hk Hleaf Hplayed idx p Hroot Hidx); [lia | done]).
    assert (HWc : W c = idx)
      by (apply (winner_path kk lv tr W Hk Hleaf Hplayed idx c Hroot Hidx); [lia | done]).
    rewrite (Htoff p Hnp).
    assert (exists s, (1 <= s < 2 * kk)%nat /\ ~ desc s n0 /\ (s / 2 = p)%nat /\ s <> c /\
              tr !!! p = W s /\
              ((c = 2 * p /\ s = 2 * p + 1) \/ (c = 2 * p + 1 /\ s = 2 * p))%nat)
      as (s & Hs & Hsn & Hsp & Hsc & Hts & Hcs).
    { destruct (Hplayed p Hpk) as [Hpl _].
      destruct Hhalf as [E|E].
      - exists (2 * p + 1)%nat.
        assert (Hsn : ~ desc (2 * p + 1)%nat n0).
        { intros H. apply (desc_siblings p n0); [lia | by rewrite <- E | done]. }
        split; [lia|]. split; [done|]. split; [apply half_double1|]. split; [lia|].
        split; [|left; lia].
        destruct Hpl as [[_ Ht]|[Hw' _]]; [done|]. exfalso. apply Hsn.
        rewrite HWp in Hw'. unfold n0. rewrite Hw'.
        eapply winner_in_subtree; eauto. lia.
      - exists (2 * p)%nat.
        assert (Hsn : ~ desc (2 * p)%nat n0).
        { intros H. apply (desc_siblings p n0); [lia | done | by rewrite <- E]. }
        split; [lia|]. split; [done|]. split; [apply half_double|]. split; [lia|].
        split; [|right; lia].
        destruct Hpl as [[Hw' _]|[_ Ht]]; [|done]. exfalso. apply Hsn.
        rewrite HWp in Hw'. unfold n0. rewrite Hw'.
        eapply winner_in_subtree; eauto. lia. }
    assert (Hso : ~ onpath c s) by (intros [_ H]; done).
    assert (HWs : W' s = W s) by (by apply HWoff).
    assert (Hok : (W s < kk)%nat) by (eapply winner_in_subtree; eauto).
    rewrite Hts.
    (* facts shared by the two outcomes of the match *)
    assert (Hpath : forall j, onpath p j -> j <> p -> onpath c j).
    { intros j [Hj1 Hj2] Hne. split; [|done].
      apply desc_to_child in Hj1 as [Hj1|Hj1]; [| |done].
      - destruct Hcs as [[-> _]|[_ ->]]; [done|].
        exfalso. apply Hsn. eapply desc_trans; eauto.
      - destruct Hcs as [[_ ->]|[-> _]]; [|done].
        exfalso. apply Hsn. eapply desc_trans; eauto. }
    assert (Hpp : onpath p p) by (split; [constructor | done]).
    assert (Hbelow : forall j, onpath c j -> (p < j)%nat).
    { intros j [H _]. apply desc_le in H. lia. }
    destruct (LoserTree.isLoser (lv' !!! cw) (lv' !!! W s)) eqn:Hmatch.
    + (* the carried contestant stays at p, the parked one goes up *)
      apply (IH p (W s) (<[p := cw]> trc)
               (fun j => if (j =? p)%nat then W s else W' j)); try done.
      * destruct (half_cases p); lia.
      * by rewrite length_insert.
      * by rewrite Nat.eqb_refl.
      * intros i Hi. destruct (kk + i =? p)%nat eqn:E; [apply Nat.eqb_eq in E; lia|].
        by apply HleafW.
      * intros j Hj. destruct (j =? p)%nat eqn:E; [apply Nat.eqb_eq in E; by subst|].
        apply Nat.eqb_neq in E. apply HWoff. intros H. apply Hj.
        split; [|apply H]. eapply desc_trans; [|apply H].
        exact Hdpc.
      * intros j Hj. destruct (decide (j = p)) as [->|E]; [done|].
        rewrite list_lookup_total_insert_ne by done. apply Htoff. intros H. apply Hj.
        split; [|apply H]. eapply desc_trans; [|apply H].
        exact Hdpc.
      * intros j Hj Hjp. destruct (decide (j = p)) as [->|E].
        -- unfold played. rewrite list_lookup_total_insert_eq by lia.
           rewrite Nat.eqb_refl.
           replace (2 * p =? p)%nat with false by (symmetry; apply Nat.eqb_neq; lia).
           replace (2 * p + 1 =? p)%nat with false by (symmetry; apply Nat.eqb_neq; lia).
           split; [|by apply isLoser_beats].
           destruct Hcs as [[E1 E2]|[E1 E2]].
           ++ rewrite <- E2, <- E1, HWs, Hw. by right.
           ++ rewrite <- E1, <- E2, HWs, Hw. by left.
        -- pose proof (Hpath j Hjp E) as Hcj. pose proof (Hbelow j Hcj).
           specialize (Hon j Hj Hcj). unfold played in *.
           rewrite list_lookup_total_insert_ne by done.
           replace (j =? p)%nat with false by (symmetry; apply Nat.eqb_neq; lia).
           replace (2 * j =? p)%nat with false by (symmetry; apply Nat.eqb_neq; lia).
           replace (2 * j + 1 =? p)%nat with false by (symmetry; apply Nat.eqb_neq; lia).
           done.
    + (* the carried contestant goes up *)
      apply (IH p cw trc (fun j => if (j =? p)%nat then cw else W' j)); try done.
      * destruct (half_cases p); lia.
      * by rewrite Nat.eqb_refl.
      * intros i Hi. destruct (kk + i =? p)%nat eqn:E; [apply Nat.eqb_eq in E; lia|].
        by apply HleafW.
      * intros j Hj. destruct (j =? p)%nat eqn:E; [apply Nat.eqb_eq in E; by subst|].
        apply Nat.eqb_neq in E. apply HWoff. intros H. apply Hj.
        split; [|apply H]. eapply desc_trans; [|apply H].
        exact Hdpc.
      * intros j Hj. destruct (decide (j = p)) as [->|E]; [done|].
        apply Htoff. intros H. apply Hj.
        split; [|apply H]. eapply desc_trans; [|apply H].
        exact Hdpc.
      * intros j Hj Hjp. destruct (decide (j = p)) as [->|E].
        -- unfold played. rewrite (Htoff p Hnp), Hts.
           rewrite Nat.eqb_refl.
           replace (2 * p =? p)%nat with false by (symmetry; apply Nat.eqb_neq; lia).
           replace (2 * p + 1 =? p)%nat with false by (symmetry; apply Nat.eqb_neq; lia).
           split; [|done].
           destruct Hcs as [[E1 E2]|[E1 E2]].
           ++ rewrite <- E2, <- E1, HWs, Hw. by left.
           ++ rewrite <- E1, <- E2, HWs, Hw. by right.
        -- pose proof (Hpath j Hjp E) as Hcj. pose proof (Hbelow j Hcj).
           specialize (Hon j Hj Hcj). unfold played in *.
           replace (j =? p)%nat with false by (symmetry; apply Nat.eqb_neq; lia).
           replace (2 * j =? p)%nat with false by (symmetry; apply Nat.eqb_neq; lia).
           replace (2 * j + 1 =? p)%nat with false by (symmetry; apply Nat.eqb_neq; lia).
           done.
Qed.

Lemma replay_tournament :
  tournament_tree (LoserTree.replay idx (mkLoserTree tr lv' kk)).
Proof.
  unfold LoserTree.replay. simpl.
  replace (idx + kk)%nat with n0 by (unfold n0; lia).
  destruct (replay_loop_tournament (n0 / 2)%nat n0 idx tr W) as [W'' H];
    try done.
  - unfold n0. lia.
  - constructor.
  - by apply Hleaf.
  - intros j Hj [H1 H2]. apply desc_le in H1. unfold n0 in H1. lia.
  - destruct (LoserTree.replay_loop _ _ _ _ _) as [t w].
    destruct H as (Hl & Hlf & Hpl & Hr).
    unfold tournament_tree, tournament. simpl.
    split; [done|]. split; [by rewrite length_insert|].
    split; [unfold lv'; by rewrite length_insert|].
    exists W''. split; [done|]. split.
    + intros j Hj. specialize (Hpl j Hj). unfold played in *.
      rewrite list_lookup_total_insert_ne by lia. done.
    + rewrite list_lookup_total_insert_eq by lia. done.
Qed.

End Replay.

(** ** initialize builds a tournament *)

Lemma build_walk_unfold fuel kk lv tr parent current :
  LoserTree.build_walk fuel kk lv tr parent current =
    if (parent =? 0)%nat then <[0%nat := current]> tr
    else
      match fuel with
      | O => tr
      | S fuel' =>
          if (tr !!! parent =? kk)%nat then <[parent := current]> tr
          else
            if LoserTree.isLoser (lv !!! current) (lv !!! (tr !!! parent))
            then LoserTree.build_walk fuel' kk lv (<[parent := current]> tr)
                   (parent / 2)%nat (tr !!! parent)
            else LoserTree.build_walk fuel' kk lv tr (parent / 2)%nat current
      end.
Proof. destruct fuel; reflexivity. Qed.

Section Build.

Variable kk : nat.
Variable lv : list RunNode.
Hypothesis Hk : (1 <= kk)%nat.

(** [node_ok] at [j] only looks at [j] and its two children. *)
Lemma node_ok_ext st W tr st' W' tr' j :
  st' j = st j -> st' (2 * j)%nat = st (2 * j)%nat ->
  st' (2 * j + 1)%nat = st (2 * j + 1)%nat ->
  W' j = W j -> W' (2 * j)%nat = W (2 * j)%nat ->
  W' (2 * j + 1)%nat = W (2 * j + 1)%nat ->
  tr' !!! j = tr !!! j ->
  node_ok kk st W tr lv j -> node_ok kk st' W' tr' lv j.
Proof.
  unfold node_ok, played. intros -> -> -> -> -> -> ->. done.
Qed.

Lemma waiting_ext st W tr st' W' tr' p s :
  st' s = st s -> W' s = W s -> tr' !!! p = tr !!! p ->
  waiting kk st W tr p s -> waiting kk st' W' tr' p s.
Proof. unfold waiting. intros -> -> ->. done. Qed.

Lemma upd_eq {A} (f : nat -> A) n a : upd f n a n = a.
Proof. unfold upd. by rewrite Nat.eqb_refl. Qed.

Lemma upd_ne {A} (f : nat -> A) n a m : m <> n -> upd f n a m = f m.
Proof. unfold upd. intros H. apply Nat.eqb_neq in H. by rewrite H. Qed.

Lemma build_walk_building i fuel :
  forall (c current : nat) (trc : list nat) (st : nat -> bool) (W : nat -> nat),
    (1 <= c < 2 * kk)%nat -> (c / 2 <= fuel)%nat -> length trc = kk ->
    st c = true -> W c = current -> (current < kk)%nat ->
    (forall l, (l < kk)%nat -> W (kk + l)%nat = l) ->
    (forall l, (l < kk)%nat -> st (kk + l)%nat = (i <=? l)%nat) ->
    (forall n, (1 <= n < 2 * kk)%nat -> st n = true -> (W n < kk)%nat) ->
    (forall j, (1 <= j < kk)%nat -> j <> (c / 2)%nat -> node_ok kk st W trc lv j) ->
    ((1 <= c / 2)%nat ->
       st (c / 2)%nat = false /\
       ((c = 2 * (c / 2) /\ waiting kk st W trc (c / 2) (2 * (c / 2) + 1)) \/
        (c = 2 * (c / 2) + 1 /\ waiting kk st W trc (c / 2) (2 * (c / 2))))%nat) ->
    (c <> 1%nat -> st 1%nat = true -> trc !!! 0%nat = W 1%nat) ->
    building kk lv i (LoserTree.build_walk fuel kk lv trc (c / 2)%nat current).
Proof.
  induction fuel as [|f IH];
    intros c current trc st W Hc Hf Hl Hst HW Hcur HleafW Hleafst Hbound Hok Hpend Hroot;
    rewrite build_walk_unfold.
  - (* no parent left: c is the root *)
    assert (c / 2 = 0)%nat as -> by lia. simpl.
    assert (c = 1%nat) as -> by (destruct (half_cases c); lia).
    split; [by rewrite length_insert|].
    exists st, W. repeat (split; [done|]). split.
    + intros j Hj. eapply node_ok_ext; [..|apply Hok]; try done; [|lia].
      rewrite list_lookup_total_insert_ne by lia. done.
    + intros _. rewrite list_lookup_total_insert_eq by lia. done.
  - destruct (c / 2 =? 0)%nat eqn:Hp0.
    { apply Nat.eqb_eq in Hp0.
      assert (c = 1%nat) as -> by (destruct (half_cases c); lia).
      split; [by rewrite length_insert|].
      exists st, W. repeat (split; [done|]). split.
      + intros j Hj. eapply node_ok_ext; [..|apply Hok]; try done; [|simpl; lia].
        rewrite list_lookup_total_insert_ne by lia. done.
      + intros _. rewrite list_lookup_total_insert_eq by lia. done. }
    apply Nat.eqb_neq in Hp0.
    assert (Hp : (1 <= c / 2 < kk)%nat) by (destruct (half_cases c); lia).
    destruct (Hpend ltac:(lia)) as [Hstp Hwait].
    set (p := (c / 2)%nat) in *.
    assert (exists s, (s / 2 = p)%nat /\ s <> c /\ (1 <= s < 2 * kk)%nat /\
              waiting kk st W trc p s /\
              ((c = 2 * p /\ s = 2 * p + 1) \/ (c = 2 * p + 1 /\ s = 2 * p))%nat)
      as (s & Hsp & Hsc & Hs & Hw & Hcs).
    { destruct Hwait as [[E Hw]|[E Hw]].
      - exists (2 * p + 1)%nat. split; [apply half_double1|].
        split; [lia|]. split; [lia|]. split; [done|]. left. lia.
      - exists (2 * p)%nat. split; [apply half_double|].
        split; [lia|]. split; [lia|]. split; [done|]. right. lia. }
    assert (Hcne : c <> 1%nat) by lia.
    assert (Hpc : p <> c) by lia.
    clearbody p. clear Hwait Hpend.
    unfold waiting in Hw.
    destruct (trc !!! p =? kk)%nat eqn:Hempty.
    + (* first arrival: park and stop *)
      apply Nat.eqb_eq in Hempty.
      assert (Hss : st s = false).
      { destruct (st s) eqn:E; [|done]. specialize (Hbound s Hs E). lia. }
      split; [by rewrite length_insert|].
      exists st, W. repeat (split; [done|]). split.
      * intros j Hj. destruct (decide (j = p)) as [->|Hjp].
        -- unfold node_ok. rewrite list_lookup_total_insert_eq by lia.
           destruct Hcs as [[E1 E2]|[E1 E2]].
           ++ rewrite <- E2, <- E1, Hst, Hss, Hstp. done.
           ++ rewrite <- E1, <- E2, Hst, Hss, Hstp. done.
        -- eapply node_ok_ext; [..|apply (Hok j Hj Hjp)]; try done.
           by rewrite list_lookup_total_insert_ne.
      * intros H1. rewrite list_lookup_total_insert_ne by lia. by apply Hroot.
    + (* second arrival: the match is played and the winner goes up *)
      apply Nat.eqb_neq in Hempty.
      assert (Hss : st s = true).
      { destruct (st s) eqn:E; [done|]. done. }
      rewrite Hss in Hw.
      assert (Hother : (trc !!! p < kk)%nat) by (rewrite Hw; by apply Hbound).
      assert (Hq : forall j, (1 <= j < kk)%nat -> j <> (p / 2)%nat -> j <> p ->
                   (2 * j <> p /\ 2 * j + 1 <> p)%nat).
      { intros j Hj Hj1 Hj2. split; intros E; apply Hj1; rewrite <- E.
        - by rewrite half_double.
        - by rewrite half_double1. }
      assert (Hgp : (1 <= p / 2)%nat ->
                st (p / 2)%nat = false /\
                ((p = 2 * (p / 2) /\ waiting kk st W trc (p / 2) (2 * (p / 2) + 1)) \/
                 (p = 2 * (p / 2) + 1 /\ waiting kk st W trc (p / 2) (2 * (p / 2))))%nat).
      { intros Hp2.
        assert (Hp2' : (1 <= p / 2 < kk)%nat) by (destruct (half_cases p); lia).
        assert (Hne : (p / 2)%nat <> p) by (destruct (half_cases p); lia).
        destruct (Hok _ Hp2' Hne) as [Hs1 Hs2].
        destruct (half_cases p) as [E|E].
        - assert (Hz : st (2 * (p / 2))%nat = false) by (rewrite <- E; exact Hstp).
          rewrite Hz in Hs1, Hs2. simpl in Hs1.
          split; [done|]. left. split; [done|]. unfold waiting.
          destruct (st (2 * (p / 2) + 1)%nat); done.
        - assert (Hz : st (2 * (p / 2) + 1)%nat = false) by (rewrite <- E; exact Hstp).
          rewrite Hz in Hs1, Hs2. rewrite andb_false_r in Hs1.
          split; [done|]. right. split; [done|]. unfold waiting.
          destruct (st (2 * (p / 2))%nat); done. }
      destruct (LoserTree.isLoser (lv !!! current) (lv !!! (trc !!! p))) eqn:Hmatch.
      * apply (IH p (trc !!! p) (<[p := current]> trc)
                 (upd st p true) (upd W p (trc !!! p))).
        -- lia.
        -- destruct (half_cases p); lia.
        -- by rewrite length_insert.
        -- apply upd_eq.
        -- apply upd_eq.
        -- done.
        -- intros l Hlk. rewrite upd_ne by lia. by apply HleafW.
        -- intros l Hlk. rewrite upd_ne by lia. by apply Hleafst.
        -- intros n Hn. destruct (decide (n = p)) as [->|Hnp].
           ++ intros _. by rewrite upd_eq.
           ++ rewrite !upd_ne by done. by apply Hbound.
        -- intros j Hj Hj1. destruct (decide (j = p)) as [->|Hjp].
           ++ unfold node_ok, played.
              rewrite !upd_eq, !(upd_ne _ p _ (2 * p)%nat), !(upd_ne _ p _ (2 * p + 1)%nat)
                by lia.
              rewrite list_lookup_total_insert_eq by lia.
              destruct Hcs as [[E1 E2]|[E1 E2]].
              ** rewrite <- E2, <- E1. rewrite Hst, Hss. split; [done|].
                 rewrite HW, <- Hw. split; [by right | by apply isLoser_beats].
              ** rewrite <- E1, <- E2. rewrite Hst, Hss. split; [done|].
                 rewrite HW, <- Hw. split; [by left | by apply isLoser_beats].
           ++ destruct (Hq j Hj Hj1 Hjp).
              eapply node_ok_ext; [..|apply (Hok j Hj Hjp)];
                rewrite ?upd_ne by done; try done.
              by rewrite list_lookup_total_insert_ne.
        -- intros Hp2. destruct (Hgp Hp2) as [G1 G2].
           assert (Hne : (p / 2)%nat <> p) by (destruct (half_cases p); lia).
           rewrite upd_ne by done. split; [done|].
           destruct G2 as [[E G]|[E G]]; [left | right]; (split; [done|]);
             (eapply waiting_ext; [..|apply G]); rewrite ?upd_ne by lia; try done;
             by rewrite list_lookup_total_insert_ne.
        -- intros Hp1 H1. rewrite !upd_ne in * by done.
           rewrite list_lookup_total_insert_ne by lia. by apply Hroot.
      * apply (IH p current trc (upd st p true) (upd W p current)).
        -- lia.
        -- destruct (half_cases p); lia.
        -- done.
        -- apply upd_eq.
        -- apply upd_eq.
        -- done.
        -- intros l Hlk. rewrite upd_ne by lia. by apply HleafW.
        -- intros l Hlk. rewrite upd_ne by lia. by apply Hleafst.
        -- intros n Hn. destruct (decide (n = p)) as [->|Hnp].
           ++ intros _. by rewrite upd_eq.
           ++ rewrite !upd_ne by done. by apply Hbound.
        -- intros j Hj Hj1. destruct (decide (j = p)) as [->|Hjp].
           ++ unfold node_ok, played.
              rewrite !upd_eq, !(upd_ne _ p _ (2 * p)%nat), !(upd_ne _ p _ (2 * p + 1)%nat)
                by lia.
              destruct Hcs as [[E1 E2]|[E1 E2]].
              ** rewrite <- E2, <- E1. rewrite Hst, Hss. split; [done|].
                 rewrite HW, Hw. split; [by left | by rewrite <- Hw].
              ** rewrite <- E1, <- E2. rewrite Hst, Hss. split; [done|].
                 rewrite HW, Hw. split; [by right | by rewrite <- Hw].
           ++ destruct (Hq j Hj Hj1 Hjp).
              eapply node_ok_ext; [..|apply (Hok j Hj Hjp)];
                rewrite ?upd_ne by done; done.
        -- intros Hp2. destruct (Hgp Hp2) as [G1 G2].
           assert (Hne : (p / 2)%nat <> p) by (destruct (half_cases p); lia).
           rewrite upd_ne by done. split; [done|].
           destruct G2 as [[E G]|[E G]]; [left | right]; (split; [done|]);
             (eapply waiting_ext; [..|apply G]); rewrite ?upd_ne by lia; done.
        -- intros Hp1 H1. rewrite !upd_ne in * by done. by apply Hroot.
Qed.

End Build.

Section Initialize.

Variable kk : nat.
Variable lv : list RunNode.
Hypothesis Hk : (1 <= kk)%nat.

Lemma building_start : building kk lv kk (replicate kk kk).
Proof.
  split; [apply length_replicate|].
  exists (fun _ => false), (fun n => (n - kk)%nat).
  split; [intros l Hl; lia|].
  split; [intros l Hl; symmetry; apply Nat.leb_gt; lia|].
  split; [discriminate|]. split; [|discriminate].
  intros j Hj. split; [done|]. simpl.
  apply list_lookup_total_correct, lookup_replicate_2. lia.
Qed.

Lemma building_step i trc :
  (i < kk)%nat -> building kk lv (S i) trc ->
  building kk lv i
    (LoserTree.build_walk ((i + kk) / 2)%nat kk lv trc ((i + kk) / 2)%nat i).
Proof.
  intros Hi (Hl & st & W & HleafW & Hleafst & Hbound & Hok & Hroot).
  assert (Hold : st (kk + i)%nat = false).
  { rewrite Hleafst by done. apply Nat.leb_gt. lia. }
  replace (i + kk)%nat with (kk + i)%nat by lia.
  apply (build_walk_building kk lv Hk i _ (kk + i)%nat i trc
           (upd st (kk + i)%nat true) W); try done.
  - lia.
  - apply upd_eq.
  - by apply HleafW.
  - intros l Hlk. destruct (decide (l = i)) as [->|Hne].
    + rewrite upd_eq. symmetry. apply Nat.leb_le. lia.
    + rewrite upd_ne by lia. rewrite Hleafst by done.
      destruct (Nat.leb_spec (S i) l), (Nat.leb_spec i l); done || lia.
  - intros n Hn. destruct (decide (n = kk + i)%nat) as [->|Hne].
    + intros _. rewrite HleafW by done. done.
    + rewrite upd_ne by done. by apply Hbound.
  - intros j Hj Hj1.
    eapply node_ok_ext; [..|apply (Hok j Hj)]; rewrite ?upd_ne; try done; try lia.
    + intros E. apply Hj1. rewrite <- E. by rewrite half_double.
    + intros E. apply Hj1. rewrite <- E. by rewrite half_double1.
  - intros Hp.
    assert (Hp' : (1 <= (kk + i) / 2 < kk)%nat) by (destruct (half_cases (kk + i)); lia).
    assert (Hne : ((kk + i) / 2)%nat <> (kk + i)%nat)
      by (destruct (half_cases (kk + i)); lia).
    rewrite upd_ne by done.
    destruct (Hok _ Hp') as [Hs1 Hs2].
    destruct (half_cases (kk + i)) as [E|E].
    + assert (Hz : st (2 * ((kk + i) / 2))%nat = false) by (rewrite <- E; exact Hold).
      rewrite Hz in Hs1, Hs2. simpl in Hs1.
      split; [done|]. left. split; [done|]. unfold waiting.
      rewrite upd_ne by lia.
      destruct (st (2 * ((kk + i) / 2) + 1)%nat); done.
    + assert (Hz : st (2 * ((kk + i) / 2) + 1)%nat = false) by (rewrite <- E; exact Hold).
      rewrite Hz in Hs1, Hs2. rewrite andb_false_r in Hs1.
      split; [done|]. right. split; [done|]. unfold waiting.
      rewrite upd_ne by lia.
      destruct (st (2 * ((kk + i) / 2))%nat); done.
  - intros Hc. rewrite upd_ne by lia. done.
Qed.

Lemma building_all n trc :
  (n <= kk)%nat -> building kk lv n trc ->
  building kk lv 0
    (fold_left
       (fun tr i => LoserTree.build_walk ((i + kk) / 2)%nat kk lv tr ((i + kk) / 2)%nat i)
       (rev (seq 0 n)) trc).
Proof.
  revert trc. induction n as [|n IH]; intros trc Hn Hb; [done|].
  rewrite seq_S, rev_app_distr. simpl.
  apply IH; [lia|]. apply building_step; [lia | done].
Qed.

Lemma building_done trc :
  length lv = S kk -> building kk lv 0 trc -> tournament kk lv trc.
Proof.
  intros Hlv (Hl & st & W & HleafW & Hleafst & Hbound & Hok & Hroot).
  assert (Hall : forall j, (1 <= j < 2 * kk)%nat -> st j = true).
  { intros j. remember (2 * kk - j)%nat as m eqn:Hm. revert j Hm.
    induction m as [m IH] using lt_wf_ind. intros j Hm Hj.
    destruct (decide (kk <= j)%nat) as [Hge|Hlt].
    - replace j with (kk + (j - kk))%nat by lia. rewrite Hleafst by lia. done.
    - destruct (Hok j ltac:(lia)) as [-> _].
      rewrite (IH (2 * kk - 2 * j)%nat ltac:(lia) (2 * j)%nat eq_refl ltac:(lia)).
      rewrite (IH (2 * kk - (2 * j + 1))%nat ltac:(lia) (2 * j + 1)%nat eq_refl ltac:(lia)).
      done. }
  split; [done|]. split; [done|]. split; [done|].
  exists W. split; [done|]. split.
  - intros j Hj. destruct (Hok j Hj) as [_ H].
    rewrite !Hall in H by lia. done.
  - apply Hroot, Hall. lia.
Qed.

End Initialize.

Lemma initial_leaves_length kk data :
  length (LoserTree.initial_leaves kk data) = S kk.
Proof.
  unfold LoserTree.initial_leaves.
  rewrite length_app, length_map, length_seq. simpl. lia.
Qed.

(** After initialize the tree is a tournament over its leaves. *)
Lemma initialize_tournament data lt :
  (1 <= k lt)%nat -> tournament_tree (LoserTree.initialize data lt).
Proof.
  intros Hk. unfold tournament_tree, LoserTree.initialize. simpl.
  apply building_done; [done | apply initial_leaves_length |].
  apply building_all; [done | lia |]. by apply building_start.
Qed.

(** replaceWinner and setWinnerToSentinel keep the tournament. *)
Lemma replace_leaf_tournament lt x :
  tournament_tree lt ->
  tournament_tree
    (LoserTree.replay (tree lt !!! 0%nat)
       (mkLoserTree (tree lt) (<[tree lt !!! 0%nat := x]> (leaves lt)) (k lt))).
Proof.
  intros (Hk & Hl & Hlv & W & Hleaf & Hplayed & Hroot).
  apply (replay_tournament (k lt) (leaves lt) (tree lt) W); try done.
  rewrite Hroot. eapply winner_in_subtree; eauto. lia.
Qed.

Lemma apply_op_tournament op lt :
  tournament_tree lt -> tournament_tree (apply_op op lt).
Proof. destruct op; apply replace_leaf_tournament. Qed.

(** ** The naive linear scan *)

Lemma scan_spec rest : forall pre best bestKey,
  (best < length pre)%nat -> pre !!! best = bestKey ->
  (forall i, (i < length pre)%nat -> beats bestKey (pre !!! i)) ->
  let r := Naive.scan rest (length pre) best bestKey in
  (r < length (pre ++ rest))%nat /\
  forall i, (i < length (pre ++ rest))%nat ->
    beats ((pre ++ rest) !!! r) ((pre ++ rest) !!! i).
Proof.
  induction rest as [|x rest IH]; intros pre best bestKey Hb Hk Hall; simpl.
  - rewrite app_nil_r. split; [done|]. rewrite Hk. done.
  - assert (Hpre : forall i, (i < length (pre ++ [x]))%nat -> (i < length pre)%nat \/
                     (i = length pre /\ (pre ++ [x]) !!! i = x)).
    { intros i Hi. rewrite length_app in Hi. simpl in Hi.
      destruct (decide (i < length pre)%nat); [by left|]. right.
      split; [lia|]. replace i with (length pre + 0)%nat by lia.
      by rewrite lookup_total_app_r, Nat.add_comm, Nat.add_sub by lia. }
    replace (pre ++ x :: rest) with ((pre ++ [x]) ++ rest) by (by rewrite <- app_assoc).
    replace (S (length pre)) with (length (pre ++ [x]))
      by (rewrite length_app; simpl; lia).
    rewrite key_lt_isLoser.
    destruct (LoserTree.isLoser bestKey x) eqn:E.
    + apply IH.
      * rewrite length_app. simpl. lia.
      * replace (length pre) with (length pre + 0)%nat at 1 by lia.
        by rewrite lookup_total_app_r, Nat.add_comm, Nat.add_sub by lia.
      * intros i Hi. destruct (Hpre i Hi) as [Hlt|[_ ->]]; [|apply beats_refl].
        rewrite lookup_total_app_l by done.
        eapply beats_trans; [by apply isLoser_beats | by apply Hall].
    + apply IH.
      * rewrite length_app. simpl. lia.
      * by rewrite lookup_total_app_l.
      * intros i Hi. destruct (Hpre i Hi) as [Hlt|[_ ->]]; [|done].
        rewrite lookup_total_app_l by done. by apply Hall.
Qed.

Lemma min_index_spec slots :
  (1 <= length slots)%nat ->
  (Naive.min_index slots < length slots)%nat /\
  forall i, (i < length slots)%nat ->
    beats (slots !!! Naive.min_index slots) (slots !!! i).
Proof.
  destruct slots as [|x rest]; simpl; [lia|]. intros _.
  apply (scan_spec rest [x] 0%nat x); simpl; [lia | done |].
  intros [|i] Hi; [apply beats_refl | lia].
Qed.

(** ** The loser tree against the naive scan *)

Lemma insert_Permutation {A} (l : list A) i a x :
  l !! i = Some a -> <[i := x]> l ≡ₚ x :: delete i l.
Proof.
  revert i. induction l as [|y l IH]; intros [|i] H; simpl in *; try done.
  rewrite (IH i H). apply perm_swap.
Qed.

Lemma replace_same_key (l1 l2 : list RunNode) i j a x :
  l1 ≡ₚ l2 -> l1 !! i = Some a -> l2 !! j = Some a ->
  <[i := x]> l1 ≡ₚ <[j := x]> l2.
Proof.
  intros Hp H1 H2.
  rewrite (insert_Permutation l1 i a x H1), (insert_Permutation l2 j a x H2).
  apply perm_skip. apply (Permutation_cons_inv (a := a)).
  by rewrite <- (delete_Permutation l1 i a H1), <- (delete_Permutation l2 j a H2).
Qed.

Lemma replay_leaves idx lt :
  leaves (LoserTree.replay idx lt) = leaves lt /\ k (LoserTree.replay idx lt) = k lt.
Proof.
  unfold LoserTree.replay. by destruct (LoserTree.replay_loop _ _ _ _ _).
Qed.

Section Simulation.

Variable lt : LoserTree.
Variable slots : list RunNode.
Hypothesis Hsim : same_slots lt slots.

Lemma same_slots_length : length slots = k lt /\ (1 <= k lt)%nat.
Proof.
  destruct Hsim as [(Hk & _ & Hlv & _) Hp].
  rewrite <- Hp, length_take, Hlv. lia.
Qed.

Lemma same_slots_winner : LoserTree.getWinner lt = Naive.getWinner slots.
Proof.
  destruct same_slots_length as [Hlen Hk1].
  destruct Hsim as [Ht Hp]. pose proof Ht as (Hk & Hl & Hlv & _).
  destruct (tournament_winner _ _ _ Ht) as [Hidx Hmin].
  destruct (min_index_spec slots ltac:(lia)) as [Hm Hnaive].
  unfold LoserTree.getWinner, Naive.getWinner.
  apply beats_antisym.
  - (* the naive winner is some leaf of the tree *)
    assert (slots !!! Naive.min_index slots ∈ take (k lt) (leaves lt)) as Hin.
    { rewrite Hp. apply list_elem_of_lookup_total_2. lia. }
    apply list_elem_of_lookup_total_1 in Hin as (i & Hi & <-).
    rewrite length_take in Hi.
    rewrite lookup_total_take_lt by lia. apply Hmin. lia.
  - (* the winner of the tree is some slot of the scan *)
    assert (leaves lt !!! (tree lt !!! 0%nat) ∈ slots) as Hin.
    { rewrite <- Hp. rewrite <- (lookup_total_take_lt _ (k lt)) by done.
      apply list_elem_of_lookup_total_2. rewrite length_take. lia. }
    apply list_elem_of_lookup_total_1 in Hin as (i & Hi & <-).
    by apply Hnaive.
Qed.

Lemma same_slots_step op : same_slots (apply_op op lt) (Naive.apply_op op slots).
Proof.
  destruct same_slots_length as [Hlen Hk1].
  pose proof same_slots_winner as Hw.
  destruct Hsim as [Ht Hp]. pose proof Ht as (Hk & Hl & Hlv & _).
  destruct (tournament_winner _ _ _ Ht) as [Hidx _].
  destruct (min_index_spec slots ltac:(lia)) as [Hm _].
  split; [by apply apply_op_tournament|].
  assert (forall x,
    take (k lt) (<[tree lt !!! 0%nat := x]> (leaves lt))
      ≡ₚ <[Naive.min_index slots := x]> slots) as Hstep.
  { intros x. rewrite take_insert_lt by done.
    apply (replace_same_key _ _ _ _ (LoserTree.getWinner lt)); [done | |].
    - rewrite lookup_take_lt by done. apply list_lookup_lookup_total_lt. lia.
    - rewrite Hw. apply list_lookup_lookup_total_lt. lia. }
  destruct op as [v r|]; simpl;
    unfold LoserTree.replaceWinner, LoserTree.setWinnerToSentinel;
    destruct (replay_leaves (tree lt !!! 0%nat)
                (mkLoserTree (tree lt)
                   (<[tree lt !!! 0%nat := mkRunNode v r]> (leaves lt)) (k lt)))
      as [E1 E2] ||
    destruct (replay_leaves (tree lt !!! 0%nat)
                (mkLoserTree (tree lt)
                   (<[tree lt !!! 0%nat := SENTINEL]> (leaves lt)) (k lt)))
      as [E1 E2];
    rewrite E1, E2; simpl; apply Hstep.
Qed.

End Simulation.

Lemma same_slots_winners ops : forall lt slots,
  same_slots lt slots -> winners ops lt = Naive.winners ops slots.
Proof.
  induction ops as [|op ops IH]; intros lt slots Hsim; simpl.
  - by rewrite (same_slots_winner lt slots).
  - rewrite (same_slots_winner lt slots) by done. f_equal.
    apply IH. by apply same_slots_step.
Qed.

Lemma initialize_same_slots data lt :
  (1 <= k lt)%nat ->
  same_slots (LoserTree.initialize data lt) (Naive.initialize (k lt) data).
Proof.
  intros Hk. split; [by apply initialize_tournament|].
  unfold LoserTree.initialize, LoserTree.initial_leaves, Naive.initialize. simpl.
  rewrite take_app_length'; [done|]. by rewrite length_map, length_seq.
Qed.

(** ** The iteration bounds of the model

    The loops of replay and initialize halve [parent] at every turn; the
    bound [parent] given to them in the model is never reached: any larger
    bound gives the same result. *)

Lemma replay_loop_fuel lv f1 :
  forall f2 tr parent cw, (parent <= f1)%nat -> (parent <= f2)%nat ->
    LoserTree.replay_loop f1 lv tr parent cw = LoserTree.replay_loop f2 lv tr parent cw.
Proof.
  induction f1 as [|f1 IH]; intros [|f2] tr parent cw H1 H2; try done.
  - assert (parent = 0%nat) by lia. by subst.
  - assert (parent = 0%nat) by lia. by subst.
  - rewrite !replay_loop_S. destruct (0 <? parent)%nat eqn:E; [|done].
    apply Nat.ltb_lt in E.
    assert (parent / 2 < parent)%nat by (apply Nat.div_lt; lia).
    destruct (LoserTree.isLoser _ _); apply IH; lia.
Qed.

Lemma build_walk_fuel kk lv f1 :
  forall f2 tr parent current, (parent <= f1)%nat -> (parent <= f2)%nat ->
    LoserTree.build_walk f1 kk lv tr parent current
    = LoserTree.build_walk f2 kk lv tr parent current.
Proof.
  induction f1 as [|f1 IH]; intros f2 tr parent current H1 H2;
    rewrite (build_walk_unfold _ kk lv tr parent current);
    rewrite (build_walk_unfold f2 kk lv tr parent current);
    destruct (parent =? 0)%nat eqn:E; try done; apply Nat.eqb_neq in E.
  - lia.
  - destruct f2 as [|f2]; [lia|].
    destruct (tr !!! parent =? kk)%nat; [done|].
    assert (parent / 2 < parent)%nat by (apply Nat.div_lt; lia).
    destruct (LoserTree.isLoser _ _); apply IH; lia.
Qed.

(** * Properties of the buffers and of the merger *)

(** ** Running monadic code *)

Lemma bind_ok {S A B} (m : M S A) (k : A -> M S B) s a s' :
  m s = (Ok a, s') -> bind m k s = k a s'.
Proof. unfold bind. by intros ->. Qed.

Lemma bind_throw {S A B} (m : M S A) (k : A -> M S B) s e s' :
  m s = (Throw e, s') -> bind m k s = (Throw e, s').
Proof. unfold bind. by intros ->. Qed.

(** ** Offsets of the data region *)

Section Offsets.

Variable h : RunFileHeader.

Lemma elem_index_at (i : nat) :
  RunFile.elem_index h (RunFile.data_start h + sizeof_T * Z.of_nat i) = Some i.
Proof.
  unfold RunFile.elem_index, sizeof_T.
  replace (RunFile.data_start h + 4 * Z.of_nat i - RunFile.data_start h)
    with (Z.of_nat i * 4) by lia.
  rewrite Z.mod_mul, Z.div_mul by lia.
  destruct (RunFile.data_start h <=? RunFile.data_start h + 4 * Z.of_nat i) eqn:E.
  - simpl. by rewrite Nat2Z.id.
  - apply Z.leb_gt in E. lia.
Qed.

Lemma elem_index_inv off i :
  RunFile.elem_index h off = Some i ->
  off = RunFile.data_start h + sizeof_T * Z.of_nat i.
Proof.
  unfold RunFile.elem_index, sizeof_T.
  destruct (RunFile.data_start h <=? off) eqn:E1; [|discriminate].
  destruct ((off - RunFile.data_start h) mod 4 =? 0) eqn:E2; [|discriminate].
  simpl. intros [= <-].
  apply Z.leb_le in E1. apply Z.eqb_eq in E2.
  rewrite Z2Nat.id by (apply Z.div_pos; lia).
  pose proof (Z.div_mod (off - RunFile.data_start h) 4 ltac:(lia)). lia.
Qed.

Lemma elem_index_shift off i (n : nat) :
  RunFile.elem_index h off = Some i ->
  RunFile.elem_index h (off + Z.of_nat n * sizeof_T) = Some (i + n)%nat.
Proof.
  intros H. apply elem_index_inv in H. subst off.
  replace (RunFile.data_start h + sizeof_T * Z.of_nat i + Z.of_nat n * sizeof_T)
    with (RunFile.data_start h + sizeof_T * Z.of_nat (i + n)) by lia.
  apply elem_index_at.
Qed.

End Offsets.

(** ** The stream *)

Lemma stream_read_ok rf im off i n :
  wf_open rf im -> RunFile.elem_index (f_header im) off = Some i ->
  (i + n <= length (f_data im))%nat ->
  RunFile.stream_read off n rf = (Ok (take n (drop i (f_data im))), rf).
Proof.
  intros [Ho Hi _ _ _ _ _] He Hn. unfold RunFile.stream_read.
  rewrite Ho, Hi, He.
  destruct (i + n <=? length (f_data im))%nat eqn:E; [done|].
  apply Nat.leb_gt in E. lia.
Qed.

Lemma grows_refl rf im : wf_open rf im -> grows rf im rf im.
Proof.
  intros H. repeat (split; [done|]). exists []. by rewrite app_nil_r.
Qed.

Lemma grows_trans rf1 im1 rf2 im2 rf3 im3 :
  grows rf1 im1 rf2 im2 -> grows rf2 im2 rf3 im3 -> grows rf1 im1 rf3 im3.
Proof.
  intros (_ & H1 & H2 & H3 & e1 & H4) (Hw & G1 & G2 & G3 & e2 & G4).
  split; [done|]. split; [congruence|]. split; [congruence|]. split; [congruence|].
  exists (e1 ++ e2). rewrite G4, H4. by rewrite app_assoc.
Qed.

Lemma grows_wf rf im rf' im' : grows rf im rf' im' -> wf_open rf' im'.
Proof. by intros [H _]. Qed.

(** Appending at the end of the file. *)
Lemma stream_write_append rf im off block :
  wf_open rf im -> RunFile.elem_index (f_header im) off = Some (length (f_data im)) ->
  exists rf' im',
    RunFile.stream_write off block rf = (Ok tt, rf') /\
    grows rf im rf' im' /\ f_data im' = f_data im ++ block.
Proof.
  intros Hwf He. pose proof Hwf as [Ho Hi Hm Hg Hx Hn Hl].
  unfold RunFile.stream_write. rewrite Ho, Hi, He.
  assert (Hd : take (length (f_data im)) (f_data im)
                 ++ replicate (length (f_data im) - length (f_data im)) 0
                 ++ block ++ drop (length (f_data im) + length block) (f_data im)
               = f_data im ++ block).
  { rewrite firstn_all, Nat.sub_diag, drop_ge by lia. simpl. by rewrite app_nil_r. }
  rewrite Hd.
  eexists _, (mkFileImage (f_header im) (f_directory im) (f_data im ++ block)).
  split; [reflexivity|]. split; [|done].
  split; [constructor; simpl; auto|]. simpl.
  split; [done|]. split; [done|]. split; [done|]. by exists block.
Qed.

Lemma run_content_inv im meta xs :
  run_content im meta = Some xs ->
  exists i, RunFile.elem_index (f_header im) (startOffset meta) = Some i /\
    elementCount meta = Z.of_nat (length xs) /\
    (i + length xs <= length (f_data im))%nat /\
    xs = take (length xs) (drop i (f_data im)).
Proof.
  unfold run_content.
  destruct (RunFile.elem_index _ _) as [i|]; [|discriminate].
  destruct (0 <=? elementCount meta) eqn:E1; [|discriminate].
  destruct (i + Z.to_nat (elementCount meta) <=? length (f_data im))%nat eqn:E2;
    [|discriminate].
  simpl. intros [= <-]. apply Z.leb_le in E1. apply Nat.leb_le in E2.
  assert (Hlen : length (take (Z.to_nat (elementCount meta)) (drop i (f_data im)))
                 = Z.to_nat (elementCount meta)).
  { rewrite length_take, length_drop. lia. }
  exists i. rewrite Hlen. split; [done|]. split; [lia|]. split; [lia | done].
Qed.

Lemma run_content_intro im meta i xs :
  RunFile.elem_index (f_header im) (startOffset meta) = Some i ->
  elementCount meta = Z.of_nat (length xs) ->
  (i + length xs <= length (f_data im))%nat ->
  xs = take (length xs) (drop i (f_data im)) ->
  run_content im meta = Some xs.
Proof.
  intros He Hc Hl Hx. unfold run_content. rewrite He, Hc, Nat2Z.id.
  destruct (0 <=? Z.of_nat (length xs)) eqn:E1; [|apply Z.leb_gt in E1; lia].
  destruct (i + length xs <=? length (f_data im))%nat eqn:E2;
    [|apply Nat.leb_gt in E2; lia].
  simpl. by rewrite <- Hx.
Qed.

Lemma run_content_grows rf im rf' im' meta xs :
  grows rf im rf' im' -> run_content im meta = Some xs ->
  run_content im' meta = Some xs.
Proof.
  intros (_ & _ & _ & Hh & extra & Hd) H.
  apply run_content_inv in H as (i & He & Hc & Hl & Hx).
  apply (run_content_intro _ _ i); rewrite ?Hh; try done.
  - rewrite Hd, length_app. lia.
  - rewrite Hd, drop_app_le by lia. rewrite take_app_le by (rewrite length_drop; lia).
    done.
Qed.

(** ** InputBuffer *)

Lemma sub_block (d : list T) (i c t n : nat) :
  (t + n <= c)%nat ->
  take n (drop t (take c (drop i d))) = take n (drop (i + t) d).
Proof.
  intros H. apply list_eq. intros j.
  rewrite !lookup_take. case_decide; [|done].
  rewrite !lookup_drop, lookup_take, lookup_drop.
  case_decide; [|lia]. f_equal. lia.
Qed.

Lemma ib_reads_new meta size xs :
  (1 <= size)%nat -> ib_reads xs (InputBuffer.new meta size) xs.
Proof.
  intros Hs. split; [done|]. split; [simpl; lia|].
  exists 0%nat. split; [done|]. split; [lia|]. simpl. by rewrite drop_0.
Qed.

Lemma getNextItem_spec rf im ib xs rest :
  wf_open rf im -> run_content im (ib_runMeta ib) = Some xs ->
  ib_reads xs ib rest ->
  exists ib',
    InputBuffer.getNextItem ib rf = (Ok (head rest, ib'), rf) /\
    ib_runMeta ib' = ib_runMeta ib /\
    ib_reads xs ib' (tail rest).
Proof.
  intros Hwf Hrun (Hsize & Hbuf & t & Ht & Htl & Hrest).
  apply run_content_inv in Hrun as (i0 & He & Hc & Hl & Hx).
  unfold InputBuffer.getNextItem.
  destruct (ib_elementsInBuffer ib <=? ib_currentIndexInBuffer ib)%nat eqn:Hidx.
  - (* the block is used up *)
    apply Nat.leb_le in Hidx.
    rewrite drop_ge in Hrest by (rewrite length_take; lia). simpl in Hrest.
    unfold InputBuffer.readBlock. rewrite Hc, Ht.
    destruct (Z.of_nat (length xs) <=? Z.of_nat t) eqn:Hend.
    + (* end of the run *)
      apply Z.leb_le in Hend.
      rewrite drop_ge in Hrest by lia. subst rest.
      exists ib. split; [done|]. split; [done|].
      split; [done|]. split; [done|]. exists t. split; [done|]. split; [done|].
      simpl. rewrite drop_ge by (rewrite length_take; lia).
      rewrite drop_ge by lia. done.
    + apply Z.leb_gt in Hend.
      set (n := Z.min (Z.of_nat (ib_bufferSizeInElements ib))
                  (Z.of_nat (length xs) - Z.of_nat t)).
      assert (Hn : 0 < n) by (unfold n; lia).
      destruct (n <=? 0) eqn:Hn0; [apply Z.leb_le in Hn0; lia|].
      assert (Hread : RunFile.stream_read
                        (startOffset (ib_runMeta ib) + Z.of_nat t * sizeof_T)
                        (Z.to_nat n) rf
                      = (Ok (take (Z.to_nat n) (drop t xs)), rf)).
      { rewrite (stream_read_ok rf im _ (i0 + t)%nat);
          [| done | by apply elem_index_shift | unfold n; lia].
        rewrite Hx at 1. rewrite sub_block by (unfold n; lia). done. }
      unfold bind. rewrite Hread. simpl.
      assert (Hblock : length (take (Z.to_nat n) (drop t xs)) = Z.to_nat n).
      { rewrite length_take, length_drop. unfold n. lia. }
      assert (Hsplit : rest = take (Z.to_nat n) (drop t xs)
                              ++ drop (t + Z.to_nat n) xs).
      { rewrite Hrest. rewrite <- (take_drop (Z.to_nat n) (drop t xs)) at 1.
        by rewrite drop_drop. }
      destruct (take (Z.to_nat n) (drop t xs)) as [|y blk] eqn:Hblk;
        [simpl in Hblock; lia|].
      eexists. split; [rewrite Hsplit; reflexivity|]. split; [done|].
      split; [done|]. split; [simpl in *; lia|].
      exists (t + Z.to_nat n)%nat. split; [simpl; lia|].
      split; [unfold n; lia|]. simpl. rewrite Hsplit. simpl.
      rewrite <- Hblock, firstn_all. done.
  - (* the next element is in the block *)
    apply Nat.leb_gt in Hidx. simpl.
    assert (Hlk : (ib_currentIndexInBuffer ib
                   < length (take (ib_elementsInBuffer ib) (ib_buffer ib)))%nat)
      by (rewrite length_take; lia).
    destruct (lookup_lt_is_Some_2 _ _ Hlk) as [y Hy].
    rewrite (drop_S _ _ _ Hy) in Hrest. subst rest. simpl.
    rewrite lookup_take_lt in Hy by done.
    rewrite (list_lookup_total_correct _ _ _ Hy).
    eexists. split; [reflexivity|]. split; [done|].
    split; [done|]. split; [done|]. exists t. done.
Qed.

Lemma feeds_first rf im ib xs :
  wf_open rf im -> run_content im (ib_runMeta ib) = Some xs ->
  ib_reads xs ib xs ->
  exists r,
    InputBuffer.getNextItem ib rf = (Ok r, rf) /\
    ib_runMeta (snd r) = ib_runMeta ib /\ feeds xs (fst r) (snd r) xs.
Proof.
  intros Hwf Hrun Hib.
  destruct (getNextItem_spec rf im ib xs xs Hwf Hrun Hib) as (ib' & Hg & Hm & Hr).
  exists (head xs, ib'). split; [done|]. split; [done|]. simpl.
  exists (tail xs). split; [done|]. by destruct xs.
Qed.

Lemma feeds_next rf im ib xs x s :
  wf_open rf im -> run_content im (ib_runMeta ib) = Some xs ->
  feeds xs (Some x) ib (x :: s) ->
  exists r,
    InputBuffer.getNextItem ib rf = (Ok r, rf) /\
    ib_runMeta (snd r) = ib_runMeta ib /\ feeds xs (fst r) (snd r) s.
Proof.
  intros Hwf Hrun (rest & Hib & [= <-]).
  destruct (getNextItem_spec rf im ib xs s Hwf Hrun Hib) as (ib' & Hg & Hm & Hr).
  exists (head s, ib'). split; [done|]. split; [done|]. simpl.
  exists (tail s). split; [done|]. by destruct s.
Qed.

Lemma feeds_None xs ib s : feeds xs None ib s -> s = [].
Proof. by intros (rest & _ & -> & _). Qed.

Lemma feeds_Some xs x ib s : feeds xs (Some x) ib s -> exists s', s = x :: s'.
Proof. intros (rest & _ & ->). eauto. Qed.

(** Reading a run to its end delivers its elements. *)
Lemma read_loop_spec rf im xs fuel : forall ib rest acc,
  wf_open rf im -> run_content im (ib_runMeta ib) = Some xs ->
  ib_reads xs ib rest -> (length rest < fuel)%nat ->
  InputBuffer.read_loop fuel ib acc rf = (Ok (acc ++ rest), rf).
Proof.
  induction fuel as [|f IH]; intros ib rest acc Hwf Hrun Hib Hf; [lia|].
  destruct (getNextItem_spec rf im ib xs rest Hwf Hrun Hib) as (ib' & Hg & Hm & Hr).
  simpl. rewrite (bind_ok _ _ _ _ _ Hg).
  destruct rest as [|x rest]; simpl.
  - by rewrite app_nil_r.
  - rewrite (IH ib' rest (acc ++ [x])); try done.
    + by rewrite <- app_assoc.
    + by rewrite Hm.
    + simpl in Hf. lia.
Qed.

Lemma read_run_spec rf im meta xs size :
  wf_open rf im -> run_content im meta = Some xs -> (1 <= size)%nat ->
  InputBuffer.read_run meta size rf = (Ok xs, rf).
Proof.
  intros Hwf Hrun Hs. unfold InputBuffer.read_run.
  apply run_content_inv in Hrun as Hinv. destruct Hinv as (_ & _ & Hc & _).
  rewrite (read_loop_spec rf im xs _ _ xs []); try done.
  - by apply ib_reads_new.
  - rewrite Hc, Nat2Z.id. lia.
Qed.

(** ** OutputBuffer *)

Lemma ob_holds_new im start size :
  RunFile.elem_index (f_header im) start = Some (length (f_data im)) ->
  (1 <= size)%nat ->
  ob_holds im (length (f_data im)) (OutputBuffer.new start size) [].
Proof.
  intros He Hs. unfold ob_holds. simpl.
  split; [done|]. split; [done|]. split; [lia|]. split; [lia|].
  split; [apply length_replicate|]. by rewrite drop_all.
Qed.

Lemma writeBlock_spec rf im base ob out :
  wf_open rf im -> 
  RunFile.elem_index (f_header im) (ob_runStartOffset ob) = Some base ->
  (base <= length (f_data im))%nat ->
  ob_totalElementsWritten ob = Z.of_nat (length (f_data im) - base) ->
  (ob_currentBufferIndex ob <= length (ob_buffer ob))%nat ->
  (1 <= ob_bufferSizeInElements ob)%nat ->
  length (ob_buffer ob) = ob_bufferSizeInElements ob ->
  out = drop base (f_data im) ++ take (ob_currentBufferIndex ob) (ob_buffer ob) ->
  exists ob' rf' im',
    OutputBuffer.writeBlock ob rf = (Ok ob', rf') /\
    grows rf im rf' im' /\ ob_holds im' base ob' out /\
    ob_currentBufferIndex ob' = 0%nat /\
    ob_runStartOffset ob' = ob_runStartOffset ob.
Proof.
  intros Hwf He Hb Ht Hidx Hsz Hlen Hout.
  unfold OutputBuffer.writeBlock, gets. unfold bind at 1.
  rewrite (wf_is_open _ _ Hwf). simpl.
  destruct (ob_currentBufferIndex ob =? 0)%nat eqn:E.
  - apply Nat.eqb_eq in E. exists ob, rf, im. split; [done|].
    split; [by apply grows_refl|]. split; [|done].
    unfold ob_holds. rewrite E in *. repeat (split; [done || lia|]). done.
  - apply Nat.eqb_neq in E.
    destruct (stream_write_append rf im
                (ob_runStartOffset ob + ob_totalElementsWritten ob * sizeof_T)
                (take (ob_currentBufferIndex ob) (ob_buffer ob)) Hwf)
      as (rf' & im' & Hw & Hg & Hd).
    { rewrite Ht. rewrite (elem_index_shift _ _ base) by done. f_equal. lia. }
    rewrite (bind_ok _ _ _ _ _ Hw). simpl.
    eexists _, rf', im'. split; [reflexivity|]. split; [done|]. split; [|done].
    destruct Hg as (_ & _ & _ & Hh & _).
    unfold ob_holds. simpl. rewrite Hh, Hd.
    split; [done|]. split; [rewrite length_app; lia|].
    split; [rewrite !length_app, length_take; lia|]. split; [lia|]. split; [done|].
    rewrite Hout, drop_app_le by lia. by rewrite app_nil_r.
Qed.

Lemma setNextItem_spec rf im base ob out x :
  wf_open rf im -> ob_holds im base ob out ->
  exists ob' rf' im',
    OutputBuffer.setNextItem x ob rf = (Ok ob', rf') /\
    grows rf im rf' im' /\ ob_holds im' base ob' (out ++ [x]) /\
    ob_runStartOffset ob' = ob_runStartOffset ob.
Proof.
  intros Hwf (He & Hb & Ht & Hidx & Hlen & Hout).
  unfold OutputBuffer.setNextItem.
  cbn [ob_currentBufferIndex ob_bufferSizeInElements].
  assert (Htake : take (S (ob_currentBufferIndex ob))
                    (<[ob_currentBufferIndex ob := x]> (ob_buffer ob))
                  = take (ob_currentBufferIndex ob) (ob_buffer ob) ++ [x]).
  { rewrite (take_S_r _ _ x) by (apply list_lookup_insert_eq; lia).
    by rewrite take_insert_ge. }
  destruct (S (ob_currentBufferIndex ob) =? ob_bufferSizeInElements ob)%nat eqn:E.
  - destruct (writeBlock_spec rf im base
                (mkOutputBuffer (ob_runStartOffset ob) (ob_bufferSizeInElements ob)
                   (<[ob_currentBufferIndex ob := x]> (ob_buffer ob))
                   (S (ob_currentBufferIndex ob)) (ob_totalElementsWritten ob))
                (out ++ [x]) Hwf)
      as (ob' & rf' & im' & Hw & Hg & Hh & _ & Hs); simpl; try done.
    + rewrite length_insert. lia.
    + lia.
    + by rewrite length_insert.
    + rewrite Htake, Hout. by rewrite app_assoc.
    + exists ob', rf', im'. simpl in Hs. auto.
  - apply Nat.eqb_neq in E.
    eexists _, rf, im. split; [reflexivity|]. split; [by apply grows_refl|].
    split; [|done]. unfold ob_holds. simpl.
    split; [done|]. split; [done|]. split; [done|]. split; [lia|].
    split; [by rewrite length_insert|].
    rewrite Htake, Hout. by rewrite app_assoc.
Qed.

Lemma flush_spec rf im base ob out :
  wf_open rf im -> ob_holds im base ob out ->
  exists ob' rf' im',
    OutputBuffer.flush ob rf = (Ok ob', rf') /\
    grows rf im rf' im' /\
    f_data im' = take base (f_data im') ++ out /\
    (base <= length (f_data im'))%nat /\
    OutputBuffer.getElementCount ob' = Z.of_nat (length out) /\
    ob_runStartOffset ob' = ob_runStartOffset ob.
Proof.
  intros Hwf (He & Hb & Ht & Hidx & Hlen & Hout).
  unfold OutputBuffer.flush.
  destruct (0 <? ob_currentBufferIndex ob)%nat eqn:E.
  - destruct (writeBlock_spec rf im base ob out Hwf)
      as (ob' & rf' & im' & Hw & Hg & Hh & Hz & Hs); try done; try lia.
    exists ob', rf', im'. split; [done|]. split; [done|].
    destruct Hh as (_ & Hb' & Ht' & _ & _ & Hout').
    rewrite Hz in Hout'. simpl in Hout'. rewrite app_nil_r in Hout'.
    split; [by rewrite Hout', take_drop|]. split; [done|]. split; [|done].
    unfold OutputBuffer.getElementCount. rewrite Ht', Hz, Hout', length_drop. lia.
  - apply Nat.ltb_ge in E. assert (ob_currentBufferIndex ob = 0)%nat as Hz by lia.
    exists ob, rf, im. split; [done|]. split; [by apply grows_refl|].
    rewrite Hz in Hout. simpl in Hout. rewrite app_nil_r in Hout.
    split; [by rewrite Hout, take_drop|]. split; [done|]. split; [|done].
    unfold OutputBuffer.getElementCount. rewrite Ht, Hz, Hout, length_drop. lia.
Qed.

(** ** The two-way merge *)

Lemma merge2_cons x xs y ys :
  merge2 (x :: xs) (y :: ys) =
    if x <? y then x :: merge2 xs (y :: ys) else y :: merge2 (x :: xs) ys.
Proof. reflexivity. Qed.

Lemma merge2_nil_l ys : merge2 [] ys = ys.
Proof. by destruct ys. Qed.

Lemma merge2_nil_r xs : merge2 xs [] = xs.
Proof. by destruct xs. Qed.

Lemma merge2_length xs : forall ys,
  length (merge2 xs ys) = (length xs + length ys)%nat.
Proof.
  induction xs as [|x xs IHx]; intros ys; [by rewrite merge2_nil_l|].
  induction ys as [|y ys IHy]; [rewrite merge2_nil_r; simpl; lia|].
  rewrite merge2_cons. destruct (x <? y); cbn [length].
  - rewrite IHx. simpl. lia.
  - rewrite IHy. simpl. lia.
Qed.

Lemma merge2_Permutation xs : forall ys, merge2 xs ys ≡ₚ xs ++ ys.
Proof.
  induction xs as [|x xs IHx]; intros ys; [by rewrite merge2_nil_l|].
  induction ys as [|y ys IHy]; [by rewrite merge2_nil_r, app_nil_r|].
  rewrite merge2_cons. destruct (x <? y).
  - by rewrite IHx.
  - rewrite IHy. apply Permutation_middle.
Qed.

Lemma merge2_HdRel a xs ys :
  HdRel Z.le a xs -> HdRel Z.le a ys -> HdRel Z.le a (merge2 xs ys).
Proof.
  intros Hx Hy. destruct xs as [|x xs]; [by rewrite merge2_nil_l|].
  destruct ys as [|y ys]; [by rewrite merge2_nil_r|].
  rewrite merge2_cons. destruct (x <? y); constructor.
  - by inversion Hx.
  - by inversion Hy.
Qed.

(** The merge of two non-decreasing sequences is non-decreasing. *)
Lemma merge2_nondecreasing xs : forall ys,
  nondecreasing xs -> nondecreasing ys -> nondecreasing (merge2 xs ys).
Proof.
  unfold nondecreasing.
  induction xs as [|x xs IHx]; intros ys Hx Hy; [by rewrite merge2_nil_l|].
  induction ys as [|y ys IHy]; [by rewrite merge2_nil_r|].
  rewrite merge2_cons. destruct (x <? y) eqn:E.
  - apply Z.ltb_lt in E. inversion Hx; subst. constructor.
    + by apply IHx.
    + apply merge2_HdRel; [done|]. constructor. lia.
  - apply Z.ltb_ge in E. inversion Hy; subst. constructor.
    + by apply IHy.
    + apply merge2_HdRel; [|done]. constructor. lia.
Qed.

(** ** The loops of MergeInMem *)

Lemma merge_loop_spec fuel :
  forall a b inA inB out rf im xsA xsB As Bs base acc,
    wf_open rf im ->
    run_content im (ib_runMeta inA) = Some xsA ->
    run_content im (ib_runMeta inB) = Some xsB ->
    feeds xsA a inA As -> feeds xsB b inB Bs ->
    ob_holds im base out acc ->
    (length As + length Bs <= fuel)%nat ->
    exists a' b' inA' inB' out' rf' im' As' Bs' part,
      Merger.merge_loop fuel a b inA inB out rf = (Ok (a', b', inA', inB', out'), rf') /\
      grows rf im rf' im' /\
      ib_runMeta inA' = ib_runMeta inA /\ ib_runMeta inB' = ib_runMeta inB /\
      feeds xsA a' inA' As' /\ feeds xsB b' inB' Bs' /\
      (As' = [] \/ Bs' = []) /\
      ob_holds im' base out' (acc ++ part) /\
      merge2 As Bs = part ++ merge2 As' Bs' /\
      (length As' <= length As)%nat /\ (length Bs' <= length Bs)%nat.
Proof.
  induction fuel as [|f IH];
    intros a b inA inB out rf im xsA xsB As Bs base acc Hwf HrA HrB HfA HfB Hob Hfuel.
  - (* no turn is left, so one side is exhausted *)
    assert (As = [] /\ Bs = []) as [-> ->] by (destruct As, Bs; simpl in *; done || lia).
    exists a, b, inA, inB, out, rf, im, [], [], [].
    split.
    { destruct a; [by apply feeds_Some in HfA as [? ?]|].
      by destruct b. }
    split; [by apply grows_refl|]. rewrite app_nil_r. simpl. auto 10.
  - destruct a as [x|].
    2:{ pose proof (feeds_None _ _ _ HfA) as ->.
        exists None, b, inA, inB, out, rf, im, [], Bs, [].
        split; [done|]. split; [by apply grows_refl|]. rewrite app_nil_r.
        simpl. auto 10. }
    destruct b as [y|].
    2:{ pose proof (feeds_None _ _ _ HfB) as ->.
        exists (Some x), None, inA, inB, out, rf, im, As, [], [].
        split; [done|]. split; [by apply grows_refl|]. rewrite app_nil_r.
        simpl. auto 10. }
    destruct (feeds_Some _ _ _ _ HfA) as [As0 ->].
    destruct (feeds_Some _ _ _ _ HfB) as [Bs0 ->].
    cbn [Merger.merge_loop]. rewrite merge2_cons.
    destruct (x <? y) eqn:E.
    + destruct (setNextItem_spec rf im base out acc x Hwf Hob)
        as (out1 & rf1 & im1 & Hset & Hg1 & Hob1 & _).
      pose proof (grows_wf _ _ _ _ Hg1) as Hwf1.
      pose proof (run_content_grows _ _ _ _ _ _ Hg1 HrA) as HrA1.
      pose proof (run_content_grows _ _ _ _ _ _ Hg1 HrB) as HrB1.
      destruct (feeds_next rf1 im1 inA xsA x As0 Hwf1 HrA1 HfA) as (r & Hget & Hm & Hf1).
      rewrite (bind_ok _ _ _ _ _ Hset), (bind_ok _ _ _ _ _ Hget).
      rewrite <- Hm in HrA1.
      destruct (IH (fst r) (Some y) (snd r) inB out1 rf1 im1 xsA xsB As0 (y :: Bs0)
                  base (acc ++ [x]) Hwf1 HrA1 HrB1 Hf1 HfB Hob1)
        as (a' & b' & inA' & inB' & out' & rf' & im' & As' & Bs' & part
            & Hrun & Hg & HmA & HmB & HfA' & HfB' & Hend & Hob' & Hmerge & HlA & HlB).
      { simpl in *. lia. }
      exists a', b', inA', inB', out', rf', im', As', Bs', (x :: part).
      split; [done|]. split; [by eapply grows_trans|].
      split; [congruence|]. split; [done|]. split; [done|]. split; [done|].
      split; [done|]. split; [by rewrite <- app_assoc in Hob'|].
      split; [by rewrite Hmerge|]. simpl in *. lia.
    + destruct (setNextItem_spec rf im base out acc y Hwf Hob)
        as (out1 & rf1 & im1 & Hset & Hg1 & Hob1 & _).
      pose proof (grows_wf _ _ _ _ Hg1) as Hwf1.
      pose proof (run_content_grows _ _ _ _ _ _ Hg1 HrA) as HrA1.
      pose proof (run_content_grows _ _ _ _ _ _ Hg1 HrB) as HrB1.
      destruct (feeds_next rf1 im1 inB xsB y Bs0 Hwf1 HrB1 HfB) as (r & Hget & Hm & Hf1).
      rewrite (bind_ok _ _ _ _ _ Hset), (bind_ok _ _ _ _ _ Hget).
      rewrite <- Hm in HrB1.
      destruct (IH (Some x) (fst r) inA (snd r) out1 rf1 im1 xsA xsB (x :: As0) Bs0
                  base (acc ++ [y]) Hwf1 HrA1 HrB1 HfA Hf1 Hob1)
        as (a' & b' & inA' & inB' & out' & rf' & im' & As' & Bs' & part
            & Hrun & Hg & HmA & HmB & HfA' & HfB' & Hend & Hob' & Hmerge & HlA & HlB).
      { simpl in *. lia. }
      exists a', b', inA', inB', out', rf', im', As', Bs', (y :: part).
      split; [done|]. split; [by eapply grows_trans|].
      split; [done|]. split; [congruence|]. split; [done|]. split; [done|].
      split; [done|]. split; [by rewrite <- app_assoc in Hob'|].
      split; [by rewrite Hmerge|]. simpl in *. lia.
Qed.

Lemma drain_loop_spec fuel :
  forall a ib out rf im xs s base acc,
    wf_open rf im -> run_content im (ib_runMeta ib) = Some xs ->
    feeds xs a ib s -> ob_holds im base out acc ->
    (length s <= fuel)%nat ->
    exists ib' out' rf' im',
      Merger.drain_loop fuel a ib out rf = (Ok (ib', out'), rf') /\
      grows rf im rf' im' /\ ob_holds im' base out' (acc ++ s).
Proof.
  induction fuel as [|f IH]; intros a ib out rf im xs s base acc Hwf Hr Hf Hob Hfuel.
  - assert (s = []) as -> by (destruct s; simpl in *; done || lia).
    destruct a; [by apply feeds_Some in Hf as [? ?]|].
    exists ib, out, rf, im. split; [done|]. split; [by apply grows_refl|].
    by rewrite app_nil_r.
  - destruct a as [x|].
    2:{ pose proof (feeds_None _ _ _ Hf) as ->.
        exists ib, out, rf, im. split; [done|]. split; [by apply grows_refl|].
        by rewrite app_nil_r. }
    destruct (feeds_Some _ _ _ _ Hf) as [s0 ->].
    cbn [Merger.drain_loop].
    destruct (setNextItem_spec rf im base out acc x Hwf Hob)
      as (out1 & rf1 & im1 & Hset & Hg1 & Hob1 & _).
    pose proof (grows_wf _ _ _ _ Hg1) as Hwf1.
    pose proof (run_content_grows _ _ _ _ _ _ Hg1 Hr) as Hr1.
    destruct (feeds_next rf1 im1 ib xs x s0 Hwf1 Hr1 Hf) as (r & Hget & Hm & Hf1).
    rewrite (bind_ok _ _ _ _ _ Hset), (bind_ok _ _ _ _ _ Hget).
    rewrite <- Hm in Hr1.
    destruct (IH (fst r) (snd r) out1 rf1 im1 xs s0 base (acc ++ [x]) Hwf1 Hr1 Hf1 Hob1)
      as (ib' & out' & rf' & im' & Hrun & Hg & Hob').
    { simpl in *. lia. }
    exists ib', out', rf', im'. split; [done|]. split; [by eapply grows_trans|].
    by rewrite <- app_assoc in Hob'.
Qed.

(** ** MergeInMem *)

Lemma run_content_append im im' meta xs extra :
  f_header im' = f_header im -> f_data im' = f_data im ++ extra ->
  run_content im meta = Some xs -> run_content im' meta = Some xs.
Proof.
  intros Hh Hd H.
  apply run_content_inv in H as (i & He & Hc & Hl & Hx).
  apply (run_content_intro _ _ i); rewrite ?Hh; try done.
  - rewrite Hd, length_app. lia.
  - rewrite Hd, drop_app_le by lia. rewrite take_app_le by (rewrite length_drop; lia).
    done.
Qed.

Lemma first_free_take_all rf im :
  wf_open rf im ->
  take (Z.to_nat (maxRuns (header rf))) (directory rf) = directory rf.
Proof. intros H. rewrite <- (wf_length _ _ H). apply firstn_all. Qed.

Lemma allocateNewRun_full rf im :
  wf_open rf im -> RunFile.first_free (directory rf) 0 = None ->
  RunFile.allocateNewRun rf = (Ok (-1), rf).
Proof.
  intros Hwf Hff. unfold RunFile.allocateNewRun.
  by rewrite (first_free_take_all _ _ Hwf), Hff.
Qed.

Lemma allocateNewRun_free rf im i :
  wf_open rf im -> RunFile.first_free (directory rf) 0 = Some i ->
  exists rf' im',
    RunFile.allocateNewRun rf = (Ok (Z.of_nat i), rf') /\
    wf_open rf' im' /\ f_data im' = f_data im /\ f_header im' = f_header im /\
    (i < length (directory rf))%nat /\
    directory rf' = <[i := mkRunMetadata 0 0 true]> (directory rf) /\
    maxRuns (header rf') = maxRuns (header rf).
Proof.
  intros Hwf Hff. unfold RunFile.allocateNewRun.
  rewrite (first_free_take_all _ _ Hwf), Hff.
  apply first_free_spec in Hff as (_ & Hlt & _). rewrite Nat.sub_0_r in Hlt.
  pose proof (wf_length _ _ Hwf) as Hlen.
  pose proof (writeMetadataToDisk_wf rf im (Z.of_nat i) (mkRunMetadata 0 0 true) Hwf
                ltac:(lia)) as H.
  rewrite Nat2Z.id in H.
  destruct (writeMetadataToDisk_memory (Z.of_nat i)
              (RunFile.set_directory (<[i:=mkRunMetadata 0 0 true]> (directory rf)) rf))
    as (Eh & Ed & _).
  destruct H as [Ho Hi Hm Hg Hx Hn Hl].
  eexists _, _. split; [reflexivity|].
  split; [constructor; simpl; eauto|]. simpl.
  rewrite Eh, Ed. simpl. auto 10.
Qed.

Lemma getAppendOffset_ok rf im :
  wf_open rf im -> RunFile.getAppendOffset rf = (Ok (RunFile.file_length im), rf).
Proof. intros [Ho Hi _ _ _ _ _]. unfold RunFile.getAppendOffset. by rewrite Ho, Hi. Qed.

Lemma file_length_index im :
  RunFile.elem_index (f_header im) (RunFile.file_length im) = Some (length (f_data im)).
Proof. apply elem_index_at. Qed.

Lemma updateRunMetadata_ok rf im i s c :
  wf_open rf im -> (i < length (directory rf))%nat ->
  exists rf' im',
    RunFile.updateRunMetadata (Z.of_nat i) s c rf = (Ok tt, rf') /\
    wf_open rf' im' /\ f_data im' = f_data im /\ f_header im' = f_header im /\
    directory rf' =
      <[i := mkRunMetadata s c (isUsed (directory rf !!! i))]> (directory rf) /\
    maxRuns (header rf') = maxRuns (header rf).
Proof.
  intros Hwf Hi. pose proof (wf_length _ _ Hwf) as Hlen.
  unfold RunFile.updateRunMetadata.
  destruct (Z.of_nat i <? 0) eqn:E1; [apply Z.ltb_lt in E1; lia|].
  destruct (maxRuns (header rf) <=? Z.of_nat i) eqn:E2; [apply Z.leb_le in E2; lia|].
  simpl. rewrite Nat2Z.id.
  pose proof (writeMetadataToDisk_wf rf im (Z.of_nat i)
                (mkRunMetadata s c (isUsed (directory rf !!! i))) Hwf ltac:(lia)) as H.
  rewrite Nat2Z.id in H.
  destruct (writeMetadataToDisk_memory (Z.of_nat i)
              (RunFile.set_directory
                 (<[i:=mkRunMetadata s c (isUsed (directory rf !!! i))]> (directory rf)) rf))
    as (Eh & Ed & _).
  eexists _, _. split; [reflexivity|]. split; [exact H|]. simpl.
  rewrite Eh, Ed. simpl. auto.
Qed.

Lemma getRunMetadata_ok rf im i :
  wf_open rf im -> (i < length (directory rf))%nat ->
  RunFile.getRunMetadata (Z.of_nat i) rf = (Ok (directory rf !!! i), rf).
Proof.
  intros Hwf Hi. pose proof (wf_length _ _ Hwf) as Hlen.
  unfold RunFile.getRunMetadata.
  destruct (Z.of_nat i <? 0) eqn:E1; [apply Z.ltb_lt in E1; lia|].
  destruct (maxRuns (header rf) <=? Z.of_nat i) eqn:E2; [apply Z.leb_le in E2; lia|].
  simpl. by rewrite Nat2Z.id.
Qed.

(** With the directory full, MergeInMem throws and leaves the file as it
    was. *)
Lemma MergeInMem_full rf im runA runB :
  wf_open rf im -> RunFile.first_free (directory rf) 0 = None ->
  Merger.MergeInMem runA runB rf = (Throw runtime_error, rf).
Proof.
  intros Hwf Hff. unfold Merger.MergeInMem.
  by rewrite (bind_ok _ _ _ _ _ (allocateNewRun_full rf im Hwf Hff)).
Qed.

(** With a free slot [i], MergeInMem appends the two-way merge of the two
    runs to the file and records it in slot [i]. *)
Lemma MergeInMem_spec rf im runA runB xsA xsB i :
  wf_open rf im ->
  run_content im runA = Some xsA -> run_content im runB = Some xsB ->
  RunFile.first_free (directory rf) 0 = Some i ->
  let meta := mkRunMetadata (RunFile.file_length im)
                (Z.of_nat (length (merge2 xsA xsB))) true in
  exists rf' im',
    Merger.MergeInMem runA runB rf = (Ok meta, rf') /\
    wf_open rf' im' /\
    f_header im' = f_header im /\
    f_data im' = f_data im ++ merge2 xsA xsB /\
    directory rf' = <[i := meta]> (directory rf) /\
    maxRuns (header rf') = maxRuns (header rf).
Proof.
  intros Hwf HrA HrB Hff meta.
  destruct (allocateNewRun_free rf im i Hwf Hff)
    as (rf1 & im1 & Halloc & Hwf1 & Hd1 & Hh1 & Hi & Hdir1 & Hmax1).
  unfold Merger.MergeInMem.
  rewrite (bind_ok _ _ _ _ _ Halloc).
  destruct (Z.of_nat i =? -1) eqn:E; [apply Z.eqb_eq in E; lia|]. clear E.
  rewrite (bind_ok _ _ _ _ _ (getAppendOffset_ok rf1 im1 Hwf1)). cbv zeta.
  assert (HrA1 : run_content im1 runA = Some xsA).
  { apply (run_content_append im im1 _ _ []); [done | by rewrite app_nil_r | done]. }
  assert (HrB1 : run_content im1 runB = Some xsB).
  { apply (run_content_append im im1 _ _ []); [done | by rewrite app_nil_r | done]. }
  destruct (feeds_first rf1 im1 (InputBuffer.new runA MERGE_INPUT_BUFFER_ELEMENTS) xsA
              Hwf1 HrA1) as (ra & HgA & HmA & HfA).
  { apply ib_reads_new. unfold MERGE_INPUT_BUFFER_ELEMENTS. lia. }
  destruct (feeds_first rf1 im1 (InputBuffer.new runB MERGE_INPUT_BUFFER_ELEMENTS) xsB
              Hwf1 HrB1) as (rb & HgB & HmB & HfB).
  { apply ib_reads_new. unfold MERGE_INPUT_BUFFER_ELEMENTS. lia. }
  rewrite (bind_ok _ _ _ _ _ HgA), (bind_ok _ _ _ _ _ HgB).
  pose proof (run_content_inv _ _ _ HrA) as (_ & _ & HcA & _).
  pose proof (run_content_inv _ _ _ HrB) as (_ & _ & HcB & _).
  rewrite HcA, HcB, !Nat2Z.id.
  assert (Hob : ob_holds im1 (length (f_data im1))
                  (OutputBuffer.new (RunFile.file_length im1) MERGE_OUTPUT_BUFFER_ELEMENTS)
                  []).
  { apply ob_holds_new; [apply file_length_index|].
    unfold MERGE_OUTPUT_BUFFER_ELEMENTS. lia. }
  simpl in HmA, HmB. rewrite <- HmA in HrA1. rewrite <- HmB in HrB1.
  destruct (merge_loop_spec (length xsA + length xsB) (fst ra) (fst rb) (snd ra) (snd rb)
              _ rf1 im1 xsA xsB xsA xsB _ [] Hwf1 HrA1 HrB1 HfA HfB Hob ltac:(lia))
    as (a' & b' & inA' & inB' & out2 & rf2 & im2 & As' & Bs' & part
        & Hloop & Hg2 & HmA' & HmB' & HfA' & HfB' & Hend & Hob2 & Hmerge & HlA & HlB).
  rewrite (bind_ok _ _ _ _ _ Hloop). cbv beta iota.
  pose proof (grows_wf _ _ _ _ Hg2) as Hwf2.
  pose proof (run_content_grows _ _ _ _ _ _ Hg2 HrA1) as HrA2.
  pose proof (run_content_grows _ _ _ _ _ _ Hg2 HrB1) as HrB2.
  rewrite <- HmA' in HrA2. rewrite <- HmB' in HrB2.
  destruct (drain_loop_spec (length xsA + length xsB) a' inA' out2 rf2 im2 xsA As' _ _
              Hwf2 HrA2 HfA' Hob2 ltac:(lia))
    as (inA3 & out3 & rf3 & im3 & Hdr3 & Hg3 & Hob3).
  rewrite (bind_ok _ _ _ _ _ Hdr3). cbn [snd].
  pose proof (grows_wf _ _ _ _ Hg3) as Hwf3.
  pose proof (run_content_grows _ _ _ _ _ _ Hg3 HrB2) as HrB3.
  destruct (drain_loop_spec (length xsA + length xsB) b' inB' out3 rf3 im3 xsB Bs' _ _
              Hwf3 HrB3 HfB' Hob3 ltac:(lia))
    as (inB4 & out4 & rf4 & im4 & Hdr4 & Hg4 & Hob4).
  rewrite (bind_ok _ _ _ _ _ Hdr4). cbn [snd].
  pose proof (grows_wf _ _ _ _ Hg4) as Hwf4.
  assert (Hall : ([] ++ part) ++ As' ++ Bs' = merge2 xsA xsB).
  { rewrite Hmerge. simpl. f_equal.
    destruct Hend as [-> | ->]; [by rewrite merge2_nil_l | by rewrite merge2_nil_r, app_nil_r]. }
  rewrite <- !app_assoc in Hob4. rewrite !app_assoc in Hob4.
  rewrite <- app_assoc, Hall in Hob4.
  destruct (flush_spec rf4 im4 _ out4 _ Hwf4 Hob4)
    as (out5 & rf5 & im5 & Hfl & Hg5 & Hd5 & Hb5 & Hcount & _).
  rewrite (bind_ok _ _ _ _ _ Hfl). cbv zeta. rewrite Hcount.
  pose proof (grows_wf _ _ _ _ Hg5) as Hwf5.
  pose proof (grows_trans _ _ _ _ _ _ Hg2 (grows_trans _ _ _ _ _ _ Hg3
                (grows_trans _ _ _ _ _ _ Hg4 Hg5))) as Hg15.
  destruct Hg15 as (_ & Hh15 & Hdir15 & Hfh15 & extra & Hdat15).
  assert (Hi5 : (i < length (directory rf5))%nat).
  { rewrite Hdir15, Hdir1, length_insert. done. }
  destruct (updateRunMetadata_ok rf5 im5 i (RunFile.file_length im1)
              (Z.of_nat (length (merge2 xsA xsB))) Hwf5 Hi5)
    as (rf6 & im6 & Hupd & Hwf6 & Hd6 & Hh6 & Hdir6 & Hmax6).
  rewrite (bind_ok _ _ _ _ _ Hupd).
  assert (Hi6 : (i < length (directory rf6))%nat) by (rewrite Hdir6, length_insert; done).
  rewrite (getRunMetadata_ok rf6 im6 i Hwf6 Hi6).
  assert (Hlen1 : RunFile.file_length im1 = RunFile.file_length im).
  { unfold RunFile.file_length. by rewrite Hh1, Hd1. }
  assert (Hentry : directory rf6 !!! i = meta).
  { rewrite Hdir6, list_lookup_total_insert_eq by done.
    rewrite Hdir15, Hdir1, list_lookup_total_insert_eq by done.
    unfold meta. simpl. by rewrite Hlen1. }
  rewrite Hentry. exists rf6, im6. split; [done|]. split; [done|].
  split; [congruence|].
  split.
  { (* the data written *)
    rewrite Hd6, Hd5.
    assert (Hpre : take (length (f_data im1)) (f_data im5) = f_data im1).
    { rewrite Hdat15. by rewrite take_app_length. }
    rewrite Hpre. by rewrite Hd1. }
  split.
  { rewrite Hdir6, Hdir15, Hdir1, list_insert_insert_eq, list_lookup_total_insert_eq by done.
    simpl. unfold meta. by rewrite Hlen1. }
  congruence.
Qed.

(** ** externalMergeSort *)

Lemma merge_all_unfold pick fuel heap :
  Merger.merge_all pick fuel heap =
    if (1 <? length heap)%nat then
      match fuel with
      | O => throw fuel_exhausted
      | S fuel' =>
          match Merger.top pick heap with
          | None => throw undefined_top
          | Some runA =>
              match Merger.top pick (Merger.pop pick heap) with
              | None => throw undefined_top
              | Some runB =>
                  bind (Merger.MergeInMem runA runB)
                    (fun mergedRun =>
                       Merger.merge_all pick fuel'
                         (Merger.push mergedRun
                            (Merger.pop pick (Merger.pop pick heap))))
              end
          end
      end
    else ret heap.
Proof. destruct fuel; reflexivity. Qed.

Lemma concat_delete (css : list (list T)) i xs :
  css !! i = Some xs -> concat css ≡ₚ xs ++ concat (delete i css).
Proof.
  revert i. induction css as [|c css IH]; intros [|i] H; simpl in *; try done.
  - by inversion H.
  - rewrite (IH i H). rewrite !app_assoc. apply Permutation_app_tail, Permutation_app_comm.
Qed.

Lemma runs_on_disk_append im im' heap css extra :
  f_header im' = f_header im -> f_data im' = f_data im ++ extra ->
  runs_on_disk im heap css -> runs_on_disk im' heap css.
Proof.
  intros Hh Hd H. unfold runs_on_disk in *.
  eapply Forall2_impl; [exact H|]. intros m xs Hm. simpl in Hm.
  by apply (run_content_append im im' m xs extra).
Qed.

Lemma run_content_appended im im' xs :
  f_header im' = f_header im -> f_data im' = f_data im ++ xs ->
  run_content im'
    (mkRunMetadata (RunFile.file_length im) (Z.of_nat (length xs)) true) = Some xs.
Proof.
  intros Hh Hd. apply (run_content_intro _ _ (length (f_data im))); simpl.
  - rewrite Hh. apply file_length_index.
  - done.
  - rewrite Hd, length_app. lia.
  - by rewrite Hd, drop_app_length, firstn_all.
Qed.

Lemma top_in_heap pick (heap : list RunMetadata) :
  Merger.picks_top pick -> heap <> [] ->
  exists m, Merger.top pick heap = Some m.
Proof.
  intros Hp Hne. destruct (Hp heap Hne) as [Hlt _].
  unfold Merger.top. by apply lookup_lt_is_Some_2.
Qed.

Lemma merge_all_spec pick fuel :
  forall heap css rf im,
    Merger.picks_top pick -> wf_open rf im -> runs_on_disk im heap css ->
    (length heap <= S fuel)%nat ->
    forall r rf', Merger.merge_all pick fuel heap rf = (r, rf') ->
      r = Throw runtime_error \/
      exists heap' css' im',
        r = Ok heap' /\ wf_open rf' im' /\ runs_on_disk im' heap' css' /\
        concat css' ≡ₚ concat css /\
        (Forall nondecreasing css -> Forall nondecreasing css') /\
        (length heap' <= 1)%nat /\ (heap <> [] -> heap' <> []).
Proof.
  induction fuel as [|f IH]; intros heap css rf im Hp Hwf Hruns Hlen r rf' Hrun;
    rewrite merge_all_unfold in Hrun.
  - destruct (1 <? length heap)%nat eqn:E; [apply Nat.ltb_lt in E; lia|].
    apply Nat.ltb_ge in E. inversion Hrun; subst. right.
    exists heap, css, im. auto 10.
  - destruct (1 <? length heap)%nat eqn:E.
    2:{ apply Nat.ltb_ge in E. inversion Hrun; subst. right.
        exists heap, css, im. auto 10. }
    apply Nat.ltb_lt in E.
    assert (Hne : heap <> []) by (intros ->; simpl in E; lia).
    destruct (top_in_heap pick heap Hp Hne) as [runA HA]. rewrite HA in Hrun.
    assert (Hne1 : Merger.pop pick heap <> []).
    { intros H. apply (f_equal length) in H. unfold Merger.pop in H.
      rewrite length_delete in H by (by eapply mk_is_Some). simpl in H. lia. }
    destruct (top_in_heap pick _ Hp Hne1) as [runB HB]. rewrite HB in Hrun.
    unfold Merger.top, Merger.pop in *.
    set (ia := pick heap) in *. set (heap1 := delete ia heap) in *.
    set (ib := pick heap1) in *.
    destruct (Forall2_lookup_l _ _ _ _ _ Hruns HA) as (xsA & HcA & HrA).
    assert (Hruns1 : runs_on_disk im heap1 (delete ia css)) by (by apply Forall2_delete).
    destruct (Forall2_lookup_l _ _ _ _ _ Hruns1 HB) as (xsB & HcB & HrB).
    assert (Hruns2 : runs_on_disk im (delete ib heap1) (delete ib (delete ia css)))
      by (by apply Forall2_delete).
    destruct (RunFile.first_free (directory rf) 0) as [i|] eqn:Hff.
    + destruct (MergeInMem_spec rf im runA runB xsA xsB i Hwf HrA HrB Hff)
        as (rf1 & im1 & Hm & Hwf1 & Hh1 & Hd1 & _).
      rewrite (bind_ok _ _ _ _ _ Hm) in Hrun.
      apply (IH _ (delete ib (delete ia css) ++ [merge2 xsA xsB]) rf1 im1 Hp Hwf1) in Hrun.
      * destruct Hrun
          as [Hrun|(heap' & css' & im' & Hr & Hwf' & Hruns' & Hperm & Hsort & Hl & Hne')];
          [by left|].
        right. exists heap', css', im'. split; [done|]. split; [done|]. split; [done|].
        split.
        { rewrite Hperm, concat_app. simpl. rewrite app_nil_r.
          rewrite (concat_delete css ia xsA HcA), (concat_delete _ ib xsB HcB).
          rewrite merge2_Permutation.
          rewrite (Permutation_app_comm (concat _)). by rewrite app_assoc. }
        split.
        { intros Hs. apply Hsort. apply Forall_app. split.
          - by do 2 apply Forall_delete.
          - constructor; [|done]. apply merge2_nondecreasing.
            + eapply Forall_lookup_1; eauto.
            + eapply Forall_lookup_1; [|exact HcB]. by apply Forall_delete. }
        split; [done|]. intros _. apply Hne'.
        unfold Merger.push. by destruct (delete ib heap1).
      * unfold Merger.push. apply Forall2_app.
        -- by apply (runs_on_disk_append im im1 _ _ (merge2 xsA xsB)).
        -- constructor; [|constructor]. by apply run_content_appended.
      * unfold Merger.push. rewrite length_app, length_delete by (by eapply mk_is_Some).
        assert (length heap1 = length heap - 1)%nat
          by (unfold heap1; rewrite length_delete by (by eapply mk_is_Some); done).
        simpl. lia.
    + rewrite (bind_throw _ _ _ _ _ (MergeInMem_full rf im runA runB Hwf Hff)) in Hrun.
      inversion Hrun. by left.
Qed.

Lemma fold_push runs : forall acc,
  fold_left (fun h run => Merger.push run h) runs acc = acc ++ runs.
Proof.
  induction runs as [|m runs IH]; intros acc; simpl; [by rewrite app_nil_r|].
  rewrite IH. unfold Merger.push. by rewrite <- app_assoc.
Qed.

(** externalMergeSort either fails because the directory is full, or returns
    one run holding a permutation of the elements of the initial runs, sorted
    when these were; for no run at all, top() of the empty heap is
    undefined. *)
Lemma externalMergeSort_spec pick runs css rf im :
  Merger.picks_top pick -> wf_open rf im -> runs_on_disk im runs css ->
  forall r rf', Merger.externalMergeSort pick runs rf = (r, rf') ->
    (runs = [] /\ r = Throw undefined_top) \/
    r = Throw runtime_error \/
    exists final xs im',
      r = Ok final /\ wf_open rf' im' /\ run_content im' final = Some xs /\
      xs ≡ₚ concat css /\ (Forall nondecreasing css -> nondecreasing xs).
Proof.
  intros Hp Hwf Hruns r rf' Hrun. unfold Merger.externalMergeSort in Hrun.
  rewrite fold_push in Hrun. simpl in Hrun.
  destruct (Merger.merge_all pick (length runs) runs rf) as [r1 rf1] eqn:Hall.
  unfold bind in Hrun. rewrite Hall in Hrun.
  destruct (decide (runs = [])) as [->|Hne].
  { left. simpl in Hall. inversion Hall; subst. simpl in Hrun.
    unfold Merger.top in Hrun. simpl in Hrun. inversion Hrun. done. }
  right.
  apply (merge_all_spec pick (length runs) runs css rf im Hp Hwf Hruns ltac:(lia)) in Hall
    as [->|(heap' & css' & im' & -> & Hwf' & Hruns' & Hperm & Hsort & Hl & Hne')].
  { inversion Hrun. by left. }
  right. specialize (Hne' Hne).
  destruct heap' as [|m [|m' heap']]; [done | | simpl in Hl; lia].
  destruct css' as [|xs css']; [by apply Forall2_nil_cons_inv in Hruns' || inversion Hruns'|].
  inversion Hruns' as [|? ? ? ? Hm Hrest]; subst.
  apply Forall2_nil_inv_l in Hrest. subst css'.
  destruct (Hp [m] ltac:(done)) as [Hlt _]. simpl in Hlt.
  unfold Merger.top in Hrun. replace (pick [m]) with 0%nat in Hrun by lia.
  simpl in Hrun. inversion Hrun; subst.
  exists m, xs, im'. split; [done|]. split; [done|]. split; [done|].
  simpl in Hperm. rewrite app_nil_r in Hperm. split; [done|].
  intros Hs. specialize (Hsort Hs). by inversion Hsort.
Qed.

(** The first element of least elementCount is an admissible [top]. *)
Lemma first_min_from_spec rest : forall pre best,
  (best < length pre)%nat ->
  (forall x, x ∈ pre -> elementCount (pre !!! best) <= elementCount x) ->
  let r := Merger.first_min_from rest (length pre) best (elementCount (pre !!! best)) in
  (r < length (pre ++ rest))%nat /\
  forall x, x ∈ pre ++ rest -> elementCount ((pre ++ rest) !!! r) <= elementCount x.
Proof.
  induction rest as [|y rest IH]; intros pre best Hb Hmin; simpl.
  - rewrite app_nil_r. done.
  - replace (pre ++ y :: rest) with ((pre ++ [y]) ++ rest) by (by rewrite <- app_assoc).
    replace (S (length pre)) with (length (pre ++ [y]))
      by (rewrite length_app; simpl; lia).
    assert (Hy : (pre ++ [y]) !!! length pre = y).
    { replace (length pre) with (length pre + 0)%nat at 1 by lia.
      by rewrite lookup_total_app_r, Nat.add_comm, Nat.add_sub by lia. }
    destruct (elementCount y <? elementCount (pre !!! best)) eqn:E.
    + apply Z.ltb_lt in E.
      specialize (IH (pre ++ [y]) (length pre)). rewrite Hy in IH. apply IH.
      * rewrite length_app. simpl. lia.
      * intros x Hx. apply elem_of_app in Hx as [Hx|Hx].
        -- specialize (Hmin x Hx). lia.
        -- apply list_elem_of_singleton in Hx. subst. lia.
    + apply Z.ltb_ge in E.
      specialize (IH (pre ++ [y]) best).
      rewrite lookup_total_app_l in IH by done. apply IH.
      * rewrite length_app. simpl. lia.
      * intros x Hx. apply elem_of_app in Hx as [Hx|Hx].
        -- by apply Hmin.
        -- apply list_elem_of_singleton in Hx. subst. lia.
Qed.

Lemma first_min_picks_top : Merger.picks_top Merger.first_min.
Proof.
  intros [|m heap] Hne; [done|]. unfold Merger.first_min.
  apply (first_min_from_spec heap [m] 0%nat); simpl; [lia|].
  intros x Hx. apply list_elem_of_singleton in Hx. subst. lia.
Qed.

(** * Properties of the run generator *)

(** ** The input side *)

Section Input.

Variable bufSize : nat.
Hypothesis HbufSize : (1 <= bufSize)%nat.

Lemma inputWorker_step_spec i :
  input_ok i -> (length (activeIn i) <= activeInIdx i)%nat ->
  input_eof i = false ->
  let i' := RunGenerator.inputWorker_step bufSize i in
  standbyIn i' ++ inputFile i' = pending i /\
  (standbyIn i' = [] -> input_eof i' = true) /\
  (input_eof i' = true -> inputFile i' = []) /\
  activeIn i' = activeIn i /\ activeInIdx i' = activeInIdx i /\
  standby_input_ready i' = true.
Proof.
  intros [Hr He] Hidx Heof. simpl. unfold pending.
  rewrite (drop_ge (activeIn i)) by done. simpl. rewrite take_drop.
  split; [done|]. rewrite Heof. simpl.
  split.
  - intros H. apply (f_equal length) in H. rewrite H. simpl. apply orb_true_r.
  - split; [|done]. intros H. apply orb_true_iff in H as [H|H].
    + apply Nat.ltb_lt in H. apply drop_ge. lia.
    + apply Nat.eqb_eq in H. rewrite length_take in H.
      assert (length (inputFile i) = 0)%nat as H0 by lia.
      destruct (inputFile i); [by rewrite drop_nil | done].
Qed.

Lemma pullNextInput_loop_unfold fuel i :
  RunGenerator.pullNextInput_loop bufSize fuel i =
    if (activeInIdx i <? length (activeIn i))%nat then
      (Ok (Some (activeIn i !!! activeInIdx i)),
       mkInputSide (inputFile i) (activeIn i) (standbyIn i) (S (activeInIdx i))
         (standby_input_ready i) (input_eof i))
    else
      match fuel with
      | O => (Throw fuel_exhausted, i)
      | S fuel' =>
          if standby_input_ready i then
            RunGenerator.pullNextInput_loop bufSize fuel'
              (mkInputSide (inputFile i) (standbyIn i) (activeIn i) 0 false (input_eof i))
          else if input_eof i then (Ok None, i)
          else RunGenerator.pullNextInput_loop bufSize fuel'
                 (RunGenerator.inputWorker_step bufSize i)
      end.
Proof. destruct fuel; reflexivity. Qed.

(** pullNextInput delivers the pending input one element at a time, and
    reports the end exactly when nothing is pending. *)
Lemma pullNextInput_spec i :
  input_ok i ->
  exists i',
    RunGenerator.pullNextInput bufSize i = (Ok (head (pending i)), i') /\
    pending i' = tail (pending i) /\ input_ok i'.
Proof.
  intros Hok. pose proof Hok as [Hr He].
  unfold RunGenerator.pullNextInput.
  assert (Hfast : forall fuel j, input_ok j ->
            (activeInIdx j < length (activeIn j))%nat ->
            exists j',
              RunGenerator.pullNextInput_loop bufSize fuel j = (Ok (head (pending j)), j') /\
              pending j' = tail (pending j) /\ input_ok j').
  { intros fuel j [Hjr Hje] Hlt.
    destruct (lookup_lt_is_Some_2 _ _ Hlt) as [y Hy].
    eexists. split.
    - rewrite pullNextInput_loop_unfold. apply Nat.ltb_lt in Hlt. rewrite Hlt.
      unfold pending. rewrite (drop_S _ _ _ Hy).
      rewrite (list_lookup_total_correct _ _ _ Hy). reflexivity.
    - unfold pending. simpl. rewrite (drop_S _ _ _ Hy). done. }
  destruct (decide (activeInIdx i < length (activeIn i))%nat) as [Hlt|Hge];
    [by apply Hfast|].
  rewrite pullNextInput_loop_unfold.
  replace (activeInIdx i <? length (activeIn i))%nat with false
    by (symmetry; apply Nat.ltb_ge; lia).
  rewrite Hr.
  destruct (input_eof i) eqn:Heof.
  { (* end of file *)
    exists i. unfold pending. rewrite He by done. rewrite drop_ge by lia. done. }
  destruct (inputWorker_step_spec i Hok ltac:(lia) Heof)
    as (Hpend & Hempty & Heof' & Hact & Hidx & Hready).
  set (i1 := RunGenerator.inputWorker_step bufSize i) in *. clearbody i1.
  (* the block is there: swap *)
  rewrite pullNextInput_loop_unfold.
  replace (activeInIdx i1 <? length (activeIn i1))%nat with false
    by (rewrite Hact, Hidx; symmetry; apply Nat.ltb_ge; lia).
  rewrite Hready.
  set (i2 := mkInputSide (inputFile i1) (standbyIn i1) (activeIn i1) 0 false (input_eof i1)).
  assert (Hp2 : pending i2 = pending i) by (unfold pending; simpl; by rewrite drop_0).
  assert (Hok2 : input_ok i2) by done.
  destruct (decide (0 < length (standbyIn i1))%nat) as [Hne|Hnil].
  - rewrite <- Hp2. by apply Hfast.
  - assert (Hs : standbyIn i1 = []) by (destruct (standbyIn i1); simpl in *; done || lia).
    rewrite pullNextInput_loop_unfold.
    replace (activeInIdx i2 <? length (activeIn i2))%nat with false
      by (simpl; rewrite Hs; done).
    replace (standby_input_ready i2) with false by done.
    replace (input_eof i2) with true by (simpl; by rewrite (Hempty Hs)).
    exists i2. rewrite <- Hp2. unfold pending. simpl.
    rewrite Hs, (Heof' (Hempty Hs)). done.
Qed.

End Input.

(** ** The output side *)

Lemma extends_refl im : extends im im.
Proof. split; [done|]. exists []. by rewrite app_nil_r. Qed.

Lemma extends_trans im1 im2 im3 : extends im1 im2 -> extends im2 im3 -> extends im1 im3.
Proof.
  intros [H1 [e1 D1]] [H2 [e2 D2]]. split; [congruence|].
  exists (e1 ++ e2). rewrite D2, D1. by rewrite app_assoc.
Qed.

Lemma grows_extends rf im rf' im' : grows rf im rf' im' -> extends im im'.
Proof. intros (_ & _ & _ & H & He). by split. Qed.

Lemma runs_on_disk_extends im im' heap css :
  extends im im' -> runs_on_disk im heap css -> runs_on_disk im' heap css.
Proof. intros [Hh [extra Hd]]. by apply (runs_on_disk_append im im' heap css extra). Qed.

Lemma run_content_extends im im' m xs :
  extends im im' -> run_content im m = Some xs -> run_content im' m = Some xs.
Proof. intros [Hh [extra Hd]]. by apply (run_content_append im im' m xs extra). Qed.

Lemma same_compute_refl w : same_compute w w.
Proof. done. Qed.

Lemma same_compute_trans w1 w2 w3 :
  same_compute w1 w2 -> same_compute w2 w3 -> same_compute w1 w3.
Proof.
  intros (A1 & A2 & A3 & A4) (B1 & B2 & B3 & B4). repeat split; congruence.
Qed.

Lemma outputWorker_step_spec w im cur :
  output_holds w im cur -> standby_output_busy (outp w) = true ->
  exists w' im',
    RunGenerator.outputWorker_step w = (Ok tt, w') /\
    output_holds w' im' cur /\ standby_output_busy (outp w') = false /\
    activeOut (outp w') = activeOut (outp w) /\
    same_compute w w' /\ extends im im'.
Proof.
  intros (Hwf & base & He & Hb & Ht & Hcur) Hbusy.
  rewrite Hbusy in Hcur.
  unfold RunGenerator.outputWorker_step. unfold bind at 1, get at 1.
  destruct (standbyOut (outp w)) as [|y ys] eqn:Hs.
  - (* nothing to write *)
    simpl. unfold bind, ret, RunGenerator.setOutput. simpl.
    eexists _, im. split; [reflexivity|]. split.
    + split; [done|]. exists base. simpl. done.
    + split; [done|]. split; [done|]. split; [done|]. apply extends_refl.
  - destruct (stream_write_append (runFile w) im
                (currentRunStartOffset (outp w) + totalElementsInRun (outp w) * sizeof_T)
                (y :: ys) Hwf) as (rf' & im' & Hw & Hg & Hd).
    { rewrite Ht. rewrite (elem_index_shift _ _ base) by done. f_equal. lia. }
    cbn [length]. replace (0 <? S (length ys))%nat with true by done.
    unfold bind, RunGenerator.onRunFile, RunGenerator.setOutput.
    rewrite Hw. simpl.
    eexists _, im'. split; [reflexivity|].
    pose proof (grows_wf _ _ _ _ Hg) as Hwf'.
    destruct Hg as (_ & _ & _ & Hh & _).
    split.
    + split; [done|]. exists base. simpl. rewrite Hh, Hd.
      split; [done|]. split; [rewrite length_app; lia|].
      split; [rewrite Ht, length_app; simpl; lia|].
      rewrite Hcur, drop_app_le by lia. by rewrite <- !app_assoc.
    + split; [done|]. split; [done|]. split; [done|]. split; [done|]. eauto.
Qed.

Lemma await_output_spec w im cur :
  output_holds w im cur ->
  exists w' im',
    RunGenerator.await_output w = (Ok tt, w') /\
    output_holds w' im' cur /\ standby_output_busy (outp w') = false /\
    activeOut (outp w') = activeOut (outp w) /\
    same_compute w w' /\ extends im im'.
Proof.
  intros H. unfold RunGenerator.await_output. unfold bind, get.
  destruct (standby_output_busy (outp w)) eqn:Hbusy.
  - by apply outputWorker_step_spec.
  - exists w, im. split; [done|]. split; [done|]. split; [done|]. split; [done|].
    split; [done|]. apply extends_refl.
Qed.

Lemma submit_active_spec w im cur :
  output_holds w im cur ->
  exists w' im',
    RunGenerator.submit_active w = (Ok tt, w') /\
    output_holds w' im' cur /\ activeOut (outp w') = [] /\
    same_compute w w' /\ extends im im'.
Proof.
  intros H. destruct (await_output_spec w im cur H)
    as (w1 & im1 & Ha & (Hwf & base & He & Hb & Ht & Hcur) & Hbusy & Hact & Hsame & Hext).
  unfold RunGenerator.submit_active. rewrite (bind_ok _ _ _ _ _ Ha).
  unfold bind, get, RunGenerator.setOutput. simpl.
  eexists _, im1. split; [reflexivity|]. split.
  - split; [done|]. exists base. simpl. rewrite Hbusy in Hcur. simpl in Hcur.
    rewrite app_nil_r. done.
  - split; [done|]. split; [|done]. destruct Hsame as (A & B & C & D). done.
Qed.

Lemma emit_spec bufSize w im cur v :
  output_holds w im cur ->
  exists w' im',
    RunGenerator.emit bufSize v w = (Ok tt, w') /\
    output_holds w' im' (cur ++ [v]) /\
    same_compute w w' /\ extends im im'.
Proof.
  intros (Hwf & base & He & Hb & Ht & Hcur).
  unfold RunGenerator.emit. unfold bind at 1, get at 1.
  set (w1 := mkWorld (inp w)
               (mkOutputSide (activeOut (outp w) ++ [v]) (standbyOut (outp w))
                  (standby_output_busy (outp w)) (currentRunStartOffset (outp w))
                  (totalElementsInRun (outp w)))
               (loserTree w) (currentRunId w) (generatedRuns w) (runFile w)).
  assert (H1 : output_holds w1 im (cur ++ [v])).
  { split; [done|]. exists base. simpl. rewrite Hcur. by rewrite <- !app_assoc. }
  unfold bind at 1. unfold RunGenerator.setOutput at 1. fold w1.
  destruct (bufSize <=? length (activeOut (outp w) ++ [v]))%nat.
  - destruct (submit_active_spec w1 im _ H1) as (w' & im' & Hs & Ho & _ & Hsame & Hext).
    exists w', im'. done.
  - exists w1, im. split; [done|]. split; [done|]. split; [done|]. apply extends_refl.
Qed.

Lemma output_written w im cur :
  output_holds w im (cur ++ activeOut (outp w)) ->
  standby_output_busy (outp w) = false ->
  written_holds w im cur.
Proof.
  intros (Hwf & base & He & Hb & Ht & Hcur) Hbusy.
  split; [done|]. exists base. split; [done|]. split; [done|]. split; [done|].
  rewrite Hbusy in Hcur. simpl in Hcur. by apply app_inv_tail in Hcur.
Qed.

Lemma record_run_spec w im cur :
  written_holds w im cur ->
  forall r w', RunGenerator.record_run w = (r, w') ->
    r = Throw out_of_range \/
    (r = Ok tt /\
     exists im',
       written_holds w' im' cur /\ extends im im' /\
       inp w' = inp w /\ loserTree w' = loserTree w /\ outp w' = outp w /\
       ((cur = [] /\ generatedRuns w' = generatedRuns w) \/
        (cur <> [] /\ exists m,
           generatedRuns w' = generatedRuns w ++ [m] /\ run_content im' m = Some cur))).
Proof.
  intros (Hwf & base & He & Hb & Ht & Hcur) r w' Hrun.
  unfold RunGenerator.record_run in Hrun. unfold bind at 1, get at 1 in Hrun.
  destruct (0 <? totalElementsInRun (outp w)) eqn:Hpos.
  2:{ (* nothing was emitted *)
    apply Z.ltb_ge in Hpos. inversion Hrun; subst r w'. right. split; [done|].
    exists im. split.
    { split; [done|]. by exists base. }
    split; [apply extends_refl|]. split; [done|]. split; [done|]. split; [done|].
    left. split; [|done]. apply length_zero_iff_nil.
    rewrite Hcur, length_drop. lia. }
  apply Z.ltb_lt in Hpos.
  unfold bind at 1, RunGenerator.onRunFile at 1 in Hrun.
  destruct (decide (0 <= currentRunId w < maxRuns (header (runFile w)))) as [Hin|Hout].
  2:{ rewrite updateRunMetadata_outside in Hrun by lia.
      inversion Hrun. by left. }
  assert (Hidx : (Z.to_nat (currentRunId w) < length (directory (runFile w)))%nat).
  { rewrite (wf_length _ _ Hwf). lia. }
  destruct (updateRunMetadata_ok (runFile w) im (Z.to_nat (currentRunId w))
              (currentRunStartOffset (outp w)) (totalElementsInRun (outp w)) Hwf Hidx)
    as (rf1 & im1 & Hupd & Hwf1 & Hdat1 & Hhd1 & Hd1 & Hmax1).
  rewrite Z2Nat.id in Hupd by lia. rewrite Hupd in Hrun.
  unfold bind at 1, RunGenerator.onRunFile at 1 in Hrun. cbn [runFile] in Hrun.
  assert (Hidx1 : (Z.to_nat (currentRunId w) < length (directory rf1))%nat)
    by (rewrite Hd1, length_insert; done).
  pose proof (getRunMetadata_ok rf1 im1 _ Hwf1 Hidx1) as Hget.
  rewrite Z2Nat.id in Hget by lia. cbn [currentRunId] in Hrun. rewrite Hget in Hrun.
  unfold RunGenerator.setGeneratedRuns in Hrun.
  inversion Hrun; subst r w'. clear Hrun. simpl.
  right. split; [done|]. exists im1.
  split.
  { split; [done|]. exists base. simpl. by rewrite Hhd1, Hdat1. }
  split; [split; [done|]; exists []; by rewrite Hdat1, app_nil_r|].
  split; [done|]. split; [done|]. split; [done|].
  right. split.
  { intros Hnil. rewrite Hnil in Hcur. symmetry in Hcur. apply (f_equal length) in Hcur.
    rewrite length_drop in Hcur. simpl in Hcur. lia. }
  eexists. split; [reflexivity|].
  rewrite Hd1, list_lookup_total_insert_eq by done.
  apply (run_content_intro _ _ base); simpl.
  - by rewrite Hhd1.
  - rewrite Ht, Hcur, length_drop. done.
  - rewrite Hdat1, Hcur, length_drop. lia.
  - rewrite Hdat1, Hcur. by rewrite firstn_all.
Qed.

Lemma open_run_spec w im :
  wf_open (runFile w) im ->
  standby_output_busy (outp w) = false -> activeOut (outp w) = [] ->
  exists w' im',
    RunGenerator.open_run w = (Ok tt, w') /\
    output_holds w' im' [] /\ extends im im' /\ f_data im' = f_data im /\
    inp w' = inp w /\ loserTree w' = loserTree w /\ generatedRuns w' = generatedRuns w /\
    standby_output_busy (outp w') = false /\ activeOut (outp w') = [].
Proof.
  intros Hwf Hbusy Hact.
  destruct (allocateNewRun_wf (runFile w) im Hwf)
    as (r & rf1 & im1 & Halloc & Hwf1 & Hd1 & Hh1 & _).
  unfold RunGenerator.open_run.
  unfold bind, RunGenerator.onRunFile, RunGenerator.setCurrentRunId, get,
    RunGenerator.setOutput.
  rewrite Halloc. simpl. rewrite (getAppendOffset_ok rf1 im1 Hwf1). simpl.
  eexists _, im1. split; [reflexivity|]. simpl.
  split.
  { split; [done|]. exists (length (f_data im1)). simpl.
    split; [apply file_length_index|]. split; [done|]. split; [lia|].
    rewrite Hbusy, Hact, drop_all. done. }
  split; [split; [done|]; exists []; by rewrite Hd1, app_nil_r|].
  done.
Qed.

(** ** The workspace of the loser tree *)

Lemma replaced_leaves lt x :
  let lt' := LoserTree.replay (tree lt !!! 0%nat)
               (mkLoserTree (tree lt) (<[tree lt !!! 0%nat := x]> (leaves lt)) (k lt)) in
  leaves lt' = <[tree lt !!! 0%nat := x]> (leaves lt) /\ k lt' = k lt.
Proof.
  simpl.
  destruct (replay_leaves (tree lt !!! 0%nat)
              (mkLoserTree (tree lt) (<[tree lt !!! 0%nat := x]> (leaves lt)) (k lt)))
    as [E1 E2].
  done.
Qed.

Lemma filter_none (l : list RunNode) :
  Forall (fun n => ~ is_real n) l -> filter is_real l = [].
Proof.
  induction 1 as [|n l Hn _ IH]; [done|].
  by rewrite filter_cons_False.
Qed.

Section Workspace.

Variable lt : LoserTree.
Hypothesis Ht : tournament_tree lt.

Let idx := tree lt !!! 0%nat.
Let rest := map value (filter is_real (delete idx (take (k lt) (leaves lt)))).

Lemma winner_index : (idx < k lt)%nat /\ (idx < length (leaves lt))%nat /\
  take (k lt) (leaves lt) !! idx = Some (LoserTree.getWinner lt).
Proof.
  destruct (tournament_winner _ _ _ Ht) as [Hidx _].
  destruct Ht as (_ & _ & Hlv & _). fold idx in Hidx.
  split; [done|]. split; [lia|].
  rewrite lookup_take_lt by done. apply list_lookup_lookup_total_lt. lia.
Qed.

Lemma workspace_winner :
  is_real (LoserTree.getWinner lt) ->
  workspace lt ≡ₚ value (LoserTree.getWinner lt) :: rest.
Proof.
  intros Hreal. destruct winner_index as (_ & _ & Hw).
  unfold workspace, rest.
  rewrite (delete_Permutation _ _ _ Hw) at 1.
  rewrite filter_cons_True by done. done.
Qed.

Lemma workspace_replaced x :
  let lt' := LoserTree.replay idx
               (mkLoserTree (tree lt) (<[idx := x]> (leaves lt)) (k lt)) in
  workspace lt' ≡ₚ (if decide (is_real x) then [value x] else []) ++ rest.
Proof.
  destruct winner_index as (Hidx & _ & Hw).
  destruct (replaced_leaves lt x) as [El Ek]. fold idx in El, Ek.
  simpl. unfold workspace. rewrite El, Ek.
  rewrite take_insert_lt by done.
  rewrite (insert_Permutation _ _ _ x Hw).
  rewrite filter_cons. destruct (decide (is_real x)); done.
Qed.

(** When the winner is a sentinel, no leaf is real. *)
Lemma workspace_empty c cur :
  tags_ok lt c cur -> c + 1 < INT_MAX -> 1 <= c ->
  ~ is_real (LoserTree.getWinner lt) ->
  workspace lt = [] /\ ~ Forall is_real (take (k lt) (leaves lt)).
Proof.
  intros Htags Hc Hc1 Hnot.
  destruct (tournament_winner _ _ _ Ht) as [Hidx Hmin].
  destruct winner_index as (_ & _ & Hw).
  split.
  - unfold workspace.
    assert (Hall : Forall (fun n => ~ is_real n) (take (k lt) (leaves lt))).
    { apply Forall_lookup. intros i n Hi.
      apply lookup_take_Some in Hi as [Hi Hlt].
      pose proof (list_lookup_total_correct _ _ _ Hi) as E.
      specialize (Hmin i Hlt). rewrite E in Hmin.
      apply beats_spec in Hmin. unfold is_real in *.
      unfold LoserTree.getWinner in Hnot.
      destruct (Htags i Hlt) as [Hs|[[Hr _]|[Hr _]]]; rewrite E in *.
      - rewrite Hs. simpl. lia.
      - lia.
      - lia. }
    by rewrite (filter_none _ Hall).
  - intros Hall. apply Hnot. eapply Forall_lookup_1; eauto.
Qed.

End Workspace.

(** ** The tags of the leaves *)

Lemma run_id_bound K all c w im css cur :
  generating K all c w im css cur ->
  Z.of_nat (length all) + 2 < INT_MAX ->
  1 <= c /\ c + 1 < INT_MAX.
Proof.
  intros G Hall. rewrite (gen_run_id _ _ _ _ _ _ _ G).
  assert (length css <= length (concat css))%nat.
  { pose proof (gen_sealed_nonempty _ _ _ _ _ _ _ G) as Hne. clear -Hne.
    induction Hne as [|xs l Hx _ IH]; [done|].
    simpl. rewrite length_app. destruct xs; [done|]. simpl. lia. }
  pose proof (Permutation_length (gen_all _ _ _ _ _ _ _ G)) as Hlen.
  rewrite !length_app in Hlen. lia.
Qed.

(** The winner of run [c] may be emitted after [cur]. *)
Lemma winner_extends_run lt c cur :
  tournament_tree lt -> tags_ok lt c cur -> c + 1 < INT_MAX ->
  nondecreasing cur ->
  runID (LoserTree.getWinner lt) = c ->
  nondecreasing (cur ++ [value (LoserTree.getWinner lt)]).
Proof.
  intros Ht Htags Hc Hsorted Hw.
  destruct (tournament_winner _ _ _ Ht) as [Hidx _].
  destruct (Htags _ Hidx) as [Hs|[[_ Hle]|[Hr _]]].
  - unfold LoserTree.getWinner in Hw. rewrite Hs in Hw. simpl in Hw. lia.
  - unfold nondecreasing in *. fold (LoserTree.getWinner lt) in Hle.
    clear -Hsorted Hle. induction cur as [|x xs IH]; simpl.
    + repeat constructor.
    + inversion Hsorted; subst. inversion Hle; subst. constructor; [by apply IH|].
      destruct xs; simpl; constructor; [done|]. by inversion H2.
  - unfold LoserTree.getWinner in Hw. lia.
Qed.

(** The tags after the winner of run [c] was emitted and its leaf refilled
    with [x], tagged as replace_winner does, or retired. *)
Lemma tags_after_replace lt c cur x :
  tournament_tree lt -> tags_ok lt c cur -> c + 1 < INT_MAX ->
  runID (LoserTree.getWinner lt) = c ->
  (x = SENTINEL \/
   (runID x = c /\ value (LoserTree.getWinner lt) <= value x) \/
   runID x = c + 1) ->
  tags_ok
    (LoserTree.replay (tree lt !!! 0%nat)
       (mkLoserTree (tree lt) (<[tree lt !!! 0%nat := x]> (leaves lt)) (k lt)))
    c (cur ++ [value (LoserTree.getWinner lt)]).
Proof.
  intros Ht Htags Hc Hw Hx.
  destruct (tournament_winner _ _ _ Ht) as [Hidx Hmin].
  destruct (replaced_leaves lt x) as [El Ek]. simpl in El, Ek.
  intros i Hi. rewrite Ek in Hi. simpl. rewrite El.
  assert (Hlv : length (leaves lt) = S (k lt)) by (by destruct Ht as (_ & _ & ? & _)).
  assert (Hwin : Forall (fun y => y <= value (LoserTree.getWinner lt)) cur).
  { unfold LoserTree.getWinner in *.
    destruct (Htags _ Hidx) as [Hs|[[_ Hle]|[Hr _]]]; [| done | lia].
    rewrite Hs in Hw. simpl in Hw. unfold INT_MAX in *. lia. }
  destruct (decide (i = tree lt !!! 0%nat)) as [->|Hne].
  - rewrite list_lookup_total_insert_eq by lia.
    destruct Hx as [Hx|[[Hx Hv]|Hx]].
    + by left.
    + right. left. split; [done|]. apply Forall_app. split.
      * eapply Forall_impl; [exact Hwin|]. simpl. intros. lia.
      * by repeat constructor.
    + right. right. split; [done|]. by destruct cur.
  - rewrite list_lookup_total_insert_ne by done.
    destruct (Htags _ Hi) as [Hs|[[Hr Hle]|[Hr Hc']]].
    + by left.
    + right. left. split; [done|]. apply Forall_app. split; [done|].
      repeat constructor. specialize (Hmin i Hi). apply beats_spec in Hmin.
      unfold LoserTree.getWinner in *. lia.
    + right. right. split; [done|]. by destruct cur.
Qed.

(** ** The steps of the main loop *)

Lemma bind_get {S B} (k : S -> M S B) s : bind get k s = k s s.
Proof. reflexivity. Qed.

Lemma bind_ret {S A B} (a : A) (k : A -> M S B) s : bind (ret a) k s = k a s.
Proof. reflexivity. Qed.

(** The run boundary: the current run is drained and recorded, the next one
    is opened. *)
Lemma run_boundary_spec K all c w im css cur :
  generating K all c w im css cur -> cur <> [] ->
  (forall i, (i < K)%nat ->
     leaves (loserTree w) !!! i = SENTINEL \/ runID (leaves (loserTree w) !!! i) = c + 1) ->
  forall r w', RunGenerator.run_boundary w = (r, w') ->
    r = Throw out_of_range \/
    (r = Ok tt /\
     exists im',
       generating K all (c + 1) w' im' (css ++ [cur]) [] /\
       loserTree w' = loserTree w /\ inp w' = inp w /\ extends im im').
Proof.
  intros G Hcur Hleaves r w' Hrun.
  unfold RunGenerator.run_boundary in Hrun. rewrite bind_get in Hrun.
  (* the block being filled is handed over *)
  assert (exists w1 im1,
            (if negb (bool_decide (activeOut (outp w) = []))
             then RunGenerator.submit_active else ret tt) w = (Ok tt, w1) /\
            output_holds w1 im1 cur /\ activeOut (outp w1) = [] /\
            same_compute w w1 /\ extends im im1)
    as (w1 & im1 & H1 & Ho1 & Ha1 & Hs1 & He1).
  { case_bool_decide as Hact; simpl.
    - exists w, im. split; [done|]. split; [apply (gen_output _ _ _ _ _ _ _ G)|].
      split; [done|]. split; [done|]. apply extends_refl.
    - apply submit_active_spec, (gen_output _ _ _ _ _ _ _ G). }
  rewrite (bind_ok _ _ _ _ _ H1) in Hrun.
  destruct (await_output_spec w1 im1 cur Ho1)
    as (w2 & im2 & H2 & Ho2 & Hb2 & Ha2 & Hs2 & He2).
  rewrite (bind_ok _ _ _ _ _ H2) in Hrun. rewrite Ha1 in Ha2.
  destruct (RunGenerator.record_run w2) as [r3 w3] eqn:H3.
  assert (Hw2 : written_holds w2 im2 cur).
  { apply output_written; [|done]. by rewrite Ha2, app_nil_r. }
  destruct (record_run_spec w2 im2 cur Hw2 r3 w3 H3)
    as [->|(-> & im3 & Ho3 & He3 & Hi3 & Ht3 & Hout3 & Hg3)].
  { rewrite (bind_throw _ _ _ _ _ H3) in Hrun. inversion Hrun. by left. }
  rewrite (bind_ok _ _ _ _ _ H3) in Hrun.
  destruct Hg3 as [[Hnil _]|(_ & m & Hg3 & Hm3)]; [done|].
  destruct Ho3 as [Hwf3 _].
  destruct (open_run_spec w3 im3 Hwf3) as (w4 & im4 & H4 & Ho4 & He4 & _ & Hi4 & Ht4 & Hg4 & _).
  { by rewrite Hout3. }
  { by rewrite Hout3. }
  rewrite H4 in Hrun. inversion Hrun; subst r w'. clear Hrun.
  right. split; [done|]. exists im4.
  destruct Hs1 as (Si1 & St1 & Sg1 & _). destruct Hs2 as (Si2 & St2 & Sg2 & _).
  assert (Ei : inp w4 = inp w) by congruence.
  assert (Et : loserTree w4 = loserTree w) by congruence.
  assert (Eg : generatedRuns w4 = generatedRuns w ++ [m]) by congruence.
  assert (Hext : extends im im4).
  { eapply extends_trans; [exact He1|]. eapply extends_trans; [exact He2|].
    eapply extends_trans; [exact He3 | exact He4]. }
  split; [|done].
  destruct G as [g_input g_output g_tree g_K g_tags g_cur_sorted g_sealed
    g_sealed_sorted g_sealed_nonempty g_run_id g_exhausted g_all]. constructor.
  - by rewrite Ei.
  - done.
  - by rewrite Et.
  - by rewrite Et.
  - rewrite Et. intros i Hi. rewrite g_K in Hi.
    destruct (Hleaves i Hi) as [Hs|Hr]; [by left|]. right. left. split; [done|]. constructor.
  - constructor.
  - rewrite Eg. apply Forall2_app.
    + apply (runs_on_disk_extends im); done.
    + constructor; [|constructor]. by apply (run_content_extends im3 im4).
  - apply Forall_app. split; [done|]. by constructor.
  - apply Forall_app. split; [done|]. by constructor.
  - rewrite length_app. simpl. lia.
  - by rewrite Ei, Et.
  - rewrite Ei, Et, concat_app. simpl. rewrite app_nil_r. by rewrite <- app_assoc.
Qed.

Lemma output_holds_frame w w' im cur :
  outp w' = outp w -> runFile w' = runFile w ->
  output_holds w im cur -> output_holds w' im cur.
Proof. unfold output_holds. by intros -> ->. Qed.

(** One turn of the main loop past the boundary: the winner of the current
    run is emitted and its leaf is refilled from the input or retired. *)
Lemma turn_spec K bufSize all c w im css cur :
  (1 <= bufSize)%nat ->
  generating K all c w im css cur -> 1 <= c -> c + 1 < INT_MAX ->
  runID (LoserTree.getWinner (loserTree w)) = c ->
  exists w1 w' im',
    RunGenerator.emit bufSize (value (LoserTree.getWinner (loserTree w))) w = (Ok tt, w1) /\
    RunGenerator.replace_winner bufSize (LoserTree.getWinner (loserTree w)) c w1
      = (Ok tt, w') /\
    generating K all c w' im' css (cur ++ [value (LoserTree.getWinner (loserTree w))]) /\
    extends im im' /\
    (length (workspace (loserTree w')) + length (pending (inp w')) + 1
     = length (workspace (loserTree w)) + length (pending (inp w)))%nat.
Proof.
  intros Hbuf G Hc1 Hc Hwin.
  set (win := LoserTree.getWinner (loserTree w)) in *.
  destruct (emit_spec bufSize w im cur (value win) (gen_output _ _ _ _ _ _ _ G))
    as (w1 & im1 & Hemit & Ho1 & (Si & St & Sg & Sr) & He1).
  exists w1.
  destruct (pullNextInput_spec bufSize Hbuf (inp w) (gen_input _ _ _ _ _ _ _ G))
    as (i' & Hpull & Hpend & Hin').
  set (x := match head (pending (inp w)) with
            | Some val => mkRunNode val (if val <? value win then c + 1 else c)
            | None => SENTINEL
            end).
  set (lt' := LoserTree.replay (tree (loserTree w) !!! 0%nat)
                (mkLoserTree (tree (loserTree w))
                   (<[tree (loserTree w) !!! 0%nat := x]> (leaves (loserTree w)))
                   (k (loserTree w)))).
  assert (Hrep : RunGenerator.replace_winner bufSize win c w1
                 = (Ok tt, mkWorld i' (outp w1) lt' (currentRunId w1) (generatedRuns w1)
                             (runFile w1))).
  { unfold RunGenerator.replace_winner.
    unfold bind at 1, RunGenerator.onInput at 1. rewrite Si, Hpull.
    rewrite bind_get. cbn [loserTree]. rewrite St.
    unfold lt', x. destruct (head (pending (inp w))); reflexivity. }
  eexists _, im1. split; [done|]. split; [exact Hrep|].
  pose proof (gen_tree _ _ _ _ _ _ _ G) as Ht.
  destruct (winner_index _ Ht) as (Hidx & Hidx' & Hw).
  assert (Hreal : is_real win).
  { unfold is_real. fold win in Hwin. rewrite Hwin. lia. }
  pose proof (workspace_winner _ Ht Hreal) as Hws.
  pose proof (workspace_replaced _ Ht x) as Hws'. simpl in Hws'. fold lt' in Hws'.
  fold win in Hws.
  set (rest := map value
                 (filter is_real
                    (delete (tree (loserTree w) !!! 0%nat)
                       (take (k (loserTree w)) (leaves (loserTree w)))))) in *.
  assert (Hx : x = SENTINEL \/ (runID x = c /\ value win <= value x) \/ runID x = c + 1).
  { unfold x. destruct (head (pending (inp w))) as [val|]; [|by left].
    right. simpl. destruct (val <? value win) eqn:E.
    - by right.
    - left. apply Z.ltb_ge in E. done. }
  split; [|split; [done|]].
  - destruct G as [g_input g_output g_tree g_K g_tags g_cur_sorted g_sealed
    g_sealed_sorted g_sealed_nonempty g_run_id g_exhausted g_all]. constructor; simpl.
    + done.
    + by apply (output_holds_frame w1).
    + by apply replace_leaf_tournament.
    + unfold lt'. by destruct (replaced_leaves (loserTree w) x) as [_ ->].
    + by apply tags_after_replace.
    + by apply (winner_extends_run _ c).
    + rewrite Sg. by apply (runs_on_disk_extends im).
    + done.
    + done.
    + done.
    + destruct (replaced_leaves (loserTree w) x) as [El Ek]. fold lt' in El, Ek.
      rewrite El, Ek.
      destruct (head (pending (inp w))) as [val|] eqn:Hhead.
      * right. destruct g_exhausted as [Hnil|Hall];
          [by rewrite Hnil in Hhead|].
        rewrite take_insert_lt by done. apply Forall_insert; [done|].
        unfold x, is_real. simpl. destruct (val <? value win); lia.
      * left. rewrite Hpend. by destruct (pending (inp w)).
    + rewrite g_all, Hws, Hws', Hpend. unfold x.
      destruct (pending (inp w)) as [|val P'] eqn:HP; simpl.
      * try rewrite decide_False by (unfold is_real; simpl; lia). simpl.
        rewrite !app_nil_r. rewrite <- !app_assoc. simpl.
        apply Permutation_app_head, Permutation_app_head. done.
      * rewrite decide_True by (unfold is_real; simpl; destruct (val <? value win); lia).
        simpl. rewrite <- !app_assoc. simpl.
        do 2 apply Permutation_app_head. apply perm_skip.
        symmetry. apply Permutation_middle.
  - simpl. rewrite (Permutation_length Hws), (Permutation_length Hws'), Hpend.
    unfold x. destruct (pending (inp w)) as [|val P'] eqn:HP; simpl.
    + try rewrite decide_False by (unfold is_real; simpl; lia). simpl. lia.
    + rewrite decide_True by (unfold is_real; simpl; destruct (val <? value win); lia).
      simpl. lia.
Qed.

(** ** The main loop *)

Lemma main_loop_unfold bufSize fuel c w :
  RunGenerator.main_loop bufSize fuel c w =
    let winnerNode := LoserTree.getWinner (loserTree w) in
    if runID winnerNode =? INT_MAX then (Ok tt, w)
    else
      match fuel with
      | O => (Throw fuel_exhausted, w)
      | S fuel' =>
          bind (if c <? runID winnerNode then RunGenerator.run_boundary else ret tt)
            (fun _ =>
               bind (RunGenerator.emit bufSize (value winnerNode))
                 (fun _ =>
                    bind (RunGenerator.replace_winner bufSize winnerNode
                            (if c <? runID winnerNode then runID winnerNode else c))
                      (fun _ =>
                         RunGenerator.main_loop bufSize fuel'
                           (if c <? runID winnerNode then runID winnerNode else c)))) w
      end.
Proof.
  destruct fuel; simpl; unfold bind at 1, get;
    destruct (runID (LoserTree.getWinner (loserTree w)) =? INT_MAX); reflexivity.
Qed.

Lemma main_loop_spec K bufSize all fuel :
  (1 <= bufSize)%nat -> Z.of_nat (length all) + 2 < INT_MAX ->
  forall c w im css cur,
    generating K all c w im css cur ->
    (length (workspace (loserTree w)) + length (pending (inp w)) <= fuel)%nat ->
    forall r w', RunGenerator.main_loop bufSize fuel c w = (r, w') ->
      r = Throw out_of_range \/
      (r = Ok tt /\
       exists c' im' css' cur',
         generating K all c' w' im' css' cur' /\
         workspace (loserTree w') = [] /\ pending (inp w') = [] /\ extends im im').
Proof.
  intros Hbuf Hall. induction fuel as [|f IH];
    intros c w im css cur G Hfuel r w' Hrun;
    rewrite main_loop_unfold in Hrun; cbv zeta in Hrun;
    destruct (run_id_bound _ _ _ _ _ _ _ G Hall) as [Hc1 Hc];
    pose proof (gen_tree _ _ _ _ _ _ _ G) as Ht;
    pose proof (gen_tags _ _ _ _ _ _ _ G) as Htags;
    destruct (tournament_winner _ _ _ Ht) as [Hidx Hmin];
    set (win := LoserTree.getWinner (loserTree w)) in *;
    destruct (runID win =? INT_MAX) eqn:E.
  1,3: (* the winner is the sentinel: the tree is empty *)
    apply Z.eqb_eq in E; inversion Hrun; subst r w'; right; split; [done|];
    exists c, im, css, cur;
    destruct (workspace_empty _ Ht c cur Htags Hc Hc1) as [Hws Hnot];
      [unfold is_real; fold win; lia|];
    split; [done|]; split; [done|]; split; [|apply extends_refl];
    by destruct (gen_exhausted _ _ _ _ _ _ _ G).
  - (* no turn left, yet a real winner *)
    apply Z.eqb_neq in E.
    assert (Hreal : is_real win) by done.
    pose proof (Permutation_length (workspace_winner _ Ht Hreal)) as Hl.
    simpl in Hl. lia.
  - apply Z.eqb_neq in E.
    assert (Hcase : runID win = c \/ (runID win = c + 1 /\ cur <> [])).
    { destruct (Htags _ Hidx) as [Hs|[[Hr _]|[Hr Hne]]].
      - unfold win, LoserTree.getWinner in E. rewrite Hs in E. done.
      - by left.
      - by right. }
    destruct Hcase as [Hwin|[Hwin Hcur]].
    + (* the winner belongs to the current run *)
      replace (c <? runID win) with false in Hrun by (symmetry; apply Z.ltb_ge; lia).
      rewrite bind_ret in Hrun.
      destruct (turn_spec K bufSize all c w im css cur Hbuf G Hc1 Hc Hwin)
        as (w1 & w2 & im2 & Hemit & Hrep & G2 & He2 & Hm).
      fold win in Hemit, Hrep.
      rewrite (bind_ok _ _ _ _ _ Hemit), (bind_ok _ _ _ _ _ Hrep) in Hrun.
      destruct (IH c w2 im2 css _ G2 ltac:(lia) r w' Hrun)
        as [->|(-> & c' & im' & css' & cur' & G' & Hws & Hp & He')]; [by left|].
      right. split; [done|]. exists c', im', css', cur'.
      split; [done|]. split; [done|]. split; [done|]. by eapply extends_trans.
    + (* the winner opens the next run *)
      replace (c <? runID win) with true in Hrun by (symmetry; apply Z.ltb_lt; lia).
      destruct (RunGenerator.run_boundary w) as [r1 w1] eqn:Hb.
      assert (Hleaves : forall i, (i < K)%nat ->
                leaves (loserTree w) !!! i = SENTINEL \/
                runID (leaves (loserTree w) !!! i) = c + 1).
      { intros i Hi. rewrite <- (gen_K _ _ _ _ _ _ _ G) in Hi.
        destruct (Htags _ Hi) as [Hs|[[Hr _]|[Hr _]]]; [by left | | by right].
        specialize (Hmin i Hi). apply beats_spec in Hmin.
        unfold win, LoserTree.getWinner in Hwin. lia. }
      destruct (run_boundary_spec K all c w im css cur G Hcur Hleaves r1 w1 Hb)
        as [->|(-> & im1 & G1 & Et & Ei & He1)].
      { rewrite (bind_throw _ _ _ _ _ Hb) in Hrun. inversion Hrun. by left. }
      rewrite (bind_ok _ _ _ _ _ Hb) in Hrun.
      destruct (run_id_bound _ _ _ _ _ _ _ G1 Hall) as [Hc1' Hc'].
      assert (Hwin1 : runID (LoserTree.getWinner (loserTree w1)) = c + 1)
        by (by rewrite Et).
      destruct (turn_spec K bufSize all (c + 1) w1 im1 _ [] Hbuf G1 Hc1' Hc' Hwin1)
        as (w2 & w3 & im3 & Hemit & Hrep & G3 & He3 & Hm).
      rewrite Et in Hemit, Hrep, Hm. rewrite Ei in Hm. fold win in Hemit, Hrep.
      rewrite Hwin in Hrun.
      rewrite (bind_ok _ _ _ _ _ Hemit), (bind_ok _ _ _ _ _ Hrep) in Hrun.
      destruct (IH (c + 1) w3 im3 _ _ G3 ltac:(lia) r w' Hrun)
        as [->|(-> & c' & im' & css' & cur' & G' & Hws & Hp & He')]; [by left|].
      right. split; [done|]. exists c', im', css', cur'.
      split; [done|]. split; [done|]. split; [done|].
      eapply extends_trans; [exact He1|]. by eapply extends_trans.
Qed.

(** ** The initial filling *)

Lemma initial_fill_unfold K bufSize fuel data w :
  RunGenerator.initial_fill K bufSize fuel data w =
    if (length data <? K)%nat then
      match fuel with
      | O => (Throw fuel_exhausted, w)
      | S fuel' =>
          bind (RunGenerator.onInput (RunGenerator.pullNextInput bufSize))
            (fun r => match r with
                      | None => ret data
                      | Some val =>
                          RunGenerator.initial_fill K bufSize fuel' (data ++ [val])
                      end) w
      end
    else (Ok data, w).
Proof. destruct fuel; simpl; destruct (length data <? K)%nat; reflexivity. Qed.

Lemma initial_fill_spec K bufSize fuel :
  (1 <= bufSize)%nat ->
  forall data w,
    input_ok (inp w) -> (K - length data <= fuel)%nat ->
    exists data' i',
      RunGenerator.initial_fill K bufSize fuel data w
        = (Ok data', mkWorld i' (outp w) (loserTree w) (currentRunId w)
                       (generatedRuns w) (runFile w)) /\
      input_ok i' /\
      data' ++ pending i' = data ++ pending (inp w) /\
      (length data <= K -> length data' <= K)%nat /\
      ((length data' < K)%nat -> pending i' = []).
Proof.
  intros Hbuf. induction fuel as [|f IH]; intros data w Hin Hfuel;
    rewrite initial_fill_unfold.
  - replace (length data <? K)%nat with false by (symmetry; apply Nat.ltb_ge; lia).
    exists data, (inp w). destruct w. simpl. split; [done|]. split; [done|].
    split; [done|]. split; [done|]. simpl in *. lia.
  - destruct (length data <? K)%nat eqn:E.
    2:{ apply Nat.ltb_ge in E. exists data, (inp w). destruct w. simpl.
        split; [done|]. split; [done|]. split; [done|]. split; [done|]. lia. }
    apply Nat.ltb_lt in E.
    destruct (pullNextInput_spec bufSize Hbuf (inp w) Hin) as (i1 & Hpull & Hpend & Hin1).
    unfold bind, RunGenerator.onInput. rewrite Hpull.
    destruct (pending (inp w)) as [|val P] eqn:HP; simpl in *.
    + exists data, i1. split; [done|]. split; [done|]. rewrite Hpend.
      split; [done|]. split; [done|]. done.
    + destruct (IH (data ++ [val])
                  (mkWorld i1 (outp w) (loserTree w) (currentRunId w) (generatedRuns w)
                     (runFile w)) Hin1)
        as (data' & i' & Hfill & Hin' & Happ & Hlen & Hshort).
      { rewrite length_app. simpl. lia. }
      exists data', i'. split; [exact Hfill|]. split; [done|]. simpl in Happ.
      split; [by rewrite Happ, Hpend, <- app_assoc|].
      split; [|done]. intros _. apply Hlen. rewrite length_app. simpl. lia.
Qed.

(** ** The tree after initialize *)

Lemma initial_slots K : forall data : list T,
  map (fun i => match data !! i with
                | Some v => mkRunNode v 1
                | None => SENTINEL
                end) (seq 0 K)
  = map (fun v => mkRunNode v 1) (take K data) ++ replicate (K - length data) SENTINEL.
Proof.
  induction K as [|K IH]; intros data; [done|].
  destruct data as [|x data]; simpl.
  - f_equal. clear. generalize 1%nat. induction K as [|K IH]; intros s; [done|].
    simpl. f_equal. apply IH.
  - f_equal. rewrite <- seq_shift, map_map. simpl. apply IH.
Qed.

Lemma initialize_view data lt :
  (length data <= k lt)%nat ->
  let lt' := LoserTree.initialize data lt in
  k lt' = k lt /\
  take (k lt) (leaves lt')
    = map (fun v => mkRunNode v 1) data ++ replicate (k lt - length data) SENTINEL.
Proof.
  intros Hlen. simpl. split; [done|].
  unfold LoserTree.initial_leaves.
  rewrite take_app_length' by (by rewrite length_map, length_seq).
  rewrite initial_slots. by rewrite firstn_all2 by lia.
Qed.

Lemma initialize_workspace data lt :
  (length data <= k lt)%nat -> workspace (LoserTree.initialize data lt) = data.
Proof.
  intros Hlen. destruct (initialize_view data lt Hlen) as [Ek El].
  unfold workspace. rewrite Ek, El. rewrite filter_app.
  assert (H1 : filter is_real (map (fun v => mkRunNode v 1) data)
               = map (fun v => mkRunNode v 1) data).
  { clear. induction data as [|x data IH]; [done|]. simpl.
    rewrite filter_cons_True by (unfold is_real; simpl; unfold INT_MAX; lia).
    by rewrite IH. }
  assert (H2 : forall n, filter is_real (replicate n SENTINEL) = []).
  { intros n. apply filter_none. clear. induction n; constructor; [|done].
    unfold is_real. simpl. lia. }
  rewrite H1, H2, app_nil_r, map_map. simpl. apply map_id.
Qed.

Lemma initialize_tags data lt :
  (length data <= k lt)%nat -> tags_ok (LoserTree.initialize data lt) 1 [].
Proof.
  intros Hlen. destruct (initialize_view data lt Hlen) as [Ek El].
  intros i Hi. rewrite Ek in Hi. simpl.
  rewrite <- (lookup_total_take_lt _ (k lt)) by done.
  change (LoserTree.initial_leaves (k lt) data)
    with (leaves (LoserTree.initialize data lt)).
  rewrite El.
  destruct (decide (i < length data)%nat) as [Hlt|Hge].
  - rewrite lookup_total_app_l by (by rewrite length_map).
    right. left. split; [|constructor].
    destruct (lookup_lt_is_Some_2 data i Hlt) as [v Hv].
    erewrite list_lookup_total_correct; [|by rewrite list_lookup_fmap, Hv].
    done.
  - left. rewrite lookup_total_app_r by (rewrite length_map; lia).
    apply list_lookup_total_correct, lookup_replicate_2.
    rewrite length_map. lia.
Qed.

Lemma initialize_real data lt :
  length data = k lt ->
  Forall is_real (take (k lt) (leaves (LoserTree.initialize data lt))).
Proof.
  intros Hlen. destruct (initialize_view data lt ltac:(lia)) as [Ek El].
  rewrite El, Hlen, Nat.sub_diag. simpl. rewrite app_nil_r.
  apply Forall_forall. intros n Hn.
  apply list_elem_of_In, in_map_iff in Hn as (v & <- & _).
  unfold is_real. simpl. unfold INT_MAX. lia.
Qed.

(** ** The end of computeWorker *)

Lemma finish_spec K all c w im css cur :
  generating K all c w im css cur ->
  workspace (loserTree w) = [] -> pending (inp w) = [] ->
  forall r w', RunGenerator.finish w = (r, w') ->
    r = Throw out_of_range \/
    (r = Ok tt /\
     exists im' css',
       wf_open (runFile w') im' /\ runs_on_disk im' (generatedRuns w') css' /\
       Forall nondecreasing css' /\ Forall (fun xs => xs <> []) css' /\
       all ≡ₚ concat css' /\ extends im im').
Proof.
  intros G Hws Hp r w' Hrun.
  unfold RunGenerator.finish in Hrun.
  destruct (await_output_spec w im cur (gen_output _ _ _ _ _ _ _ G))
    as (w1 & im1 & H1 & Ho1 & Hb1 & Ha1 & (Si1 & St1 & Sg1 & _) & He1).
  rewrite (bind_ok _ _ _ _ _ H1), bind_get in Hrun.
  (* the last block is written *)
  assert (exists w3 im3,
            (if negb (bool_decide (activeOut (outp w1) = []))
             then bind (RunGenerator.setOutput (RunGenerator.hand_over (outp w1)))
                    (fun _ => RunGenerator.await_output)
             else ret tt) w1 = (Ok tt, w3) /\
            written_holds w3 im3 cur /\ generatedRuns w3 = generatedRuns w1 /\
            extends im1 im3)
    as (w3 & im3 & H3 & Hw3 & Sg3 & He3).
  { case_bool_decide as Hact; simpl.
    - exists w1, im1. split; [done|]. split; [|split; [done | apply extends_refl]].
      apply output_written; [|done]. by rewrite Hact, app_nil_r.
    - set (w2 := mkWorld (inp w1) (RunGenerator.hand_over (outp w1)) (loserTree w1)
                   (currentRunId w1) (generatedRuns w1) (runFile w1)).
      assert (Ho2 : output_holds w2 im1 (cur ++ standbyOut (outp w1))).
      { destruct Ho1 as (Hwf & base & He & Hb & Ht & Hcur).
        split; [done|]. exists base. simpl. split; [done|]. split; [done|].
        split; [done|]. rewrite Hb1 in Hcur. simpl in Hcur.
        rewrite Hcur. by rewrite <- app_assoc. }
      destruct (await_output_spec w2 im1 _ Ho2)
        as (w3 & im3 & H3 & Ho3 & Hb3 & Ha3 & (_ & _ & Sg3 & _) & He3).
      exists w3, im3. split.
      { unfold bind, RunGenerator.setOutput. fold w2. exact H3. }
      split; [|done]. apply output_written; [|done]. by rewrite Ha3. }
  rewrite (bind_ok _ _ _ _ _ H3) in Hrun.
  destruct (record_run_spec w3 im3 cur Hw3 r w' Hrun)
    as [->|(-> & im4 & Hw4 & He4 & _ & _ & _ & Hg4)]; [by left|].
  right. split; [done|].
  assert (Hext : extends im im4).
  { eapply extends_trans; [exact He1|]. eapply extends_trans; [exact He3 | exact He4]. }
  pose proof (gen_all _ _ _ _ _ _ _ G) as Hall.
  rewrite Hws, Hp, !app_nil_r in Hall.
  destruct Hw4 as [Hwf4 _].
  destruct Hg4 as [[-> Hg4]|(Hne & m & Hg4 & Hm4)].
  - exists im4, css. split; [done|]. rewrite Hg4, Sg3, Sg1.
    split; [apply (runs_on_disk_extends im); [done | apply (gen_sealed _ _ _ _ _ _ _ G)]|].
    split; [apply (gen_sealed_sorted _ _ _ _ _ _ _ G)|].
    split; [apply (gen_sealed_nonempty _ _ _ _ _ _ _ G)|].
    rewrite app_nil_r in Hall. done.
  - exists im4, (css ++ [cur]). split; [done|]. rewrite Hg4, Sg3, Sg1.
    split.
    { apply Forall2_app.
      - apply (runs_on_disk_extends im); [done | apply (gen_sealed _ _ _ _ _ _ _ G)].
      - by repeat constructor. }
    split.
    { apply Forall_app. split; [apply (gen_sealed_sorted _ _ _ _ _ _ _ G)|].
      constructor; [apply (gen_cur_sorted _ _ _ _ _ _ _ G) | done]. }
    split.
    { apply Forall_app. split; [apply (gen_sealed_nonempty _ _ _ _ _ _ _ G)|].
      by repeat constructor. }
    rewrite concat_app. simpl. rewrite app_nil_r. done.
Qed.

(** ** generateRuns *)

(** The state in which the main loop is entered. *)
Lemma computeWorker_start K bufSize all w im :
  (1 <= bufSize)%nat -> (1 <= K)%nat -> k (loserTree w) = K ->
  output_holds w im [] -> generatedRuns w = [] ->
  inp w = mkInputSide all [] (replicate bufSize 0) 0 false false ->
  exists data i1,
    RunGenerator.initial_fill K bufSize K [] w
      = (Ok data, mkWorld i1 (outp w) (loserTree w) (currentRunId w)
                    (generatedRuns w) (runFile w)) /\
    let w2 := mkWorld i1 (outp w) (LoserTree.initialize data (loserTree w))
                (currentRunId w) (generatedRuns w) (runFile w) in
    generating K all 1 w2 im [] [] /\
    (length (workspace (loserTree w2)) + length (pending (inp w2)) <= length all)%nat.
Proof.
  intros Hbuf HK Hk Hout Hgen Hinp.
  assert (Hin : input_ok (inp w)) by (by rewrite Hinp).
  destruct (initial_fill_spec K bufSize K Hbuf [] w Hin ltac:(simpl; lia))
    as (data & i1 & Hfill & Hin1 & Happ & Hlen & Hshort).
  exists data, i1. split; [done|].
  assert (Hpend0 : pending (inp w) = all) by (by rewrite Hinp).
  simpl in Happ. rewrite Hpend0 in Happ.
  specialize (Hlen ltac:(simpl; lia)).
  split.
  - constructor; simpl.
    + done.
    + by apply (output_holds_frame w).
    + apply initialize_tournament. lia.
    + done.
    + apply initialize_tags. lia.
    + constructor.
    + rewrite Hgen. constructor.
    + constructor.
    + constructor.
    + done.
    + destruct (decide (length data < K)%nat) as [Hlt|Hge]; [left; by apply Hshort|].
      right. rewrite Hk. rewrite <- Hk. apply initialize_real. lia.
    + rewrite initialize_workspace by lia. by rewrite Happ.
  - simpl. rewrite initialize_workspace by lia.
    rewrite <- Happ, length_app. lia.
Qed.

Lemma computeWorker_spec K bufSize all w im :
  (1 <= bufSize)%nat -> Z.of_nat (length all) + 2 < INT_MAX ->
  (1 <= K)%nat -> k (loserTree w) = K ->
  output_holds w im [] -> generatedRuns w = [] ->
  inp w = mkInputSide all [] (replicate bufSize 0) 0 false false ->
  forall r w', RunGenerator.computeWorker K bufSize (length all) w = (r, w') ->
    r = Throw out_of_range \/
    (r = Ok tt /\ exists im' css,
       runs_of all (runFile w') (generatedRuns w') im' css /\ extends im im').
Proof.
  intros Hbuf Hall HK Hk Hout Hgen Hinp r w' Hrun.
  unfold RunGenerator.computeWorker in Hrun.
  destruct (computeWorker_start K bufSize all w im Hbuf HK Hk Hout Hgen Hinp)
    as (data & i1 & Hfill & G & Hmeasure).
  rewrite (bind_ok _ _ _ _ _ Hfill), bind_get in Hrun.
  unfold bind at 1, RunGenerator.setTree at 1 in Hrun. cbn [loserTree inp outp
    currentRunId generatedRuns runFile] in Hrun.
  set (w2 := mkWorld i1 (outp w) (LoserTree.initialize data (loserTree w))
               (currentRunId w) (generatedRuns w) (runFile w)) in *.
  destruct (RunGenerator.main_loop bufSize (length all) 1 w2) as [r3 w3] eqn:Hloop.
  destruct (main_loop_spec K bufSize all (length all) Hbuf Hall 1 w2 im [] [] G
              Hmeasure r3 w3 Hloop)
    as [->|(-> & c' & im3 & css3 & cur3 & G3 & Hws3 & Hp3 & He3)].
  { rewrite (bind_throw _ _ _ _ _ Hloop) in Hrun. inversion Hrun. by left. }
  rewrite (bind_ok _ _ _ _ _ Hloop) in Hrun.
  destruct (finish_spec K all c' w3 im3 css3 cur3 G3 Hws3 Hp3 r w' Hrun)
    as [->|(-> & im4 & css4 & Hwf4 & Hruns4 & Hs4 & Hn4 & Hperm4 & He4)]; [by left|].
  right. split; [done|]. exists im4, css4. split; [done|]. by eapply extends_trans.
Qed.

Lemma generateRuns_spec K bufSize input rf im :
  (1 <= bufSize)%nat -> Z.of_nat (length input) + 2 < INT_MAX ->
  wf_open rf im ->
  forall r rf', RunGenerator.generateRuns K bufSize input rf = Some (r, rf') ->
    r = Throw out_of_range \/
    exists runs im' css,
      r = Ok runs /\ runs_of input rf' runs im' css /\ extends im im'.
Proof.
  intros Hbuf Hall Hwf r rf' Hrun.
  unfold RunGenerator.generateRuns, RunGenerator.start, LoserTree.new in Hrun.
  destruct (K =? 0)%nat eqn:HK; [discriminate|]. apply Nat.eqb_neq in HK.
  set (w0 := mkWorld (mkInputSide input [] (replicate bufSize 0) 0 false false)
               (mkOutputSide [] (replicate bufSize 0) false 0 0)
               (mkLoserTree (replicate K 0%nat) (replicate (K + 1) SENTINEL) K)
               0 [] rf) in *.
  destruct (RunGenerator.generateRuns_body K bufSize input w0) as [r0 w'] eqn:Hbody.
  inversion Hrun; subst r0 rf'. clear Hrun.
  unfold RunGenerator.generateRuns_body in Hbody.
  destruct (open_run_spec w0 im Hwf eq_refl eq_refl)
    as (w1 & im1 & Hopen & Ho1 & He1 & _ & Hi1 & Ht1 & Hg1 & _).
  rewrite (bind_ok _ _ _ _ _ Hopen) in Hbody.
  unfold bind at 1, RunGenerator.setGeneratedRuns at 1 in Hbody.
  set (w2 := mkWorld (inp w1) (outp w1) (loserTree w1) (currentRunId w1) []
               (runFile w1)) in *.
  destruct (RunGenerator.computeWorker K bufSize (length input) w2) as [r3 w3] eqn:Hcw.
  assert (HK1 : (1 <= K)%nat) by lia.
  assert (Hk2 : k (loserTree w2) = K) by (simpl; by rewrite Ht1).
  assert (Ho2 : output_holds w2 im1 []) by (by apply (output_holds_frame w1)).
  assert (Hi2 : inp w2 = mkInputSide input [] (replicate bufSize 0) 0 false false)
    by (simpl; by rewrite Hi1).
  destruct (computeWorker_spec K bufSize input w2 im1 Hbuf Hall HK1 Hk2 Ho2 eq_refl Hi2
              r3 w3 Hcw)
    as [->|(-> & im3 & css & Hruns & He3)].
  { rewrite (bind_throw _ _ _ _ _ Hcw) in Hbody. inversion Hbody. by left. }
  rewrite (bind_ok _ _ _ _ _ Hcw) in Hbody. simpl in Hbody.
  inversion Hbody; subst r w'. right.
  exists (generatedRuns w3), im3, css. split; [done|]. split; [done|].
  by eapply extends_trans.
Qed.

(** ** Directory slots *)

Lemma free_count_insert d i m m' :
  d !! i = Some m -> isUsed m = false -> isUsed m' = true ->
  free_count d = S (free_count (<[i := m']> d)).
Proof.
  unfold free_count. revert i. induction d as [|x d IH]; intros i Hi Hm Hm'; [done|].
  destruct i as [|i]; simpl in *.
  - inversion Hi; subst x. rewrite Hm, Hm'.
    rewrite filter_cons_True by done. by rewrite filter_cons_False by done.
  - rewrite !filter_cons. destruct (decide (isUsed x = false)); simpl;
      by rewrite (IH i Hi Hm Hm').
Qed.

Lemma first_free_full d i : RunFile.first_free d i = None -> free_count d = 0%nat.
Proof.
  intros H. apply first_free_none in H. unfold free_count.
  induction H as [|m d Hm _ IH]; [done|]. simpl. rewrite Hm.
  by rewrite filter_cons_False by done.
Qed.

Lemma isUsed_insert_same d i m' :
  isUsed m' = isUsed (d !!! i) -> map isUsed (<[i := m']> d) = map isUsed d.
Proof.
  revert i. induction d as [|x d IH]; intros i Hm; [done|].
  destruct i as [|i]; simpl in *.
  - by rewrite Hm.
  - f_equal. by apply IH.
Qed.

Lemma stream_write_quiet off block : rf_quiet (RunFile.stream_write off block).
Proof.
  intros rf r rf' H. unfold RunFile.stream_write in H.
  destruct (file_is_open rf), (image rf) as [im|];
    try destruct (RunFile.elem_index _ _); inversion H; subst; done.
Qed.

Lemma getAppendOffset_quiet : rf_quiet RunFile.getAppendOffset.
Proof.
  intros rf r rf' H. unfold RunFile.getAppendOffset in H.
  destruct (file_is_open rf), (image rf); inversion H; subst; done.
Qed.

Lemma updateRunMetadata_view runId start count rf r rf' :
  RunFile.updateRunMetadata runId start count rf = (r, rf') ->
  (forall c, rf_view rf' c = rf_view rf c) /\
  (0 <= runId < maxRuns (header rf) -> r <> Throw out_of_range).
Proof.
  unfold RunFile.updateRunMetadata. intros H.
  destruct ((runId <? 0) || (maxRuns (header rf) <=? runId)) eqn:E.
  - inversion H; subst. split; [done|]. intros Hr.
    apply orb_true_iff in E as [E|E]; [apply Z.ltb_lt in E | apply Z.leb_le in E]; lia.
  - inversion H; subst r rf'. split; [|done]. intros c. unfold rf_view.
    destruct (writeMetadataToDisk_memory runId
                (RunFile.set_directory
                   (<[Z.to_nat runId := mkRunMetadata start count
                                          (isUsed (directory rf !!! Z.to_nat runId))]>
                      (directory rf)) rf)) as (-> & -> & _).
    simpl. by rewrite isUsed_insert_same.
Qed.

Lemma getRunMetadata_view runId rf r rf' :
  RunFile.getRunMetadata runId rf = (r, rf') ->
  rf' = rf /\ (0 <= runId < maxRuns (header rf) -> r <> Throw out_of_range).
Proof.
  unfold RunFile.getRunMetadata. intros H.
  destruct ((runId <? 0) || (maxRuns (header rf) <=? runId)) eqn:E.
  - inversion H; subst. split; [done|]. intros Hr.
    apply orb_true_iff in E as [E|E]; [apply Z.ltb_lt in E | apply Z.leb_le in E]; lia.
  - by inversion H.
Qed.

(** ** Steps that take no slot *)

Lemma quiet_ret {A} (a : A) : quiet (ret a : M World A).
Proof. intros w r w' H. by inversion H. Qed.

Lemma quiet_get : quiet (get : M World World).
Proof. intros w r w' H. by inversion H. Qed.

Lemma quiet_fuel {A} : quiet (throw fuel_exhausted : M World A).
Proof. intros w r w' H. by inversion H. Qed.

Lemma quiet_bind {A B} (m : M World A) (k : A -> M World B) :
  quiet m -> (forall a, quiet (k a)) -> quiet (bind m k).
Proof.
  intros Hm Hk w r w' H. unfold bind in H.
  destruct (m w) as [[a|e] w1] eqn:E; destruct (Hm _ _ _ E) as [Hv Hr].
  - destruct (Hk a _ _ _ H) as [Hv' Hr']. rewrite Hv', Hv. split; [done|].
    intros Hok. apply Hr'. by rewrite Hv.
  - inversion H; subst r w'. split; [done|]. intros Hok [= ->]. by apply Hr.
Qed.

Lemma quiet_onRunFile {A} (m : M RunFile A) :
  rf_quiet m -> quiet (RunGenerator.onRunFile m).
Proof.
  intros Hm w r w' H. unfold RunGenerator.onRunFile in H.
  destruct (m (runFile w)) as [r1 rf1] eqn:E. inversion H; subst r w'.
  destruct (Hm _ _ _ E) as [Hv Hr]. split; [|done].
  unfold slots_view. simpl. apply Hv.
Qed.

Lemma quiet_setOutput o : quiet (RunGenerator.setOutput o).
Proof. intros w r w' H. by inversion H. Qed.

Lemma quiet_setTree lt : quiet (RunGenerator.setTree lt).
Proof. intros w r w' H. by inversion H. Qed.

Lemma quiet_setGeneratedRuns g : quiet (RunGenerator.setGeneratedRuns g).
Proof. intros w r w' H. by inversion H. Qed.

Lemma pullNextInput_loop_outcome bufSize fuel :
  forall i r i', RunGenerator.pullNextInput_loop bufSize fuel i = (r, i') ->
    r <> Throw out_of_range.
Proof.
  induction fuel as [|f IH]; intros i r i' H; simpl in H;
    destruct (activeInIdx i <? length (activeIn i))%nat;
    try (by inversion H).
  destruct (standby_input_ready i); [by eapply IH|].
  destruct (input_eof i); [by inversion H | by eapply IH].
Qed.

Lemma quiet_pullNextInput bufSize :
  quiet (RunGenerator.onInput (RunGenerator.pullNextInput bufSize)).
Proof.
  intros w r w' H. unfold RunGenerator.onInput in H.
  destruct (RunGenerator.pullNextInput bufSize (inp w)) as [r1 i1] eqn:E.
  inversion H; subst r w'. split; [done|]. intros _.
  by eapply pullNextInput_loop_outcome.
Qed.

Ltac quiet_steps :=
  repeat first
    [ apply quiet_get | apply quiet_ret | apply quiet_fuel
    | apply quiet_setOutput | apply quiet_setTree | apply quiet_setGeneratedRuns
    | apply quiet_pullNextInput
    | apply quiet_onRunFile; first [apply stream_write_quiet | apply getAppendOffset_quiet]
    | apply quiet_bind; [|intros ?]
    | match goal with |- quiet (if ?b then _ else _) => destruct b end
    | match goal with |- quiet (match ?x with Some _ => _ | None => _ end) => destruct x end ].

Lemma quiet_outputWorker_step : quiet RunGenerator.outputWorker_step.
Proof. unfold RunGenerator.outputWorker_step. quiet_steps. Qed.

Lemma quiet_await_output : quiet RunGenerator.await_output.
Proof. unfold RunGenerator.await_output. quiet_steps. Qed.

Lemma quiet_submit_active : quiet RunGenerator.submit_active.
Proof. unfold RunGenerator.submit_active. quiet_steps. Qed.

Lemma quiet_emit bufSize v : quiet (RunGenerator.emit bufSize v).
Proof. unfold RunGenerator.emit. quiet_steps. Qed.

Lemma quiet_replace_winner bufSize winnerNode c :
  quiet (RunGenerator.replace_winner bufSize winnerNode c).
Proof. unfold RunGenerator.replace_winner. quiet_steps. Qed.

Lemma quiet_record_run : quiet RunGenerator.record_run.
Proof.
  intros w r w' H.
  unfold RunGenerator.record_run, bind, get, RunGenerator.onRunFile,
    RunGenerator.setGeneratedRuns in H.
  destruct (0 <? totalElementsInRun (outp w)); [|by inversion H].
  destruct (RunFile.updateRunMetadata _ _ _ (runFile w)) as [r1 rf1] eqn:E1.
  destruct (updateRunMetadata_view _ _ _ _ _ _ E1) as [Hv1 Hr1].
  assert (Hm1 : maxRuns (header rf1) = maxRuns (header (runFile w))).
  { specialize (Hv1 0). by inversion Hv1. }
  destruct r1 as [[]|e]; simpl in H.
  - destruct (RunFile.getRunMetadata (currentRunId w) rf1) as [r2 rf2] eqn:E2.
    destruct (getRunMetadata_view _ _ _ _ E2) as [-> Hr2].
    destruct r2 as [m|e]; inversion H; subst r w'; unfold slots_view; simpl;
      (split; [apply Hv1|]).
    + done.
    + intros [Hok _] [= ->]. simpl in Hok. apply Hr2; [lia|done].
  - inversion H; subst r w'. unfold slots_view; simpl. split; [apply Hv1|].
    intros [Hok _] [= ->]. simpl in Hok. by apply Hr1.
Qed.

Lemma quiet_finish : quiet RunGenerator.finish.
Proof.
  unfold RunGenerator.finish.
  apply quiet_bind; [apply quiet_await_output|]. intros _.
  apply quiet_bind; [apply quiet_get|]. intros w.
  apply quiet_bind; [|intros _; apply quiet_record_run].
  quiet_steps.
Qed.

Lemma quiet_initial_fill K bufSize fuel :
  forall data, quiet (RunGenerator.initial_fill K bufSize fuel data).
Proof.
  induction fuel as [|f IH]; intros data; simpl; quiet_steps. apply IH.
Qed.

(** ** Opening a run takes one slot *)

Lemma allocateNewRun_slot rf :
  length (directory rf) = Z.to_nat (maxRuns (header rf)) ->
  (1 <= free_count (directory rf))%nat ->
  exists i rf',
    RunFile.allocateNewRun rf = (Ok (Z.of_nat i), rf') /\
    (i < length (directory rf))%nat /\
    maxRuns (header rf') = maxRuns (header rf) /\
    length (directory rf') = length (directory rf) /\
    (free_count (directory rf') + 1 = free_count (directory rf))%nat.
Proof.
  intros Hlen Hfree. unfold RunFile.allocateNewRun.
  rewrite <- Hlen, firstn_all.
  destruct (RunFile.first_free (directory rf) 0) as [i|] eqn:Hff.
  2:{ apply first_free_full in Hff. lia. }
  apply first_free_spec in Hff as (_ & Hlt & (m & Hm & Hu) & _).
  rewrite Nat.sub_0_r in Hlt, Hm.
  destruct (writeMetadataToDisk_memory (Z.of_nat i)
              (RunFile.set_directory (<[i := mkRunMetadata 0 0 true]> (directory rf)) rf))
    as (Hh & Hd & _).
  eexists i, _. split; [reflexivity|]. simpl. rewrite Hh, Hd. simpl.
  split; [done|]. split; [done|]. split; [by rewrite length_insert|].
  rewrite (free_count_insert (directory rf) i m (mkRunMetadata 0 0 true)) by done. lia.
Qed.

Lemma open_run_slot w :
  length (directory (runFile w)) = Z.to_nat (maxRuns (header (runFile w))) ->
  0 <= maxRuns (header (runFile w)) ->
  (1 <= free_slots (slots_view w))%nat ->
  forall r w', RunGenerator.open_run w = (r, w') ->
    r = Ok tt /\ slot_ok (slots_view w') /\
    (free_slots (slots_view w') + 1 = free_slots (slots_view w))%nat.
Proof.
  intros Hlen Hmax Hfree r w' H.
  destruct (allocateNewRun_slot (runFile w) Hlen Hfree)
    as (i & rf1 & Halloc & Hi & Hm & Hl & Hf).
  unfold RunGenerator.open_run, bind, RunGenerator.onRunFile,
    RunGenerator.setCurrentRunId, get, RunGenerator.setOutput in H.
  rewrite Halloc in H. simpl in H.
  destruct (RunFile.getAppendOffset rf1) as [r2 rf2] eqn:E2.
  destruct (getAppendOffset_quiet _ _ _ E2) as [Hv2 Hr2]. specialize (Hv2 0).
  inversion Hv2 as [[Hu2 Hm2]].
  assert (Hr : exists off, r2 = Ok off).
  { unfold RunFile.getAppendOffset in E2.
    destruct (file_is_open rf1), (image rf1); inversion E2; eauto. }
  destruct Hr as [off ->]. simpl in H. inversion H; subst r w'.
  split; [done|]. unfold slot_ok, free_slots, slots_view, rf_view. simpl.
  rewrite Hu2, Hm2, length_map, Hl, Hm. fold (free_count (directory rf1)).
  split; [split; [lia|done]|]. exact Hf.
Qed.

Lemma allocating_open_run : allocating RunGenerator.open_run.
Proof.
  intros w r w' H [Hid Hlen] Hfree. simpl in Hid, Hlen.
  rewrite length_map in Hlen.
  destruct (open_run_slot w Hlen ltac:(lia) Hfree r w' H) as (-> & Hok & Hf).
  split; [done|]. by intros a _.
Qed.

Lemma allocating_bind {A B} (m : M World A) (k : A -> M World B) :
  quiet m -> (forall a, allocating (k a)) -> allocating (bind m k).
Proof.
  intros Hm Hk w r w' H Hok Hfree. unfold bind in H.
  destruct (m w) as [[a|e] w1] eqn:E; destruct (Hm _ _ _ E) as [Hv Hr].
  - rewrite <- Hv in Hok, Hfree. rewrite <- Hv. by apply (Hk a w1).
  - inversion H; subst r w'. split; [|done]. intros [= ->]. by apply Hr.
Qed.

Lemma allocating_run_boundary : allocating RunGenerator.run_boundary.
Proof.
  unfold RunGenerator.run_boundary.
  apply allocating_bind; [apply quiet_get|]. intros w.
  apply allocating_bind; [quiet_steps|]. intros _.
  apply allocating_bind; [apply quiet_await_output|]. intros _.
  apply allocating_bind; [apply quiet_record_run|]. intros _.
  apply allocating_open_run.
Qed.

(** ** The main loop with enough slots *)

Lemma concat_nonempty_length (css : list (list T)) :
  Forall (fun xs => xs <> []) css -> (length css <= length (concat css))%nat.
Proof.
  induction 1 as [|xs css Hxs _ IH]; [done|]. simpl. rewrite length_app.
  destruct xs; [done|]. simpl. lia.
Qed.

Lemma main_loop_slots K bufSize all fuel free0 :
  (1 <= bufSize)%nat -> Z.of_nat (length all) + 2 < INT_MAX ->
  (length all <= free0)%nat ->
  forall c w im css cur,
    generating K all c w im css cur ->
    (length (workspace (loserTree w)) + length (pending (inp w)) <= fuel)%nat ->
    slot_ok (slots_view w) ->
    (free_slots (slots_view w) + 1 + length css = free0)%nat ->
    forall r w', RunGenerator.main_loop bufSize fuel c w = (r, w') ->
      r = Ok tt /\
      exists c' im' css' cur',
        generating K all c' w' im' css' cur' /\
        workspace (loserTree w') = [] /\ pending (inp w') = [] /\ extends im im' /\
        slot_ok (slots_view w') /\
        (free_slots (slots_view w') + 1 + length css' = free0)%nat.
Proof.
  intros Hbuf Hall Hfree0. induction fuel as [|f IH];
    intros c w im css cur G Hfuel Hok Hfree r w' Hrun;
    rewrite main_loop_unfold in Hrun; cbv zeta in Hrun;
    destruct (run_id_bound _ _ _ _ _ _ _ G Hall) as [Hc1 Hc];
    pose proof (gen_tree _ _ _ _ _ _ _ G) as Ht;
    pose proof (gen_tags _ _ _ _ _ _ _ G) as Htags;
    destruct (tournament_winner _ _ _ Ht) as [Hidx Hmin];
    set (win := LoserTree.getWinner (loserTree w)) in *;
    destruct (runID win =? INT_MAX) eqn:E.
  1,3: (* the winner is the sentinel: the tree is empty *)
    apply Z.eqb_eq in E; inversion Hrun; subst r w'; split; [done|];
    exists c, im, css, cur;
    destruct (workspace_empty _ Ht c cur Htags Hc Hc1) as [Hws Hnot];
      [unfold is_real; fold win; lia|];
    split; [done|]; split; [done|];
    split; [by destruct (gen_exhausted _ _ _ _ _ _ _ G)|];
    split; [apply extends_refl|]; done.
  - (* no turn left, yet a real winner *)
    apply Z.eqb_neq in E.
    assert (Hreal : is_real win) by done.
    pose proof (Permutation_length (workspace_winner _ Ht Hreal)) as Hl.
    simpl in Hl. lia.
  - apply Z.eqb_neq in E.
    assert (Hreal : is_real win) by done.
    assert (Hcase : runID win = c \/ (runID win = c + 1 /\ cur <> [])).
    { destruct (Htags _ Hidx) as [Hs|[[Hr _]|[Hr Hne]]].
      - unfold win, LoserTree.getWinner in E. rewrite Hs in E. done.
      - by left.
      - by right. }
    destruct Hcase as [Hwin|[Hwin Hcur]].
    + (* the winner belongs to the current run *)
      replace (c <? runID win) with false in Hrun by (symmetry; apply Z.ltb_ge; lia).
      rewrite bind_ret in Hrun.
      destruct (turn_spec K bufSize all c w im css cur Hbuf G Hc1 Hc Hwin)
        as (w1 & w2 & im2 & Hemit & Hrep & G2 & He2 & Hm).
      fold win in Hemit, Hrep.
      rewrite (bind_ok _ _ _ _ _ Hemit), (bind_ok _ _ _ _ _ Hrep) in Hrun.
      destruct (quiet_emit _ _ _ _ _ Hemit) as [Hv1 _].
      destruct (quiet_replace_winner _ _ _ _ _ _ Hrep) as [Hv2 _].
      rewrite <- Hv1, <- Hv2 in Hok, Hfree.
      destruct (IH c w2 im2 css _ G2 ltac:(lia) Hok Hfree r w' Hrun)
        as (-> & c' & im' & css' & cur' & G' & Hws & Hp & He' & Hok' & Hfree').
      split; [done|]. exists c', im', css', cur'.
      split; [done|]. split; [done|]. split; [done|].
      split; [by eapply extends_trans|]. done.
    + (* the winner opens the next run *)
      replace (c <? runID win) with true in Hrun by (symmetry; apply Z.ltb_lt; lia).
      destruct (RunGenerator.run_boundary w) as [r1 w1] eqn:Hb.
      assert (Hleaves : forall i, (i < K)%nat ->
                leaves (loserTree w) !!! i = SENTINEL \/
                runID (leaves (loserTree w) !!! i) = c + 1).
      { intros i Hi. rewrite <- (gen_K _ _ _ _ _ _ _ G) in Hi.
        destruct (Htags _ Hi) as [Hs|[[Hr _]|[Hr _]]]; [by left | | by right].
        specialize (Hmin i Hi). apply beats_spec in Hmin.
        unfold win, LoserTree.getWinner in Hwin. lia. }
      assert (Hfree1 : (1 <= free_slots (slots_view w))%nat).
      { pose proof (Permutation_length (gen_all _ _ _ _ _ _ _ G)) as Hl.
        rewrite !length_app in Hl.
        pose proof (Permutation_length (workspace_winner _ Ht Hreal)) as Hlw.
        simpl in Hlw.
        pose proof (concat_nonempty_length css (gen_sealed_nonempty _ _ _ _ _ _ _ G)).
        destruct cur; [done|]. simpl in Hl. lia. }
      destruct (allocating_run_boundary _ _ _ Hb Hok Hfree1) as [Hno Hslots].
      destruct (run_boundary_spec K all c w im css cur G Hcur Hleaves r1 w1 Hb)
        as [->|(-> & im1 & G1 & Et & Ei & He1)]; [done|].
      destruct (Hslots tt eq_refl) as [Hok1 Hf1].
      rewrite (bind_ok _ _ _ _ _ Hb) in Hrun.
      destruct (run_id_bound _ _ _ _ _ _ _ G1 Hall) as [Hc1' Hc'].
      assert (Hwin1 : runID (LoserTree.getWinner (loserTree w1)) = c + 1)
        by (by rewrite Et).
      destruct (turn_spec K bufSize all (c + 1) w1 im1 _ [] Hbuf G1 Hc1' Hc' Hwin1)
        as (w2 & w3 & im3 & Hemit & Hrep & G3 & He3 & Hm).
      rewrite Et in Hemit, Hrep, Hm. rewrite Ei in Hm. fold win in Hemit, Hrep.
      rewrite Hwin in Hrun.
      rewrite (bind_ok _ _ _ _ _ Hemit), (bind_ok _ _ _ _ _ Hrep) in Hrun.
      destruct (quiet_emit _ _ _ _ _ Hemit) as [Hv2 _].
      destruct (quiet_replace_winner _ _ _ _ _ _ Hrep) as [Hv3 _].
      rewrite <- Hv2, <- Hv3 in Hok1, Hf1.
      assert (Hfree3 : (free_slots (slots_view w3) + 1 + length (css ++ [cur]) = free0)%nat)
        by (rewrite length_app; simpl; lia).
      destruct (IH (c + 1) w3 im3 _ _ G3 ltac:(lia) Hok1 Hfree3 r w' Hrun)
        as (-> & c' & im' & css' & cur' & G' & Hws & Hp & He' & Hok' & Hfree').
      split; [done|]. exists c', im', css', cur'.
      split; [done|]. split; [done|]. split; [done|].
      split; [|done].
      eapply extends_trans; [exact He1|]. by eapply extends_trans.
Qed.

(** ** computeWorker and generateRuns with enough slots *)

Lemma computeWorker_slots K bufSize all w im free0 :
  (1 <= bufSize)%nat -> Z.of_nat (length all) + 2 < INT_MAX ->
  (1 <= K)%nat -> k (loserTree w) = K ->
  output_holds w im [] -> generatedRuns w = [] ->
  inp w = mkInputSide all [] (replicate bufSize 0) 0 false false ->
  (length all <= free0)%nat ->
  slot_ok (slots_view w) -> (free_slots (slots_view w) + 1 = free0)%nat ->
  forall r w', RunGenerator.computeWorker K bufSize (length all) w = (r, w') ->
    r = Ok tt /\
    (free0 <= free_slots (slots_view w') + 1 + length all)%nat.
Proof.
  intros Hbuf Hall HK Hk Hout Hgen Hinp Hfree0 Hok Hfree r w' Hrun.
  unfold RunGenerator.computeWorker in Hrun.
  destruct (computeWorker_start K bufSize all w im Hbuf HK Hk Hout Hgen Hinp)
    as (data & i1 & Hfill & G & Hmeasure).
  rewrite (bind_ok _ _ _ _ _ Hfill), bind_get in Hrun.
  unfold bind at 1, RunGenerator.setTree at 1 in Hrun. cbn [loserTree inp outp
    currentRunId generatedRuns runFile] in Hrun.
  set (w2 := mkWorld i1 (outp w) (LoserTree.initialize data (loserTree w))
               (currentRunId w) (generatedRuns w) (runFile w)) in *.
  assert (Hv2 : slots_view w2 = slots_view w) by done.
  rewrite <- Hv2 in Hok, Hfree.
  destruct (RunGenerator.main_loop bufSize (length all) 1 w2) as [r3 w3] eqn:Hloop.
  destruct (main_loop_slots K bufSize all (length all) free0 Hbuf Hall Hfree0
              1 w2 im [] [] G Hmeasure Hok ltac:(simpl; lia) r3 w3 Hloop)
    as (-> & c' & im3 & css3 & cur3 & G3 & Hws3 & Hp3 & He3 & Hok3 & Hfree3).
  rewrite (bind_ok _ _ _ _ _ Hloop) in Hrun.
  destruct (quiet_finish _ _ _ Hrun) as [Hv4 Hr4]. rewrite <- Hv4 in Hok3.
  rewrite Hv4.
  split.
  - destruct (finish_spec K all c' w3 im3 css3 cur3 G3 Hws3 Hp3 r w' Hrun)
      as [->|[-> _]]; [|done].
    exfalso. apply Hr4; [by rewrite <- Hv4|done].
  - pose proof (Permutation_length (gen_all _ _ _ _ _ _ _ G3)) as Hl.
    rewrite !length_app in Hl.
    pose proof (concat_nonempty_length css3 (gen_sealed_nonempty _ _ _ _ _ _ _ G3)).
    lia.
Qed.

Lemma generateRuns_slots K bufSize input rf im :
  (1 <= bufSize)%nat -> Z.of_nat (length input) + 2 < INT_MAX ->
  wf_open rf im ->
  (1 <= free_count (directory rf))%nat ->
  (length input <= free_count (directory rf))%nat ->
  forall r rf', RunGenerator.generateRuns K bufSize input rf = Some (r, rf') ->
    (exists runs, r = Ok runs) /\
    (free_count (directory rf) <= free_count (directory rf') + 1 + length input)%nat.
Proof.
  intros Hbuf Hall Hwf Hfree1 HfreeN r rf' Hrun.
  unfold RunGenerator.generateRuns, RunGenerator.start, LoserTree.new in Hrun.
  destruct (K =? 0)%nat eqn:HK; [discriminate|]. apply Nat.eqb_neq in HK.
  set (w0 := mkWorld (mkInputSide input [] (replicate bufSize 0) 0 false false)
               (mkOutputSide [] (replicate bufSize 0) false 0 0)
               (mkLoserTree (replicate K 0%nat) (replicate (K + 1) SENTINEL) K)
               0 [] rf) in *.
  destruct (RunGenerator.generateRuns_body K bufSize input w0) as [r0 w'] eqn:Hbody.
  inversion Hrun; subst r0 rf'. clear Hrun.
  unfold RunGenerator.generateRuns_body in Hbody.
  destruct (open_run_spec w0 im Hwf eq_refl eq_refl)
    as (w1 & im1 & Hopen & Ho1 & He1 & _ & Hi1 & Ht1 & Hg1 & _).
  destruct (open_run_slot w0 (wf_length _ _ Hwf) (wf_maxRuns_nonneg _ _ Hwf) Hfree1
              _ _ Hopen) as (_ & Hok1 & Hf1).
  rewrite (bind_ok _ _ _ _ _ Hopen) in Hbody.
  unfold bind at 1, RunGenerator.setGeneratedRuns at 1 in Hbody.
  set (w2 := mkWorld (inp w1) (outp w1) (loserTree w1) (currentRunId w1) []
               (runFile w1)) in *.
  destruct (RunGenerator.computeWorker K bufSize (length input) w2) as [r3 w3] eqn:Hcw.
  assert (HK1 : (1 <= K)%nat) by lia.
  assert (Hk2 : k (loserTree w2) = K) by (simpl; by rewrite Ht1).
  assert (Ho2 : output_holds w2 im1 []) by (by apply (output_holds_frame w1)).
  assert (Hi2 : inp w2 = mkInputSide input [] (replicate bufSize 0) 0 false false)
    by (simpl; by rewrite Hi1).
  assert (Hv2 : slots_view w2 = slots_view w1) by done.
  rewrite <- Hv2 in Hok1, Hf1.
  destruct (computeWorker_slots K bufSize input w2 im1 (free_count (directory rf))
              Hbuf Hall HK1 Hk2 Ho2 eq_refl Hi2 HfreeN Hok1 Hf1 r3 w3 Hcw)
    as [-> Hbound].
  rewrite (bind_ok _ _ _ _ _ Hcw) in Hbody. simpl in Hbody.
  inversion Hbody; subst r w'. split; [by eexists|]. exact Hbound.
Qed.

(** ** The merge with enough slots *)

(** Every merge takes one slot and shortens the heap by one. *)
Lemma merge_all_slots pick fuel :
  forall heap css rf im,
    Merger.picks_top pick -> wf_open rf im -> runs_on_disk im heap css ->
    (length heap <= S fuel)%nat ->
    (length heap <= free_count (directory rf) + 1)%nat ->
    forall r rf', Merger.merge_all pick fuel heap rf = (r, rf') ->
      r <> Throw runtime_error.
Proof.
  induction fuel as [|f IH]; intros heap css rf im Hp Hwf Hruns Hlen Hfree r rf' Hrun;
    rewrite merge_all_unfold in Hrun.
  - destruct (1 <? length heap)%nat eqn:E; [apply Nat.ltb_lt in E; lia|].
    by inversion Hrun.
  - destruct (1 <? length heap)%nat eqn:E; [|by inversion Hrun].
    apply Nat.ltb_lt in E.
    assert (Hne : heap <> []) by (intros ->; simpl in E; lia).
    destruct (top_in_heap pick heap Hp Hne) as [runA HA]. rewrite HA in Hrun.
    assert (Hne1 : Merger.pop pick heap <> []).
    { intros H. apply (f_equal length) in H. unfold Merger.pop in H.
      rewrite length_delete in H by (by eapply mk_is_Some). simpl in H. lia. }
    destruct (top_in_heap pick _ Hp Hne1) as [runB HB]. rewrite HB in Hrun.
    unfold Merger.top, Merger.pop in *.
    set (ia := pick heap) in *. set (heap1 := delete ia heap) in *.
    set (ib := pick heap1) in *.
    destruct (Forall2_lookup_l _ _ _ _ _ Hruns HA) as (xsA & HcA & HrA).
    assert (Hruns1 : runs_on_disk im heap1 (delete ia css)) by (by apply Forall2_delete).
    destruct (Forall2_lookup_l _ _ _ _ _ Hruns1 HB) as (xsB & HcB & HrB).
    assert (Hruns2 : runs_on_disk im (delete ib heap1) (delete ib (delete ia css)))
      by (by apply Forall2_delete).
    assert (Hl1 : length heap1 = (length heap - 1)%nat)
      by (unfold heap1; rewrite length_delete by (by eapply mk_is_Some); done).
    destruct (RunFile.first_free (directory rf) 0) as [i|] eqn:Hff.
    2:{ apply first_free_full in Hff. lia. }
    destruct (MergeInMem_spec rf im runA runB xsA xsB i Hwf HrA HrB Hff)
      as (rf1 & im1 & Hm & Hwf1 & Hh1 & Hd1 & Hdir1 & _).
    rewrite (bind_ok _ _ _ _ _ Hm) in Hrun.
    apply first_free_spec in Hff as (_ & _ & (m & Hmi & Hu) & _).
    rewrite Nat.sub_0_r in Hmi.
    assert (Hf1 : free_count (directory rf) = S (free_count (directory rf1)))
      by (rewrite Hdir1; by apply (free_count_insert _ _ m)).
    apply (IH _ (delete ib (delete ia css) ++ [merge2 xsA xsB]) rf1 im1 Hp Hwf1) in Hrun;
      [done | | |].
    + unfold Merger.push. apply Forall2_app.
      * by apply (runs_on_disk_append im im1 _ _ (merge2 xsA xsB)).
      * constructor; [|constructor]. by apply run_content_appended.
    + unfold Merger.push. rewrite length_app, length_delete by (by eapply mk_is_Some).
      simpl. lia.
    + unfold Merger.push. rewrite length_app, length_delete by (by eapply mk_is_Some).
      simpl. lia.
Qed.

Lemma externalMergeSort_slots pick runs css rf im :
  Merger.picks_top pick -> wf_open rf im -> runs_on_disk im runs css ->
  runs <> [] -> (length runs <= free_count (directory rf) + 1)%nat ->
  forall r rf', Merger.externalMergeSort pick runs rf = (r, rf') ->
    exists final, r = Ok final.
Proof.
  intros Hp Hwf Hruns Hne Hfree r rf' Hrun.
  destruct (externalMergeSort_spec pick runs css rf im Hp Hwf Hruns r rf' Hrun)
    as [[-> _]|[->|(final & _ & _ & -> & _)]]; [done| |by eexists].
  exfalso. unfold Merger.externalMergeSort in Hrun. rewrite fold_push in Hrun.
  simpl in Hrun. unfold bind in Hrun.
  destruct (Merger.merge_all pick (length runs) runs rf) as [r1 rf1] eqn:Hall.
  pose proof (merge_all_slots pick (length runs) runs css rf im Hp Hwf Hruns
                ltac:(lia) Hfree r1 rf1 Hall) as Hno.
  destruct r1 as [heap|e]; [|by inversion Hrun; subst].
  unfold Merger.top in Hrun. destruct (heap !! pick heap); inversion Hrun.
Qed.

(** ** Directory count *)

Lemma used_count_insert d i m m' :
  d !! i = Some m ->
  used_count (<[i := m']> d) =
    used_count d - (if isUsed m then 1 else 0) + (if isUsed m' then 1 else 0).
Proof.
  unfold used_count. revert i. induction d as [|x d IH]; intros i Hi; [done|].
  destruct i as [|i]; simpl in *.
  - inversion Hi; subst x. rewrite !filter_cons.
    destruct (isUsed m) eqn:E1, (isUsed m') eqn:E2; simpl;
      repeat (case_decide; try congruence); simpl; lia.
  - specialize (IH i Hi). rewrite !filter_cons.
    case_decide; simpl; lia.
Qed.

Lemma allocateNewRun_count rf :
  currentRunCount (header rf) = used_count (directory rf) ->
  let rf' := snd (RunFile.allocateNewRun rf) in
  currentRunCount (header rf') = used_count (directory rf').
Proof.
  intros Hc. unfold RunFile.allocateNewRun.
  destruct (RunFile.first_free _ 0) as [i|] eqn:Hff; simpl; [|done].
  apply first_free_spec in Hff as (_ & _ & (m & Hm & Hu) & _).
  rewrite Nat.sub_0_r in Hm. apply lookup_take_Some in Hm as [Hm _].
  destruct (writeMetadataToDisk_memory (Z.of_nat i)
              (RunFile.set_directory (<[i:=mkRunMetadata 0 0 true]> (directory rf)) rf))
    as (-> & -> & _).
  simpl. rewrite (used_count_insert _ _ m) by done. rewrite Hu. simpl. lia.
Qed.

Lemma updateRunMetadata_count rf i s c :
  let rf' := snd (RunFile.updateRunMetadata i s c rf) in
  currentRunCount (header rf') = currentRunCount (header rf) /\
  used_count (directory rf') = used_count (directory rf).
Proof.
  unfold RunFile.updateRunMetadata.
  destruct ((i <? 0) || (maxRuns (header rf) <=? i)); simpl; [done|].
  destruct (writeMetadataToDisk_memory i
              (RunFile.set_directory
                 (<[Z.to_nat i:=mkRunMetadata s c (isUsed (directory rf !!! Z.to_nat i))]>
                    (directory rf)) rf))
    as (-> & -> & _).
  simpl. split; [done|].
  destruct (directory rf !! Z.to_nat i) as [m|] eqn:Hm.
  - rewrite (used_count_insert _ _ m) by done. simpl.
    rewrite (list_lookup_total_correct _ _ _ Hm). destruct (isUsed m); lia.
  - rewrite list_insert_ge; [done|]. by apply lookup_ge_None.
Qed.

(** X25.  Within one session (create, open, then allocations, metadata
    updates and data writes) the count kept in the header is the number of
    used slots. *)
Lemma currentRunCount_in_session (n : Z) (cs : list RunFileCall) :
  0 <= n -> forallb is_mutation cs = true ->
  let rf := do_calls cs (snd (RunFile.open (snd (RunFile.create n RunFile.new)))) in
  currentRunCount (header rf) = used_count (directory rf).
Proof.
  intros Hn Hcs.
  destruct (create_open_wf n Hn) as (rf0 & im0 & -> & Hwf & _ & Hd & Hh). simpl.
  assert (H0 : currentRunCount (header rf0) = used_count (directory rf0)).
  { rewrite Hh, Hd. unfold used_count. simpl. clear.
    induction (Z.to_nat n) as [|k IH]; [done|]. simpl.
    rewrite filter_cons_False; [exact IH | simpl; discriminate]. }
  clear Hd Hh. revert rf0 im0 Hwf H0.
  induction cs as [|c cs IH]; intros rf0 im0 Hwf H0; [done|].
  simpl in Hcs. apply andb_true_iff in Hcs as [Hc Hcs].
  destruct (mutation_wf c rf0 im0 Hc Hwf) as [im1 Hwf1].
  simpl. apply (IH Hcs _ im1 Hwf1).
  destruct c; try discriminate; simpl.
  - by apply allocateNewRun_count.
  - destruct (updateRunMetadata_count rf0 runId start count) as [-> ->]. done.
  - destruct (stream_write_wf rf0 im0 off block Hwf) as (rf' & im' & <- & _ & _ & -> & ->).
    done.
Qed.

Lemma currentRunCount_in_session_witness :
  let rf := do_calls [CallAllocateNewRun; CallUpdateRunMetadata 0 36 2; CallAllocateNewRun]
              (snd (RunFile.open (snd (RunFile.create 2 RunFile.new)))) in
  currentRunCount (header rf) = used_count (directory rf).
Proof. apply (currentRunCount_in_session 2); [lia | reflexivity]. Defined.

(** C8 (evaluation of the code at the failing input).  The header is written
    to disk by create() only; allocateNewRun() counts in memory.  After
    create(1), open(), allocateNewRun(), close(), open() the header read back
    carries currentRunCount = 0 while one directory slot has isUsed = true;
    before the close the two agreed. *)
Theorem currentRunCount_lost_on_reopen :
  let before := do_calls [CallCreate 1; CallOpen; CallAllocateNewRun] RunFile.new in
  let after := do_calls [CallClose; CallOpen] before in
  currentRunCount (header before) = 1 /\ used_count (directory before) = 1 /\
  currentRunCount (header after) = 0 /\ used_count (directory after) = 1 /\
  file_is_open after = true.
Proof. vm_compute. repeat split. Qed.

(** ** Round trip through the disk *)

Lemma session_calls_mutations n cs :
  forallb (is_session_call n) cs = true -> forallb is_mutation cs = true.
Proof.
  induction cs as [|c cs IH]; [done|]. simpl.
  intros H. apply andb_true_iff in H as [Hc Hcs].
  rewrite (IH Hcs), andb_true_r. by destruct c.
Qed.



(** ** updateRunMetadata *)

(** C9.  On an open run file, updateRunMetadata(runId, startOffset,
    elementCount) throws out_of_range exactly when runId < 0 or
    runId >= maxRuns, and then leaves the object, its directory and the
    file as they were.  Otherwise it returns normally; the header and the
    stream are unchanged; in memory only the entry of runId changes, to the
    new startOffset and elementCount with its isUsed flag kept; on disk only
    the directory slot of runId changes, to that same entry, the header and
    the data stay, and the directory on disk mirrors the one in memory
    again. *)
Theorem updateRunMetadata_spec (rf : RunFile) (im : FileImage) (runId start count : Z) :
  wf_open rf im ->
  let out := RunFile.updateRunMetadata runId start count rf in
  let rf' := snd out in
  let entry := mkRunMetadata start count (isUsed (directory rf !!! Z.to_nat runId)) in
  (fst out = Throw out_of_range <-> runId < 0 \/ runId >= maxRuns (header rf)) /\
  (fst out = Throw out_of_range -> rf' = rf) /\
  (0 <= runId < maxRuns (header rf) ->
     fst out = Ok tt /\
     header rf' = header rf /\ file_is_open rf' = true /\
     length (directory rf') = length (directory rf) /\
     directory rf' !! Z.to_nat runId = Some entry /\
     (forall j, j <> Z.to_nat runId -> directory rf' !! j = directory rf !! j) /\
     exists im',
       wf_open rf' im' /\
       f_header im' = f_header im /\ f_data im' = f_data im /\
       length (f_directory im') = length (f_directory im) /\
       f_directory im' !! Z.to_nat runId = Some entry /\
       (forall j, j <> Z.to_nat runId -> f_directory im' !! j = f_directory im !! j)).
Proof.
  intros Hwf. pose proof Hwf as [Ho Hi Hm Hg Hx Hmax Hl]. simpl.
  destruct (updateRunMetadata_wf rf im runId start count Hwf)
    as (rf1 & im1 & Hrf1 & Hwf1 & Hd1 & Hh1 & _).
  unfold RunFile.updateRunMetadata in *.
  destruct ((runId <? 0) || (maxRuns (header rf) <=? runId)) eqn:E; simpl in *.
  - apply orb_true_iff in E. rewrite Z.ltb_lt, Z.leb_le in E.
    split; [split; [lia | done]|]. split; [done|]. lia.
  - apply orb_false_iff in E as [E1 E2]. rewrite Z.ltb_ge in E1. rewrite Z.leb_gt in E2.
    split; [split; [discriminate | lia]|]. split; [discriminate|].
    intros _. split; [done|].
    assert (Hlt : (Z.to_nat runId < length (directory rf))%nat) by (rewrite Hl; lia).
    set (entry := mkRunMetadata start count (isUsed (directory rf !!! Z.to_nat runId))) in *.
    set (rf0 := RunFile.set_directory (<[Z.to_nat runId := entry]> (directory rf)) rf) in *.
    destruct (writeMetadataToDisk_memory runId rf0) as (Eh & Ed & Eo).
    rewrite Eh, Ed, Eo. simpl.
    split; [done|]. split; [done|]. split; [by rewrite length_insert|].
    split; [by apply list_lookup_insert_eq|].
    split; [intros j Hj; by rewrite list_lookup_insert_ne|].
    subst rf1. exists im1. split; [done|]. split; [done|]. split; [done|].
    pose proof Hwf1 as [_ _ Hm1 _ _ _ _]. rewrite Ed in Hm1. simpl in Hm1.
    rewrite Hm1, Hm.
    split; [by rewrite length_insert|].
    split; [by apply list_lookup_insert_eq|].
    intros j Hj. by rewrite list_lookup_insert_ne.
Qed.

Lemma updateRunMetadata_spec_witness :
  let rf := snd (RunFile.open (snd (RunFile.create 2 RunFile.new))) in
  let im := mkFileImage (RunFileHeader_new 2) (replicate 2 RunMetadata_default) [] in
  let out := RunFile.updateRunMetadata 1 60 3 rf in
  let rf' := snd out in
  let entry := mkRunMetadata 60 3 (isUsed (directory rf !!! Z.to_nat 1)) in
  (fst out = Throw out_of_range <-> 1 < 0 \/ 1 >= maxRuns (header rf)) /\
  (fst out = Throw out_of_range -> rf' = rf) /\
  (0 <= 1 < maxRuns (header rf) ->
     fst out = Ok tt /\
     header rf' = header rf /\ file_is_open rf' = true /\
     length (directory rf') = length (directory rf) /\
     directory rf' !! Z.to_nat 1 = Some entry /\
     (forall j, j <> Z.to_nat 1 -> directory rf' !! j = directory rf !! j) /\
     exists im',
       wf_open rf' im' /\
       f_header im' = f_header im /\ f_data im' = f_data im /\
       length (f_directory im') = length (f_directory im) /\
       f_directory im' !! Z.to_nat 1 = Some entry /\
       (forall j, j <> Z.to_nat 1 -> f_directory im' !! j = f_directory im !! j)).
Proof.
  apply (updateRunMetadata_spec
           (snd (RunFile.open (snd (RunFile.create 2 RunFile.new))))
           (mkFileImage (RunFileHeader_new 2) (replicate 2 RunMetadata_default) [])
           1 60 3).
  constructor; vm_compute; congruence.
Defined.



(** C4.  On an open run file with a free directory slot, for two runs A and
    B that lie in the file with element sequences xsA and xsB,
    MergeInMem(runA, runB) returns the metadata of a new run whose elements,
    read back through an InputBuffer, are the two-way merge [merge2 xsA xsB]
    (A's element when strictly itemA < itemB, B's element on ties, then the
    tail of the input that is left); the elementCount recorded for the new
    run is runA.elementCount + runB.elementCount; and the merge of two
    non-decreasing runs is non-decreasing. *)
Theorem MergeInMem_two_way_merge (rf : RunFile) (im : FileImage)
    (runA runB : RunMetadata) (xsA xsB : list T) (i size : nat) :
  wf_open rf im ->
  run_content im runA = Some xsA -> run_content im runB = Some xsB ->
  RunFile.first_free (directory rf) 0 = Some i ->
  (1 <= size)%nat ->
  exists meta rf',
    Merger.MergeInMem runA runB rf = (Ok meta, rf') /\
    InputBuffer.read_run meta size rf' = (Ok (merge2 xsA xsB), rf') /\
    elementCount meta = elementCount runA + elementCount runB /\
    directory rf' !! i = Some meta /\
    (nondecreasing xsA -> nondecreasing xsB -> nondecreasing (merge2 xsA xsB)).
Proof.
  intros Hwf HrA HrB Hff Hsize.
  destruct (MergeInMem_spec rf im runA runB xsA xsB i Hwf HrA HrB Hff)
    as (rf' & im' & Hm & Hwf' & Hh & Hd & Hdir & _).
  eexists _, rf'. split; [exact Hm|].
  split.
  { apply (read_run_spec rf' im'); [done | | done].
    by apply run_content_appended. }
  split.
  { simpl. rewrite merge2_length.
    pose proof (run_content_inv _ _ _ HrA) as (_ & _ & -> & _).
    pose proof (run_content_inv _ _ _ HrB) as (_ & _ & -> & _). lia. }
  split.
  { rewrite Hdir. apply list_lookup_insert_eq.
    apply first_free_spec in Hff as (_ & Hlt & _). lia. }
  apply merge2_nondecreasing.
Qed.

Lemma two_runs_file_wf : wf_open two_runs_file two_runs_image.
Proof. constructor; vm_compute; congruence. Qed.

Lemma MergeInMem_two_way_merge_witness :
  exists meta rf',
    Merger.MergeInMem (mkRunMetadata 108 4 true) (mkRunMetadata 124 3 true) two_runs_file
      = (Ok meta, rf') /\
    InputBuffer.read_run meta 2 rf' = (Ok (merge2 [1; 3; 5; 7] [2; 3; 8]), rf') /\
    elementCount meta = 4 + 3 /\
    directory rf' !! 2%nat = Some meta /\
    (nondecreasing [1; 3; 5; 7] -> nondecreasing [2; 3; 8] ->
     nondecreasing (merge2 [1; 3; 5; 7] [2; 3; 8])).
Proof.
  apply (MergeInMem_two_way_merge two_runs_file two_runs_image
           (mkRunMetadata 108 4 true) (mkRunMetadata 124 3 true)
           [1; 3; 5; 7] [2; 3; 8] 2 2).
  - exact two_runs_file_wf.
  - reflexivity.
  - reflexivity.
  - reflexivity.
  - lia.
Defined.

(** ** The two phases of the sort *)

(** generateRuns returns for every K >= 1. *)
Lemma generateRuns_returns K bufSize input rf :
  (1 <= K)%nat ->
  exists r rf', RunGenerator.generateRuns K bufSize input rf = Some (r, rf').
Proof.
  intros HK. unfold RunGenerator.generateRuns, RunGenerator.start, LoserTree.new.
  destruct (K =? 0)%nat eqn:E; [apply Nat.eqb_eq in E; lia|].
  destruct (RunGenerator.generateRuns_body _ _ _ _) as [r w']. eauto.
Qed.

Lemma runs_on_disk_length im runs css :
  runs_on_disk im runs css -> length runs = length css.
Proof. apply Forall2_length. Qed.

(** The two phases in sequence.  Phase 1 always produces a result, and a
    list of runs when the directory has a free slot for every element of
    the input; the runs lie on disk, are non-decreasing and hold the input.
    Phase 2 on these runs always produces a result, and a final run when the
    input is not empty and the directory has two free slots for every
    element; the final run holds the input in non-decreasing order. *)
Lemma sort_outcomes K bufSize pick input rf im :
  (1 <= K)%nat -> (1 <= bufSize)%nat -> Z.of_nat (length input) + 2 < INT_MAX ->
  Merger.picks_top pick -> wf_open rf im ->
  exists r rf1,
    RunGenerator.generateRuns K bufSize input rf = Some (r, rf1) /\
    ((1 <= free_count (directory rf))%nat ->
     (length input <= free_count (directory rf))%nat -> exists runs, r = Ok runs) /\
    forall runs, r = Ok runs ->
      exists im1 css,
        runs_of input rf1 runs im1 css /\
        exists r2 rf2,
          Merger.externalMergeSort pick runs rf1 = (r2, rf2) /\
          (input <> [] -> (2 * length input <= free_count (directory rf))%nat ->
           exists final, r2 = Ok final) /\
          forall final, r2 = Ok final ->
            exists xs im2,
              wf_open rf2 im2 /\ run_content im2 final = Some xs /\
              xs ≡ₚ input /\ nondecreasing xs.
Proof.
  intros HK Hbuf Hall Hpick Hwf.
  destruct (generateRuns_returns K bufSize input rf HK) as (r & rf1 & Hrun).
  exists r, rf1. split; [done|]. split.
  { intros Hf1 HfN.
    by destruct (generateRuns_slots K bufSize input rf im Hbuf Hall Hwf Hf1 HfN r rf1 Hrun). }
  intros runs ->.
  destruct (generateRuns_spec K bufSize input rf im Hbuf Hall Hwf _ rf1 Hrun)
    as [?|(runs' & im1 & css & [= <-] & Hruns & _)]; [done|].
  exists im1, css. split; [done|].
  pose proof Hruns as (Hwf1 & Hdisk & Hsorted & Hnonempty & Hperm).
  destruct (Merger.externalMergeSort pick runs rf1) as [r2 rf2] eqn:Hmerge.
  exists r2, rf2. split; [done|]. split.
  - intros Hne H2N.
    pose proof (Permutation_length Hperm) as Hl.
    pose proof (concat_nonempty_length css Hnonempty) as Hlc.
    pose proof (runs_on_disk_length _ _ _ Hdisk) as Hlr.
    assert (HN : (1 <= length input)%nat) by (destruct input; [done | simpl; lia]).
    assert (Hf1 : (1 <= free_count (directory rf))%nat) by lia.
    assert (HfN : (length input <= free_count (directory rf))%nat) by lia.
    destruct (generateRuns_slots K bufSize input rf im Hbuf Hall Hwf
                Hf1 HfN _ rf1 Hrun) as [_ Hbound].
    apply (externalMergeSort_slots pick runs css rf1 im1 Hpick Hwf1 Hdisk)
      with (rf' := rf2); [|lia|done].
    intros ->. destruct css; [simpl in Hl; lia | discriminate Hlr].
  - intros final ->.
    destruct (externalMergeSort_spec pick runs css rf1 im1 Hpick Hwf1 Hdisk _ rf2 Hmerge)
      as [[_ ?]|[?|(final' & xs & im2 & [= <-] & Hwf2 & Hc & Hp & Hs)]]; [done|done|].
    exists xs, im2. split; [done|]. split; [done|]. split.
    + by rewrite Hp, Hperm.
    + by apply Hs.
Qed.

Lemma totalElementsGenerated_spec im runs css :
  runs_on_disk im runs css ->
  totalElementsGenerated runs = Z.of_nat (length (concat css)).
Proof.
  unfold totalElementsGenerated. intros Hdisk.
  assert (Hacc : forall acc,
            fold_left (fun total run => total + elementCount run) runs acc
            = acc + Z.of_nat (length (concat css))).
  { induction Hdisk as [|m xs runs css Hm _ IH]; intros acc; simpl; [lia|].
    rewrite IH, length_app.
    apply run_content_inv in Hm as (_ & _ & -> & _). lia. }
  by rewrite Hacc.
Qed.

Lemma sample_file_wf : wf_open sample_file sample_image.
Proof. constructor; vm_compute; congruence. Qed.

(** The sort of the eight elements: phase 1 writes the runs [1; 3; 4; 5; 9]
    and [1; 2; 6], phase 2 merges them into a third run. *)
Example eight_elements_runs :
  option_map fst (RunGenerator.generateRuns 2 3 eight_elements sample_file)
  = Some (Ok [mkRunMetadata 396 5 true; mkRunMetadata 416 3 true]).
Proof. vm_compute. reflexivity. Qed.

Example eight_elements_sorted :
  match RunGenerator.generateRuns 2 3 eight_elements sample_file with
  | Some (Ok runs, rf1) =>
      match Merger.externalMergeSort Merger.first_min runs rf1 with
      | (Ok final, rf2) => fst (InputBuffer.read_run final 3 rf2)
      | (Throw e, _) => Throw e
      end
  | _ => Throw fuel_exhausted
  end = Ok [1; 1; 2; 3; 4; 5; 6; 9].
Proof. vm_compute. reflexivity. Qed.

(** With buffers of no element the input worker reads nothing and reports
    the end of the file at once: the input is lost.  Hence the condition
    bufSize >= 1 below. *)
Example no_buffer_no_runs :
  option_map fst (RunGenerator.generateRuns 2 0 eight_elements sample_file)
  = Some (Ok []).
Proof. vm_compute. reflexivity. Qed.







(** C6.  Step E of the main loop of computeWorker, entered with the winner
    [winnerNode] whose value step D has just emitted and with the id
    [currentTreeRunID] of the run being written: when the input still has an
    element [val], that element replaces the winner's leaf, tagged with
    [currentTreeRunID] if it is greater than or equal to the emitted value
    and with [currentTreeRunID + 1] if it is strictly smaller. *)
Theorem replace_winner_tag (bufSize : nat) (winnerNode : RunNode)
    (currentTreeRunID : Z) (w : World) (val : T) (rest : list T) :
  (1 <= bufSize)%nat -> input_ok (inp w) -> pending (inp w) = val :: rest ->
  (tree (loserTree w) !!! 0%nat < length (leaves (loserTree w)))%nat ->
  exists w' newRunID,
    RunGenerator.replace_winner bufSize winnerNode currentTreeRunID w = (Ok tt, w') /\
    pending (inp w') = rest /\
    leaves (loserTree w') !! (tree (loserTree w) !!! 0%nat)
      = Some (mkRunNode val newRunID) /\
    (value winnerNode <= val -> newRunID = currentTreeRunID) /\
    (val < value winnerNode -> newRunID = currentTreeRunID + 1).
Proof.
  intros Hbuf Hin Hpend Hidx.
  destruct (pullNextInput_spec bufSize Hbuf (inp w) Hin) as (i' & Hpull & Hrest & _).
  rewrite Hpend in Hpull, Hrest. simpl in Hpull, Hrest.
  unfold RunGenerator.replace_winner, bind, RunGenerator.onInput, get.
  rewrite Hpull. cbn [RunGenerator.setTree loserTree inp].
  eexists _, (if val <? value winnerNode then currentTreeRunID + 1 else currentTreeRunID).
  split; [reflexivity|]. cbn [loserTree inp].
  split; [done|]. split.
  - unfold LoserTree.replaceWinner.
    destruct (replaced_leaves (loserTree w)
                (mkRunNode val (if val <? value winnerNode
                                then currentTreeRunID + 1 else currentTreeRunID)))
      as [-> _].
    by apply list_lookup_insert_eq.
  - split; intros Hcmp.
    + by rewrite (proj2 (Z.ltb_ge _ _) Hcmp).
    + by rewrite (proj2 (Z.ltb_lt _ _) Hcmp).
Qed.

Lemma replace_winner_tag_witness :
  exists w' newRunID,
    RunGenerator.replace_winner 3 (LoserTree.getWinner (loserTree mid_run_world)) 1
      mid_run_world = (Ok tt, w') /\
    pending (inp w') = [2] /\
    leaves (loserTree w') !! (tree (loserTree mid_run_world) !!! 0%nat)
      = Some (mkRunNode 7 newRunID) /\
    (value (LoserTree.getWinner (loserTree mid_run_world)) <= 7 -> newRunID = 1) /\
    (7 < value (LoserTree.getWinner (loserTree mid_run_world)) -> newRunID = 1 + 1).
Proof.
  apply (replace_winner_tag 3 (LoserTree.getWinner (loserTree mid_run_world)) 1
           mid_run_world 7 [2]).
  - lia.
  - split; [reflexivity | discriminate].
  - reflexivity.
  - vm_compute. lia.
Defined.

(** ** The empty input *)

Lemma pullNextInput_empty bufSize standby :
  exists i',
    RunGenerator.pullNextInput bufSize (mkInputSide [] [] standby 0 false false)
    = (Ok None, i').
Proof. destruct bufSize; eexists; reflexivity. Qed.

(** A tree initialised with no data has a sentinel as its winner. *)
Lemma initialize_empty_winner lt :
  (1 <= k lt)%nat -> LoserTree.getWinner (LoserTree.initialize [] lt) = SENTINEL.
Proof.
  intros Hk. pose proof (initialize_tournament [] lt Hk) as Ht.
  destruct (winner_index _ Ht) as (_ & _ & Hw).
  destruct (initialize_view [] lt ltac:(simpl; lia)) as [Ek El].
  rewrite Ek, El in Hw. simpl in Hw.
  by apply lookup_replicate in Hw as [-> _].
Qed.

(** C10.  generateRuns on an empty input, for K >= 1 and an open run file
    whose first free directory slot is [i]: the call returns the empty list
    of runs, nothing is written to the data region, and slot [i] is left, in
    memory and on disk, as {startOffset = 0, elementCount = 0, isUsed = true},
    one used slot more than before, which no returned run accounts for. *)
Theorem generateRuns_empty_input (K bufSize : nat) (rf : RunFile) (im : FileImage)
    (i : nat) :
  (1 <= K)%nat -> wf_open rf im -> RunFile.first_free (directory rf) 0 = Some i ->
  exists rf' im',
    RunGenerator.generateRuns K bufSize [] rf = Some (Ok [], rf') /\
    wf_open rf' im' /\ f_data im' = f_data im /\
    directory rf' = <[i := mkRunMetadata 0 0 true]> (directory rf) /\
    directory rf' !! i = Some (mkRunMetadata 0 0 true) /\
    used_count (directory rf') = used_count (directory rf) + 1.
Proof.
  intros HK Hwf Hff.
  destruct (allocateNewRun_free rf im i Hwf Hff)
    as (rf1 & im1 & Halloc & Hwf1 & Hd1 & _ & Hlt & Hdir & _).
  exists rf1, im1.
  split.
  { unfold RunGenerator.generateRuns, RunGenerator.start, LoserTree.new.
    destruct (K =? 0)%nat eqn:E; [apply Nat.eqb_eq in E; lia|].
    unfold RunGenerator.generateRuns_body, RunGenerator.open_run.
    unfold bind, RunGenerator.onRunFile, RunGenerator.setCurrentRunId, get,
      RunGenerator.setOutput, RunGenerator.setGeneratedRuns.
    cbn [runFile]. rewrite Halloc.
    cbn [inp outp loserTree currentRunId generatedRuns runFile].
    rewrite (getAppendOffset_ok rf1 im1 Hwf1).
    cbn [inp outp loserTree currentRunId generatedRuns runFile
         activeOut standbyOut standby_output_busy].
    destruct (pullNextInput_empty bufSize (replicate bufSize 0)) as [i' Hpull].
    unfold RunGenerator.computeWorker. unfold bind at 1.
    rewrite initial_fill_unfold. cbn [length].
    rewrite (proj2 (Nat.ltb_lt 0 K)) by lia.
    destruct K as [|K']; [lia|].
    unfold bind, RunGenerator.onInput, get, RunGenerator.setTree.
    cbn [inp]. rewrite Hpull.
    cbn [ret inp outp loserTree currentRunId generatedRuns runFile].
    rewrite main_loop_unfold.
    cbn [inp outp loserTree currentRunId generatedRuns runFile].
    rewrite initialize_empty_winner by (simpl; lia).
    change (runID SENTINEL =? INT_MAX) with true. cbv iota beta.
    unfold RunGenerator.finish, RunGenerator.await_output, RunGenerator.record_run,
      bind, get, ret.
    cbn [inp outp loserTree currentRunId generatedRuns runFile
         activeOut standbyOut standby_output_busy totalElementsInRun].
    reflexivity. }
  split; [done|]. split; [done|]. split; [done|]. split.
  { rewrite Hdir. by apply list_lookup_insert_eq. }
  apply first_free_spec in Hff as (_ & _ & (m & Hm & Hu) & _).
  rewrite Nat.sub_0_r in Hm.
  rewrite Hdir, (used_count_insert _ _ m) by done. simpl.
  rewrite Hu. lia.
Qed.

Lemma generateRuns_empty_input_witness :
  exists rf' im',
    RunGenerator.generateRuns 2 3 [] sample_file = Some (Ok [], rf') /\
    wf_open rf' im' /\ f_data im' = f_data sample_image /\
    directory rf' = <[0%nat := mkRunMetadata 0 0 true]> (directory sample_file) /\
    directory rf' !! 0%nat = Some (mkRunMetadata 0 0 true) /\
    used_count (directory rf') = used_count (directory sample_file) + 1.
Proof.
  apply (generateRuns_empty_input 2 3 sample_file sample_image 0).
  - lia.
  - exact sample_file_wf.
  - reflexivity.
Defined.

(** ** verifySortedRun *)

Lemma verify_loop_spec rf im xs fuel :
  forall ib lastItem s,
    wf_open rf im -> run_content im (ib_runMeta ib) = Some xs ->
    ib_reads xs ib s -> (length s < fuel)%nat ->
    exists b,
      verify_loop fuel lastItem ib rf = (Ok b, rf) /\
      (b = true <-> nondecreasing (lastItem :: s)).
Proof.
  induction fuel as [|f IH]; intros ib lastItem s Hwf Hrun Hreads Hfuel; [lia|].
  destruct (getNextItem_spec rf im ib xs s Hwf Hrun Hreads) as (ib' & Hget & Hmeta & Hreads').
  cbn [verify_loop]. rewrite (bind_ok _ _ _ _ _ Hget). cbn [fst snd].
  destruct s as [|x s]; cbn [head].
  - exists true. split; [done|]. split; [|done]. intros _. repeat constructor.
  - destruct (x <? lastItem) eqn:E.
    + exists false. split; [done|]. split; [done|].
      intros Hs. apply Z.ltb_lt in E. inversion Hs as [|? ? _ Hhd]; subst.
      inversion Hhd; subst. lia.
    + apply Z.ltb_ge in E. simpl in Hreads', Hfuel.
      rewrite <- Hmeta in Hrun.
      destruct (IH ib' x s Hwf Hrun Hreads' ltac:(lia)) as (b & Hloop & Hb).
      exists b. split; [done|]. rewrite Hb. split.
      * intros Hs. constructor; [done|]. by constructor.
      * intros Hs. by inversion Hs.
Qed.

Lemma verifySortedRun_spec rf im run xs :
  wf_open rf im -> run_content im run = Some xs ->
  exists b,
    verifySortedRun run rf = (Ok b, rf) /\ (b = true <-> nondecreasing xs).
Proof.
  intros Hwf Hrun. unfold verifySortedRun.
  assert (Hreads : ib_reads xs (InputBuffer.new run IO_BUFFER_SIZE_ELEMENTS) xs)
    by (apply ib_reads_new; unfold IO_BUFFER_SIZE_ELEMENTS; lia).
  destruct (getNextItem_spec rf im (InputBuffer.new run IO_BUFFER_SIZE_ELEMENTS) xs xs
              Hwf Hrun Hreads) as (ib' & Hget & Hmeta & Hreads').
  rewrite (bind_ok _ _ _ _ _ Hget). cbn [fst snd].
  destruct xs as [|x xs]; cbn [head].
  - exists true. split; [done|]. split; [|done]. intros _. constructor.
  - simpl in Hreads'. simpl in Hmeta.
    pose proof (run_content_inv _ _ _ Hrun) as (_ & _ & Hc & _).
    rewrite <- Hmeta in Hrun.
    apply (verify_loop_spec rf im (x :: xs)); try done.
    rewrite Hc, Nat2Z.id. simpl. lia.
Qed.

(** ** std::sort *)

#[local] Instance Z_le_total : Total Z.le.
Proof. intros x y. lia. Qed.

Lemma std_sort_nondecreasing l : nondecreasing (std_sort l).
Proof. apply Sorted_merge_sort. apply _. Qed.

Lemma std_sort_Permutation l : std_sort l ≡ₚ l.
Proof. apply merge_sort_Permutation. Qed.

Lemma std_sort_length l : length (std_sort l) = length l.
Proof. apply Permutation_length, std_sort_Permutation. Qed.

(** ** Blocks of the input *)

Section Chunks.

Variable n : nat.
Hypothesis Hn : (1 <= n)%nat.

Lemma chunks_upto_fuel f1 :
  forall f2 l, (length l <= f1)%nat -> (length l <= f2)%nat ->
    chunks_upto f1 n l = chunks_upto f2 n l.
Proof.
  induction f1 as [|f1 IH]; intros [|f2] [|x l] H1 H2; simpl in *; try done; try lia.
  f_equal. apply IH; rewrite length_drop; simpl; lia.
Qed.

Lemma chunks_nil : chunks n [] = [].
Proof. done. Qed.

Lemma chunks_cons l :
  l <> [] -> chunks n l = take n l :: chunks n (drop n l).
Proof.
  intros Hl. unfold chunks. destruct l as [|x l]; [done|]. simpl length.
  cbn [chunks_upto]. f_equal.
  apply chunks_upto_fuel; rewrite length_drop; simpl; lia.
Qed.

Lemma chunks_ind (P : list T -> Prop) :
  P [] -> (forall l, l <> [] -> P (drop n l) -> P l) -> forall l, P l.
Proof.
  intros Hnil Hstep l.
  assert (H : forall m l, (length l <= m)%nat -> P l).
  { clear l. induction m as [|m IH]; intros l Hl.
    - destruct l; [done | simpl in Hl; lia].
    - destruct l as [|x l]; [done|]. apply Hstep; [done|].
      apply IH. rewrite length_drop. simpl in *. lia. }
  by apply (H (length l)).
Qed.

Lemma concat_chunks l : concat (chunks n l) = l.
Proof.
  induction l as [|l Hl IH] using chunks_ind; [done|].
  rewrite chunks_cons by done. simpl. rewrite IH. apply take_drop.
Qed.

(** Every block holds between 1 and n elements. *)
Lemma chunks_sizes l : Forall (fun c => (1 <= length c <= n)%nat) (chunks n l).
Proof.
  induction l as [|l Hl IH] using chunks_ind; [constructor|].
  rewrite chunks_cons by done. constructor; [|done].
  rewrite length_take. destruct l; [done|]. simpl. lia.
Qed.

(** Every block but the last holds n elements. *)
Lemma chunks_full l i c :
  chunks n l !! i = Some c -> (S i < length (chunks n l))%nat -> length c = n.
Proof.
  revert i. induction l as [|l Hl IH] using chunks_ind; intros i; [done|].
  rewrite chunks_cons by done. destruct i as [|i]; simpl.
  - intros [= <-] Hlen. rewrite length_take.
    destruct (decide (n <= length l)%nat) as [|Hshort]; [lia|].
    rewrite drop_ge in Hlen by lia. simpl in Hlen. lia.
  - intros Hc Hlen. apply (IH i Hc). lia.
Qed.

(** The number of blocks is the length divided by n, rounded up. *)
Lemma chunks_count l : (length (chunks n l) * n < length l + n)%nat /\
                       (length l <= length (chunks n l) * n)%nat.
Proof.
  induction l as [|l Hl IH] using chunks_ind; [simpl; lia|].
  rewrite chunks_cons by done. simpl. rewrite length_drop in IH.
  destruct (decide (n <= length l)%nat) as [|Hshort]; [lia|].
  rewrite drop_ge in * by lia. simpl in *. destruct l; [done|]. simpl in *. lia.
Qed.

End Chunks.

(** ** generateRuns of project1 *)

Lemma write_items_spec items :
  forall ob out rf im base,
    wf_open rf im -> ob_holds im base ob out ->
    exists ob' rf' im',
      RunGenerator1.write_items items ob rf = (Ok ob', rf') /\
      grows rf im rf' im' /\ ob_holds im' base ob' (out ++ items).
Proof.
  induction items as [|x items IH]; intros ob out rf im base Hwf Hob; simpl.
  - exists ob, rf, im. rewrite app_nil_r. split; [done|]. split; [by apply grows_refl|done].
  - destruct (setNextItem_spec rf im base ob out x Hwf Hob)
      as (ob1 & rf1 & im1 & Hset & Hg1 & Hob1 & _).
    rewrite (bind_ok _ _ _ _ _ Hset).
    destruct (IH ob1 (out ++ [x]) rf1 im1 base (grows_wf _ _ _ _ Hg1) Hob1)
      as (ob2 & rf2 & im2 & Hw & Hg2 & Hob2).
    exists ob2, rf2, im2. split; [done|]. split; [by eapply grows_trans|].
    by rewrite <- app_assoc in Hob2.
Qed.

Lemma generate_loop_unfold elementsPerRun fuel inputFile generatedRuns :
  RunGenerator1.generate_loop elementsPerRun (S fuel) inputFile generatedRuns =
    let block := take elementsPerRun inputFile in
    let elementsRead := length block in
    if (elementsRead =? 0)%nat then ret generatedRuns
    else
      bind RunFile.allocateNewRun (fun runId =>
        if runId =? -1 then throw runtime_error
        else
          bind RunFile.getAppendOffset (fun startOffset =>
            bind (RunGenerator1.write_items (take elementsRead (std_sort block))
                    (OutputBuffer.new startOffset 1024)) (fun outBuf =>
              bind (OutputBuffer.flush outBuf) (fun _ =>
                bind (RunFile.updateRunMetadata runId startOffset (Z.of_nat elementsRead))
                  (fun _ =>
                    bind (RunFile.getRunMetadata runId) (fun m =>
                      if negb (elementsRead <? elementsPerRun)%nat
                      then RunGenerator1.generate_loop elementsPerRun fuel
                             (drop elementsPerRun inputFile) (generatedRuns ++ [m])
                      else ret (generatedRuns ++ [m]))))))).
Proof. reflexivity. Qed.

(** One turn of the loop with a free slot [i]: the block is sorted and
    appended to the data region, and slot [i] describes it. *)
Lemma generate_turn elementsPerRun fuel inputFile generatedRuns rf im i :
  wf_open rf im -> RunFile.first_free (directory rf) 0 = Some i ->
  take elementsPerRun inputFile <> [] ->
  let block := take elementsPerRun inputFile in
  let meta := mkRunMetadata (RunFile.file_length im) (Z.of_nat (length block)) true in
  exists rf' im',
    wf_open rf' im' /\ f_header im' = f_header im /\
    f_data im' = f_data im ++ std_sort block /\
    directory rf' = <[i := meta]> (directory rf) /\
    RunGenerator1.generate_loop elementsPerRun (S fuel) inputFile generatedRuns rf =
      if negb (length block <? elementsPerRun)%nat
      then RunGenerator1.generate_loop elementsPerRun fuel
             (drop elementsPerRun inputFile) (generatedRuns ++ [meta]) rf'
      else (Ok (generatedRuns ++ [meta]), rf').
Proof.
  intros Hwf Hff Hne block meta.
  destruct (allocateNewRun_free rf im i Hwf Hff)
    as (rf1 & im1 & Halloc & Hwf1 & Hd1 & Hh1 & Hi & Hdir1 & Hmax1).
  rewrite generate_loop_unfold. cbv zeta. fold block.
  destruct (length block =? 0)%nat eqn:E0.
  { exfalso. apply Hne. apply Nat.eqb_eq in E0. by apply nil_length_inv. }
  rewrite (bind_ok _ _ _ _ _ Halloc).
  destruct (Z.of_nat i =? -1) eqn:E; [apply Z.eqb_eq in E; lia|]. clear E.
  rewrite (bind_ok _ _ _ _ _ (getAppendOffset_ok rf1 im1 Hwf1)).
  replace (take (length block) (std_sort block)) with (std_sort block)
    by (rewrite <- (std_sort_length block); by rewrite firstn_all).
  assert (Hob : ob_holds im1 (length (f_data im1))
                  (OutputBuffer.new (RunFile.file_length im1) 1024) []).
  { apply ob_holds_new; [apply file_length_index | lia]. }
  destruct (write_items_spec (std_sort block) _ _ rf1 im1 _ Hwf1 Hob)
    as (ob2 & rf2 & im2 & Hw & Hg2 & Hob2).
  rewrite (bind_ok _ _ _ _ _ Hw). simpl in Hob2.
  pose proof (grows_wf _ _ _ _ Hg2) as Hwf2.
  destruct (flush_spec rf2 im2 _ ob2 _ Hwf2 Hob2)
    as (ob3 & rf3 & im3 & Hfl & Hg3 & Hd3 & Hb3 & _).
  rewrite (bind_ok _ _ _ _ _ Hfl).
  pose proof (grows_wf _ _ _ _ Hg3) as Hwf3.
  destruct (grows_trans _ _ _ _ _ _ Hg2 Hg3) as (_ & Hh13 & Hdir13 & Hfh13 & extra & Hdat13).
  assert (Hi3 : (i < length (directory rf3))%nat)
    by (rewrite Hdir13, Hdir1, length_insert; done).
  destruct (updateRunMetadata_ok rf3 im3 i (RunFile.file_length im1)
              (Z.of_nat (length block)) Hwf3 Hi3)
    as (rf4 & im4 & Hupd & Hwf4 & Hd4 & Hh4 & Hdir4 & Hmax4).
  rewrite (bind_ok _ _ _ _ _ Hupd).
  assert (Hi4 : (i < length (directory rf4))%nat) by (rewrite Hdir4, length_insert; done).
  rewrite (bind_ok _ _ _ _ _ (getRunMetadata_ok rf4 im4 i Hwf4 Hi4)).
  assert (Hlen1 : RunFile.file_length im1 = RunFile.file_length im).
  { unfold RunFile.file_length. by rewrite Hh1, Hd1. }
  assert (Hentry : directory rf4 !!! i = meta).
  { rewrite Hdir4, list_lookup_total_insert_eq by done.
    rewrite Hdir13, Hdir1, list_lookup_total_insert_eq by done.
    unfold meta. simpl. by rewrite Hlen1. }
  rewrite Hentry. exists rf4, im4.
  split; [done|]. split; [congruence|]. split.
  { rewrite Hd4, Hd3.
    assert (Hpre : take (length (f_data im1)) (f_data im3) = f_data im1)
      by (rewrite Hdat13; by rewrite take_app_length).
    rewrite Hpre. by rewrite Hd1. }
  split; [|by destruct (negb _)].
  rewrite Hdir4, Hdir13, Hdir1, list_insert_insert_eq, list_lookup_total_insert_eq by done.
  simpl. unfold meta. by rewrite Hlen1.
Qed.

Lemma free_count_first_free d :
  (1 <= free_count d)%nat -> exists i, RunFile.first_free d 0 = Some i.
Proof.
  intros H. destruct (RunFile.first_free d 0) as [i|] eqn:E; [by eexists|].
  apply first_free_full in E. lia.
Qed.

Lemma generate_loop_spec elementsPerRun :
  (1 <= elementsPerRun)%nat ->
  forall input fuel runs rf im css0,
    wf_open rf im -> runs_on_disk im runs css0 -> (length input < fuel)%nat ->
    let cs := chunks elementsPerRun input in
    ((length cs <= free_count (directory rf))%nat ->
     exists new rf' im',
       RunGenerator1.generate_loop elementsPerRun fuel input runs rf
         = (Ok (runs ++ new), rf') /\
       wf_open rf' im' /\ f_header im' = f_header im /\
       f_data im' = f_data im ++ concat (map std_sort cs) /\
       runs_on_disk im' (runs ++ new) (css0 ++ map std_sort cs) /\
       (free_count (directory rf') + length cs = free_count (directory rf))%nat) /\
    ((free_count (directory rf) < length cs)%nat ->
     exists rf' im',
       RunGenerator1.generate_loop elementsPerRun fuel input runs rf
         = (Throw runtime_error, rf') /\
       wf_open rf' im' /\ f_header im' = f_header im /\
       free_count (directory rf') = 0%nat /\
       f_data im' = f_data im
                    ++ concat (map std_sort (take (free_count (directory rf)) cs))).
Proof.
  intros HE input.
  induction input as [|input Hne IH] using (chunks_ind elementsPerRun HE);
    intros fuel runs rf im css0 Hwf Hdisk Hfuel cs;
    (destruct fuel as [|fuel]; [lia|]).
  - (* the file is read to its end *)
    subst cs. rewrite generate_loop_unfold. cbv zeta. rewrite take_nil. simpl.
    split; [|lia]. intros _. exists [], rf, im.
    rewrite !app_nil_r. split; [done|]. split; [done|]. split; [done|].
    split; [done|]. split; [done|]. lia.
  - set (block := take elementsPerRun input).
    assert (Hblock : block <> []).
    { unfold block. destruct input; [done|]. destruct elementsPerRun; [lia|done]. }
    assert (Hcs : cs = block :: chunks elementsPerRun (drop elementsPerRun input))
      by (by apply chunks_cons).
    assert (Hlast : (length block <? elementsPerRun)%nat = true ->
                    drop elementsPerRun input = []).
    { intros E. apply Nat.ltb_lt in E. unfold block in E. rewrite length_take in E.
      apply drop_ge. lia. }
    destruct (RunFile.first_free (directory rf) 0) as [i|] eqn:Hff.
    + destruct (generate_turn elementsPerRun fuel input runs rf im i Hwf Hff Hblock)
        as (rf1 & im1 & Hwf1 & Hh1 & Hd1 & Hdir1 & Hturn).
      fold block in Hd1, Hdir1, Hturn.
      set (meta := mkRunMetadata (RunFile.file_length im) (Z.of_nat (length block)) true)
        in *.
      pose proof Hff as Hff'.
      apply first_free_spec in Hff' as (_ & _ & (m & Hm & Hu) & _).
      rewrite Nat.sub_0_r in Hm.
      assert (Hf1 : free_count (directory rf) = S (free_count (directory rf1)))
        by (rewrite Hdir1; by apply (free_count_insert _ _ m)).
      assert (Hdisk1 : runs_on_disk im1 (runs ++ [meta]) (css0 ++ [std_sort block])).
      { apply Forall2_app.
        - by apply (runs_on_disk_append im im1 _ _ (std_sort block)).
        - constructor; [|constructor]. unfold meta.
          rewrite <- (std_sort_length block). by apply run_content_appended. }
      rewrite Hturn, Hcs. clear Hturn.
      destruct (length block <? elementsPerRun)%nat eqn:E; cbn [negb].
      * rewrite (Hlast eq_refl), chunks_nil. simpl. rewrite app_nil_r.
        split; [|lia]. intros _. exists [meta], rf1, im1.
        split; [done|]. split; [done|]. split; [done|]. split; [done|].
        split; [done|]. lia.
      * destruct (IH fuel (runs ++ [meta]) rf1 im1 (css0 ++ [std_sort block]) Hwf1 Hdisk1)
          as [Hok Hfail].
        { rewrite length_drop. destruct input; [done|]. simpl in *. lia. }
        split.
        -- intros Hfree.
           destruct Hok as (new & rf2 & im2 & Hrun & Hwf2 & Hh2 & Hd2 & Hdisk2 & Hf2);
             [simpl in Hfree; lia|].
           exists (meta :: new), rf2, im2.
           rewrite <- !app_assoc in Hrun. rewrite <- (app_assoc runs) in Hdisk2.
           rewrite <- (app_assoc css0) in Hdisk2. simpl in Hrun, Hdisk2.
           split; [done|]. split; [done|]. split; [congruence|].
           split; [by rewrite Hd2, Hd1, <- app_assoc|].
           split; [done|]. simpl. lia.
        -- intros Hfree.
           destruct Hfail as (rf2 & im2 & Hrun & Hwf2 & Hh2 & Hf2 & Hd2);
             [simpl in Hfree; lia|].
           exists rf2, im2. split; [done|]. split; [done|]. split; [congruence|].
           split; [done|]. rewrite Hf1. simpl. by rewrite Hd2, Hd1, <- app_assoc.
    + (* the directory is full *)
      pose proof (first_free_full _ _ Hff) as Hfull. rewrite Hfull, Hcs.
      split; [simpl; lia|]. intros _. exists rf, im.
      rewrite generate_loop_unfold. cbv zeta. fold block.
      destruct (length block =? 0)%nat eqn:E0.
      { exfalso. apply Hblock. apply Nat.eqb_eq in E0. by apply nil_length_inv. }
      rewrite (bind_ok _ _ _ _ _ (allocateNewRun_full rf im Hwf Hff)).
      simpl. rewrite app_nil_r. done.
Qed.

(** ** externalMergeSort of project1 *)

Lemma list_pair_ind {A} (P : list A -> Prop) :
  P [] -> (forall a, P [a]) -> (forall a b l, P l -> P (a :: b :: l)) ->
  forall l, P l.
Proof.
  intros Hnil Hone Hstep.
  assert (H : forall l, P l /\ forall a, P (a :: l)).
  { induction l as [|b l [IH1 IH2]]; [by split|]. split; [apply IH2|].
    intros a. by apply Hstep. }
  intros l. apply H.
Qed.

Lemma grows_extends_runs rf im rf' im' heap css :
  grows rf im rf' im' -> runs_on_disk im heap css -> runs_on_disk im' heap css.
Proof.
  intros (_ & _ & _ & Hh & extra & Hd). by apply (runs_on_disk_append im im' _ _ extra).
Qed.

Lemma half_SS n : (S (S n) / 2 = S (n / 2))%nat.
Proof.
  replace (S (S n)) with (1 * 2 + n)%nat by lia. rewrite Nat.div_add_l by lia. lia.
Qed.

Lemma half_SS1 n : ((S (S n) + 1) / 2 = S ((n + 1) / 2))%nat.
Proof.
  replace (S (S n) + 1)%nat with (1 * 2 + (n + 1))%nat by lia.
  rewrite Nat.div_add_l by lia. lia.
Qed.

(** One pass: neighbours are merged two by two, an odd run is passed on;
    every merge takes one slot. *)
Lemma merge_pass_spec current :
  forall next cssC cssN rf im,
    wf_open rf im -> runs_on_disk im current cssC -> runs_on_disk im next cssN ->
    ((length current / 2 <= free_count (directory rf))%nat ->
     exists next' css' rf' im',
       Merger1.merge_pass current next rf = (Ok next', rf') /\
       wf_open rf' im' /\ runs_on_disk im' next' css' /\
       f_header im' = f_header im /\ (exists extra, f_data im' = f_data im ++ extra) /\
       concat css' ≡ₚ concat cssN ++ concat cssC /\
       (Forall nondecreasing cssN -> Forall nondecreasing cssC ->
        Forall nondecreasing css') /\
       length next' = (length next + (length current + 1) / 2)%nat /\
       (free_count (directory rf') + length current / 2
        = free_count (directory rf))%nat) /\
    ((free_count (directory rf) < length current / 2)%nat ->
     exists rf', Merger1.merge_pass current next rf = (Throw runtime_error, rf')).
Proof.
  induction current as [|last|runA runB rest IH] using list_pair_ind;
    intros next cssC cssN rf im Hwf HdC HdN.
  - simpl. split; [|lia]. intros _.
    apply Forall2_nil_inv_l in HdC as ->.
    exists next, cssN, rf, im. simpl. rewrite app_nil_r.
    split; [done|]. split; [done|]. split; [done|]. split; [done|].
    split; [by exists []; rewrite app_nil_r|]. split; [done|]. split; [done|].
    split; lia.
  - simpl. split; [|lia]. intros _.
    exists (next ++ [last]), (cssN ++ cssC), rf, im.
    split; [done|]. split; [done|]. split; [by apply Forall2_app|]. split; [done|].
    split; [by exists []; rewrite app_nil_r|].
    split; [by rewrite concat_app|]. split; [intros; by apply Forall_app|].
    rewrite length_app. simpl. split; lia.
  - inversion HdC as [|? xsA ? cssC1 HrA HdC1]; subst.
    inversion HdC1 as [|? xsB ? cssR HrB HdR]; subst. clear HdC HdC1.
    cbn [Merger1.merge_pass length].
    rewrite (half_SS (length rest)), (half_SS1 (length rest)).
    destruct (RunFile.first_free (directory rf) 0) as [i|] eqn:Hff.
    + destruct (MergeInMem_spec rf im runA runB xsA xsB i Hwf HrA HrB Hff)
        as (rf1 & im1 & Hm & Hwf1 & Hh1 & Hd1 & Hdir1 & _).
      rewrite (bind_ok _ _ _ _ _ Hm).
      apply first_free_spec in Hff as (_ & _ & (m & Hmi & Hu) & _).
      rewrite Nat.sub_0_r in Hmi.
      assert (Hf1 : free_count (directory rf) = S (free_count (directory rf1)))
        by (rewrite Hdir1; by apply (free_count_insert _ _ m)).
      assert (HdR1 : runs_on_disk im1 rest cssR)
        by (by apply (runs_on_disk_append im im1 _ _ (merge2 xsA xsB))).
      assert (HdN1 : runs_on_disk im1 (next ++ [mkRunMetadata (RunFile.file_length im)
                                           (Z.of_nat (length (merge2 xsA xsB))) true])
                       (cssN ++ [merge2 xsA xsB])).
      { apply Forall2_app.
        - by apply (runs_on_disk_append im im1 _ _ (merge2 xsA xsB)).
        - constructor; [|constructor]. by apply run_content_appended. }
      destruct (IH _ cssR _ rf1 im1 Hwf1 HdR1 HdN1) as [Hok Hfail]. split.
      * intros Hfree.
        destruct Hok as (next' & css' & rf2 & im2 & Hrun & Hwf2 & Hd2 & Hh2 & [extra He2]
                         & Hperm & Hsort & Hlen & Hf2); [lia|].
        exists next', css', rf2, im2.
        split; [done|]. split; [done|]. split; [done|]. split; [congruence|].
        split; [exists (merge2 xsA xsB ++ extra); by rewrite He2, Hd1, <- app_assoc|].
        split.
        { rewrite Hperm, concat_app. simpl. rewrite app_nil_r, merge2_Permutation.
          by rewrite <- !app_assoc. }
        split.
        { intros HsN HsC. inversion HsC as [|? ? HsA HsC1]; subst.
          inversion HsC1 as [|? ? HsB HsR]; subst.
          apply Hsort; [|done]. apply Forall_app. split; [done|].
          constructor; [|done]. by apply merge2_nondecreasing. }
        rewrite length_app in Hlen. cbn [length] in Hlen. split; lia.
      * intros Hfree. destruct Hfail as [rf2 Hrun]; [lia|]. by exists rf2.
    + pose proof (first_free_full _ _ Hff) as Hfull. split; [lia|]. intros _.
      exists rf. by rewrite (bind_throw _ _ _ _ _ (MergeInMem_full rf im runA runB Hwf Hff)).
Qed.

Lemma halves_sum n : ((n + 1) / 2 + n / 2 = n)%nat.
Proof.
  assert (H : ((n + 1) / 2 + n / 2 = n /\ (S n + 1) / 2 + S n / 2 = S n)%nat).
  { induction n as [|n [IH1 IH2]]; [done|]. split; [done|].
    rewrite half_SS, half_SS1. lia. }
  apply H.
Qed.

Lemma merge_passes_unfold fuel current :
  Merger1.merge_passes fuel current =
    if (1 <? length current)%nat then
      match fuel with
      | O => throw fuel_exhausted
      | S fuel' =>
          bind (Merger1.merge_pass current [])
            (fun nextPassQueue => Merger1.merge_passes fuel' nextPassQueue)
      end
    else ret current.
Proof. destruct fuel; reflexivity. Qed.

Lemma merge_passes_spec fuel :
  forall current css rf im,
    wf_open rf im -> runs_on_disk im current css -> (length current <= S fuel)%nat ->
    ((length current - 1 <= free_count (directory rf))%nat ->
     exists queue css' rf' im',
       Merger1.merge_passes fuel current rf = (Ok queue, rf') /\
       wf_open rf' im' /\ runs_on_disk im' queue css' /\
       f_header im' = f_header im /\ (exists extra, f_data im' = f_data im ++ extra) /\
       concat css' ≡ₚ concat css /\
       (Forall nondecreasing css -> Forall nondecreasing css') /\
       (length queue <= 1)%nat /\ (current <> [] -> queue <> []) /\
       (free_count (directory rf') + (length current - 1)
        = free_count (directory rf))%nat) /\
    ((free_count (directory rf) < length current - 1)%nat ->
     exists rf', Merger1.merge_passes fuel current rf = (Throw runtime_error, rf')).
Proof.
  induction fuel as [|f IH]; intros current css rf im Hwf Hdisk Hlen;
    rewrite merge_passes_unfold;
    destruct (1 <? length current)%nat eqn:E;
    try (apply Nat.ltb_lt in E; lia);
    try (apply Nat.ltb_ge in E; split; [|lia]; intros _;
         exists current, css, rf, im;
         split; [done|]; split; [done|]; split; [done|]; split; [done|];
         split; [by exists []; rewrite app_nil_r|]; split; [done|]; split; [done|];
         split; [done|]; split; [done|]; lia).
  apply Nat.ltb_lt in E.
  pose proof (halves_sum (length current)) as Hhalves.
  assert (Hmono : (length current / 2 <= (length current + 1) / 2)%nat)
    by (apply Nat.Div0.div_le_mono; lia).
  assert (Hhalf : (1 <= length current / 2)%nat).
  { destruct current as [|a [|b rest]]; simpl in E; try lia.
    cbn [length]. rewrite half_SS. lia. }
  destruct (merge_pass_spec current [] css [] rf im Hwf Hdisk ltac:(constructor))
    as [Hok Hfail].
  destruct (decide (length current / 2 <= free_count (directory rf))%nat) as [Hfree|Hfree].
  - destruct (Hok Hfree) as (next & css1 & rf1 & im1 & Hpass & Hwf1 & Hd1 & Hh1 & [ex1 He1]
                             & Hperm1 & Hsort1 & Hlen1 & Hf1).
    rewrite (bind_ok _ _ _ _ _ Hpass). cbn [length concat app Nat.add] in Hlen1, Hperm1.
    destruct (IH next css1 rf1 im1 Hwf1 Hd1 ltac:(lia)) as [Hok2 Hfail2].
    split.
    + intros Hall.
      destruct Hok2 as (queue & css2 & rf2 & im2 & Hrun & Hwf2 & Hd2 & Hh2 & [ex2 He2]
                        & Hperm2 & Hsort2 & Hl2 & Hne2 & Hf2); [lia|].
      exists queue, css2, rf2, im2.
      split; [done|]. split; [done|]. split; [done|]. split; [congruence|].
      split; [exists (ex1 ++ ex2); by rewrite He2, He1, <- app_assoc|].
      split; [by rewrite Hperm2, Hperm1|].
      split; [intros Hs; apply Hsort2, Hsort1; [constructor|done]|].
      split; [done|]. split; [|lia].
      intros _. apply Hne2. intros ->. cbn [length] in Hlen1. lia.
    + intros Hall. destruct Hfail2 as [rf2 Hrun]; [lia|]. by exists rf2.
  - split; [lia|]. intros _. destruct Hfail as [rf1 Hpass]; [lia|].
    exists rf1. by rewrite (bind_throw _ _ _ _ _ Hpass).
Qed.

Lemma externalMergeSort1_spec runs css rf im :
  wf_open rf im -> runs_on_disk im runs css -> runs <> [] ->
  ((length runs <= free_count (directory rf) + 1)%nat ->
   exists final xs rf' im',
     Merger1.externalMergeSort runs rf = (Ok final, rf') /\
     wf_open rf' im' /\ run_content im' final = Some xs /\
     xs ≡ₚ concat css /\ (Forall nondecreasing css -> nondecreasing xs) /\
     (free_count (directory rf') + length runs = free_count (directory rf) + 1)%nat) /\
  ((free_count (directory rf) + 1 < length runs)%nat ->
   exists rf', Merger1.externalMergeSort runs rf = (Throw runtime_error, rf')).
Proof.
  intros Hwf Hdisk Hne. unfold Merger1.externalMergeSort.
  assert (Hl : (1 <= length runs)%nat) by (destruct runs; [done | simpl; lia]).
  destruct (merge_passes_spec (length runs) runs css rf im Hwf Hdisk ltac:(lia))
    as [Hok Hfail].
  split.
  - intros Hfree.
    destruct Hok as (queue & css' & rf' & im' & Hrun & Hwf' & Hd' & _ & _
                     & Hperm & Hsort & Hlq & Hneq & Hf); [lia|].
    rewrite (bind_ok _ _ _ _ _ Hrun).
    destruct queue as [|final [|? ?]]; [by destruct Hneq | | simpl in Hlq; lia].
    inversion Hd' as [|? xs ? css1 Hc Hrest]; subst.
    apply Forall2_nil_inv_l in Hrest as ->.
    simpl in Hperm. rewrite app_nil_r in Hperm.
    exists final, xs, rf', im'.
    split; [done|]. split; [done|]. split; [done|]. split; [done|].
    split; [|lia]. intros Hs. specialize (Hsort Hs). by inversion Hsort.
  - intros Hfree. destruct Hfail as [rf' Hrun]; [lia|].
    exists rf'. by rewrite (bind_throw _ _ _ _ _ Hrun).
Qed.

(** ** The loser tree as a priority queue *)

Lemma apply_ops_tournament ops : forall lt,
  tournament_tree lt -> tournament_tree (apply_ops ops lt).
Proof.
  induction ops as [|op ops IH]; intros lt Ht; [done|].
  simpl. apply IH. by apply apply_op_tournament.
Qed.

Lemma apply_op_k op lt : k (apply_op op lt) = k lt.
Proof. destruct op; simpl; apply replaced_leaves. Qed.

Lemma apply_ops_k ops : forall lt, k (apply_ops ops lt) = k lt.
Proof.
  induction ops as [|op ops IH]; intros lt; [done|].
  simpl. by rewrite IH, apply_op_k.
Qed.

Lemma key_le_beats a b : key_le a b <-> beats a b.
Proof. symmetry. apply beats_spec. Qed.

(** The initial leaves only look at the first k elements of the data. *)
Lemma initial_leaves_take kk data :
  LoserTree.initial_leaves kk (take kk data) = LoserTree.initial_leaves kk data.
Proof.
  unfold LoserTree.initial_leaves. f_equal.
  apply map_ext_in. intros i Hi. apply in_seq in Hi.
  by rewrite lookup_take_lt by lia.
Qed.

(** *** Draining the tree *)

Lemma first_run_winner lt :
  tournament_tree lt -> first_run lt ->
  (workspace lt = [] /\ LoserTree.getWinner lt = SENTINEL) \/
  (runID (LoserTree.getWinner lt) = 1 /\
   Forall (fun v => value (LoserTree.getWinner lt) <= v) (workspace lt)).
Proof.
  intros Ht Hfirst.
  destruct (tournament_winner _ _ _ Ht) as [Hidx Hmin].
  destruct (Hfirst _ Hidx) as [Hs|Hr].
  - left. split; [|done].
    apply (workspace_empty lt Ht 1 []); [|unfold INT_MAX; lia | lia |].
    + intros i Hi. destruct (Hfirst i Hi) as [?|?]; [by left|].
      right. left. split; [done|constructor].
    + unfold is_real, LoserTree.getWinner. rewrite Hs. simpl. tauto.
  - right. split; [done|].
    unfold workspace. apply Forall_fmap, Forall_forall. intros n Hn.
    apply list_elem_of_filter in Hn as [Hreal Hn].
    apply list_elem_of_lookup in Hn as [i Hi].
    apply lookup_take_Some in Hi as [Hi Hlt].
    pose proof (list_lookup_total_correct _ _ _ Hi) as E.
    specialize (Hmin i Hlt). rewrite E in Hmin. apply beats_spec in Hmin.
    fold (LoserTree.getWinner lt) in Hmin.
    destruct (Hfirst i Hlt) as [Hs|Hr1]; rewrite E in *.
    + exfalso. apply Hreal. by rewrite Hs.
    + unfold LoserTree.getWinner in *. simpl. lia.
Qed.

Lemma drain_spec n : forall lt,
  tournament_tree lt -> first_run lt -> length (workspace lt) = n ->
  exists sorted,
    winners (replicate n OpSentinel) lt
      = map (fun v => mkRunNode v 1) sorted ++ [SENTINEL] /\
    nondecreasing sorted /\ sorted ≡ₚ workspace lt.
Proof.
  induction n as [|n IH]; intros lt Ht Hfirst Hlen.
  - apply nil_length_inv in Hlen.
    destruct (first_run_winner lt Ht Hfirst) as [[_ Hw]|[Hr _]].
    + exists []. simpl. rewrite Hw, Hlen. split; [done|]. split; [constructor|done].
    + exfalso.
      assert (Hreal : is_real (LoserTree.getWinner lt))
        by (unfold is_real; rewrite Hr; unfold INT_MAX; lia).
      pose proof (workspace_winner lt Ht Hreal) as Hws. rewrite Hlen in Hws.
      by apply Permutation_nil_cons in Hws.
  - destruct (first_run_winner lt Ht Hfirst) as [[Hw _]|[Hr Hleast]].
    { rewrite Hw in Hlen. done. }
    assert (Hreal : is_real (LoserTree.getWinner lt))
      by (unfold is_real; rewrite Hr; unfold INT_MAX; lia).
    pose proof (workspace_winner lt Ht Hreal) as Hws.
    pose proof (workspace_replaced lt Ht SENTINEL) as Hws'.
    cbv zeta in Hws'.
    rewrite decide_False in Hws' by (unfold is_real; simpl; tauto).
    simpl in Hws'.
    set (lt' := LoserTree.setWinnerToSentinel lt).
    assert (Ht' : tournament_tree lt') by (by apply replace_leaf_tournament).
    assert (Hfirst' : first_run lt').
    { intros i Hi. unfold lt', LoserTree.setWinnerToSentinel in *.
      destruct (replaced_leaves lt SENTINEL) as [El Ek]. cbv zeta in El, Ek.
      rewrite Ek in Hi. rewrite El.
      destruct (decide (i = tree lt !!! 0%nat)) as [->|Hne].
      - left. apply list_lookup_total_insert_eq.
        destruct (winner_index lt Ht) as (_ & Hl & _). done.
      - rewrite list_lookup_total_insert_ne by done. by apply Hfirst. }
    assert (Hlen' : length (workspace lt') = n).
    { unfold lt', LoserTree.setWinnerToSentinel.
      rewrite (Permutation_length Hws'). rewrite (Permutation_length Hws) in Hlen.
      simpl in Hlen. lia. }
    destruct (IH lt' Ht' Hfirst' Hlen') as (sorted & Hwin & Hsorted & Hperm).
    exists (value (LoserTree.getWinner lt) :: sorted).
    split.
    { simpl. fold lt'. rewrite Hwin. f_equal.
      destruct (LoserTree.getWinner lt) as [v r]. simpl in *. by subst r. }
    split.
    { constructor; [done|].
      assert (Hall : Forall (fun v => value (LoserTree.getWinner lt) <= v) sorted).
      { rewrite Hperm. unfold lt', LoserTree.setWinnerToSentinel. rewrite Hws'.
        rewrite Hws in Hleast. by inversion Hleast. }
      destruct Hall; constructor. done. }
    rewrite Hperm, Hws. unfold lt', LoserTree.setWinnerToSentinel. by rewrite Hws'.
Qed.

Lemma initialize_first_run data lt :
  (length data <= k lt)%nat -> first_run (LoserTree.initialize data lt).
Proof.
  intros Hlen i Hi.
  destruct (initialize_tags data lt Hlen i Hi) as [?|[[? _]|[_ ?]]]; [by left | by right | done].
Qed.

(** ** Slots of the optimal merge *)

Lemma first_free_Some_free d i :
  RunFile.first_free d 0 = Some i -> (1 <= free_count d)%nat.
Proof.
  intros H. apply first_free_spec in H as (_ & _ & (m & Hm & Hu) & _).
  rewrite Nat.sub_0_r in Hm.
  rewrite (free_count_insert d i m (mkRunMetadata 0 0 true)) by done. lia.
Qed.

Lemma free_count_zero_full d : free_count d = 0%nat -> RunFile.first_free d 0 = None.
Proof.
  intros H. destruct (RunFile.first_free d 0) as [i|] eqn:E; [|done].
  apply first_free_Some_free in E. lia.
Qed.

(** The merges of externalMergeSort take one slot each: the loop ends
    normally when (size of the heap - 1) slots are free and fails
    otherwise. *)
Lemma merge_all_outcome pick fuel :
  forall heap css rf im,
    Merger.picks_top pick -> wf_open rf im -> runs_on_disk im heap css ->
    (length heap <= S fuel)%nat ->
    ((length heap <= free_count (directory rf) + 1)%nat ->
     exists heap' rf',
       Merger.merge_all pick fuel heap rf = (Ok heap', rf') /\
       (free_count (directory rf') + (length heap - 1)
        = free_count (directory rf))%nat) /\
    ((free_count (directory rf) + 1 < length heap)%nat ->
     exists rf', Merger.merge_all pick fuel heap rf = (Throw runtime_error, rf')).
Proof.
  induction fuel as [|f IH]; intros heap css rf im Hp Hwf Hruns Hlen;
    rewrite merge_all_unfold.
  - destruct (1 <? length heap)%nat eqn:E; [apply Nat.ltb_lt in E; lia|].
    apply Nat.ltb_ge in E. split; [|lia]. intros _. exists heap, rf. split; [done|lia].
  - destruct (1 <? length heap)%nat eqn:E.
    2:{ apply Nat.ltb_ge in E. split; [|lia]. intros _. exists heap, rf.
        split; [done|lia]. }
    apply Nat.ltb_lt in E.
    assert (Hne : heap <> []) by (intros ->; simpl in E; lia).
    destruct (top_in_heap pick heap Hp Hne) as [runA HA]. rewrite HA.
    assert (Hne1 : Merger.pop pick heap <> []).
    { intros H. apply (f_equal length) in H. unfold Merger.pop in H.
      rewrite length_delete in H by (by eapply mk_is_Some). simpl in H. lia. }
    destruct (top_in_heap pick _ Hp Hne1) as [runB HB]. rewrite HB.
    unfold Merger.top, Merger.pop in *.
    set (ia := pick heap) in *. set (heap1 := delete ia heap) in *.
    set (ib := pick heap1) in *.
    destruct (Forall2_lookup_l _ _ _ _ _ Hruns HA) as (xsA & HcA & HrA).
    assert (Hruns1 : runs_on_disk im heap1 (delete ia css)) by (by apply Forall2_delete).
    destruct (Forall2_lookup_l _ _ _ _ _ Hruns1 HB) as (xsB & HcB & HrB).
    assert (Hruns2 : runs_on_disk im (delete ib heap1) (delete ib (delete ia css)))
      by (by apply Forall2_delete).
    assert (Hl1 : length heap1 = (length heap - 1)%nat)
      by (unfold heap1; rewrite length_delete by (by eapply mk_is_Some); done).
    destruct (RunFile.first_free (directory rf) 0) as [i|] eqn:Hff.
    + destruct (MergeInMem_spec rf im runA runB xsA xsB i Hwf HrA HrB Hff)
        as (rf1 & im1 & Hm & Hwf1 & Hh1 & Hd1 & Hdir1 & _).
      rewrite (bind_ok _ _ _ _ _ Hm).
      apply first_free_spec in Hff as (_ & _ & (m & Hmi & Hu) & _).
      rewrite Nat.sub_0_r in Hmi.
      assert (Hf1 : free_count (directory rf) = S (free_count (directory rf1)))
        by (rewrite Hdir1; by apply (free_count_insert _ _ m)).
      set (heap2 := Merger.push _ (delete ib heap1)).
      assert (Hl2 : length heap2 = (length heap - 1)%nat).
      { unfold heap2, Merger.push.
        rewrite length_app, length_delete by (by eapply mk_is_Some). simpl. lia. }
      destruct (IH heap2 (delete ib (delete ia css) ++ [merge2 xsA xsB]) rf1 im1 Hp Hwf1)
        as [Hok Hfail].
      * unfold heap2, Merger.push. apply Forall2_app.
        -- by apply (runs_on_disk_append im im1 _ _ (merge2 xsA xsB)).
        -- constructor; [|constructor]. by apply run_content_appended.
      * lia.
      * split.
        -- intros Hfree. destruct Hok as (heap' & rf' & Hrun & Hf); [lia|].
           exists heap', rf'. split; [done|]. lia.
        -- intros Hfree. destruct Hfail as [rf' Hrun]; [lia|]. by exists rf'.
    + pose proof (first_free_full _ _ Hff) as Hfull. split; [lia|]. intros _.
      exists rf. by rewrite (bind_throw _ _ _ _ _ (MergeInMem_full rf im runA runB Hwf Hff)).
Qed.

(** ** The element count of an output buffer *)

Lemma ob_holds_count im base ob out :
  ob_holds im base ob out ->
  OutputBuffer.getElementCount ob = Z.of_nat (length out).
Proof.
  intros (_ & Hb & Ht & Hidx & Hlen & ->). unfold OutputBuffer.getElementCount.
  rewrite Ht, length_app, length_drop, length_take. lia.
Qed.

(** * Replacement selection: the shape of the runs *)

(** ** One turn of the main loop, seen from the tree and the input *)

Lemma turn_state K bufSize all c w im css cur w1 w' :
  (1 <= bufSize)%nat -> generating K all c w im css cur ->
  RunGenerator.emit bufSize (value (LoserTree.getWinner (loserTree w))) w = (Ok tt, w1) ->
  RunGenerator.replace_winner bufSize (LoserTree.getWinner (loserTree w)) c w1
    = (Ok tt, w') ->
  loserTree w'
  = LoserTree.replay (tree (loserTree w) !!! 0%nat)
      (mkLoserTree (tree (loserTree w))
         (<[tree (loserTree w) !!! 0%nat :=
              match head (pending (inp w)) with
              | Some val =>
                  mkRunNode val
                    (if val <? value (LoserTree.getWinner (loserTree w))
                     then c + 1 else c)
              | None => SENTINEL
              end]> (leaves (loserTree w)))
         (k (loserTree w))) /\
  pending (inp w') = tail (pending (inp w)) /\
  generatedRuns w' = generatedRuns w /\
  slots_view w' = slots_view w.
Proof.
  intros Hbuf G Hemit Hrep.
  destruct (quiet_emit _ _ _ _ _ Hemit) as [Hv1 _].
  destruct (quiet_replace_winner _ _ _ _ _ _ Hrep) as [Hv2 _].
  destruct (emit_spec bufSize w im cur (value (LoserTree.getWinner (loserTree w)))
              (gen_output _ _ _ _ _ _ _ G))
    as (w1' & im1 & Hemit' & _ & (Si & St & Sg & Sr) & _).
  rewrite Hemit in Hemit'. injection Hemit' as <-.
  destruct (pullNextInput_spec bufSize Hbuf (inp w) (gen_input _ _ _ _ _ _ _ G))
    as (i' & Hpull & Hpend & _).
  unfold RunGenerator.replace_winner in Hrep.
  unfold bind at 1, RunGenerator.onInput at 1 in Hrep. rewrite Si, Hpull in Hrep.
  rewrite bind_get in Hrep. cbn [loserTree] in Hrep. rewrite St in Hrep.
  split; [|split; [|split]].
  - destruct (head (pending (inp w))); injection Hrep as <-; reflexivity.
  - destruct (head (pending (inp w))); injection Hrep as <-; exact Hpend.
  - destruct (head (pending (inp w))); injection Hrep as <-; exact Sg.
  - by rewrite Hv2, Hv1.
Qed.

(** ** The leaves of one tag *)

Lemma tagged_winner lt c :
  tournament_tree lt ->
  tagged c lt
  ≡ₚ filter (fun n => runID n = c)
       (LoserTree.getWinner lt
        :: delete (tree lt !!! 0%nat) (take (k lt) (leaves lt))).
Proof.
  intros Ht. destruct (winner_index lt Ht) as (_ & _ & Hw).
  unfold tagged. by rewrite (delete_Permutation _ _ _ Hw) at 1.
Qed.

Lemma tagged_replaced lt c x :
  tournament_tree lt ->
  tagged c (LoserTree.replay (tree lt !!! 0%nat)
              (mkLoserTree (tree lt) (<[tree lt !!! 0%nat := x]> (leaves lt)) (k lt)))
  ≡ₚ filter (fun n => runID n = c)
       (x :: delete (tree lt !!! 0%nat) (take (k lt) (leaves lt))).
Proof.
  intros Ht. destruct (winner_index lt Ht) as (Hidx & _ & Hw).
  destruct (replaced_leaves lt x) as [El Ek]. simpl in El, Ek.
  unfold tagged. rewrite El, Ek, take_insert_lt by done.
  by rewrite (insert_Permutation _ _ _ x Hw).
Qed.

Lemma tagged_initialize data lt c :
  (length data <= k lt)%nat -> c <> INT_MAX ->
  tagged c (LoserTree.initialize data lt)
  = if decide (c = 1) then map (fun v => mkRunNode v 1) data else [].
Proof.
  intros Hlen Hc. destruct (initialize_view data lt Hlen) as [Ek El].
  unfold tagged. rewrite Ek, El, filter_app.
  assert (H2 : forall n, filter (fun n : RunNode => runID n = c) (replicate n SENTINEL) = []).
  { intros n. induction n as [|n IH]; [done|]. simpl.
    rewrite filter_cons_False; [done|]. simpl. unfold INT_MAX in *. lia. }
  rewrite H2, app_nil_r. clear -Hc.
  induction data as [|v data IH]; simpl.
  - by destruct (decide (c = 1)).
  - rewrite filter_cons. simpl. destruct (decide (1 = c)) as [<-|Hne].
    + rewrite decide_True in IH |- * by done. by rewrite IH.
    + rewrite decide_False in IH |- * by done. done.
Qed.

(** ** The main loop under a further invariant

    [Inv] is any statement about the state of the generator that every emit
    keeps and every run boundary re-establishes; [MayFail] tells whether a
    run boundary may find the directory full. *)

Section MainLoopInvariant.

Variables (K bufSize : nat) (all : list T).
Variable Inv : Z -> World -> list (list T) -> list T -> Prop.
Variable MayFail : Prop.

Hypothesis HbufSize : (1 <= bufSize)%nat.
Hypothesis Hall : Z.of_nat (length all) + 2 < INT_MAX.

Hypothesis Inv_turn : forall c w im css cur w1 w' im',
  generating K all c w im css cur -> Inv c w css cur ->
  runID (LoserTree.getWinner (loserTree w)) = c ->
  RunGenerator.emit bufSize (value (LoserTree.getWinner (loserTree w))) w
    = (Ok tt, w1) ->
  RunGenerator.replace_winner bufSize (LoserTree.getWinner (loserTree w)) c w1
    = (Ok tt, w') ->
  generating K all c w' im' css (cur ++ [value (LoserTree.getWinner (loserTree w))]) ->
  Inv c w' css (cur ++ [value (LoserTree.getWinner (loserTree w))]).

Hypothesis Inv_boundary : forall c w im css cur r w',
  generating K all c w im css cur -> Inv c w css cur -> cur <> [] ->
  runID (LoserTree.getWinner (loserTree w)) = c + 1 ->
  (forall i, (i < K)%nat ->
     leaves (loserTree w) !!! i = SENTINEL \/
     runID (leaves (loserTree w) !!! i) = c + 1) ->
  RunGenerator.run_boundary w = (r, w') ->
  (r = Throw out_of_range /\ MayFail) \/
  (r = Ok tt /\
   forall im', generating K all (c + 1) w' im' (css ++ [cur]) [] ->
     loserTree w' = loserTree w -> inp w' = inp w ->
     Inv (c + 1) w' (css ++ [cur]) []).

Lemma main_loop_invariant fuel :
  forall c w im css cur,
    generating K all c w im css cur -> Inv c w css cur ->
    (length (workspace (loserTree w)) + length (pending (inp w)) <= fuel)%nat ->
    forall r w', RunGenerator.main_loop bufSize fuel c w = (r, w') ->
      (r = Throw out_of_range /\ MayFail) \/
      (r = Ok tt /\
       exists c' im' css' cur',
         generating K all c' w' im' css' cur' /\ Inv c' w' css' cur' /\
         (cur' = [] -> cur = [] /\ css' = css) /\
         workspace (loserTree w') = [] /\ pending (inp w') = [] /\ extends im im').
Proof.
  induction fuel as [|f IH];
    intros c w im css cur G HI Hfuel r w' Hrun;
    rewrite main_loop_unfold in Hrun; cbv zeta in Hrun;
    destruct (run_id_bound _ _ _ _ _ _ _ G Hall) as [Hc1 Hc];
    pose proof (gen_tree _ _ _ _ _ _ _ G) as Ht;
    pose proof (gen_tags _ _ _ _ _ _ _ G) as Htags;
    destruct (tournament_winner _ _ _ Ht) as [Hidx Hmin];
    set (win := LoserTree.getWinner (loserTree w)) in *;
    destruct (runID win =? INT_MAX) eqn:E.
  1,3: (* the winner is the sentinel: the tree is empty *)
    apply Z.eqb_eq in E; inversion Hrun; subst r w'; right; split; [done|];
    exists c, im, css, cur;
    destruct (workspace_empty _ Ht c cur Htags Hc Hc1) as [Hws Hnot];
      [unfold is_real; fold win; lia|];
    split; [done|]; split; [done|]; split; [done|]; split; [done|];
    split; [|apply extends_refl];
    by destruct (gen_exhausted _ _ _ _ _ _ _ G).
  - (* no turn left, yet a real winner *)
    apply Z.eqb_neq in E.
    assert (Hreal : is_real win) by done.
    pose proof (Permutation_length (workspace_winner _ Ht Hreal)) as Hl.
    simpl in Hl. lia.
  - apply Z.eqb_neq in E.
    assert (Hcase : runID win = c \/ (runID win = c + 1 /\ cur <> [])).
    { destruct (Htags _ Hidx) as [Hs|[[Hr _]|[Hr Hne]]].
      - unfold win, LoserTree.getWinner in E. rewrite Hs in E. done.
      - by left.
      - by right. }
    destruct Hcase as [Hwin|[Hwin Hcur]].
    + (* the winner belongs to the current run *)
      replace (c <? runID win) with false in Hrun by (symmetry; apply Z.ltb_ge; lia).
      rewrite bind_ret in Hrun.
      destruct (turn_spec K bufSize all c w im css cur HbufSize G Hc1 Hc Hwin)
        as (w1 & w2 & im2 & Hemit & Hrep & G2 & He2 & Hm).
      fold win in Hemit, Hrep.
      rewrite (bind_ok _ _ _ _ _ Hemit), (bind_ok _ _ _ _ _ Hrep) in Hrun.
      pose proof (Inv_turn c w im css cur w1 w2 im2 G HI Hwin Hemit Hrep G2) as HI2.
      destruct (IH c w2 im2 css _ G2 HI2 ltac:(lia) r w' Hrun)
        as [[-> HF]|(-> & c' & im' & css' & cur' & G' & HI' & Hnil & Hws & Hp & He')];
        [by left|].
      right. split; [done|]. exists c', im', css', cur'.
      split; [done|]. split; [done|].
      split; [intros Hn; destruct (Hnil Hn) as [Hn' _]; by destruct cur|].
      split; [done|]. split; [done|]. by eapply extends_trans.
    + (* the winner opens the next run *)
      replace (c <? runID win) with true in Hrun by (symmetry; apply Z.ltb_lt; lia).
      destruct (RunGenerator.run_boundary w) as [r1 w1] eqn:Hb.
      assert (Hleaves : forall i, (i < K)%nat ->
                leaves (loserTree w) !!! i = SENTINEL \/
                runID (leaves (loserTree w) !!! i) = c + 1).
      { intros i Hi. rewrite <- (gen_K _ _ _ _ _ _ _ G) in Hi.
        destruct (Htags _ Hi) as [Hs|[[Hr _]|[Hr _]]]; [by left | | by right].
        specialize (Hmin i Hi). apply beats_spec in Hmin.
        unfold win, LoserTree.getWinner in Hwin. lia. }
      destruct (Inv_boundary c w im css cur r1 w1 G HI Hcur Hwin Hleaves Hb)
        as [[-> HF]|[-> HI1]].
      { rewrite (bind_throw _ _ _ _ _ Hb) in Hrun. inversion Hrun. by left. }
      destruct (run_boundary_spec K all c w im css cur G Hcur Hleaves _ w1 Hb)
        as [?|(_ & im1 & G1 & Et & Ei & He1)]; [done|].
      specialize (HI1 im1 G1 Et Ei).
      rewrite (bind_ok _ _ _ _ _ Hb) in Hrun.
      destruct (run_id_bound _ _ _ _ _ _ _ G1 Hall) as [Hc1' Hc'].
      assert (Hwin1 : runID (LoserTree.getWinner (loserTree w1)) = c + 1)
        by (by rewrite Et).
      destruct (turn_spec K bufSize all (c + 1) w1 im1 _ [] HbufSize G1 Hc1' Hc' Hwin1)
        as (w2 & w3 & im3 & Hemit & Hrep & G3 & He3 & Hm).
      pose proof (Inv_turn (c + 1) w1 im1 _ [] w2 w3 im3 G1 HI1 Hwin1 Hemit Hrep G3)
        as HI3.
      rewrite Et in Hemit, Hrep, Hm, G3, HI3. rewrite Ei in Hm.
      fold win in Hemit, Hrep, G3, HI3.
      rewrite Hwin in Hrun.
      rewrite (bind_ok _ _ _ _ _ Hemit), (bind_ok _ _ _ _ _ Hrep) in Hrun.
      destruct (IH (c + 1) w3 im3 _ _ G3 HI3 ltac:(lia) r w' Hrun)
        as [[-> HF]|(-> & c' & im' & css' & cur' & G' & HI' & Hnil & Hws & Hp & He')];
        [by left|].
      right. split; [done|]. exists c', im', css', cur'.
      split; [done|]. split; [done|].
      split; [intros Hn; by destruct (Hnil Hn) as [? _]|].
      split; [done|]. split; [done|].
      eapply extends_trans; [exact He1|]. by eapply extends_trans.
Qed.

End MainLoopInvariant.

(** ** The end of computeWorker, with the runs it leaves *)

Lemma finish_runs K all c w im css cur :
  generating K all c w im css cur ->
  workspace (loserTree w) = [] -> pending (inp w) = [] ->
  forall r w', RunGenerator.finish w = (r, w') ->
    r = Throw out_of_range \/
    (r = Ok tt /\
     exists im',
       wf_open (runFile w') im' /\
       runs_on_disk im' (generatedRuns w') (css ++ last_run cur) /\
       extends im im').
Proof.
  intros G Hws Hp r w' Hrun.
  unfold RunGenerator.finish in Hrun.
  destruct (await_output_spec w im cur (gen_output _ _ _ _ _ _ _ G))
    as (w1 & im1 & H1 & Ho1 & Hb1 & Ha1 & (Si1 & St1 & Sg1 & _) & He1).
  rewrite (bind_ok _ _ _ _ _ H1), bind_get in Hrun.
  assert (exists w3 im3,
            (if negb (bool_decide (activeOut (outp w1) = []))
             then bind (RunGenerator.setOutput (RunGenerator.hand_over (outp w1)))
                    (fun _ => RunGenerator.await_output)
             else ret tt) w1 = (Ok tt, w3) /\
            written_holds w3 im3 cur /\ generatedRuns w3 = generatedRuns w1 /\
            extends im1 im3)
    as (w3 & im3 & H3 & Hw3 & Sg3 & He3).
  { case_bool_decide as Hact; simpl.
    - exists w1, im1. split; [done|]. split; [|split; [done | apply extends_refl]].
      apply output_written; [|done]. by rewrite Hact, app_nil_r.
    - set (w2 := mkWorld (inp w1) (RunGenerator.hand_over (outp w1)) (loserTree w1)
                   (currentRunId w1) (generatedRuns w1) (runFile w1)).
      assert (Ho2 : output_holds w2 im1 (cur ++ standbyOut (outp w1))).
      { destruct Ho1 as (Hwf & base & He & Hb & Ht & Hcur).
        split; [done|]. exists base. simpl. split; [done|]. split; [done|].
        split; [done|]. rewrite Hb1 in Hcur. simpl in Hcur.
        rewrite Hcur. by rewrite <- app_assoc. }
      destruct (await_output_spec w2 im1 _ Ho2)
        as (w3 & im3 & H3 & Ho3 & Hb3 & Ha3 & (_ & _ & Sg3 & _) & He3).
      exists w3, im3. split.
      { unfold bind, RunGenerator.setOutput. fold w2. exact H3. }
      split; [|done]. apply output_written; [|done]. by rewrite Ha3. }
  rewrite (bind_ok _ _ _ _ _ H3) in Hrun.
  destruct (record_run_spec w3 im3 cur Hw3 r w' Hrun)
    as [->|(-> & im4 & Hw4 & He4 & _ & _ & _ & Hg4)]; [by left|].
  right. split; [done|].
  assert (Hext : extends im im4).
  { eapply extends_trans; [exact He1|]. eapply extends_trans; [exact He3 | exact He4]. }
  destruct Hw4 as [Hwf4 _]. exists im4. split; [done|]. split; [|done].
  destruct Hg4 as [[-> Hg4]|(Hne & m & Hg4 & Hm4)].
  - simpl. rewrite app_nil_r, Hg4, Sg3, Sg1.
    apply (runs_on_disk_extends im); [done | apply (gen_sealed _ _ _ _ _ _ _ G)].
  - rewrite Hg4, Sg3, Sg1. apply Forall2_app.
    + apply (runs_on_disk_extends im); [done | apply (gen_sealed _ _ _ _ _ _ _ G)].
    + destruct cur; [done|]. by repeat constructor.
Qed.

(** ** generateRuns under a further invariant *)

Section GenerateRunsInvariant.

Variables (K bufSize : nat) (input : list T) (rf : RunFile) (im : FileImage).
Variable Inv : Z -> World -> list (list T) -> list T -> Prop.
Variable MayFail : Prop.

Hypothesis HbufSize : (1 <= bufSize)%nat.
Hypothesis Hinput : Z.of_nat (length input) + 2 < INT_MAX.
Hypothesis Hwf : wf_open rf im.

Hypothesis Inv_start : forall w0 w1 w data im1,
  RunGenerator.start K bufSize input rf = Some w0 ->
  RunGenerator.open_run w0 = (Ok tt, w1) ->
  slots_view w = slots_view w1 ->
  loserTree w = LoserTree.initialize data (loserTree w0) ->
  (length data <= K)%nat -> data ++ pending (inp w) = input ->
  ((length data < K)%nat -> pending (inp w) = []) ->
  generating K input 1 w im1 [] [] ->
  Inv 1 w [] [].

Hypothesis Inv_turn : forall c w im css cur w1 w' im',
  generating K input c w im css cur -> Inv c w css cur ->
  runID (LoserTree.getWinner (loserTree w)) = c ->
  RunGenerator.emit bufSize (value (LoserTree.getWinner (loserTree w))) w
    = (Ok tt, w1) ->
  RunGenerator.replace_winner bufSize (LoserTree.getWinner (loserTree w)) c w1
    = (Ok tt, w') ->
  generating K input c w' im' css (cur ++ [value (LoserTree.getWinner (loserTree w))]) ->
  Inv c w' css (cur ++ [value (LoserTree.getWinner (loserTree w))]).

Hypothesis Inv_boundary : forall c w im css cur r w',
  generating K input c w im css cur -> Inv c w css cur -> cur <> [] ->
  runID (LoserTree.getWinner (loserTree w)) = c + 1 ->
  (forall i, (i < K)%nat ->
     leaves (loserTree w) !!! i = SENTINEL \/
     runID (leaves (loserTree w) !!! i) = c + 1) ->
  RunGenerator.run_boundary w = (r, w') ->
  (r = Throw out_of_range /\ MayFail) \/
  (r = Ok tt /\
   forall im', generating K input (c + 1) w' im' (css ++ [cur]) [] ->
     loserTree w' = loserTree w -> inp w' = inp w ->
     Inv (c + 1) w' (css ++ [cur]) []).

Lemma generateRuns_invariant r rf' :
  RunGenerator.generateRuns K bufSize input rf = Some (r, rf') ->
  (r = Throw out_of_range /\ MayFail) \/
  exists c w im3 css cur r4 w4,
    generating K input c w im3 css cur /\ Inv c w css cur /\
    (cur = [] -> css = []) /\
    workspace (loserTree w) = [] /\ pending (inp w) = [] /\ extends im im3 /\
    RunGenerator.finish w = (r4, w4) /\ rf' = runFile w4 /\
    r = match r4 with
        | Ok _ => Ok (generatedRuns w4)
        | Throw e => Throw e
        end.
Proof.
  intros Hrun.
  unfold RunGenerator.generateRuns in Hrun.
  destruct (RunGenerator.start K bufSize input rf) as [w0|] eqn:Hstart; [|discriminate].
  pose proof Hstart as Hstart'.
  unfold RunGenerator.start, LoserTree.new in Hstart'.
  destruct (K =? 0)%nat eqn:HK; [discriminate|]. apply Nat.eqb_neq in HK.
  injection Hstart' as Hw0.
  destruct (RunGenerator.generateRuns_body K bufSize input w0) as [r0 w'] eqn:Hbody.
  inversion Hrun; subst r0 rf'. clear Hrun.
  unfold RunGenerator.generateRuns_body in Hbody.
  destruct (open_run_spec w0 im) as (w1 & im1 & Hopen & Ho1 & He1 & _ & Hi1 & Ht1 & Hg1 & _);
    [by subst w0 | by subst w0 | by subst w0 |].
  rewrite (bind_ok _ _ _ _ _ Hopen) in Hbody.
  unfold bind at 1, RunGenerator.setGeneratedRuns at 1 in Hbody.
  set (w2 := mkWorld (inp w1) (outp w1) (loserTree w1) (currentRunId w1) []
               (runFile w1)) in *.
  assert (HK1 : (1 <= K)%nat) by lia.
  assert (Hk2 : k (loserTree w2) = K) by (simpl; rewrite Ht1; by subst w0).
  assert (Ho2 : output_holds w2 im1 []) by (by apply (output_holds_frame w1)).
  assert (Hi2 : inp w2 = mkInputSide input [] (replicate bufSize 0) 0 false false)
    by (simpl; rewrite Hi1; by subst w0).
  destruct (RunGenerator.computeWorker K bufSize (length input) w2) as [r3 wc] eqn:Hcw.
  unfold bind at 1 in Hbody. rewrite Hcw in Hbody.
  unfold RunGenerator.computeWorker in Hcw.
  destruct (computeWorker_start K bufSize input w2 im1 HbufSize HK1 Hk2 Ho2 eq_refl Hi2)
    as (data & i1 & Hfill & G & Hmeasure).
  assert (Hin2 : input_ok (inp w2)) by (by rewrite Hi2).
  destruct (initial_fill_spec K bufSize K HbufSize [] w2 Hin2 ltac:(simpl; lia))
    as (data' & i1' & Hfill' & _ & Happ & Hlen & Hshort).
  rewrite Hfill in Hfill'. injection Hfill' as <- <-.
  assert (Hp2 : pending (inp w2) = input) by (by rewrite Hi2).
  cbn [app] in Happ. rewrite Hp2 in Happ.
  specialize (Hlen ltac:(simpl; lia)).
  rewrite (bind_ok _ _ _ _ _ Hfill), bind_get in Hcw.
  unfold bind at 1, RunGenerator.setTree at 1 in Hcw.
  cbn [loserTree inp outp currentRunId generatedRuns runFile] in Hcw.
  set (w3 := mkWorld i1 (outp w2) (LoserTree.initialize data (loserTree w2))
               (currentRunId w2) (generatedRuns w2) (runFile w2)) in *.
  assert (HI3 : Inv 1 w3 [] []).
  { apply (Inv_start w0 w1 w3 data im1); try done.
    simpl. by rewrite Ht1. }
  destruct (RunGenerator.main_loop bufSize (length input) 1 w3) as [r4 w4] eqn:Hloop.
  destruct (main_loop_invariant K bufSize input Inv MayFail HbufSize Hinput
              Inv_turn Inv_boundary (length input) 1 w3 im1 [] [] G HI3 Hmeasure
              r4 w4 Hloop)
    as [[-> HF]|(-> & c' & im4 & css4 & cur4 & G4 & HI4 & Hnil & Hws4 & Hp4 & He4)].
  { rewrite (bind_throw _ _ _ _ _ Hloop) in Hcw. inversion Hcw; subst r3 wc.
    inversion Hbody. by left. }
  right. rewrite (bind_ok _ _ _ _ _ Hloop) in Hcw.
  exists c', w4, im4, css4, cur4, r3, wc.
  split; [done|]. split; [done|].
  split; [intros Hn; by destruct (Hnil Hn)|].
  split; [done|]. split; [done|].
  split; [by eapply extends_trans|]. split; [done|].
  destruct r3 as [[]|e]; simpl in Hbody; by inversion Hbody.
Qed.

End GenerateRunsInvariant.

(** ** Runs of at least K elements *)

Lemma filter_nothing {A} (P : A -> Prop) `{!forall x, Decision (P x)} (l : list A) :
  Forall (fun x => ~ P x) l -> filter P l = [].
Proof.
  induction 1 as [|x l Hx _ IH]; [done|]. by rewrite filter_cons_False.
Qed.

Lemma filter_everything {A} (P : A -> Prop) `{!forall x, Decision (P x)} (l : list A) :
  Forall P l -> filter P l = l.
Proof.
  induction 1 as [|x l Hx _ IH]; [done|]. rewrite filter_cons_True by done.
  by rewrite IH.
Qed.

Lemma full_runs_turn K bufSize all c w im css cur w1 w' :
  (1 <= bufSize)%nat -> Z.of_nat (length all) + 2 < INT_MAX ->
  generating K all c w im css cur -> full_runs K c w css cur ->
  runID (LoserTree.getWinner (loserTree w)) = c ->
  RunGenerator.emit bufSize (value (LoserTree.getWinner (loserTree w))) w = (Ok tt, w1) ->
  RunGenerator.replace_winner bufSize (LoserTree.getWinner (loserTree w)) c w1
    = (Ok tt, w') ->
  full_runs K c w' css (cur ++ [value (LoserTree.getWinner (loserTree w))]).
Proof.
  intros Hbuf Hall G [Hcss Hor] Hwin Hemit Hrep.
  destruct (run_id_bound _ _ _ _ _ _ _ G Hall) as [Hc1 Hc].
  destruct (turn_state _ _ _ _ _ _ _ _ _ _ Hbuf G Hemit Hrep) as (Et & Ep & _ & _).
  pose proof (gen_tree _ _ _ _ _ _ _ G) as Ht.
  split; [done|]. unfold full_runs. rewrite Et, Ep.
  set (x := match head (pending (inp w)) with
            | Some val =>
                mkRunNode val
                  (if val <? value (LoserTree.getWinner (loserTree w)) then c + 1 else c)
            | None => SENTINEL
            end) in *.
  pose proof (tagged_winner _ c Ht) as Hc0.
  pose proof (tagged_replaced _ c x Ht) as Hc0'.
  pose proof (tagged_winner _ (c + 1) Ht) as Hn0.
  pose proof (tagged_replaced _ (c + 1) x Ht) as Hn0'.
  rewrite filter_cons_True in Hc0 by done.
  rewrite filter_cons_False in Hn0 by lia.
  destruct Hor as [Hle|[Hp Hn]].
  - left. rewrite length_app. simpl.
    apply Permutation_length in Hc0, Hc0'. rewrite Hc0'. simpl in Hc0.
    rewrite filter_cons. destruct (decide (runID x = c)); simpl; lia.
  - right. subst x. rewrite Hp in Hn0' |- *. cbn [head tail] in Hn0' |- *.
    split; [done|].
    rewrite Hn in Hn0. symmetry in Hn0. apply Permutation_nil_r in Hn0.
    rewrite filter_cons_False in Hn0' by (simpl; lia).
    rewrite Hn0 in Hn0'. by apply Permutation_nil_r in Hn0'.
Qed.

Lemma full_runs_boundary K all c w im css cur :
  generating K all c w im css cur -> full_runs K c w css cur ->
  c + 1 + 1 < INT_MAX ->
  runID (LoserTree.getWinner (loserTree w)) = c + 1 ->
  (forall i, (i < K)%nat ->
     leaves (loserTree w) !!! i = SENTINEL \/
     runID (leaves (loserTree w) !!! i) = c + 1) ->
  (K <= length cur)%nat /\
  forall w', loserTree w' = loserTree w -> inp w' = inp w ->
    full_runs K (c + 1) w' (css ++ [cur]) [].
Proof.
  intros G [Hcss Hor] Hc Hwin Hleaves.
  pose proof (gen_tree _ _ _ _ _ _ _ G) as Ht.
  pose proof (gen_K _ _ _ _ _ _ _ G) as HK.
  destruct (winner_index _ Ht) as (Hidx & Hidx' & Hw).
  assert (Hlv : length (leaves (loserTree w)) = S (k (loserTree w)))
    by (by destruct Ht as (_ & _ & ? & _)).
  assert (Hall : Forall (fun n => n = SENTINEL \/ runID n = c + 1)
                   (take (k (loserTree w)) (leaves (loserTree w)))).
  { apply Forall_lookup. intros i n Hi.
    apply lookup_take_Some in Hi as [Hi Hlt].
    rewrite <- (list_lookup_total_correct _ _ _ Hi). apply Hleaves. lia. }
  assert (Hnone : tagged c (loserTree w) = []).
  { apply filter_nothing. eapply Forall_impl; [exact Hall|].
    intros n [->|Hn]; simpl; lia. }
  assert (Hlen : (K <= length cur)%nat).
  { destruct Hor as [Hle|[_ Hn]].
    - rewrite Hnone in Hle. simpl in Hle. lia.
    - exfalso. pose proof (tagged_winner _ (c + 1) Ht) as Hp.
      rewrite filter_cons_True in Hp by done. rewrite Hn in Hp.
      by apply Permutation_nil_cons in Hp. }
  split; [done|]. intros w' Et Ei. unfold full_runs. rewrite Et, Ei. split.
  { apply Forall_app. split; [done|]. by repeat constructor. }
  destruct (gen_exhausted _ _ _ _ _ _ _ G) as [Hp|Hreal].
  - right. split; [done|]. apply filter_nothing.
    eapply Forall_impl; [exact Hall|]. intros n [->|Hn]; simpl; lia.
  - left. simpl. unfold tagged.
    assert (Hfull : filter (fun n => runID n = c + 1)
                      (take (k (loserTree w)) (leaves (loserTree w)))
                    = take (k (loserTree w)) (leaves (loserTree w))).
    { apply filter_everything. apply Forall_forall. intros n Hn.
      pose proof (proj1 (Forall_forall _ _) Hall n Hn) as [->|Hc1]; [|done].
      exfalso. by apply (proj1 (Forall_forall _ _) Hreal SENTINEL Hn). }
    rewrite Hfull, length_take. lia.
Qed.

Lemma full_runs_start K bufSize input rf w0 w data :
  RunGenerator.start K bufSize input rf = Some w0 ->
  loserTree w = LoserTree.initialize data (loserTree w0) ->
  (length data <= K)%nat ->
  ((length data < K)%nat -> pending (inp w) = []) ->
  full_runs K 1 w [] [].
Proof.
  intros Hstart Et Hlen Hshort.
  unfold RunGenerator.start, LoserTree.new in Hstart.
  destruct (K =? 0)%nat; [discriminate|]. injection Hstart as <-.
  split; [constructor|]. rewrite Et. simpl.
  rewrite !tagged_initialize by (simpl; unfold INT_MAX; lia).
  rewrite decide_True by done. rewrite decide_False by done.
  rewrite length_map.
  destruct (decide (length data < K)%nat) as [Hlt|Hge].
  - right. split; [by apply Hshort | done].
  - left. lia.
Qed.

Lemma full_runs_concat K (css : list (list T)) :
  Forall (fun xs : list T => (K <= length xs)%nat) css ->
  (K * length css <= length (concat css))%nat.
Proof.
  induction 1 as [|xs css Hx _ IH]; simpl; [lia|]. rewrite length_app. lia.
Qed.

(** ** Directory slots, one for every run *)

Lemma slots_left_boundary F w css cur r w' :
  slots_left F w css -> (1 <= free_slots (slots_view w))%nat ->
  RunGenerator.run_boundary w = (r, w') ->
  r <> Throw out_of_range /\
  (r = Ok tt -> slots_left F w' (css ++ [cur])).
Proof.
  intros [Hok Hfree] H1 Hrun.
  destruct (allocating_run_boundary _ _ _ Hrun Hok H1) as [Hno Hslots].
  split; [done|]. intros ->. destruct (Hslots tt eq_refl) as [Hok' Hf'].
  split; [done|]. rewrite length_app. simpl. lia.
Qed.

(** ** Input that arrives in non-decreasing order *)

Lemma ascending_turn K bufSize all c w im css cur w1 w' :
  (1 <= bufSize)%nat -> Z.of_nat (length all) + 2 < INT_MAX ->
  generating K all c w im css cur -> ascending c w ->
  runID (LoserTree.getWinner (loserTree w)) = c ->
  RunGenerator.emit bufSize (value (LoserTree.getWinner (loserTree w))) w = (Ok tt, w1) ->
  RunGenerator.replace_winner bufSize (LoserTree.getWinner (loserTree w)) c w1
    = (Ok tt, w') ->
  ascending c w'.
Proof.
  intros Hbuf Hall G (Hn & Hs & Hle) Hwin Hemit Hrep.
  destruct (run_id_bound _ _ _ _ _ _ _ G Hall) as [Hc1 Hc].
  destruct (turn_state _ _ _ _ _ _ _ _ _ _ Hbuf G Hemit Hrep) as (Et & Ep & _ & _).
  pose proof (gen_tree _ _ _ _ _ _ _ G) as Ht.
  assert (Hreal : is_real (LoserTree.getWinner (loserTree w)))
    by (unfold is_real; lia).
  pose proof (workspace_winner _ Ht Hreal) as Hws.
  pose proof (tagged_winner _ (c + 1) Ht) as Hn0.
  rewrite filter_cons_False in Hn0 by lia.
  rewrite Hn in Hn0. symmetry in Hn0. apply Permutation_nil_r in Hn0.
  rewrite Hws in Hle. apply Forall_cons in Hle as [Hwle Hrest].
  unfold ascending. rewrite Et, Ep.
  destruct (pending (inp w)) as [|val P'] eqn:HP; cbn [head tail].
  - split.
    { pose proof (tagged_replaced _ (c + 1) SENTINEL Ht) as Hn0'.
      rewrite filter_cons_False in Hn0' by (simpl; lia).
      rewrite Hn0 in Hn0'. by apply Permutation_nil_r in Hn0'. }
    split; [constructor|]. apply Forall_forall. intros v _. constructor.
  - apply Forall_cons in Hwle as [Hv _].
    replace (val <? value (LoserTree.getWinner (loserTree w))) with false
      by (symmetry; apply Z.ltb_ge; lia).
    split.
    { pose proof (tagged_replaced _ (c + 1) (mkRunNode val c) Ht) as Hn0'.
      rewrite filter_cons_False in Hn0' by (simpl; lia).
      rewrite Hn0 in Hn0'. by apply Permutation_nil_r in Hn0'. }
    apply (Sorted_StronglySorted Z.le _) in Hs.
    apply StronglySorted_inv in Hs as [Hs' Hhd].
    split; [by apply StronglySorted_Sorted|].
    rewrite (workspace_replaced _ Ht (mkRunNode val c)).
    rewrite decide_True by (unfold is_real; simpl; lia). simpl.
    constructor; [done|].
    eapply Forall_impl; [exact Hrest|]. simpl. intros v Hvp.
    by apply Forall_cons in Hvp as [_ ?].
Qed.

Lemma ascending_no_boundary K all c w im css cur :
  generating K all c w im css cur -> ascending c w ->
  runID (LoserTree.getWinner (loserTree w)) <> c + 1.
Proof.
  intros G (Hn & _) Hwin.
  pose proof (tagged_winner _ (c + 1) (gen_tree _ _ _ _ _ _ _ G)) as Hp.
  rewrite filter_cons_True in Hp by done. rewrite Hn in Hp.
  by apply Permutation_nil_cons in Hp.
Qed.

Lemma ascending_start K bufSize input rf w0 w data :
  RunGenerator.start K bufSize input rf = Some w0 ->
  loserTree w = LoserTree.initialize data (loserTree w0) ->
  (length data <= K)%nat -> data ++ pending (inp w) = input ->
  nondecreasing input ->
  ascending 1 w.
Proof.
  intros Hstart Et Hlen Happ Hs.
  unfold RunGenerator.start, LoserTree.new in Hstart.
  destruct (K =? 0)%nat; [discriminate|]. injection Hstart as <-.
  unfold ascending. rewrite Et. simpl.
  rewrite tagged_initialize by (simpl; unfold INT_MAX; lia).
  rewrite decide_False by done. split; [done|].
  rewrite <- Happ in Hs. apply (Sorted_StronglySorted Z.le _) in Hs.
  apply StronglySorted_app in Hs as (Hle & _ & Hp).
  split; [by apply StronglySorted_Sorted|].
  change (LoserTree.initial_leaves K data)
    with (leaves (LoserTree.initialize data
                    (mkLoserTree (replicate K 0%nat) (replicate (K + 1) SENTINEL) K))).
  fold (workspace (LoserTree.initialize data
                     (mkLoserTree (replicate K 0%nat) (replicate (K + 1) SENTINEL) K))).
  rewrite initialize_workspace by done.
  apply Forall_forall. intros v Hv. apply Forall_forall. intros p Hp'.
  by apply Hle.
Qed.

(** ** What generateRuns returns *)

Lemma generateRuns_needs_K bufSize input rf r rf' :
  forall K, RunGenerator.generateRuns K bufSize input rf = Some (r, rf') -> (1 <= K)%nat.
Proof.
  intros [|K] H; [|lia].
  unfold RunGenerator.generateRuns, RunGenerator.start, LoserTree.new in H.
  simpl in H. discriminate.
Qed.

Lemma last_run_length (cur : list T) :
  length (last_run cur) = match cur with [] => 0%nat | _ :: _ => 1%nat end.
Proof. by destruct cur. Qed.

(** Every run but the last has at least K elements. *)
Lemma run_lengths_spec K bufSize input rf im runs rf' :
  (1 <= bufSize)%nat -> Z.of_nat (length input) + 2 < INT_MAX -> wf_open rf im ->
  RunGenerator.generateRuns K bufSize input rf = Some (Ok runs, rf') ->
  (forall i m, runs !! i = Some m -> (S i < length runs)%nat ->
     Z.of_nat K <= elementCount m) /\
  (length runs * K < length input + K)%nat.
Proof.
  intros Hbuf Hall Hwf Hgen.
  pose proof (generateRuns_needs_K _ _ _ _ _ _ Hgen) as HK.
  destruct (generateRuns_invariant K bufSize input rf im (full_runs K) True Hbuf Hall Hwf)
    with (r := @Ok (list RunMetadata) runs) (rf' := rf')
    as [[? _]|(c & w & im3 & css & cur & r4 & w4 & G & [Hfull _] & Hnil & Hws & Hp & _
                & Hfin & _ & Hr)]; [| | | done | done |].
  - intros w0 w1 w data im1 Hstart _ _ Et Hlen _ Hshort _.
    by apply (full_runs_start K bufSize input rf w0 w data).
  - intros c w im0 css cur w1 w' im' G HI Hwin Hemit Hrep _.
    by apply (full_runs_turn K bufSize input c w im0 css cur w1 w').
  - intros c w im0 css cur r w' G HI Hcur Hwin Hleaves Hb.
    destruct (run_boundary_spec K input c w im0 css cur G Hcur Hleaves r w' Hb)
      as [->|(-> & _)]; [by left|].
    right. split; [done|]. intros im' G' Et Ei.
    destruct (run_id_bound _ _ _ _ _ _ _ G' Hall) as [_ Hc'].
    by apply (full_runs_boundary K input c w im0 css cur G HI Hc' Hwin Hleaves).
  - destruct (finish_runs K input c w im3 css cur G Hws Hp r4 w4 Hfin)
      as [->|(-> & im4 & Hwf4 & Hdisk & _)]; [done|].
    injection Hr as ->.
    pose proof (Forall2_length _ _ _ Hdisk) as Hlen.
    rewrite length_app, last_run_length in Hlen.
    split.
    + intros i m Hi Hlt.
      destruct (Forall2_lookup_l _ _ _ _ _ Hdisk Hi) as (xs & Hxs & Hc).
      apply run_content_inv in Hc as (_ & _ & -> & _).
      assert (Hi' : (i < length css)%nat) by (destruct cur; lia).
      rewrite lookup_app_l in Hxs by done.
      pose proof (Forall_lookup_1 _ _ _ _ Hfull Hxs). simpl in *. lia.
    + pose proof (Permutation_length (gen_all _ _ _ _ _ _ _ G)) as Hn.
      rewrite Hws, Hp, !length_app in Hn. simpl in Hn.
      pose proof (full_runs_concat K css Hfull) as Hc.
      destruct cur as [|x cur].
      * rewrite (Hnil eq_refl) in Hlen. simpl in Hlen. rewrite Hlen. simpl. lia.
      * simpl in Hn. rewrite Hlen. nia.
Qed.

(** The first run takes one of the free slots. *)
Lemma start_slots K bufSize input rf im w0 w1 :
  wf_open rf im -> (1 <= free_count (directory rf))%nat ->
  RunGenerator.start K bufSize input rf = Some w0 ->
  RunGenerator.open_run w0 = (Ok tt, w1) ->
  slot_ok (slots_view w1) /\
  (free_slots (slots_view w1) + 1 = free_count (directory rf))%nat.
Proof.
  intros Hwf HF Hstart Hopen.
  unfold RunGenerator.start, LoserTree.new in Hstart.
  destruct (K =? 0)%nat; [discriminate|]. injection Hstart as <-.
  destruct (open_run_slot
              (mkWorld (mkInputSide input [] (replicate bufSize 0) 0 false false)
                 (mkOutputSide [] (replicate bufSize 0) false 0 0)
                 (mkLoserTree (replicate K 0%nat) (replicate (K + 1) SENTINEL) K)
                 0 [] rf)
              (wf_length _ _ Hwf) (wf_maxRuns_nonneg _ _ Hwf) HF _ _ Hopen)
    as (_ & Hok1 & Hf1).
  done.
Qed.

(** With a free slot for every K elements of the input, no run boundary
    finds the directory full, and every slot taken holds a returned run. *)
Lemma enough_slots_spec K bufSize input rf im :
  (1 <= bufSize)%nat -> Z.of_nat (length input) + 2 < INT_MAX -> wf_open rf im ->
  input <> [] -> (length input <= K * free_count (directory rf))%nat ->
  exists runs rf' im' css,
    RunGenerator.generateRuns K bufSize input rf = Some (Ok runs, rf') /\
    runs_of input rf' runs im' css /\
    (free_count (directory rf') + length runs = free_count (directory rf))%nat.
Proof.
  intros Hbuf Hall Hwf Hne Hfree.
  assert (HN : (1 <= length input)%nat) by (destruct input; [done | simpl; lia]).
  assert (HK : (1 <= K)%nat) by nia.
  assert (HF : (1 <= free_count (directory rf))%nat) by nia.
  destruct (generateRuns_returns K bufSize input rf HK) as (r & rf' & Hgen).
  set (F := free_count (directory rf)) in *.
  destruct (generateRuns_invariant K bufSize input rf im
              (fun c w css cur => full_runs K c w css cur /\ slots_left F w css)
              False Hbuf Hall Hwf)
    with (r := r) (rf' := rf')
    as [[_ []]|(c & w & im3 & css & cur & r4 & w4 & G & [Hfull [Hok Hslots]] & Hnil & Hws
                & Hp & _ & Hfin & Hrf & Hr)]; [| | | done |].
  - intros w0 w1 w data im1 Hstart Hopen Hv Et Hlen _ Hshort _.
    split; [by apply (full_runs_start K bufSize input rf w0 w data)|].
    destruct (start_slots K bufSize input rf im w0 w1 Hwf HF Hstart Hopen) as [Hok1 Hf1].
    unfold slots_left. rewrite Hv. split; [done|]. simpl. fold F in Hf1. lia.
  - intros c w im0 css cur w1 w' im' G [HI [Hok Hs]] Hwin Hemit Hrep _.
    split; [by apply (full_runs_turn K bufSize input c w im0 css cur w1 w')|].
    destruct (turn_state _ _ _ _ _ _ _ _ _ _ Hbuf G Hemit Hrep) as (_ & _ & _ & Hv).
    unfold slots_left. by rewrite Hv.
  - intros c w im0 css cur r1 w' G [HI Hs] Hcur Hwin Hleaves Hb.
    destruct (run_id_bound _ _ _ _ _ _ _ G Hall) as [Hc1 Hc].
    assert (Hc' : c + 1 + 1 < INT_MAX).
    { destruct (run_boundary_spec K input c w im0 css cur G Hcur Hleaves r1 w' Hb)
        as [->|(-> & im1 & G1 & _)].
      - pose proof (Permutation_length (gen_all _ _ _ _ _ _ _ G)) as Hn.
        rewrite (gen_run_id _ _ _ _ _ _ _ G).
        pose proof (concat_nonempty_length css (gen_sealed_nonempty _ _ _ _ _ _ _ G)).
        rewrite !length_app in Hn. destruct cur; [done|]. simpl in Hn. lia.
      - by destruct (run_id_bound _ _ _ _ _ _ _ G1 Hall). }
    destruct (full_runs_boundary K input c w im0 css cur G HI Hc' Hwin Hleaves)
      as [Hlen Hnext].
    assert (H1 : (1 <= free_slots (slots_view w))%nat).
    { pose proof (Permutation_length (gen_all _ _ _ _ _ _ _ G)) as Hn.
      rewrite !length_app in Hn.
      assert (Hreal : is_real (LoserTree.getWinner (loserTree w)))
        by (unfold is_real; lia).
      pose proof (Permutation_length
                    (workspace_winner _ (gen_tree _ _ _ _ _ _ _ G) Hreal)) as Hlw.
      simpl in Hlw.
      pose proof (full_runs_concat K css (proj1 HI)) as Hcc.
      destruct Hs as [_ Hs]. nia. }
    destruct (slots_left_boundary F w css cur r1 w' Hs H1 Hb) as [Hno Hs'].
    destruct (run_boundary_spec K input c w im0 css cur G Hcur Hleaves r1 w' Hb)
      as [->|(-> & _)]; [done|].
    right. split; [done|]. intros im' G' Et Ei. split; [by apply Hnext | by apply Hs'].
  - destruct (quiet_finish _ _ _ Hfin) as [Hv Hno].
    destruct (finish_runs K input c w im3 css cur G Hws Hp r4 w4 Hfin)
      as [->|(-> & im4 & Hwf4 & Hdisk & _)]; [by specialize (Hno Hok)|].
    simpl in Hr. subst r.
    destruct (generateRuns_spec K bufSize input rf im Hbuf Hall Hwf _ _ Hgen)
      as [?|(runs & im' & css' & Hr & Hruns & _)]; [done|].
    injection Hr as <-.
    exists (generatedRuns w4), rf', im', css'. split; [done|]. split; [done|].
    pose proof (Forall2_length _ _ _ Hdisk) as Hlen.
    rewrite length_app, last_run_length in Hlen.
    assert (Hcur : cur <> []).
    { intros ->. pose proof (gen_all _ _ _ _ _ _ _ G) as Hperm.
      rewrite (Hnil eq_refl), Hws, Hp in Hperm. simpl in Hperm.
      apply Permutation_nil_r in Hperm. done. }
    destruct cur; [done|]. subst rf'.
    change (free_count (directory (runFile w4))) with (free_slots (slots_view w4)).
    rewrite Hv, Hlen. lia.
Qed.

(** An input in non-decreasing order becomes a single run. *)
Lemma sorted_input_spec K bufSize input rf im :
  (1 <= K)%nat -> (1 <= bufSize)%nat -> Z.of_nat (length input) + 2 < INT_MAX ->
  wf_open rf im -> (1 <= free_count (directory rf))%nat ->
  input <> [] -> nondecreasing input ->
  exists m rf' im',
    RunGenerator.generateRuns K bufSize input rf = Some (Ok [m], rf') /\
    wf_open rf' im' /\ run_content im' m = Some input /\
    (free_count (directory rf') + 1 = free_count (directory rf))%nat.
Proof.
  intros HK Hbuf Hall Hwf HF Hne Hsorted.
  destruct (generateRuns_returns K bufSize input rf HK) as (r & rf' & Hgen).
  set (F := free_count (directory rf)) in *.
  destruct (generateRuns_invariant K bufSize input rf im
              (fun c w css cur => css = [] /\ ascending c w /\ slots_left F w css)
              False Hbuf Hall Hwf)
    with (r := r) (rf' := rf')
    as [[_ []]|(c & w & im3 & css & cur & r4 & w4 & G & (-> & _ & Hok & Hslots) & Hnil
                & Hws & Hp & _ & Hfin & Hrf & Hr)]; [| | | done |].
  - intros w0 w1 w data im1 Hstart Hopen Hv Et Hlen Happ _ _.
    split; [done|].
    split; [by apply (ascending_start K bufSize input rf w0 w data)|].
    destruct (start_slots K bufSize input rf im w0 w1 Hwf HF Hstart Hopen) as [Hok1 Hf1].
    unfold slots_left. rewrite Hv. split; [done|]. simpl. fold F in Hf1. lia.
  - intros c w im0 css cur w1 w' im' G (-> & HI & [Hok Hs]) Hwin Hemit Hrep _.
    split; [done|].
    split; [by apply (ascending_turn K bufSize input c w im0 [] cur w1 w')|].
    destruct (turn_state _ _ _ _ _ _ _ _ _ _ Hbuf G Hemit Hrep) as (_ & _ & _ & Hv).
    unfold slots_left. by rewrite Hv.
  - intros c w im0 css cur r1 w' G (_ & HI & _) _ Hwin _ _.
    by destruct (ascending_no_boundary K input c w im0 css cur G HI).
  - destruct (quiet_finish _ _ _ Hfin) as [Hv Hno].
    destruct (finish_runs K input c w im3 [] cur G Hws Hp r4 w4 Hfin)
      as [->|(-> & im4 & Hwf4 & Hdisk & _)]; [by specialize (Hno Hok)|].
    simpl in Hr. subst r.
    pose proof (gen_all _ _ _ _ _ _ _ G) as Hperm.
    rewrite Hws, Hp in Hperm. simpl in Hperm. rewrite app_nil_r in Hperm.
    assert (Hcur : cur = input).
    { apply (Sorted_unique Z.le); [apply (gen_cur_sorted _ _ _ _ _ _ _ G) | done |].
      by symmetry. }
    subst cur. destruct input as [|x input]; [done|]. simpl in Hdisk.
    inversion Hdisk as [|m xs runs' css' Hm Hrest Hruns]; subst.
    apply Forall2_nil_inv_r in Hrest. subst runs'.
    exists m, (runFile w4), im4. rewrite <- Hruns in Hgen. split; [done|].
    split; [done|]. split; [done|].
    change (free_count (directory (runFile w4))) with (free_slots (slots_view w4)).
    rewrite Hv. simpl in Hslots. lia.
Qed.

(** ** The optimal merge and its slots *)

Lemma externalMergeSort_outcome pick runs css rf im :
  Merger.picks_top pick -> wf_open rf im -> runs_on_disk im runs css -> runs <> [] ->
  ((length runs <= free_count (directory rf) + 1)%nat ->
   exists final xs rf' im',
     Merger.externalMergeSort pick runs rf = (Ok final, rf') /\
     wf_open rf' im' /\ run_content im' final = Some xs /\
     xs ≡ₚ concat css /\ (Forall nondecreasing css -> nondecreasing xs) /\
     (free_count (directory rf') + length runs = free_count (directory rf) + 1)%nat) /\
  ((free_count (directory rf) + 1 < length runs)%nat ->
   exists rf', Merger.externalMergeSort pick runs rf = (Throw runtime_error, rf')).
Proof.
  intros Hp Hwf Hdisk Hne.
  destruct (merge_all_outcome pick (length runs) runs css rf im Hp Hwf Hdisk ltac:(lia))
    as [Hok Hfail].
  split.
  - intros Hfree. destruct (Hok Hfree) as (heap' & rf' & Hall & Hslots).
    destruct (Merger.externalMergeSort pick runs rf) as [r rf''] eqn:Hrun.
    pose proof Hrun as Hrun'.
    unfold Merger.externalMergeSort in Hrun'. rewrite fold_push in Hrun'.
    simpl in Hrun'. rewrite (bind_ok _ _ _ _ _ Hall) in Hrun'.
    assert (Hrf : rf'' = rf').
    { destruct (Merger.top pick heap'); by inversion Hrun'. }
    subst rf''.
    destruct (externalMergeSort_spec pick runs css rf im Hp Hwf Hdisk r rf' Hrun)
      as [[? _]|[->|(final & xs & im' & -> & Hwf' & Hc & Hperm & Hs)]]; [done| |].
    { destruct (Merger.top pick heap'); inversion Hrun'. }
    exists final, xs, rf', im'. repeat (split; [done|]).
    assert (1 <= length runs)%nat by (destruct runs; [done | simpl; lia]). lia.
  - intros Hfree. destruct (Hfail Hfree) as (rf' & Hall).
    exists rf'. unfold Merger.externalMergeSort. rewrite fold_push. simpl.
    by rewrite (bind_throw _ _ _ _ _ Hall).
Qed.

Lemma externalMergeSort_one pick run rf :
  Merger.picks_top pick -> Merger.externalMergeSort pick [run] rf = (Ok run, rf).
Proof.
  intros Hp. unfold Merger.externalMergeSort. simpl.
  unfold bind, ret, Merger.top, Merger.push. simpl.
  destruct (Hp [run] ltac:(done)) as [Hlt _]. simpl in Hlt.
  by replace (pick [run]) with 0%nat by lia.
Qed.

(** ** Directory slots are never released *)

Lemma mutation_keeps_used c rf :
  is_mutation c = true ->
  length (directory (do_call c rf)) = length (directory rf) /\
  forall i, isUsed (directory rf !!! i) = true ->
    isUsed (directory (do_call c rf) !!! i) = true.
Proof.
  intros Hc. destruct c; try discriminate; simpl.
  - unfold RunFile.allocateNewRun.
    destruct (RunFile.first_free _ 0) as [j|]; [|done]. simpl.
    destruct (writeMetadataToDisk_memory (Z.of_nat j)
                (RunFile.set_directory (<[j := mkRunMetadata 0 0 true]> (directory rf)) rf))
      as (_ & -> & _). simpl.
    split; [by rewrite length_insert|]. intros i Hi.
    destruct (decide (i = j)) as [->|Hne].
    + destruct (decide (j < length (directory rf))%nat).
      * by rewrite list_lookup_total_insert_eq.
      * by rewrite list_insert_ge by lia.
    + by rewrite list_lookup_total_insert_ne.
  - unfold RunFile.updateRunMetadata.
    destruct ((runId <? 0) || (maxRuns (header rf) <=? runId)); [done|]. simpl.
    destruct (writeMetadataToDisk_memory runId
                (RunFile.set_directory
                   (<[Z.to_nat runId :=
                        mkRunMetadata start count (isUsed (directory rf !!! Z.to_nat runId))]>
                      (directory rf)) rf))
      as (_ & -> & _). simpl.
    split; [by rewrite length_insert|]. intros i Hi.
    destruct (decide (i = Z.to_nat runId)) as [->|Hne].
    + destruct (decide (Z.to_nat runId < length (directory rf))%nat).
      * by rewrite list_lookup_total_insert_eq.
      * by rewrite list_insert_ge by lia.
    + by rewrite list_lookup_total_insert_ne.
  - unfold RunFile.stream_write.
    destruct (file_is_open rf), (image rf) as [im|]; try done.
    by destruct (RunFile.elem_index (f_header im) off).
Qed.

Lemma mutations_keep_used cs :
  forall rf, forallb is_mutation cs = true ->
    length (directory (do_calls cs rf)) = length (directory rf) /\
    forall i, isUsed (directory rf !!! i) = true ->
      isUsed (directory (do_calls cs rf) !!! i) = true.
Proof.
  induction cs as [|c cs IH]; intros rf Hcs; [done|].
  simpl in Hcs. apply andb_true_iff in Hcs as [Hc Hcs].
  destruct (mutation_keeps_used c rf Hc) as [Hl Hu].
  destruct (IH (do_call c rf) Hcs) as [Hl' Hu'].
  simpl. split; [congruence|]. intros i Hi. by apply Hu', Hu.
Qed.

Lemma free_count_shrinks (d d' : list RunMetadata) :
  length d' = length d ->
  (forall i, isUsed (d !!! i) = true -> isUsed (d' !!! i) = true) ->
  (free_count d' <= free_count d)%nat.
Proof.
  unfold free_count. revert d'.
  induction d as [|m d IH]; intros [|m' d'] Hl Hu; simpl in *; try done.
  assert (Hrec : (length (filter (fun b : bool => b = false) (map isUsed d'))
                  <= length (filter (fun b : bool => b = false) (map isUsed d)))%nat).
  { apply IH; [lia|]. intros i Hi. apply (Hu (S i) Hi). }
  specialize (Hu 0%nat). simpl in Hu.
  rewrite !filter_cons.
  destruct (decide (isUsed m' = false)) as [Hm'|Hm'],
           (decide (isUsed m = false)) as [Hm|Hm]; simpl; try lia.
  destruct (isUsed m); [|done]. specialize (Hu eq_refl). congruence.
Qed.

(** * Further properties of the code *)

Lemma one_slot_file_wf : wf_open one_slot_file one_slot_image.
Proof. constructor; vm_compute; congruence. Qed.

(** ** verifySortedRun *)

(** X1.  verifySortedRun decides sortedness: for a run that lies in the data
    region of an open run file with the elements xs, the call returns
    normally, leaves the run file as it was, and its result is true exactly
    when xs is non-decreasing (equal neighbours are accepted). *)
Theorem verifySortedRun_decides (rf : RunFile) (im : FileImage)
    (run : RunMetadata) (xs : list T) :
  wf_open rf im -> run_content im run = Some xs ->
  exists b,
    verifySortedRun run rf = (Ok b, rf) /\ (b = true <-> nondecreasing xs).
Proof. apply verifySortedRun_spec. Qed.

Lemma verifySortedRun_decides_witness :
  exists b,
    verifySortedRun (mkRunMetadata 108 4 true) two_runs_file = (Ok b, two_runs_file) /\
    (b = true <-> nondecreasing [1; 3; 5; 7]).
Proof.
  apply (verifySortedRun_decides two_runs_file two_runs_image
           (mkRunMetadata 108 4 true) [1; 3; 5; 7]).
  - exact two_runs_file_wf.
  - reflexivity.
Defined.

(** ** generateRuns of project1 *)

(** X2.  generateRuns of project1, for elementsPerRun >= 1 on an open run
    file with a free slot for every block: the input is cut into consecutive
    blocks of elementsPerRun elements (the last one may be shorter), each
    block is sorted and appended to the data region as one run, and the
    runs are returned in the order of the blocks.  So every run is
    non-decreasing, every run but the last holds elementsPerRun elements,
    the runs together are a permutation of the input, and one slot is taken
    per run. *)
Theorem generateRuns1_blocks (elementsPerRun : nat) (input : list T)
    (rf : RunFile) (im : FileImage) :
  (1 <= elementsPerRun)%nat -> wf_open rf im ->
  (length (chunks elementsPerRun input) <= free_count (directory rf))%nat ->
  exists runs css rf' im',
    RunGenerator1.generateRuns elementsPerRun input rf = (Ok runs, rf') /\
    wf_open rf' im' /\ runs_on_disk im' runs css /\
    css = map std_sort (chunks elementsPerRun input) /\
    f_data im' = f_data im ++ concat css /\
    Forall nondecreasing css /\
    concat css ≡ₚ input /\
    Forall (fun xs => (1 <= length xs <= elementsPerRun)%nat) css /\
    (forall i xs, css !! i = Some xs -> (S i < length css)%nat ->
       length xs = elementsPerRun) /\
    (free_count (directory rf') + length runs = free_count (directory rf))%nat.
Proof.
  intros HE Hwf Hfree.
  destruct (generate_loop_spec elementsPerRun HE input (S (length input)) [] rf im []
              Hwf ltac:(constructor) ltac:(lia)) as [Hok _].
  destruct (Hok Hfree) as (new & rf' & im' & Hrun & Hwf' & _ & Hd & Hdisk & Hf).
  cbn [app] in Hrun, Hdisk.
  exists new, (map std_sort (chunks elementsPerRun input)), rf', im'.
  split; [done|]. split; [done|]. split; [done|]. split; [done|]. split; [done|].
  split.
  { apply Forall_forall. intros xs Hxs.
    apply list_elem_of_In, in_map_iff in Hxs as (c & <- & _).
    apply std_sort_nondecreasing. }
  split.
  { rewrite <- (concat_chunks elementsPerRun HE input) at 2.
    generalize (chunks elementsPerRun input). intros cs.
    induction cs as [|c cs IH]; [done|]. simpl.
    by rewrite std_sort_Permutation, IH. }
  split.
  { apply Forall_fmap. eapply Forall_impl; [by apply chunks_sizes|].
    intros c Hc. simpl. by rewrite std_sort_length. }
  split.
  { intros i xs Hxs Hi. rewrite length_map in Hi.
    rewrite list_lookup_fmap in Hxs.
    destruct (chunks elementsPerRun input !! i) as [c|] eqn:Hc; [|done].
    simpl in Hxs. inversion Hxs; subst xs. rewrite std_sort_length.
    by apply (chunks_full elementsPerRun HE input i). }
  rewrite (runs_on_disk_length _ _ _ Hdisk), length_map. exact Hf.
Qed.

Lemma generateRuns1_blocks_witness :
  exists runs css rf' im',
    RunGenerator1.generateRuns 3 eight_elements sample_file = (Ok runs, rf') /\
    wf_open rf' im' /\ runs_on_disk im' runs css /\
    css = map std_sort (chunks 3 eight_elements) /\
    f_data im' = f_data sample_image ++ concat css /\
    Forall nondecreasing css /\
    concat css ≡ₚ eight_elements /\
    Forall (fun xs => (1 <= length xs <= 3)%nat) css /\
    (forall i xs, css !! i = Some xs -> (S i < length css)%nat -> length xs = 3%nat) /\
    (free_count (directory rf') + length runs = free_count (directory sample_file))%nat.
Proof.
  apply (generateRuns1_blocks 3 eight_elements sample_file sample_image).
  - lia.
  - exact sample_file_wf.
  - vm_compute. lia.
Defined.

(** X3.  generateRuns of project1 with fewer free slots than blocks: the
    call throws std::runtime_error (directory full) when it reaches the
    first block without a slot.  The blocks before it have been written and
    stay in the file, and the directory is left full. *)
Theorem generateRuns1_directory_full (elementsPerRun : nat) (input : list T)
    (rf : RunFile) (im : FileImage) :
  (1 <= elementsPerRun)%nat -> wf_open rf im ->
  (free_count (directory rf) < length (chunks elementsPerRun input))%nat ->
  exists rf' im',
    RunGenerator1.generateRuns elementsPerRun input rf = (Throw runtime_error, rf') /\
    wf_open rf' im' /\
    free_count (directory rf') = 0%nat /\
    f_data im' = f_data im
                 ++ concat (map std_sort (take (free_count (directory rf))
                                            (chunks elementsPerRun input))).
Proof.
  intros HE Hwf Hfree.
  destruct (generate_loop_spec elementsPerRun HE input (S (length input)) [] rf im []
              Hwf ltac:(constructor) ltac:(lia)) as [_ Hfail].
  destruct (Hfail Hfree) as (rf' & im' & Hrun & Hwf' & _ & Hf & Hd).
  by exists rf', im'.
Qed.

Lemma generateRuns1_directory_full_witness :
  exists rf' im',
    RunGenerator1.generateRuns 3 eight_elements one_slot_file
      = (Throw runtime_error, rf') /\
    wf_open rf' im' /\
    free_count (directory rf') = 0%nat /\
    f_data im' = f_data one_slot_image
                 ++ concat (map std_sort (take (free_count (directory one_slot_file))
                                            (chunks 3 eight_elements))).
Proof.
  apply (generateRuns1_directory_full 3 eight_elements one_slot_file one_slot_image).
  - lia.
  - exact one_slot_file_wf.
  - vm_compute. lia.
Defined.

(** ** externalMergeSort of project1 *)

Lemma full_file_wf : wf_open full_file full_image.
Proof. constructor; vm_compute; congruence. Qed.

(** X4.  externalMergeSort of project1 (merge passes over a queue), on a
    non-empty list of runs that lie in an open run file with at least
    (number of runs - 1) free slots: it returns a final run that lies in the
    file and holds a permutation of all elements of the given runs,
    non-decreasing when every given run is; exactly (number of runs - 1)
    slots are taken, the given runs keep theirs. *)
Theorem externalMergeSort1_sorts (runs : list RunMetadata) (css : list (list T))
    (rf : RunFile) (im : FileImage) :
  wf_open rf im -> runs_on_disk im runs css -> runs <> [] ->
  (length runs <= free_count (directory rf) + 1)%nat ->
  exists final xs rf' im',
    Merger1.externalMergeSort runs rf = (Ok final, rf') /\
    wf_open rf' im' /\ run_content im' final = Some xs /\
    (forall size, (1 <= size)%nat -> InputBuffer.read_run final size rf' = (Ok xs, rf')) /\
    xs ≡ₚ concat css /\ (Forall nondecreasing css -> nondecreasing xs) /\
    (free_count (directory rf') + length runs = free_count (directory rf) + 1)%nat.
Proof.
  intros Hwf Hdisk Hne Hfree.
  destruct (externalMergeSort1_spec runs css rf im Hwf Hdisk Hne) as [Hok _].
  destruct (Hok Hfree) as (final & xs & rf' & im' & Hrun & Hwf' & Hc & Hp & Hs & Hf).
  exists final, xs, rf', im'.
  split; [done|]. split; [done|]. split; [done|].
  split; [intros size Hsize; by apply (read_run_spec rf' im')|]. done.
Qed.

Lemma externalMergeSort1_sorts_witness :
  exists final xs rf' im',
    Merger1.externalMergeSort [mkRunMetadata 108 4 true; mkRunMetadata 124 3 true]
      two_runs_file = (Ok final, rf') /\
    wf_open rf' im' /\ run_content im' final = Some xs /\
    (forall size, (1 <= size)%nat -> InputBuffer.read_run final size rf' = (Ok xs, rf')) /\
    xs ≡ₚ concat [[1; 3; 5; 7]; [2; 3; 8]] /\
    (Forall nondecreasing [[1; 3; 5; 7]; [2; 3; 8]] -> nondecreasing xs) /\
    (free_count (directory rf')
     + length [mkRunMetadata 108 4 true; mkRunMetadata 124 3 true]
     = free_count (directory two_runs_file) + 1)%nat.
Proof.
  apply (externalMergeSort1_sorts [mkRunMetadata 108 4 true; mkRunMetadata 124 3 true]
           [[1; 3; 5; 7]; [2; 3; 8]] two_runs_file two_runs_image).
  - exact two_runs_file_wf.
  - repeat constructor.
  - discriminate.
  - vm_compute. lia.
Defined.

(** X5.  externalMergeSort of project1 with fewer than (number of runs - 1)
    free slots throws std::runtime_error (directory full during merge). *)
Theorem externalMergeSort1_directory_full (runs : list RunMetadata)
    (css : list (list T)) (rf : RunFile) (im : FileImage) :
  wf_open rf im -> runs_on_disk im runs css ->
  (free_count (directory rf) + 1 < length runs)%nat ->
  exists rf', Merger1.externalMergeSort runs rf = (Throw runtime_error, rf').
Proof.
  intros Hwf Hdisk Hfree.
  assert (Hne : runs <> []) by (intros ->; simpl in Hfree; lia).
  destruct (externalMergeSort1_spec runs css rf im Hwf Hdisk Hne) as [_ Hfail].
  by apply Hfail.
Qed.

Lemma externalMergeSort1_directory_full_witness :
  exists rf',
    Merger1.externalMergeSort [mkRunMetadata 60 2 true; mkRunMetadata 68 1 true] full_file
    = (Throw runtime_error, rf').
Proof.
  apply (externalMergeSort1_directory_full
           [mkRunMetadata 60 2 true; mkRunMetadata 68 1 true] [[1; 3]; [2]]
           full_file full_image).
  - exact full_file_wf.
  - repeat constructor.
  - vm_compute. lia.
Defined.

(** ** The three phases of main.cpp *)

(** X6.  The pipeline of project1's main.cpp on an input that is not empty:
    with elementsPerRun >= 1 and an open run file that has 2 n - 1 free
    slots for the n blocks of the input, generateRuns returns n runs,
    externalMergeSort returns a final run, the final run read back through
    an InputBuffer is the input in non-decreasing order, and
    verifySortedRun answers true. *)
Theorem sort1_verified (elementsPerRun : nat) (input : list T)
    (rf : RunFile) (im : FileImage) :
  (1 <= elementsPerRun)%nat -> wf_open rf im -> input <> [] ->
  (2 * length (chunks elementsPerRun input) <= free_count (directory rf) + 1)%nat ->
  exists runs rf1 final rf2 xs,
    RunGenerator1.generateRuns elementsPerRun input rf = (Ok runs, rf1) /\
    length runs = length (chunks elementsPerRun input) /\
    Merger1.externalMergeSort runs rf1 = (Ok final, rf2) /\
    (forall size, (1 <= size)%nat -> InputBuffer.read_run final size rf2 = (Ok xs, rf2)) /\
    nondecreasing xs /\ xs ≡ₚ input /\
    verifySortedRun final rf2 = (Ok true, rf2).
Proof.
  intros HE Hwf Hne Hfree.
  assert (Hcs : chunks elementsPerRun input <> [])
    by (rewrite chunks_cons by done; done).
  assert (Hn : (1 <= length (chunks elementsPerRun input))%nat)
    by (destruct (chunks elementsPerRun input); [done | simpl; lia]).
  destruct (generate_loop_spec elementsPerRun HE input (S (length input)) [] rf im []
              Hwf ltac:(constructor) ltac:(lia)) as [Hok _].
  destruct Hok as (runs & rf1 & im1 & Hrun & Hwf1 & _ & Hd1 & Hdisk1 & Hf1); [lia|].
  cbn [app] in Hrun, Hdisk1.
  pose proof (runs_on_disk_length _ _ _ Hdisk1) as Hlen. rewrite length_map in Hlen.
  assert (Hne1 : runs <> []) by (intros ->; simpl in Hlen; lia).
  destruct (externalMergeSort1_spec runs _ rf1 im1 Hwf1 Hdisk1 Hne1) as [Hok2 _].
  destruct Hok2 as (final & xs & rf2 & im2 & Hmerge & Hwf2 & Hc & Hp & Hs & Hf2); [lia|].
  assert (Hsorted : nondecreasing xs).
  { apply Hs. apply Forall_fmap, Forall_forall. intros c _. apply std_sort_nondecreasing. }
  exists runs, rf1, final, rf2, xs.
  split; [done|]. split; [done|]. split; [done|].
  split; [intros size Hsize; by apply (read_run_spec rf2 im2)|].
  split; [done|]. split.
  { rewrite Hp. rewrite <- (concat_chunks elementsPerRun HE input) at 2.
    generalize (chunks elementsPerRun input). intros cs.
    induction cs as [|c cs IH]; [done|]. simpl.
    by rewrite std_sort_Permutation, IH. }
  destruct (verifySortedRun_spec rf2 im2 final xs Hwf2 Hc) as (b & Hv & Hb).
  by rewrite Hv, (proj2 Hb Hsorted).
Qed.

Lemma sort1_verified_witness :
  exists runs rf1 final rf2 xs,
    RunGenerator1.generateRuns 3 eight_elements sample_file = (Ok runs, rf1) /\
    length runs = length (chunks 3 eight_elements) /\
    Merger1.externalMergeSort runs rf1 = (Ok final, rf2) /\
    (forall size, (1 <= size)%nat -> InputBuffer.read_run final size rf2 = (Ok xs, rf2)) /\
    nondecreasing xs /\ xs ≡ₚ eight_elements /\
    verifySortedRun final rf2 = (Ok true, rf2).
Proof.
  apply (sort1_verified 3 eight_elements sample_file sample_image).
  - lia.
  - exact sample_file_wf.
  - discriminate.
  - vm_compute. lia.
Defined.

(** ** LoserTree *)



(** X9.  isLoser is a strict total order on (runID, value) keys: no node
    loses against itself, losing is transitive and asymmetric, and of two
    different nodes one loses against the other. *)
Theorem isLoser_strict_total_order :
  (forall a, LoserTree.isLoser a a = false) /\
  (forall a b c, LoserTree.isLoser a b = true -> LoserTree.isLoser b c = true ->
                 LoserTree.isLoser a c = true) /\
  (forall a b, LoserTree.isLoser a b = true -> LoserTree.isLoser b a = false) /\
  (forall a b, a <> b -> LoserTree.isLoser a b = true \/ LoserTree.isLoser b a = true).
Proof.
  split; [|split; [|split]].
  - intros a. apply beats_refl.
  - intros a b c. rewrite !isLoser_spec. lia.
  - intros a b H. apply isLoser_beats in H. exact H.
  - intros a b Hne.
    destruct (LoserTree.isLoser a b) eqn:E1; [by left|].
    destruct (LoserTree.isLoser b a) eqn:E2; [by right|].
    exfalso. apply Hne. by apply beats_antisym.
Qed.

(** X10.  initialize(initialData) only looks at the first k elements of
    initialData: elements beyond the k slots are dropped without an
    error. *)
Theorem initialize_ignores_excess (data : list T) (lt : LoserTree) :
  LoserTree.initialize data lt = LoserTree.initialize (take (k lt) data) lt.
Proof.
  unfold LoserTree.initialize. by rewrite initial_leaves_take.
Qed.



(** ** RunFile *)

(** X12.  create(maxRuns) followed by open(), for maxRuns >= 0 on a RunFile
    object just constructed: both return true; the file is open with
    maxRuns directory slots, all free, currentRunCount = 0, an empty data
    region, and getAppendOffset() is the end of the directory region,
    sizeof(RunFileHeader) + maxRuns * sizeof(RunMetadata). *)
Theorem create_open_fresh (n : Z) :
  0 <= n ->
  exists rf im,
    fst (RunFile.create n RunFile.new) = Ok true /\
    RunFile.open (snd (RunFile.create n RunFile.new)) = (Ok true, rf) /\
    wf_open rf im /\
    directory rf = replicate (Z.to_nat n) RunMetadata_default /\
    free_count (directory rf) = Z.to_nat n /\
    currentRunCount (header rf) = 0 /\
    f_data im = [] /\
    RunFile.getAppendOffset rf
      = (Ok (sizeof_RunFileHeader + n * sizeof_RunMetadata), rf).
Proof.
  intros Hn.
  destruct (create_open_wf n Hn) as (rf & im & Hopen & Hwf & Hd & Hdir & Hh).
  exists rf, im. split; [by rewrite create_ok|]. split; [done|]. split; [done|].
  split; [done|]. split.
  { rewrite Hdir. unfold free_count. clear.
    induction (Z.to_nat n) as [|m IH]; [done|]. simpl. by rewrite IH. }
  split; [by rewrite Hh|]. split; [done|].
  rewrite (getAppendOffset_ok rf im Hwf). unfold RunFile.file_length, RunFile.data_start.
  rewrite Hd, (wf_maxRuns _ _ Hwf), Hh. simpl. do 2 f_equal. lia.
Qed.

Lemma create_open_fresh_witness :
  exists rf im,
    fst (RunFile.create 16 RunFile.new) = Ok true /\
    RunFile.open (snd (RunFile.create 16 RunFile.new)) = (Ok true, rf) /\
    wf_open rf im /\
    directory rf = replicate (Z.to_nat 16) RunMetadata_default /\
    free_count (directory rf) = Z.to_nat 16 /\
    currentRunCount (header rf) = 0 /\
    f_data im = [] /\
    RunFile.getAppendOffset rf
      = (Ok (sizeof_RunFileHeader + 16 * sizeof_RunMetadata), rf).
Proof. apply (create_open_fresh 16). lia. Defined.

(** X13.  allocateNewRun() on an open run file hands out the lowest free
    slot: it returns the least index i whose slot is free, resets that slot
    to {0, 0, true} in memory and on disk, increments currentRunCount and
    touches no other slot and no data.  When every slot is used it returns
    -1 and changes nothing. *)
Theorem allocateNewRun_lowest_free (rf : RunFile) (im : FileImage) :
  wf_open rf im ->
  exists r rf' im',
    RunFile.allocateNewRun rf = (Ok r, rf') /\
    wf_open rf' im' /\ f_data im' = f_data im /\
    ((r = -1 /\ rf' = rf /\ Forall (fun m => isUsed m = true) (directory rf)) \/
     exists i,
       r = Z.of_nat i /\
       (exists m, directory rf !! i = Some m /\ isUsed m = false) /\
       (forall j m, (j < i)%nat -> directory rf !! j = Some m -> isUsed m = true) /\
       directory rf' = <[i := mkRunMetadata 0 0 true]> (directory rf) /\
       currentRunCount (header rf') = currentRunCount (header rf) + 1).
Proof.
  intros Hwf.
  destruct (RunFile.first_free (directory rf) 0) as [i|] eqn:Hff.
  - destruct (allocateNewRun_free rf im i Hwf Hff)
      as (rf' & im' & Halloc & Hwf' & Hd & _ & Hi & Hdir & _).
    exists (Z.of_nat i), rf', im'. split; [done|]. split; [done|]. split; [done|].
    right. exists i. split; [done|].
    pose proof Hff as Hspec.
    apply first_free_spec in Hspec as (_ & _ & Hm & Hbelow).
    rewrite Nat.sub_0_r in Hm, Hbelow.
    split; [done|]. split; [done|]. split; [done|].
    unfold RunFile.allocateNewRun in Halloc.
    rewrite (first_free_take_all _ _ Hwf), Hff in Halloc.
    inversion Halloc; subst rf'. simpl.
    by destruct (writeMetadataToDisk_memory (Z.of_nat i)
                   (RunFile.set_directory
                      (<[i := mkRunMetadata 0 0 true]> (directory rf)) rf)) as (-> & _).
  - exists (-1), rf, im. split; [by apply (allocateNewRun_full rf im)|].
    split; [done|]. split; [done|]. left. split; [done|]. split; [done|].
    by apply (first_free_none _ 0).
Qed.

Lemma allocateNewRun_lowest_free_witness :
  exists r rf' im',
    RunFile.allocateNewRun two_runs_file = (Ok r, rf') /\
    wf_open rf' im' /\ f_data im' = f_data two_runs_image /\
    ((r = -1 /\ rf' = two_runs_file /\
      Forall (fun m => isUsed m = true) (directory two_runs_file)) \/
     exists i,
       r = Z.of_nat i /\
       (exists m, directory two_runs_file !! i = Some m /\ isUsed m = false) /\
       (forall j m, (j < i)%nat -> directory two_runs_file !! j = Some m ->
                    isUsed m = true) /\
       directory rf' = <[i := mkRunMetadata 0 0 true]> (directory two_runs_file) /\
       currentRunCount (header rf') = currentRunCount (header two_runs_file) + 1).
Proof. apply (allocateNewRun_lowest_free two_runs_file two_runs_image two_runs_file_wf). Defined.

(** X14.  What updateRunMetadata writes, getRunMetadata returns: on an open
    run file, after updateRunMetadata(i, start, count) for a slot i of the
    directory, getRunMetadata(i) returns {start, count} with the slot's
    isUsed flag as it was, getRunMetadata of every other slot returns what
    it returned before, and the same entry is read again after close() and
    open(). *)
Theorem update_then_get (rf : RunFile) (im : FileImage) (i : nat) (start count : Z) :
  wf_open rf im -> (i < length (directory rf))%nat ->
  exists rf1 rf2,
    RunFile.updateRunMetadata (Z.of_nat i) start count rf = (Ok tt, rf1) /\
    RunFile.getRunMetadata (Z.of_nat i) rf1
      = (Ok (mkRunMetadata start count (isUsed (directory rf !!! i))), rf1) /\
    (forall j, (j < length (directory rf))%nat -> j <> i ->
       RunFile.getRunMetadata (Z.of_nat j) rf1 = (Ok (directory rf !!! j), rf1)) /\
    RunFile.open (RunFile.close rf1) = (Ok true, rf2) /\
    RunFile.getRunMetadata (Z.of_nat i) rf2
      = (Ok (mkRunMetadata start count (isUsed (directory rf !!! i))), rf2).
Proof.
  intros Hwf Hi.
  destruct (updateRunMetadata_ok rf im i start count Hwf Hi)
    as (rf1 & im1 & Hupd & Hwf1 & _ & _ & Hdir1 & _).
  assert (Hl1 : length (directory rf1) = length (directory rf))
    by (by rewrite Hdir1, length_insert).
  assert (Hentry : directory rf1 !!! i
                   = mkRunMetadata start count (isUsed (directory rf !!! i)))
    by (rewrite Hdir1; by apply list_lookup_total_insert_eq).
  eexists rf1, _. split; [done|]. split.
  { rewrite (getRunMetadata_ok rf1 im1 i Hwf1) by lia. by rewrite Hentry. }
  split.
  { intros j Hj Hne. rewrite (getRunMetadata_ok rf1 im1 j Hwf1) by lia.
    by rewrite Hdir1, list_lookup_total_insert_ne. }
  split; [by apply (close_open_wf rf1 im1)|].
  unfold RunFile.getRunMetadata. simpl.
  pose proof Hwf1 as [_ _ _ _ Hx Hn Hl].
  rewrite Hx.
  destruct ((Z.of_nat i <? 0) || (maxRuns (header rf1) <=? Z.of_nat i)) eqn:E.
  { apply orb_true_iff in E as [E|E]; [apply Z.ltb_lt in E | apply Z.leb_le in E]; lia. }
  by rewrite Nat2Z.id, Hentry.
Qed.

Lemma update_then_get_witness :
  exists rf1 rf2,
    RunFile.updateRunMetadata (Z.of_nat 2) 136 5 two_runs_file = (Ok tt, rf1) /\
    RunFile.getRunMetadata (Z.of_nat 2) rf1
      = (Ok (mkRunMetadata 136 5 (isUsed (directory two_runs_file !!! 2%nat))), rf1) /\
    (forall j, (j < length (directory two_runs_file))%nat -> j <> 2%nat ->
       RunFile.getRunMetadata (Z.of_nat j) rf1
       = (Ok (directory two_runs_file !!! j), rf1)) /\
    RunFile.open (RunFile.close rf1) = (Ok true, rf2) /\
    RunFile.getRunMetadata (Z.of_nat 2) rf2
      = (Ok (mkRunMetadata 136 5 (isUsed (directory two_runs_file !!! 2%nat))), rf2).
Proof.
  apply (update_then_get two_runs_file two_runs_image 2 136 5).
  - exact two_runs_file_wf.
  - vm_compute. lia.
Defined.

(** ** OutputBuffer and InputBuffer *)

(** X15.  What an OutputBuffer writes, an InputBuffer reads back: on an
    open run file, for any block sizes >= 1 of the two buffers, passing the
    elements xs one by one to setNextItem of an OutputBuffer that starts at
    getAppendOffset(), then flush(), appends exactly xs to the file (what
    was there is unchanged), getElementCount() is the number of elements
    passed, and the getNextItem loop of an InputBuffer over
    {start, getElementCount()} delivers xs in order and then reports the
    end. *)
Theorem buffer_roundtrip (rf : RunFile) (im : FileImage) (xs : list T)
    (wsize rsize : nat) :
  wf_open rf im -> (1 <= wsize)%nat -> (1 <= rsize)%nat ->
  let start := RunFile.file_length im in
  exists ob1 rf1 ob2 rf2 im2,
    RunFile.getAppendOffset rf = (Ok start, rf) /\
    RunGenerator1.write_items xs (OutputBuffer.new start wsize) rf = (Ok ob1, rf1) /\
    OutputBuffer.flush ob1 rf1 = (Ok ob2, rf2) /\
    wf_open rf2 im2 /\
    f_data im2 = f_data im ++ xs /\
    directory rf2 = directory rf /\
    OutputBuffer.getElementCount ob2 = Z.of_nat (length xs) /\
    InputBuffer.read_run
      (mkRunMetadata start (OutputBuffer.getElementCount ob2) true) rsize rf2
    = (Ok xs, rf2).
Proof.
  intros Hwf Hw Hr start.
  pose proof (ob_holds_new im start wsize (file_length_index im) Hw) as Hob.
  destruct (write_items_spec xs _ _ rf im _ Hwf Hob)
    as (ob1 & rf1 & im1 & Hwrite & Hg1 & Hob1).
  rewrite app_nil_l in Hob1.
  destruct (flush_spec rf1 im1 _ ob1 xs (grows_wf _ _ _ _ Hg1) Hob1)
    as (ob2 & rf2 & im2 & Hflush & Hg2 & Hdata & Hbase & Hcount & _).
  pose proof (grows_trans _ _ _ _ _ _ Hg1 Hg2) as (Hwf2 & Hh & Hdir & Hfh & extra & He).
  assert (Hd2 : f_data im2 = f_data im ++ xs).
  { rewrite Hdata. f_equal. by rewrite He, take_app_length. }
  exists ob1, rf1, ob2, rf2, im2.
  split; [by apply getAppendOffset_ok|]. split; [done|]. split; [done|].
  split; [done|]. split; [done|]. split; [done|]. split; [done|].
  rewrite Hcount. apply (read_run_spec rf2 im2); [done| |done].
  by apply run_content_appended.
Qed.

Lemma buffer_roundtrip_witness :
  exists ob1 rf1 ob2 rf2 im2,
    RunFile.getAppendOffset two_runs_file = (Ok (RunFile.file_length two_runs_image), two_runs_file) /\
    RunGenerator1.write_items [4; 2; 7] (OutputBuffer.new (RunFile.file_length two_runs_image) 2) two_runs_file
      = (Ok ob1, rf1) /\
    OutputBuffer.flush ob1 rf1 = (Ok ob2, rf2) /\
    wf_open rf2 im2 /\
    f_data im2 = f_data two_runs_image ++ [4; 2; 7] /\
    directory rf2 = directory two_runs_file /\
    OutputBuffer.getElementCount ob2 = Z.of_nat (length [4; 2; 7]) /\
    InputBuffer.read_run
      (mkRunMetadata (RunFile.file_length two_runs_image) (OutputBuffer.getElementCount ob2) true) 5 rf2
    = (Ok [4; 2; 7], rf2).
Proof.
  apply (buffer_roundtrip two_runs_file two_runs_image [4; 2; 7] 2 5).
  - exact two_runs_file_wf.
  - lia.
  - lia.
Defined.

(** ** Replacement selection (project2) *)

(** X16.  Replacement selection fills its runs: whenever generateRuns
    (buffers of at least one element, open run file) returns runs, every run
    but the last has at least K elements, so that an input of n elements
    gives at most ceil(n / K) runs. *)
Theorem generateRuns_run_lengths (K bufSize : nat) (input : list T)
    (rf : RunFile) (im : FileImage) (runs : list RunMetadata) :
  (1 <= bufSize)%nat -> Z.of_nat (length input) + 2 < INT_MAX -> wf_open rf im ->
  option_map fst (RunGenerator.generateRuns K bufSize input rf) = Some (Ok runs) ->
  (forall i m, runs !! i = Some m -> (S i < length runs)%nat ->
     Z.of_nat K <= elementCount m) /\
  (length runs * K < length input + K)%nat.
Proof.
  intros Hbuf Hall Hwf Hrun.
  destruct (RunGenerator.generateRuns K bufSize input rf) as [[r rf']|] eqn:Hgen;
    [|discriminate].
  simpl in Hrun. injection Hrun as ->.
  by apply (run_lengths_spec K bufSize input rf im runs rf').
Qed.

Lemma generateRuns_run_lengths_witness :
  (forall i m,
     [mkRunMetadata 396 5 true; mkRunMetadata 416 3 true] !! i = Some m ->
     (S i < length [mkRunMetadata 396 5 true; mkRunMetadata 416 3 true])%nat ->
     Z.of_nat 2 <= elementCount m) /\
  (length [mkRunMetadata 396 5 true; mkRunMetadata 416 3 true] * 2
   < length eight_elements + 2)%nat.
Proof.
  apply (generateRuns_run_lengths 2 3 eight_elements sample_file sample_image).
  - lia.
  - reflexivity.
  - exact sample_file_wf.
  - vm_compute. reflexivity.
Defined.





(** ** The optimal merge (project2) *)

(** X19.  externalMergeSort of project2 on n >= 1 runs that lie on disk
    needs n - 1 free directory slots: with that many it returns a final run
    that holds a permutation of all elements of the given runs,
    non-decreasing when every given run is, and has taken exactly n - 1
    slots; with fewer it ends with the runtime_error of MergeInMem. *)
Theorem externalMergeSort_slot_use (pick : list RunMetadata -> nat)
    (runs : list RunMetadata) (css : list (list T)) (rf : RunFile) (im : FileImage) :
  Merger.picks_top pick -> wf_open rf im -> runs_on_disk im runs css -> runs <> [] ->
  ((length runs <= free_count (directory rf) + 1)%nat ->
   exists final xs rf' im',
     Merger.externalMergeSort pick runs rf = (Ok final, rf') /\
     wf_open rf' im' /\ run_content im' final = Some xs /\
     xs ≡ₚ concat css /\ (Forall nondecreasing css -> nondecreasing xs) /\
     (free_count (directory rf') + length runs = free_count (directory rf) + 1)%nat) /\
  ((free_count (directory rf) + 1 < length runs)%nat ->
   exists rf', Merger.externalMergeSort pick runs rf = (Throw runtime_error, rf')).
Proof. apply externalMergeSort_outcome. Qed.

Lemma externalMergeSort_slot_use_witness :
  ((length [mkRunMetadata 60 2 true; mkRunMetadata 68 1 true]
    <= free_count (directory full_file) + 1)%nat ->
   exists final xs rf' im',
     Merger.externalMergeSort Merger.first_min
       [mkRunMetadata 60 2 true; mkRunMetadata 68 1 true] full_file = (Ok final, rf') /\
     wf_open rf' im' /\ run_content im' final = Some xs /\
     xs ≡ₚ concat [[1; 3]; [2]] /\
     (Forall nondecreasing [[1; 3]; [2]] -> nondecreasing xs) /\
     (free_count (directory rf')
      + length [mkRunMetadata 60 2 true; mkRunMetadata 68 1 true]
      = free_count (directory full_file) + 1)%nat) /\
  ((free_count (directory full_file) + 1
    < length [mkRunMetadata 60 2 true; mkRunMetadata 68 1 true])%nat ->
   exists rf',
     Merger.externalMergeSort Merger.first_min
       [mkRunMetadata 60 2 true; mkRunMetadata 68 1 true] full_file
     = (Throw runtime_error, rf')).
Proof.
  apply (externalMergeSort_slot_use Merger.first_min _ [[1; 3]; [2]] full_file full_image).
  - exact first_min_picks_top.
  - exact full_file_wf.
  - repeat constructor.
  - discriminate.
Defined.

(** X20.  A single run needs no merge: externalMergeSort, of project1 and of
    project2, called on one run returns that run and leaves the run file as
    it is, whatever its state. *)
Theorem externalMergeSort_single_run (pick : list RunMetadata -> nat)
    (run : RunMetadata) (rf : RunFile) :
  Merger.picks_top pick ->
  Merger.externalMergeSort pick [run] rf = (Ok run, rf) /\
  Merger1.externalMergeSort [run] rf = (Ok run, rf).
Proof.
  intros Hp. split; [by apply externalMergeSort_one | reflexivity].
Qed.

Lemma externalMergeSort_single_run_witness :
  Merger.externalMergeSort Merger.first_min [mkRunMetadata 60 2 true] RunFile.new
    = (Ok (mkRunMetadata 60 2 true), RunFile.new) /\
  Merger1.externalMergeSort [mkRunMetadata 60 2 true] RunFile.new
    = (Ok (mkRunMetadata 60 2 true), RunFile.new).
Proof.
  apply (externalMergeSort_single_run Merger.first_min). exact first_min_picks_top.
Defined.

(** X21.  MergeInMem on an open run file whose directory slots are all in
    use throws runtime_error before it reads or writes anything: the run
    file object is unchanged. *)
Theorem MergeInMem_directory_full (rf : RunFile) (im : FileImage)
    (runA runB : RunMetadata) :
  wf_open rf im -> Forall (fun m => isUsed m = true) (directory rf) ->
  Merger.MergeInMem runA runB rf = (Throw runtime_error, rf).
Proof.
  intros Hwf Hfull. apply (MergeInMem_full rf im); [done|].
  apply free_count_zero_full. unfold free_count.
  induction Hfull as [|m d Hm _ IH]; [done|]. simpl. rewrite Hm.
  by rewrite filter_cons_False by done.
Qed.

Lemma MergeInMem_directory_full_witness :
  Merger.MergeInMem (mkRunMetadata 60 2 true) (mkRunMetadata 68 1 true) full_file
  = (Throw runtime_error, full_file).
Proof.
  apply (MergeInMem_directory_full full_file full_image).
  - exact full_file_wf.
  - vm_compute. repeat constructor.
Defined.

(** ** The input side of the run generator *)

(** X22.  pullNextInput hands the input file over in file order, whatever
    the size bufSize >= 1 of the two input blocks: between calls, with
    [pending] the part of the input not yet handed over, a call returns the
    first pending element and leaves the rest pending, and it returns false
    exactly when nothing is pending. *)
Theorem pullNextInput_file_order (bufSize : nat) (i : InputSide) :
  (1 <= bufSize)%nat -> input_ok i ->
  exists i',
    RunGenerator.pullNextInput bufSize i = (Ok (head (pending i)), i') /\
    pending i' = tail (pending i) /\ input_ok i'.
Proof. intros Hbuf Hok. by apply pullNextInput_spec. Qed.

Lemma pullNextInput_file_order_witness :
  exists i',
    RunGenerator.pullNextInput 3
      (mkInputSide [4; 1; 5; 9] [3; 1] [0; 0; 0] 2 false false)
    = (Ok (head (pending (mkInputSide [4; 1; 5; 9] [3; 1] [0; 0; 0] 2 false false))), i') /\
    pending i' = tail (pending (mkInputSide [4; 1; 5; 9] [3; 1] [0; 0; 0] 2 false false)) /\
    input_ok i'.
Proof.
  apply (pullNextInput_file_order 3).
  - lia.
  - split; [reflexivity | discriminate].
Defined.

(** ** The three phases of main.cpp (project2) *)



(** ** Directory slots over a session *)

(** X23.  A directory slot is never released: on a run file created with
    create(maxRuns) and opened, whatever runs are then allocated, sealed
    with updateRunMetadata and written, a slot that is in use stays in use
    (updateRunMetadata keeps the flag, allocateNewRun only sets it), the
    directory keeps its size, and the number of free slots never grows. *)
Theorem used_slots_stay_used (n : Z) (cs cs' : list RunFileCall) :
  0 <= n -> forallb is_mutation cs = true -> forallb is_mutation cs' = true ->
  let rf := do_calls cs (snd (RunFile.open (snd (RunFile.create n RunFile.new)))) in
  let rf' := do_calls cs' rf in
  length (directory rf') = length (directory rf) /\
  (forall i, isUsed (directory rf !!! i) = true ->
     isUsed (directory rf' !!! i) = true) /\
  (free_count (directory rf') <= free_count (directory rf))%nat.
Proof.
  intros _ _ Hcs' rf rf'.
  destruct (mutations_keep_used cs' rf Hcs') as [Hl Hu].
  split; [done|]. split; [done|]. by apply free_count_shrinks.
Qed.

Lemma used_slots_stay_used_witness :
  let rf := do_calls [CallAllocateNewRun; CallWrite 60 [1; 3]]
              (snd (RunFile.open (snd (RunFile.create 2 RunFile.new)))) in
  let rf' := do_calls [CallUpdateRunMetadata 0 60 2; CallAllocateNewRun] rf in
  length (directory rf') = length (directory rf) /\
  (forall i, isUsed (directory rf !!! i) = true ->
     isUsed (directory rf' !!! i) = true) /\
  (free_count (directory rf') <= free_count (directory rf))%nat.
Proof.
  apply (used_slots_stay_used 2
           [CallAllocateNewRun; CallWrite 60 [1; 3]]
           [CallUpdateRunMetadata 0 60 2; CallAllocateNewRun]).
  - lia.
  - reflexivity.
  - reflexivity.
Defined.

(** ** The two run generators compared *)

(** X24.  With the same memory (K leaves of the loser tree against
    elementsPerRun = K elements per block) replacement selection never
    returns more runs than the block sort of project1: on the same input,
    whenever both generateRuns return, the run list of project2 is not
    longer than that of project1. *)
Theorem replacement_selection_fewer_runs (K bufSize : nat) (input : list T)
    (rf2 rf1 : RunFile) (im2 im1 : FileImage) (runs2 runs1 : list RunMetadata) :
  (1 <= bufSize)%nat -> Z.of_nat (length input) + 2 < INT_MAX ->
  wf_open rf2 im2 -> wf_open rf1 im1 ->
  option_map fst (RunGenerator.generateRuns K bufSize input rf2) = Some (Ok runs2) ->
  fst (RunGenerator1.generateRuns K input rf1) = Ok runs1 ->
  (length runs2 <= length runs1)%nat.
Proof.
  intros Hbuf Hall Hwf2 Hwf1 Hrun2 Hrun1.
  destruct (RunGenerator.generateRuns K bufSize input rf2) as [[r rf2']|] eqn:Hgen;
    [|discriminate].
  simpl in Hrun2. injection Hrun2 as ->.
  pose proof (generateRuns_needs_K _ _ _ _ _ _ Hgen) as HK.
  destruct (run_lengths_spec K bufSize input rf2 im2 runs2 rf2' Hbuf Hall Hwf2 Hgen)
    as [_ Hcount2].
  destruct (chunks_count K HK input) as [_ Hcount1].
  destruct (generate_loop_spec K HK input (S (length input)) [] rf1 im1 []
              Hwf1 ltac:(constructor) ltac:(lia)) as [Hok Hfail].
  unfold RunGenerator1.generateRuns in Hrun1.
  destruct (decide (length (chunks K input) <= free_count (directory rf1))%nat)
    as [Hfree|Hfull].
  - destruct (Hok Hfree) as (new & rf1' & im1' & Hrun & _ & _ & _ & Hdisk & _).
    rewrite Hrun in Hrun1. simpl in Hrun1. injection Hrun1 as <-.
    pose proof (runs_on_disk_length _ _ _ Hdisk) as Hlen.
    simpl in Hlen. rewrite length_map in Hlen. nia.
  - destruct (Hfail ltac:(lia)) as (rf1' & im1' & Hrun & _).
    rewrite Hrun in Hrun1. discriminate.
Qed.

Lemma replacement_selection_fewer_runs_witness :
  (length [mkRunMetadata 396 5 true; mkRunMetadata 416 3 true]
   <= length [mkRunMetadata 396 2 true; mkRunMetadata 404 2 true;
              mkRunMetadata 412 2 true; mkRunMetadata 420 2 true])%nat.
Proof.
  apply (replacement_selection_fewer_runs 2 3 eight_elements
           sample_file sample_file sample_image sample_image).
  - lia.
  - reflexivity.
  - exact sample_file_wf.
  - exact sample_file_wf.
  - vm_compute. reflexivity.
  - vm_compute. reflexivity.
Defined.
